(** * editable.ts: text-position mapping and highlight overlays

    A shallow embedding of the highlight engine of editable.ts
    (match-collection.ts, node-iterator.ts, highlight-text.ts,
    highlight-support.ts, util/element.ts, util/binary_search.ts,
    range-save-restore.ts and [unwrap] of content.ts), followed by the
    properties proved about it.

    Conventions.
    - JavaScript numbers that hold indices, offsets and lengths are [Z].
    - A DOM node reference is the identity [nid] of the node; the DOM is a
      tree of nodes carrying their identity, and the accessors
      ([firstChild], [nextSibling], [parentNode], ...) are functions of the
      tree and a reference.
    - [undefined] and [null] are [None]. *)

From Stdlib Require Import ZArith List String Ascii Bool Arith Lia DecimalString Permutation.
Import ListNotations.
Open Scope string_scope.
Open Scope list_scope.
Open Scope Z_scope.

(* ================================================================== *)
(** * Part I: the program *)
(* ================================================================== *)

(** ** Strings *)

(** The concatenation of a list of strings. *)
Definition concatAll (l : list string) : string :=
  fold_right String.append "" l.

(** The first [n] characters of a string, and the string without them. *)
Fixpoint takeStr (n : nat) (s : string) : string :=
  match n, s with
  | S n', String a s' => String a (takeStr n' s')
  | _, _ => EmptyString
  end.

Fixpoint dropStr (n : nat) (s : string) : string :=
  match n, s with
  | S n', String _ s' => dropStr n' s'
  | _, _ => s
  end.

(** ** Results of calls that may throw *)

Inductive Outcome (A : Type) : Type :=
| Returns (a : A)
| Throws (message : string)
| OutOfFuel.

Arguments Returns {A} a.
Arguments Throws {A} message.
Arguments OutOfFuel {A}.

Definition bind {A B : Type} (m : Outcome A) (k : A -> Outcome B) : Outcome B :=
  match m with
  | Returns a => k a
  | Throws message => Throws message
  | OutOfFuel => OutOfFuel
  end.

Notation "x <- m ;; k" := (bind m (fun x => k))
  (at level 61, m at next level, right associativity).

(** ** plugins/highlighting/match-collection.ts *)

Module MatchCollection.

(** A match is a half-open span [startIndex, endIndex) of the extracted
    text; [matchText] is the matched text that travels with it. *)
Record Match : Type := mkMatch {
  startIndex : Z;
  endIndex : Z;
  matchText : string
}.

Record MergeState : Type := mkMergeState {
  a1 : list Match;
  i1 : nat;
  a2 : list Match;
  i2 : nat
}.

(** [pickNext]: [state.a1[i1]] is [nth_error], [undefined] out of range;
    a match object is always truthy. *)
Definition pickNext (state : MergeState) : option Match * MergeState :=
  let item1 := nth_error (a1 state) (i1 state) in
  let item2 := nth_error (a2 state) (i2 state) in
  match item1, item2 with
  | Some m1, Some m2 =>
      if startIndex m1 <? startIndex m2
      then (Some m1, mkMergeState (a1 state) (S (i1 state)) (a2 state) (i2 state))
      else (Some m2, mkMergeState (a1 state) (i1 state) (a2 state) (S (i2 state)))
  | Some m1, None =>
      (Some m1, mkMergeState (a1 state) (S (i1 state)) (a2 state) (i2 state))
  | None, Some m2 =>
      (Some m2, mkMergeState (a1 state) (i1 state) (a2 state) (S (i2 state)))
  | None, None => (None, state)
  end.

(** The [while] loop of [mergeMatches].  [fuel] bounds the number of
    iterations; [mergeMatches] passes [length1 + length2], which is the
    exact number of iterations the loop makes (lemma
    [mergeLoop_fuel_exact] below). *)
Fixpoint mergeLoop (fuel : nat) (length1 length2 : nat) (state : MergeState)
    (lastEndIndex : Z) (output : list Match) : list Match :=
  match fuel with
  | O => output
  | S fuel' =>
      if (i1 state <? length1)%nat || (i2 state <? length2)%nat then
        match pickNext state with
        | (Some next, state') =>
            if startIndex next >=? lastEndIndex
            then mergeLoop fuel' length1 length2 state' (endIndex next) (output ++ [next])
            else mergeLoop fuel' length1 length2 state' (endIndex next) output
        | (None, state') =>
            mergeLoop fuel' length1 length2 state' lastEndIndex output
        end
      else output
  end.

Definition mergeMatches (matches1 matches2 : list Match) : list Match :=
  let length1 := List.length matches1 in
  let length2 := List.length matches2 in
  mergeLoop (length1 + length2) length1 length2
    (mkMergeState matches1 0 matches2 0) (-1) [].

(** The collection object: its only field is [matches]. *)
Definition addMatches (this : list Match) (matches : list Match) : list Match :=
  match matches with
  | [] => this
  | _ :: _ => mergeMatches this matches
  end.

(** [new MatchCollection()] followed by one [addMatches] call per batch. *)
Definition addAll (batches : list (list Match)) : list Match :=
  fold_left addMatches batches [].

(** A span written as in the tests: only the two indices. *)
Definition span (s e : Z) : Match := mkMatch s e "".

(** The merge as the specification words it: the running last end is
    moved to a dropped match's end only when that end is greater. *)
Fixpoint mergeLoop_spec (fuel : nat) (length1 length2 : nat) (state : MergeState)
    (lastEndIndex : Z) (output : list Match) : list Match :=
  match fuel with
  | O => output
  | S fuel' =>
      if (i1 state <? length1)%nat || (i2 state <? length2)%nat then
        match pickNext state with
        | (Some next, state') =>
            if startIndex next >=? lastEndIndex
            then mergeLoop_spec fuel' length1 length2 state' (endIndex next) (output ++ [next])
            else mergeLoop_spec fuel' length1 length2 state'
                   (if endIndex next >? lastEndIndex then endIndex next else lastEndIndex)
                   output
        | (None, state') =>
            mergeLoop_spec fuel' length1 length2 state' lastEndIndex output
        end
      else output
  end.

Definition mergeMatches_spec (matches1 matches2 : list Match) : list Match :=
  mergeLoop_spec (List.length matches1 + List.length matches2)
    (List.length matches1) (List.length matches2)
    (mkMergeState matches1 0 matches2 0) (-1) [].

(** Sorted by [startIndex]. *)
Fixpoint sortedByStart (l : list Match) : Prop :=
  match l with
  | [] => True
  | m :: rest =>
      match rest with
      | [] => True
      | m' :: _ => startIndex m <= startIndex m' /\ sortedByStart rest
      end
  end.

(** Consecutive stored matches do not overlap. *)
Fixpoint nonOverlapping (l : list Match) : Prop :=
  match l with
  | [] => True
  | m :: rest =>
      match rest with
      | [] => True
      | m' :: _ => endIndex m <= startIndex m' /\ nonOverlapping rest
      end
  end.

End MatchCollection.

(** ** The DOM

    A document is a tree of nodes.  Every node carries its identity [nid]
    (the JavaScript object reference); a well-formed document has pairwise
    distinct identities.  Text nodes hold character data, element nodes a
    name, an attribute list and their children in document order. *)

Module Dom.

#[warnings="-register-all"]
Inductive Node : Type :=
| TextNode (i : nat) (d : string)
| ElementNode (i : nat) (name : string) (attrs : list (string * string)) (children : list Node).

Definition nid (x : Node) : nat :=
  match x with
  | TextNode i _ => i
  | ElementNode i _ _ _ => i
  end.

Definition childNodes (x : Node) : list Node :=
  match x with
  | TextNode _ _ => []
  | ElementNode _ _ _ cs => cs
  end.

Definition attributes (x : Node) : list (string * string) :=
  match x with
  | TextNode _ _ => []
  | ElementNode _ _ attrs _ => attrs
  end.

(** One level of the path from a node up to the top of the document: the
    parent element (identity, name, attributes) and the siblings before and
    after the node, both in document order. *)
Record Frame : Type := mkFrame {
  fparent : nat;
  fname : string;
  fattrs : list (string * string);
  fbefore : list Node;
  fafter : list Node
}.

(** The frames from a node up to the top, innermost first. *)
Definition Ctx : Type := list Frame.

Section Scan.
Context {A R : Type} (f : list A -> A -> list A -> option R).

(** First success of [f] over the elements of a list, each seen with the
    elements before and after it. *)
Fixpoint scan (before l : list A) : option R :=
  match l with
  | [] => None
  | x :: rest =>
      match f before x rest with
      | Some r => Some r
      | None => scan (before ++ [x]) rest
      end
  end.

End Scan.

(** Dereference: find the node with identity [n] in the subtree [x] that
    sits under the frames [c]; the result is the node with the frames
    leading to it. *)
Fixpoint locate_at (n : nat) (c : Ctx) (x : Node) {struct x} : option (Ctx * Node) :=
  if Nat.eqb (nid x) n then Some (c, x)
  else
    match x with
    | TextNode _ _ => None
    | ElementNode i name attrs cs =>
        scan (fun before ch rest => locate_at n (mkFrame i name attrs before rest :: c) ch) [] cs
    end.

Definition locate (doc : Node) (n : nat) : option (Ctx * Node) := locate_at n [] doc.

Definition lookup (doc : Node) (n : nat) : option Node :=
  option_map snd (locate doc n).

Definition parentNode (doc : Node) (n : nat) : option nat :=
  match locate doc n with
  | Some (f :: _, _) => Some (fparent f)
  | _ => None
  end.

Definition nextSibling (doc : Node) (n : nat) : option nat :=
  match locate doc n with
  | Some (f :: _, _) => option_map nid (hd_error (fafter f))
  | _ => None
  end.

Definition previousSibling (doc : Node) (n : nat) : option nat :=
  match locate doc n with
  | Some (f :: _, _) => option_map nid (hd_error (rev (fbefore f)))
  | _ => None
  end.

Definition firstChild (doc : Node) (n : nat) : option nat :=
  match lookup doc n with
  | Some x => option_map nid (hd_error (childNodes x))
  | None => None
  end.

Definition textNode : Z := 3.
Definition elementNode : Z := 1.

Definition nodeTypeOf (x : Node) : Z :=
  match x with
  | TextNode _ _ => textNode
  | ElementNode _ _ _ _ => elementNode
  end.

Definition nodeNameOf (x : Node) : string :=
  match x with
  | TextNode _ _ => "#text"
  | ElementNode _ name _ _ => name
  end.

Definition nodeType (doc : Node) (n : nat) : option Z :=
  option_map nodeTypeOf (lookup doc n).

Definition nodeName (doc : Node) (n : nat) : option string :=
  option_map nodeNameOf (lookup doc n).

(** [data] of a text node; [undefined] on other nodes. *)
Definition dataOf (x : Node) : option string :=
  match x with
  | TextNode _ d => Some d
  | ElementNode _ _ _ _ => None
  end.

Definition data (doc : Node) (n : nat) : option string :=
  match lookup doc n with
  | Some x => dataOf x
  | None => None
  end.

Fixpoint assoc (name : string) (attrs : list (string * string)) : option string :=
  match attrs with
  | [] => None
  | (k, v) :: rest => if String.eqb k name then Some v else assoc name rest
  end.

(** [getAttribute?.(name)]: the value, or [null]/[undefined] when the
    attribute is absent or the node is no element. *)
Definition getAttributeOf (x : Node) (name : string) : option string :=
  assoc name (attributes x).

Definition getAttribute (doc : Node) (n : nat) (name : string) : option string :=
  match lookup doc n with
  | Some x => getAttributeOf x name
  | None => None
  end.

(** [v === s] for an attribute value [v] that may be [null]. *)
Definition is_value (v : option string) (s : string) : bool :=
  match v with
  | Some w => String.eqb w s
  | None => false
  end.

(** Identities of all nodes of a subtree, in document order. *)
Fixpoint ids (x : Node) : list nat :=
  match x with
  | TextNode i _ => [i]
  | ElementNode i _ _ cs => i :: flat_map ids cs
  end.

(** Number of nodes of a subtree. *)
Fixpoint size (x : Node) : nat :=
  match x with
  | TextNode _ _ => 1
  | ElementNode _ _ _ cs => S (list_sum (map size cs))
  end.

(** [At x c s]: the node [s] occurs in the tree [x], and [c] are the
    frames from [s] up to [x], innermost first. *)
Inductive At : Node -> Ctx -> Node -> Prop :=
| At_here : forall x, At x [] x
| At_child : forall i name attrs l1 ch l2 c s,
    At ch c s ->
    At (ElementNode i name attrs (l1 ++ ch :: l2)) (c ++ [mkFrame i name attrs l1 l2]) s.

End Dom.

(** ** DOM mutation

    The mutations replace one child by a list of nodes ([substNode]), or
    rewrite one subtree ([updateNode]); new nodes get identities that are
    not in the document. *)

Module DomEdit.
Import Dom.

(** Replace the child with identity [n], wherever it is, by the nodes
    [f child]. *)
Fixpoint substNode (n : nat) (f : Node -> list Node) (x : Node) : Node :=
  match x with
  | TextNode _ _ => x
  | ElementNode i name attrs cs =>
      ElementNode i name attrs
        (flat_map (fun ch => if Nat.eqb (nid ch) n then f ch else [substNode n f ch]) cs)
  end.

(** Rewrite the subtree with identity [n]. *)
Fixpoint updateNode (n : nat) (f : Node -> Node) (x : Node) : Node :=
  if Nat.eqb (nid x) n then f x
  else
    match x with
    | TextNode _ _ => x
    | ElementNode i name attrs cs => ElementNode i name attrs (map (updateNode n f) cs)
    end.

(** Descendants of a node in document order. *)
Fixpoint descendants (x : Node) : list Node :=
  match x with
  | TextNode _ _ => []
  | ElementNode _ _ _ cs => flat_map (fun ch => ch :: descendants ch) cs
  end.

Definition isElement (x : Node) : bool :=
  match x with
  | TextNode _ _ => false
  | ElementNode _ _ _ _ => true
  end.

(** What [normalize()] does to a list of children: empty text nodes go,
    and the first non-empty text node of a run of adjacent text nodes takes
    the data of the others. *)
Fixpoint mergeTexts (l : list Node) : list Node :=
  match l with
  | [] => []
  | x :: rest =>
      let merged := mergeTexts rest in
      match x with
      | TextNode i d =>
          if String.eqb d "" then merged
          else
            match merged with
            | TextNode _ d' :: merged' => TextNode i (d ++ d') :: merged'
            | _ => TextNode i d :: merged
            end
      | ElementNode _ _ _ _ => x :: merged
      end
  end.

Fixpoint normalizeNode (x : Node) : Node :=
  match x with
  | TextNode _ _ => x
  | ElementNode i name attrs cs => ElementNode i name attrs (mergeTexts (map normalizeNode cs))
  end.

(** [element.normalize()] *)
Definition normalize (doc : Node) (element : nat) : Node :=
  updateNode element normalizeNode doc.

(** An identity that no node of the document has; a node made next to it
    takes the following ones. *)
Definition freshId (doc : Node) : nat := S (list_max (ids doc)).

(** [setAttribute(name, value)] on an attribute list. *)
Fixpoint setAttribute (attrs : list (string * string)) (name value : string)
  : list (string * string) :=
  match attrs with
  | [] => [(name, value)]
  | (k, v) :: rest =>
      if String.eqb k name then (k, value) :: rest
      else (k, v) :: setAttribute rest name value
  end.

(** [content.unwrap(elem)]: the children of the element take its place;
    nothing happens to an element without a parent. *)
Definition unwrap (doc : Node) (elem : nat) : Node :=
  match parentNode doc elem with
  | Some _ => substNode elem childNodes doc
  | None => doc
  end.

End DomEdit.

(** ** node-iterator.ts *)

Module NodeIterator.
Import Dom.

Record NodeIterator : Type := mkIterator {
  current : option nat;
  previous : option nat;
  nextNode : option nat;
  root : nat
}.

(** [constructor(root)] *)
Definition new (root : nat) : NodeIterator :=
  mkIterator (Some root) (Some root) (Some root) root.

(** The loop shared by [getNext] and [replaceCurrent]:
    [while ((n !== this.root) && n) { if (n.nextSibling) { nextNode =
    n.nextSibling; break }; n = n.parentNode }].  The result is the value
    left in [nextNode] ([undefined] when the loop ends without a
    sibling).  Each turn moves to the parent, so the number of turns is at
    most the number of nodes of the document, which is the [fuel] the
    callers pass. *)
Fixpoint climb (fuel : nat) (doc : Node) (root : nat) (n : nat) : option nat :=
  match fuel with
  | O => None
  | S fuel' =>
      if Nat.eqb n root then None
      else
        match nextSibling doc n with
        | Some sibling => Some sibling
        | None =>
            match parentNode doc n with
            | Some p => climb fuel' doc root p
            | None => None
            end
        end
  end.

(** [getNext()]: the new iterator state and the returned node. *)
Definition getNext (doc : Node) (it : NodeIterator) : NodeIterator * option nat :=
  match nextNode it with
  | None => (mkIterator None (previous it) None (root it), None)
  | Some n =>
      let next :=
        match firstChild doc n with
        | Some child =>
            if negb (is_value (getAttribute doc n "data-editable") "remove")
            then Some child
            else climb (size doc) doc (root it) n
        | None => climb (size doc) doc (root it) n
        end in
      (mkIterator (Some n) (previous it) next (root it), Some n)
  end.

(** [replaceCurrent(replacement)] *)
Definition replaceCurrent (doc : Node) (it : NodeIterator) (replacement : nat) : NodeIterator :=
  mkIterator (Some replacement) None (climb (size doc) doc (root it) replacement) (root it).

(** [next.nodeType === textNode && next.data !== ''] *)
Definition isNonEmptyText (doc : Node) (n : nat) : bool :=
  match nodeType doc n, data doc n with
  | Some t, Some d => (t =? textNode) && negb (String.eqb d "")
  | _, _ => false
  end.

(** [getNextTextNode()]: [None] when [fuel] calls of [getNext] were not
    enough to reach a text node or the end. *)
Fixpoint getNextTextNode (fuel : nat) (doc : Node) (it : NodeIterator)
  : option (NodeIterator * option nat) :=
  match fuel with
  | O => None
  | S fuel' =>
      match getNext doc it with
      | (it', None) => Some (it', None)
      | (it', Some next) =>
          if isNonEmptyText doc next then Some (it', Some next)
          else getNextTextNode fuel' doc it'
      end
  end.

(** The result of the call number [j] (counted from 0) in a row of
    [getNext()] calls. *)
Fixpoint getNext_nth (j : nat) (doc : Node) (it : NodeIterator) : option nat :=
  match getNext doc it with
  | (it', result) =>
      match j with
      | O => result
      | S j' => getNext_nth j' doc it'
      end
  end.

End NodeIterator.

(** ** highlight-text.ts: text extraction *)

Module HighlightText.
Import Dom DomEdit NodeIterator.

Definition newline : string := String (ascii_of_nat 10) EmptyString.

(** [next.nodeType === elementNode && next.nodeName === 'BR'] *)
Definition isBR (doc : Node) (n : nat) : bool :=
  match nodeType doc n, nodeName doc n with
  | Some t, Some name => (t =? elementNode) && String.eqb name "BR"
  | _, _ => false
  end.

(** The loop of [getText]; the callback of [extractText] appends to
    [text].  [None]: the walk did not end within [fuel] steps. *)
Fixpoint getText (fuel : nat) (doc : Node) (convertBRs : bool)
    (it : NodeIterator) (text : string) : option string :=
  match fuel with
  | O => None
  | S fuel' =>
      match getNext doc it with
      | (_, None) => Some text
      | (it', Some next) =>
          if isNonEmptyText doc next then
            match data doc next with
            | Some d => getText fuel' doc convertBRs it' (text ++ d)
            | None => getText fuel' doc convertBRs it' text
            end
          else if convertBRs && isBR doc next then
            getText fuel' doc convertBRs it' (text ++ newline)
          else getText fuel' doc convertBRs it' text
      end
  end.

(** [extractText(element, convertBRs)].  A walk returns every node at most
    once, so one more step than the document has nodes ends it. *)
Definition extractText (doc : Node) (element : nat) (convertBRs : bool) : option string :=
  getText (S (size doc)) doc convertBRs (NodeIterator.new element) "".

(** A match to highlight: the span, the element to clone around it
    ([marker]), and optionally an id and a title. *)
Record ExtendedMatch : Type := mkExtendedMatch {
  startIndex : Z;
  endIndex : Z;
  matchText : string;
  marker : option Node;
  id : option string;
  title : option string
}.

Record Portion : Type := mkPortion {
  element : nat;
  text : string;
  offset : Z;
  length : Z;
  isLastPortion : bool;
  wordId : string
}.

(** A string that is not falsy. *)
Definition truthy (s : option string) : option string :=
  match s with
  | Some v => if String.eqb v "" then None else Some v
  | None => None
  end.

(** [String(currentMatch.id || currentMatch.startIndex)] *)
Definition wordIdOf (m : ExtendedMatch) : string :=
  match truthy (id m) with
  | Some v => v
  | None => NilZero.string_of_int (Z.to_int (startIndex m))
  end.

(** [wrapPortion]: the new document and the wrapping element.
    [surroundContents] on a range inside one text node leaves the text
    before the range in the node, puts the text of the range into a new
    text node inside the clone of the stencil (whose own children are
    dropped), and splits the text after the range off into a new text node
    behind the clone; the function removes that node when it is empty.
    [setEnd] before the start collapses the range at the end point. *)
Definition wrapPortion (doc : Node) (portion : Portion) (stencilElement : option Node)
    (title : option string) : Outcome (Node * nat) :=
  match lookup doc (element portion) with
  | Some (TextNode _ d) =>
      let len := Z.of_nat (String.length d) in
      let rangeStart := offset portion in
      let rangeEnd := offset portion + length portion in
      if (rangeStart <? 0) || (len <? rangeStart) then Throws "IndexSizeError"
      else if (rangeEnd <? 0) || (len <? rangeEnd) then Throws "IndexSizeError"
      else
        match stencilElement with
        | Some (ElementNode _ name attrs _) =>
            let rangeStart := Z.min rangeStart rangeEnd in
            let node := freshId doc in
            let attrs1 := setAttribute attrs "data-word-id" (wordId portion) in
            let attrs2 :=
              match truthy title with
              | Some t => setAttribute attrs1 "title" t
              | None => attrs1
              end in
            let before := takeStr (Z.to_nat rangeStart) d in
            let inside :=
              takeStr (Z.to_nat (rangeEnd - rangeStart)) (dropStr (Z.to_nat rangeStart) d) in
            let after := dropStr (Z.to_nat rangeEnd) d in
            let contents :=
              if rangeStart =? rangeEnd then [] else [TextNode (S node) inside] in
            let next :=
              if String.eqb after "" then [] else [TextNode (S (S node)) after] in
            Returns
              (substNode (element portion)
                 (fun _ => TextNode (element portion) before
                           :: ElementNode node name attrs2 contents :: next)
                 doc,
               node)
        | _ => Throws "TypeError"
        end
  | _ => Throws "InvalidNodeTypeError"
  end.

(** [wrapMatch]: [portions.map(...).pop()], the last wrapping element. *)
Fixpoint wrapMatch (doc : Node) (portions : list Portion) (stencilElement : option Node)
    (title : option string) (last : option nat) : Outcome (Node * option nat) :=
  match portions with
  | [] => Returns (doc, last)
  | portion :: rest =>
      r <- wrapPortion doc portion stencilElement title ;;
      wrapMatch (fst r) rest stencilElement title (Some (snd r))
  end.

(** The [while ((next = iterator.getNext()))] loop of [highlightMatches];
    the result is the document when the walk ends. *)
Fixpoint highlightLoop (fuel : nat) (matches : list ExtendedMatch) (countBRs : bool)
    (doc : Node) (iterator : NodeIterator) (currentMatchIndex : nat) (totalOffset : Z)
    (currentMatch : ExtendedMatch) (portions : list Portion) (wordId : string)
  : Outcome Node :=
  match fuel with
  | O => OutOfFuel
  | S fuel' =>
      match getNext doc iterator with
      | (_, None) => Returns doc
      | (iterator, Some next) =>
          if isNonEmptyText doc next then
            let nodeText := match data doc next with Some d => d | None => "" end in
            let nodeEndOffset := totalOffset + Z.of_nat (String.length nodeText) in
            if (startIndex currentMatch <? nodeEndOffset)
               && (totalOffset <? endIndex currentMatch) then
              let isFirstPortion := totalOffset <=? startIndex currentMatch in
              let isLastPortion := nodeEndOffset >=? endIndex currentMatch in
              let wordId := if isFirstPortion then wordIdOf currentMatch else wordId in
              let offset :=
                if isFirstPortion then startIndex currentMatch - totalOffset else 0 in
              let length :=
                if isLastPortion then (endIndex currentMatch - totalOffset) - offset
                else Z.of_nat (String.length nodeText) - offset in
              let portion :=
                mkPortion next
                  (takeStr (Z.to_nat length) (dropStr (Z.to_nat offset) nodeText))
                  offset length isLastPortion wordId in
              let portions := portions ++ [portion] in
              if isLastPortion then
                wrapped <- wrapMatch doc portions (marker currentMatch) (title currentMatch) None ;;
                match snd wrapped with
                | Some lastNode =>
                    let doc := fst wrapped in
                    let iterator := replaceCurrent doc iterator lastNode in
                    let nodeEndOffset := totalOffset + length + offset in
                    let currentMatchIndex := S currentMatchIndex in
                    let currentMatch :=
                      match nth_error matches currentMatchIndex with
                      | Some m => m
                      | None => currentMatch
                      end in
                    highlightLoop fuel' matches countBRs doc iterator currentMatchIndex
                      nodeEndOffset currentMatch [] wordId
                | None =>
                    highlightLoop fuel' matches countBRs (fst wrapped) iterator
                      currentMatchIndex nodeEndOffset currentMatch portions wordId
                end
              else
                highlightLoop fuel' matches countBRs doc iterator currentMatchIndex
                  nodeEndOffset currentMatch portions wordId
            else
              highlightLoop fuel' matches countBRs doc iterator currentMatchIndex
                nodeEndOffset currentMatch portions wordId
          else if countBRs && isBR doc next then
            highlightLoop fuel' matches countBRs doc iterator currentMatchIndex
              (totalOffset + 1) currentMatch portions wordId
          else
            highlightLoop fuel' matches countBRs doc iterator currentMatchIndex
              totalOffset currentMatch portions wordId
      end
  end.

(** Nodes and characters of a subtree: every turn of the loop of
    [highlightMatches] passes a node or leaves a shorter text node, so the
    loop makes at most this many turns. *)
Fixpoint weight (x : Node) : nat :=
  match x with
  | TextNode _ d => S (String.length d)
  | ElementNode _ _ _ cs => S (list_sum (map weight cs))
  end.

(** [highlightMatches(element, matches, countBRs)] *)
Definition highlightMatches (doc : Node) (element : nat) (matches : list ExtendedMatch)
    (countBRs : bool) : Outcome Node :=
  match matches with
  | [] => Returns doc
  | currentMatch :: _ =>
      let doc := normalize doc element in
      highlightLoop (S (weight doc)) matches countBRs doc (NodeIterator.new element)
        0 0 currentMatch [] (wordIdOf currentMatch)
  end.

End HighlightText.

(** ** highlight-support.ts: removing a highlight *)

Module HighlightSupport.
Import Dom DomEdit.

(** The characters that a string in quotation marks inside a selector
    does not take as they are: the quotation mark (34) ends the string,
    the backslash (92) starts an escape, a line feed (10), form feed (12)
    or carriage return (13) makes the selector invalid, and the null
    character (0) is replaced. *)
Definition selectorSpecial (c : ascii) : bool :=
  let code := nat_of_ascii c in
  ((code =? 34) || (code =? 92) || (code =? 10) || (code =? 12) || (code =? 13)
   || (code =? 0))%nat.

(** A string that a selector takes as it is when it is put between
    quotation marks: it holds none of the characters above. *)
Fixpoint selectorLiteral (s : string) : bool :=
  match s with
  | EmptyString => true
  | String c rest => negb (selectorSpecial c) && selectorLiteral rest
  end.

(** [editableHost.querySelectorAll('[data-word-id="' + highlightId + '"]')]
    for an id with [selectorLiteral highlightId = true]: the selector is
    then the test that the [data-word-id] attribute is the id, and the
    result holds the elements below the host that pass it, in document
    order.  For any other id the selector is another one or is invalid
    (the call then throws a [SyntaxError]); such ids are outside this
    definition, and the properties of [removeHighlight], [hasHighlight]
    and [highlightRange] are stated for ids with [selectorLiteral]. *)
Definition querySelectorAllWordId (doc : Node) (editableHost : nat) (highlightId : string)
  : list nat :=
  match lookup doc editableHost with
  | Some h =>
      map nid
        (filter (fun x => isElement x && is_value (getAttributeOf x "data-word-id") highlightId)
           (descendants h))
  | None => []
  end.

(** [removeHighlight(editableHost, highlightId)], without the dispatcher,
    for an id with [selectorLiteral highlightId = true]. *)
Definition removeHighlight (doc : Node) (editableHost : nat) (highlightId : string) : Node :=
  let elems := querySelectorAllWordId doc editableHost highlightId in
  normalize (fold_left unwrap elems doc) editableHost.

(** [hasHighlight(editableHost, highlightId)], for an id with
    [selectorLiteral highlightId = true]. *)
Definition hasHighlight (doc : Node) (editableHost : nat) (highlightId : string) : bool :=
  negb (Nat.eqb (List.length (querySelectorAllWordId doc editableHost highlightId)) 0).

End HighlightSupport.

(** ** util/element.ts *)

Module Element.
Import Dom NodeIterator.

(** [[...iterator]] for an iterator built with the method
    ['getNextTextNode']: [next()] is called until it reports [done]. *)
Fixpoint collectTextNodes (fuel : nat) (doc : Node) (it : NodeIterator) (acc : list nat)
  : option (list nat) :=
  match fuel with
  | O => None
  | S fuel' =>
      match getNextTextNode (S (size doc)) doc it with
      | None => None
      | Some (_, None) => Some acc
      | Some (it', Some value) => collectTextNodes fuel' doc it' (acc ++ [value])
      end
  end.

Definition textNodesUnder (doc : Node) (node : nat) : option (list nat) :=
  collectTextNodes (S (size doc)) doc (NodeIterator.new node) [].

(** [textContent] of a node: the character data of its text descendants. *)
Fixpoint textContentOf (x : Node) : string :=
  match x with
  | TextNode _ d => d
  | ElementNode _ _ _ cs => concatAll (map textContentOf cs)
  end.

(** [node.textContent?.length || 0] *)
Definition textContentLength (doc : Node) (n : nat) : Z :=
  match lookup doc n with
  | Some x => Z.of_nat (String.length (textContentOf x))
  | None => 0
  end.

(** The [for] loop of [getTextNodeAndRelativeOffset]; the result is
    [(targetNode, relativeOffset)]. *)
Fixpoint findTextNode (doc : Node) (textNodes : list nat) (absOffset cumulativeOffset : Z)
  : option nat * Z :=
  match textNodes with
  | [] => (None, 0)
  | node :: rest =>
      let nodeLength := textContentLength doc node in
      if absOffset <=? cumulativeOffset + nodeLength
      then (Some node, absOffset - cumulativeOffset)
      else findTextNode doc rest absOffset (cumulativeOffset + nodeLength)
  end.

Definition getTextNodeAndRelativeOffset (doc : Node) (textNodes : list nat) (absOffset : Z)
  : option nat * Z :=
  findTextNode doc textNodes absOffset 0.

(** The lengths of a list of text nodes added up. *)
Definition sumLengths (doc : Node) (l : list nat) : Z :=
  fold_right (fun node acc => textContentLength doc node + acc) 0 l.

Definition getTotalCharCount (doc : Node) (element : nat) : option Z :=
  match textNodesUnder doc element with
  | Some textNodes =>
      Some (fold_left (fun acc node => acc + textContentLength doc node) textNodes 0)
  | None => None
  end.

End Element.

(** ** util/binary_search.ts *)

Module BinarySearch.
Import Dom Element.

Record BinarySearchData : Type := mkData {
  currentOffset : Z;
  leftLimit : Z;
  rightLimit : Z
}.

(** [Math.floor(x / 2)] and [Math.ceil(x / 2)] for an integer [x]. *)
Definition floorHalf (x : Z) : Z := x / 2.
Definition ceilHalf (x : Z) : Z := - ((- x) / 2).

Definition moveLeft (data : BinarySearchData) : BinarySearchData :=
  mkData (floorHalf (currentOffset data + leftLimit data)) (leftLimit data) (currentOffset data).

Definition moveRight (data : BinarySearchData) : BinarySearchData :=
  mkData (ceilHalf (currentOffset data + rightLimit data)) (currentOffset data) (rightLimit data).

(** The search interval lies inside [0, n] and holds the current offset. *)
Definition Within (n : Z) (data : BinarySearchData) : Prop :=
  0 <= leftLimit data /\ leftLimit data <= currentOffset data /\
  currentOffset data <= rightLimit data /\ rightLimit data <= n.

Section Rendering.

(** Pixel coordinates are JavaScript numbers; the search only subtracts
    them, takes absolute values and compares them, so the number type and
    these operations are left open. *)
Variable num : Type.
Variable num_zero : num.
Variable num_sub : num -> num -> num.
Variable num_abs : num -> num.
Variable num_ltb : num -> num -> bool.
Variable num_eqb : num -> num -> bool.

(** The fields of a [DOMRect] the search reads. *)
Record DOMRect : Type := mkRect {
  left : num;
  top : num;
  bottom : num
}.

Definition zeroRect : DOMRect := mkRect num_zero num_zero num_zero.

(** What the rendering engine answers.  [clientRect node offset] is
    [getBoundingClientRect()] of the collapsed range at [(node, offset)],
    [hostRangeRect] that of the range around the host's contents ([None]:
    the call throws, as under JSDOM), [hostRect] that of the host element
    ([None]: a falsy answer). *)
Variable clientRect : nat -> Z -> option DOMRect.
Variable hostRangeRect : option DOMRect.
Variable hostRect : option DOMRect.

Record BinaryCursorSearchResult : Type := mkResult {
  wasFound : bool;
  distance : option num;
  offset : option Z
}.

(** The offset of [Range.setStart(node, offset)] is an [unsigned long]:
    the integer handed over is taken modulo 2^32 before it is compared
    with the length of the node. *)
Definition toUnsignedLong (x : Z) : Z := x mod 4294967296.

(** [createRangeAtCharacterOffset]: the collapsed range is its boundary
    point.  [setStart] throws when the offset, as an [unsigned long],
    exceeds the node's length; the range starts at that [unsigned long]. *)
Definition createRangeAtCharacterOffset (doc : Node) (textNodes : list nat) (offset : Z)
  : Outcome (nat * Z) :=
  match getTextNodeAndRelativeOffset doc textNodes offset with
  | (None, _) => Throws "Could not find text node for offset"
  | (Some node, relativeOffset) =>
      if textContentLength doc node <? toUnsignedLong relativeOffset
      then Throws "IndexSizeError"
      else Returns (node, toUnsignedLong relativeOffset)
  end.

(** [range.getBoundingClientRect()] with the fallback of the [catch]. *)
Definition coordsOf (range : nat * Z) : DOMRect :=
  match clientRect (fst range) (snd range) with
  | Some rect => rect
  | None => zeroRect
  end.

(** One entry per bounding box read: the offset probed and its distance
    to the target. *)
Definition Probe : Type := (Z * num)%type.

(** Reference definition: the distance of the character offset [offset]
    to the target, [Math.abs(coords.left - positionX)] for the bounding
    box of the collapsed range at that offset; [None] when no range can
    be made there. *)
Definition distanceAt (doc : Node) (textNodes : list nat) (positionX : num) (offset : Z)
  : option num :=
  match createRangeAtCharacterOffset doc textNodes offset with
  | Returns range => Some (num_abs (num_sub (left (coordsOf range)) positionX))
  | _ => None
  end.

(** The [while (data.leftLimit < data.rightLimit && safety > 0)] loop.
    The result holds [data], [offset] and [distance] as the loop leaves
    them, and the probes made. *)
Fixpoint searchLoop (doc : Node) (textNodes : list nat)
    (requiredOnFirstLine requiredOnLastLine : bool) (positionX : num) (hostCoords : DOMRect)
    (safety : nat) (data : BinarySearchData) (offset : Z) (distance : num)
    (probes : list Probe)
  : Outcome (BinarySearchData * Z * num * list Probe) :=
  match safety with
  | O => Returns (data, offset, distance, probes)
  | S safety' =>
      if leftLimit data <? rightLimit data then
        let offset := currentOffset data in
        range <- createRangeAtCharacterOffset doc textNodes (currentOffset data) ;;
        let coords := coordsOf range in
        let distance := num_abs (num_sub (left coords) positionX) in
        let probes := probes ++ [(offset, distance)] in
        if requiredOnFirstLine && negb (num_eqb (top hostCoords) (top coords)) then
          searchLoop doc textNodes requiredOnFirstLine requiredOnLastLine positionX hostCoords
            safety' (moveLeft data) offset distance probes
        else if requiredOnLastLine && negb (num_eqb (bottom hostCoords) (bottom coords)) then
          searchLoop doc textNodes requiredOnFirstLine requiredOnLastLine positionX hostCoords
            safety' (moveRight data) offset distance probes
        else if num_ltb positionX (left coords) then
          searchLoop doc textNodes requiredOnFirstLine requiredOnLastLine positionX hostCoords
            safety' (moveLeft data) offset distance probes
        else
          searchLoop doc textNodes requiredOnFirstLine requiredOnLastLine positionX hostCoords
            safety' (moveRight data) offset distance probes
      else Returns (data, offset, distance, probes)
  end.

(** [binaryCursorSearch] together with its probes: those of the loop and
    the one made after it ([None] when the host is empty). *)
Definition binaryCursorSearch_probes (doc : Node) (host : nat)
    (requiredOnFirstLine requiredOnLastLine : bool) (positionX : num)
  : Outcome (BinaryCursorSearchResult * list Probe * option Probe) :=
  let hostCoords :=
    match hostRangeRect with
    | Some rect => rect
    | None => match hostRect with Some rect => rect | None => zeroRect end
    end in
  match getTotalCharCount doc host, textNodesUnder doc host with
  | Some totalCharCount, Some textNodes =>
      if totalCharCount =? 0 then Returns (mkResult false None None, [], None)
      else
        let data := mkData (floorHalf totalCharCount) 0 totalCharCount in
        afterLoop <-
          searchLoop doc textNodes requiredOnFirstLine requiredOnLastLine positionX hostCoords
            20 data (currentOffset data) num_zero [] ;;
        let '(data, offset, distance, probes) := afterLoop in
        range <- createRangeAtCharacterOffset doc textNodes (currentOffset data) ;;
        let coords := coordsOf range in
        let finalDistance := num_abs (num_sub (left coords) positionX) in
        let final := Some (currentOffset data, finalDistance) in
        if num_ltb finalDistance distance
        then Returns (mkResult true (Some finalDistance) (Some (currentOffset data)), probes, final)
        else Returns (mkResult true (Some distance) (Some offset), probes, final)
  | _, _ => OutOfFuel
  end.

Definition binaryCursorSearch (doc : Node) (host : nat)
    (requiredOnFirstLine requiredOnLastLine : bool) (positionX : num)
  : Outcome BinaryCursorSearchResult :=
  r <- binaryCursorSearch_probes doc host requiredOnFirstLine requiredOnLastLine positionX ;;
  Returns (fst (fst r)).

End Rendering.

End BinarySearch.

(** ** range-save-restore.ts (restoring) and the parts of util/dom.ts it uses *)

Module RangeSaveRestore.
Import Dom DomEdit.

(** A DOM range: two boundary points.  Ranges are live: removing a node
    moves the boundary points that lie in or after it. *)
Record Range : Type := mkRange {
  startContainer : nat;
  startOffset : Z;
  endContainer : nat;
  endOffset : Z
}.

(** [createRange()]: collapsed at the start of the document, which is the
    top node of the tree. *)
Definition createRange (doc : Node) : Range :=
  mkRange (nid doc) 0 (nid doc) 0.

(** Index of a node among the children of its parent. *)
Definition indexOf (doc : Node) (n : nat) : option Z :=
  match locate doc n with
  | Some (f :: _, _) => Some (Z.of_nat (List.length (fbefore f)))
  | _ => None
  end.

(** Child indices from the top of the document down to a node. *)
Definition pathOf (doc : Node) (n : nat) : option (list Z) :=
  match locate doc n with
  | Some (c, _) => Some (rev (map (fun f => Z.of_nat (List.length (fbefore f))) c))
  | None => None
  end.

Fixpoint lexCompare (k1 k2 : list Z) : comparison :=
  match k1, k2 with
  | [], [] => Eq
  | [], _ :: _ => Lt
  | _ :: _, [] => Gt
  | a :: r1, b :: r2 =>
      match a ?= b with
      | Eq => lexCompare r1 r2
      | c => c
      end
  end.

(** Position of the boundary point [(n1, o1)] relative to [(n2, o2)]:
    [Lt] before, [Eq] equal, [Gt] after. *)
Definition comparePoints (doc : Node) (n1 : nat) (o1 : Z) (n2 : nat) (o2 : Z)
  : option comparison :=
  match pathOf doc n1, pathOf doc n2 with
  | Some p1, Some p2 => Some (lexCompare (p1 ++ [o1]) (p2 ++ [o2]))
  | _, _ => None
  end.

(** Length of a node: characters of a text node, children of an element. *)
Definition nodeLength (doc : Node) (n : nat) : option Z :=
  match lookup doc n with
  | Some (TextNode _ d) => Some (Z.of_nat (String.length d))
  | Some (ElementNode _ _ _ cs) => Some (Z.of_nat (List.length cs))
  | None => None
  end.

(** [range.setStart(node, offset)] and [range.setEnd(node, offset)] for
    offsets from 0 to 2^32 - 1, which the [unsigned long] of the interface
    leaves as they are.  The interface takes any other offset modulo 2^32
    first; these definitions leave that out, and the statements about
    them concern offsets from 0 up to the length of the node. *)
Definition setStart (doc : Node) (range : Range) (node : nat) (offset : Z) : Outcome Range :=
  match nodeLength doc node with
  | None => Throws "InvalidNodeTypeError"
  | Some len =>
      if (offset <? 0) || (len <? offset) then Throws "IndexSizeError"
      else
        match comparePoints doc node offset (endContainer range) (endOffset range) with
        | Some Gt | None => Returns (mkRange node offset node offset)
        | _ => Returns (mkRange node offset (endContainer range) (endOffset range))
        end
  end.

Definition setEnd (doc : Node) (range : Range) (node : nat) (offset : Z) : Outcome Range :=
  match nodeLength doc node with
  | None => Throws "InvalidNodeTypeError"
  | Some len =>
      if (offset <? 0) || (len <? offset) then Throws "IndexSizeError"
      else
        match comparePoints doc node offset (startContainer range) (startOffset range) with
        | Some Lt | None => Returns (mkRange node offset node offset)
        | _ => Returns (mkRange (startContainer range) (startOffset range) node offset)
        end
  end.

Definition setStartBefore (doc : Node) (range : Range) (node : nat) : Outcome Range :=
  match parentNode doc node, indexOf doc node with
  | Some parent, Some index => setStart doc range parent index
  | _, _ => Throws "InvalidNodeTypeError"
  end.

Definition setEndBefore (doc : Node) (range : Range) (node : nat) : Outcome Range :=
  match parentNode doc node, indexOf doc node with
  | Some parent, Some index => setEnd doc range parent index
  | _, _ => Throws "InvalidNodeTypeError"
  end.

Definition setEndAfter (doc : Node) (range : Range) (node : nat) : Outcome Range :=
  match parentNode doc node, indexOf doc node with
  | Some parent, Some index => setEnd doc range parent (index + 1)
  | _, _ => Throws "InvalidNodeTypeError"
  end.

(** [range.collapse(true)] *)
Definition collapseToStart (range : Range) : Range :=
  mkRange (startContainer range) (startOffset range) (startContainer range) (startOffset range).

(** The tree without the node [n] (and its subtree). *)
Definition removeFrom (n : nat) (x : Node) : Node :=
  substNode n (fun _ => []) x.

Definition isInclusiveDescendant (doc : Node) (a n : nat) : bool :=
  match lookup doc n with
  | Some x => existsb (Nat.eqb a) (ids x)
  | None => false
  end.

(** A live boundary point after the removal of the child at [index] of
    [parent], whose subtree was [removed]. *)
Definition adjustPoint (doc : Node) (removed parent : nat) (index : Z) (node : nat) (offset : Z)
  : nat * Z :=
  if isInclusiveDescendant doc node removed then (parent, index)
  else if Nat.eqb node parent && (index <? offset) then (node, offset - 1)
  else (node, offset).

(** [node.remove()] with a live range around. *)
Definition remove (doc : Node) (range : Range) (node : nat) : Node * Range :=
  match parentNode doc node, indexOf doc node with
  | Some parent, Some index =>
      let s := adjustPoint doc node parent index (startContainer range) (startOffset range) in
      let e := adjustPoint doc node parent index (endContainer range) (endOffset range) in
      (removeFrom node doc, mkRange (fst s) (snd s) (fst e) (snd e))
  | _, _ => (doc, range)
  end.

(** [this.compareDocumentPosition(other)] for two nodes of the document:
    0 the same node, 20 [other] is a descendant, 10 [other] is an
    ancestor, 2 [other] precedes, 4 [other] follows; 35 disconnected. *)
Fixpoint isPrefix (p q : list Z) : bool :=
  match p, q with
  | [], _ => true
  | _ :: _, [] => false
  | a :: p', b :: q' => (a =? b) && isPrefix p' q'
  end.

Definition compareDocumentPosition (doc : Node) (this other : nat) : Z :=
  match pathOf doc this, pathOf doc other with
  | Some p, Some q =>
      if Nat.eqb this other then 0
      else if isPrefix p q then 20
      else if isPrefix q p then 10
      else match lexCompare q p with
           | Lt => 2
           | _ => 4
           end
  | _, _ => 35
  end.

Definition DOCUMENT_POSITION_PRECEDING : Z := 2.
Definition DOCUMENT_POSITION_FOLLOWING : Z := 4.

(** [normalizeBoundaries(range)] of util/dom.ts *)
Definition normalizeBoundaries (doc : Node) (range : Range) : Outcome Range :=
  range1 <-
    (if compareDocumentPosition doc (startContainer range) (endContainer range)
          =? DOCUMENT_POSITION_FOLLOWING
     then setStartBefore doc range (endContainer range)
     else Returns range) ;;
  if compareDocumentPosition doc (endContainer range1) (startContainer range1)
       =? DOCUMENT_POSITION_PRECEDING
  then setEndAfter doc range1 (startContainer range1)
  else Returns range1.

(** [getMarker(host, id)]: [host.querySelector('#' + id)] for an id that
    can be written after the [#] as it is, as the ids
    [editable-range-boundary-N] of the markers can: the first element
    below the host whose [id] attribute is [id].  Other ids are outside
    this definition. *)
Definition getMarker (doc : Node) (host : nat) (id : string) : option nat :=
  match lookup doc host with
  | Some h =>
      option_map nid
        (find (fun x => isElement x && is_value (getAttributeOf x "id") id) (descendants h))
  | None => None
  end.

Record RangeInfo : Type := mkRangeInfo {
  markerId : option string;
  startMarkerId : option string;
  endMarkerId : option string;
  collapsed : bool;
  restored : bool
}.

(** A marker id that is not falsy. *)
Definition truthyId (id : option string) : option string :=
  match id with
  | Some s => if String.eqb s "" then None else Some s
  | None => None
  end.

(** [setRangeBoundary]: when the marker is gone the function logs and
    returns, leaving document and range as they are. *)
Definition setRangeBoundary (doc : Node) (host : nat) (range : Range) (markerId : string)
    (atStart : bool) : Outcome (Node * Range) :=
  match getMarker doc host markerId with
  | None => Returns (doc, range)
  | Some markerEl =>
      range1 <- (if atStart then setStartBefore doc range markerEl
                 else setEndBefore doc range markerEl) ;;
      Returns (remove doc range1 markerEl)
  end.

(** [restore(host, rangeInfo)]: the document afterwards and the returned
    range ([None] for [undefined]).  The assignment to
    [markerEl.style.display] is left out: it changes no node of the tree
    and the marker is removed right after it. *)
Definition restore (doc : Node) (host : nat) (rangeInfo : RangeInfo)
  : Outcome (Node * option Range) :=
  if restored rangeInfo then Returns (doc, None)
  else
    let range := createRange doc in
    if collapsed rangeInfo then
      match truthyId (markerId rangeInfo) with
      | None => Returns (doc, None)
      | Some id =>
          state <-
            match getMarker doc host id with
            | Some markerEl =>
                let previousNode := previousSibling doc markerEl in
                let previousIsText :=
                  match previousNode with
                  | Some previous =>
                      match nodeType doc previous with
                      | Some t => t =? textNode
                      | None => false
                      end
                  | None => false
                  end in
                match previousNode, previousIsText with
                | Some previous, true =>
                    let '(doc1, range1) := remove doc range markerEl in
                    len <- match nodeLength doc1 previous with
                           | Some len => Returns len
                           | None => Throws "InvalidNodeTypeError"
                           end ;;
                    range2 <- setStart doc1 range1 previous len ;;
                    Returns (doc1, range2)
                | _, _ =>
                    range1 <- setStartBefore doc range markerEl ;;
                    Returns (remove doc (collapseToStart range1) markerEl)
                end
            | None => Returns (doc, range)
            end ;;
          range' <- normalizeBoundaries (fst state) (snd state) ;;
          Returns (fst state, Some range')
      end
    else
      match truthyId (startMarkerId rangeInfo), truthyId (endMarkerId rangeInfo) with
      | Some startId, Some endId =>
          state1 <- setRangeBoundary doc host range startId true ;;
          state2 <- setRangeBoundary (fst state1) host (snd state1) endId false ;;
          range' <- normalizeBoundaries (fst state2) (snd state2) ;;
          Returns (fst state2, Some range')
      | _, _ => Returns (doc, None)
      end.

End RangeSaveRestore.

(** ** Reference definitions for the statements about walks

    These are not part of the program: they describe, by recursion on the
    tree, what the pointer-chasing walk of [NodeIterator] is compared
    with. *)

Module Walk.
Import Dom DomEdit.

(** [data-editable="remove"] *)
Definition isRemoved (x : Node) : bool :=
  is_value (getAttributeOf x "data-editable") "remove".

(** The subtree of [x] in depth-first pre-order, without the descendants
    of elements marked [data-editable="remove"]. *)
Fixpoint visible (x : Node) : list Node :=
  x :: match x with
       | TextNode _ _ => []
       | ElementNode _ _ attrs cs =>
           if is_value (assoc "data-editable" attrs) "remove" then []
           else flat_map visible cs
       end.

(** What comes after the subtree of a node whose frames up to the root of
    the walk are [c]: the following siblings of the node, then those of
    its parent, and so on, each with its visible subtree. *)
Fixpoint following (c : Ctx) : list Node :=
  match c with
  | [] => []
  | f :: up => flat_map visible (fafter f) ++ following up
  end.

(** The next sibling of the node if it has one, otherwise the next sibling
    of the nearest ancestor below the root of the walk that has one. *)
Fixpoint resume (c : Ctx) : option Node :=
  match c with
  | [] => None
  | f :: up =>
      match fafter f with
      | sibling :: _ => Some sibling
      | [] => resume up
      end
  end.

(** What a visited node adds to the extracted text. *)
Definition contribution (convertBRs : bool) (x : Node) : string :=
  match x with
  | TextNode _ d => d
  | ElementNode _ name _ _ =>
      if convertBRs && String.eqb name "BR" then HighlightText.newline else ""
  end.

(** The extracted text as C2 words it: text nodes give their data, BR
    elements a newline, and an element marked [data-editable="remove"]
    gives nothing at all. *)
Fixpoint claimedText (convertBRs : bool) (x : Node) : string :=
  match x with
  | TextNode _ d => d
  | ElementNode _ name attrs cs =>
      if is_value (assoc "data-editable" attrs) "remove" then ""
      else (if convertBRs && String.eqb name "BR" then HighlightText.newline else "")
           ++ concatAll (map (claimedText convertBRs) cs)
  end.

(** A text node with data. *)
Definition isNonEmptyTextNode (x : Node) : bool :=
  match x with
  | TextNode _ d => negb (String.eqb d "")
  | ElementNode _ _ _ _ => false
  end.

(** The non-empty text nodes among the visible nodes of [x]. *)
Definition textNodesOf (x : Node) : list Node :=
  filter isNonEmptyTextNode (visible x).

(** What is left of a list after its first element that satisfies [p]. *)
Fixpoint afterFirst {A : Type} (p : A -> bool) (l : list A) : list A :=
  match l with
  | [] => []
  | x :: rest => if p x then rest else afterFirst p rest
  end.

(** [s] is a proper descendant of [x]. *)
Definition properDescendant (x s : Node) : Prop :=
  exists c, c <> [] /\ At x c s.

(** The parent recorded in a frame is not marked [data-editable="remove"]. *)
Definition keptFrame (f : Frame) : Prop :=
  is_value (assoc "data-editable" (fattrs f)) "remove" = false.

(** The parent of a node [s] whose innermost frame is [f]. *)
Definition parentOf (f : Frame) (s : Node) : Node :=
  ElementNode (fparent f) (fname f) (fattrs f) (fbefore f ++ s :: fafter f).

(** The state of a walk below the root [T] whose remaining visits are the
    nodes [R]: either it is over, or its next node is a node [s] of the
    tree and [R] is the visible subtree of [s] and what follows it. *)
Definition Pending (T : Node) (next : option nat) (R : list Node) : Prop :=
  (next = None /\ R = []) \/
  (exists c s, At T c s /\ next = Some (nid s) /\ R = visible s ++ following c).

(** The tree in which the node [x] sits under the frames [c]. *)
Fixpoint rebuild (c : Ctx) (x : Node) : Node :=
  match c with
  | [] => x
  | f :: up => rebuild up (parentOf f x)
  end.

(** The identities of the ancestors recorded in the frames. *)
Definition parentIds (c : Ctx) : list nat := map fparent c.

(** The identities in the subtrees before, and after, the path [c]. *)
Definition beforeIds (c : Ctx) : list nat :=
  flat_map (fun f => flat_map ids (fbefore f)) c.

Definition afterIds (c : Ctx) : list nat :=
  flat_map (fun f => flat_map ids (fafter f)) c.

(** Where the walk resumes after the subtree of [s]: the node of [resume]
    together with its frames. *)
Fixpoint resumeAt (c : Ctx) (s : Node) : option (Ctx * Node) :=
  match c with
  | [] => None
  | f :: up =>
      match fafter f with
      | sibling :: rest =>
          Some (mkFrame (fparent f) (fname f) (fattrs f) (fbefore f ++ [s]) rest :: up, sibling)
      | [] => resumeAt up (parentOf f s)
      end
  end.

(** The position of the walk after it returned the node [s] with the
    frames [c]: the first child unless [s] is marked
    [data-editable="remove"] or has none, then [resumeAt]. *)
Definition advance (c : Ctx) (s : Node) : option (Ctx * Node) :=
  match s with
  | ElementNode i name attrs (ch :: rest) =>
      if is_value (assoc "data-editable" attrs) "remove" then resumeAt c s
      else Some (mkFrame i name attrs [] rest :: c, ch)
  | _ => resumeAt c s
  end.

(** The nodes a walk at a position still returns. *)
Definition pending (pos : option (Ctx * Node)) : list Node :=
  match pos with
  | Some (c, s) => visible s ++ following c
  | None => []
  end.

(** An element that carries one of the highlight ids [L] in its
    [data-word-id] attribute. *)
Definition isTagged (L : list string) (x : Node) : bool :=
  match x with
  | TextNode _ _ => false
  | ElementNode _ _ attrs _ =>
      match assoc "data-word-id" attrs with
      | Some v => existsb (String.eqb v) L
      | None => false
      end
  end.

(** The extracted text by recursion on the tree. *)
Fixpoint textOf (convertBRs : bool) (x : Node) : string :=
  match x with
  | TextNode _ d => d
  | ElementNode _ name attrs cs =>
      ((if convertBRs && String.eqb name "BR" then HighlightText.newline else "")
       ++ (if is_value (assoc "data-editable" attrs) "remove" then ""
           else concatAll (map (textOf convertBRs) cs)))%string
  end.

(** The extracted text when the elements tagged with an id of [L] are
    looked through: such an element gives the text of its children and
    nothing else. *)
Fixpoint plainText (L : list string) (convertBRs : bool) (x : Node) : string :=
  match x with
  | TextNode _ d => d
  | ElementNode _ name attrs cs =>
      if isTagged L x then concatAll (map (plainText L convertBRs) cs)
      else
        ((if convertBRs && String.eqb name "BR" then HighlightText.newline else "")
         ++ (if is_value (assoc "data-editable" attrs) "remove" then ""
             else concatAll (map (plainText L convertBRs) cs)))%string
  end.

(** The same for a host: the host itself is never looked through. *)
Definition hostText (L : list string) (convertBRs : bool) (host : Node) : string :=
  match host with
  | TextNode _ d => d
  | ElementNode _ name attrs cs =>
      ((if convertBRs && String.eqb name "BR" then HighlightText.newline else "")
       ++ (if is_value (assoc "data-editable" attrs) "remove" then ""
           else concatAll (map (plainText L convertBRs) cs)))%string
  end.

(** Nodes and characters of a list of nodes. *)
Definition load (l : list Node) : nat :=
  list_sum (map (fun x => match x with
                          | TextNode _ d => S (String.length d)
                          | ElementNode _ _ _ _ => 1%nat
                          end) l).

(** [substNode] on a list of children and on the siblings of a frame. *)
Definition substChildren (n : nat) (g : Node -> list Node) (l : list Node) : list Node :=
  flat_map (fun ch => if Nat.eqb (nid ch) n then g ch else [substNode n g ch]) l.

Definition substFrame (n : nat) (g : Node -> list Node) (f : Frame) : Frame :=
  mkFrame (fparent f) (fname f) (fattrs f)
    (substChildren n g (fbefore f)) (substChildren n g (fafter f)).

(** All identities recorded in a frame, and in the frames of a path. *)
Definition frameIds (f : Frame) : list nat :=
  fparent f :: flat_map ids (fbefore f) ++ flat_map ids (fafter f).

Definition ctxIds (c : Ctx) : list nat := flat_map frameIds c.

(** The nodes that take the place of the text node of a portion. *)
Definition wrapNodes (doc : Node) (portion : HighlightText.Portion) (name : string)
    (attrs : list (string * string)) (title : option string) (d : string) : list Node :=
  let rangeEnd := HighlightText.offset portion + HighlightText.length portion in
  let rangeStart := Z.min (HighlightText.offset portion) rangeEnd in
  let node := freshId doc in
  let attrs1 := setAttribute attrs "data-word-id" (HighlightText.wordId portion) in
  let attrs2 :=
    match HighlightText.truthy title with
    | Some t => setAttribute attrs1 "title" t
    | None => attrs1
    end in
  TextNode (HighlightText.element portion) (takeStr (Z.to_nat rangeStart) d)
  :: ElementNode node name attrs2
       (if rangeStart =? rangeEnd then []
        else [TextNode (S node)
                (takeStr (Z.to_nat (rangeEnd - rangeStart)) (dropStr (Z.to_nat rangeStart) d))])
  :: (if String.eqb (dropStr (Z.to_nat rangeEnd) d) "" then []
      else [TextNode (S (S node)) (dropStr (Z.to_nat rangeEnd) d)]).

(** A portion that can be wrapped: its element is a text node of the
    document, its range lies in the text, and its id is one of [L]. *)
Definition PortionOk (L : list string) (doc : Dom.Node) (p : HighlightText.Portion) : Prop :=
  exists d, Dom.lookup doc (HighlightText.element p)
            = Some (Dom.TextNode (HighlightText.element p) d) /\
            0 <= HighlightText.offset p <= Z.of_nat (String.length d) /\
            0 <= HighlightText.offset p + HighlightText.length p <= Z.of_nat (String.length d) /\
            existsb (String.eqb (HighlightText.wordId p)) L = true.

(** The portions collected so far when the walk below [host] is at [pos]:
    they lie on distinct text nodes that the walk has passed. *)
Definition Collected (L : list string) (doc host : Dom.Node)
    (pos : option (Dom.Ctx * Dom.Node)) (portions : list HighlightText.Portion) : Prop :=
  NoDup (map HighlightText.element portions) /\
  forall c s, pos = Some (c, s) ->
    Dom.At host c s /\
    forall p, In p portions ->
      PortionOk L doc p /\ In (HighlightText.element p) (beforeIds c).

(** The identity and the [data-word-id] attribute of a node, and those of
    the descendants of a node in document order. *)
Definition mark (x : Dom.Node) : nat * option string :=
  (Dom.nid x, Dom.getAttributeOf x "data-word-id").

Definition marks (x : Dom.Node) : list (nat * option string) :=
  map mark (DomEdit.descendants x).

(** A [data-word-id] value that is one of the ids [L]. *)
Definition taggedValue (L : list string) (v : option string) : bool :=
  match v with
  | Some w => existsb (String.eqb w) L
  | None => false
  end.

End Walk.

(** ** Sample documents *)

Module Samples.
Import Dom.

(** [<div>Foo <br data-editable="remove">Bar</div>], as in the content
    tests, in a document. *)
Definition fooBarHost : Node :=
  ElementNode 1 "DIV" []
    [TextNode 2 "Foo "; ElementNode 3 "BR" [("data-editable", "remove")] []; TextNode 4 "Bar"].

Definition fooBarDoc : Node := ElementNode 0 "#document" [] [fooBarHost].

(** [<div><b><i>a</i></b><span data-editable="remove">x</span>b</div>] *)
Definition nestedHost : Node :=
  ElementNode 1 "DIV" []
    [ElementNode 2 "B" [] [ElementNode 3 "I" [] [TextNode 4 "a"]];
     ElementNode 5 "SPAN" [("data-editable", "remove")] [TextNode 6 "x"];
     TextNode 7 "b"].

Definition nestedDoc : Node := ElementNode 0 "#document" [] [nestedHost].

Definition documentFrame : Frame := mkFrame 0 "#document" [] [] [].

(** The frames from the text node "a" up to the DIV. *)
Definition nestedCtx : Ctx :=
  [mkFrame 3 "I" [] [] [];
   mkFrame 2 "B" [] [] [];
   mkFrame 1 "DIV" [] []
     [ElementNode 5 "SPAN" [("data-editable", "remove")] [TextNode 6 "x"]; TextNode 7 "b"]].

(** [<div>abcde<br>fgh</div>]: eight characters on two lines. *)
Definition twoLinesHost : Node :=
  ElementNode 1 "DIV" [] [TextNode 2 "abcde"; ElementNode 3 "BR" [] []; TextNode 4 "fgh"].

Definition twoLinesDoc : Node := ElementNode 0 "#document" [] [twoLinesHost].

(** Its rendering: characters are 5 pixels wide and lines 10 pixels high;
    the first line starts at the top, the second below it. *)
Definition twoLinesRect (node : nat) (offset : Z) : option (BinarySearch.DOMRect Z) :=
  if Nat.eqb node 2
  then Some (BinarySearch.mkRect Z (5 * offset) 0 10)
  else Some (BinarySearch.mkRect Z (5 * offset) 10 20).

(** [<div>abc</div>] with no marker in it. *)
Definition abcHost : Node := ElementNode 1 "DIV" [] [TextNode 2 "abc"].

Definition abcDoc : Node := ElementNode 0 "#document" [] [abcHost].

(** The marker element that [save] inserts. *)
Definition markerElement (i : nat) (id : string) : Node :=
  ElementNode i "SPAN" [("id", id); ("data-editable", "remove")] [TextNode (S i) "x"].

(** [<div>ab|c</div>] after saving the cursor. *)
Definition savedDoc : Node :=
  ElementNode 0 "#document" []
    [ElementNode 1 "DIV" []
       [TextNode 2 "ab"; markerElement 10 "editable-range-boundary-1"; TextNode 3 "c"]].

(** [<div>a<br data-word-id="x">b</div>]: a line break that carries the
    id of a highlight. *)
Definition taggedBRHost : Node :=
  ElementNode 1 "DIV" []
    [TextNode 2 "a"; ElementNode 3 "BR" [("data-word-id", "x")] []; TextNode 4 "b"].

(** The marker element of a comment highlight, as [createMarkerNode]
    makes it. *)
Definition commentMarker : Node :=
  ElementNode 0 "SPAN"
    [("class", "highlight-comment"); ("data-editable", "ui-unwrap");
     ("data-highlight", "comment")] [].

(** The match "a" at the start of the text, with the id "x". *)
Definition firstCharacterMatch : HighlightText.ExtendedMatch :=
  HighlightText.mkExtendedMatch 0 1 "a" (Some commentMarker) (Some "x") None.

(** The match from "d" to "g" in [twoLinesHost], across the line break,
    with the id "x". *)
Definition acrossLinesMatch : HighlightText.ExtendedMatch :=
  HighlightText.mkExtendedMatch 3 8 ("de" ++ HighlightText.newline ++ "fg")
    (Some commentMarker) (Some "x") None.

End Samples.

(* ================================================================== *)
(** ** Reference definitions for the statements about the match collection *)

Module MergeOrder.
Import MatchCollection.

(** The order in which [pickNext] hands out the items of two lists: the
    item with the strictly smaller start index first, the item of the
    second list on a tie, and what is left of one list when the other is
    used up. *)
Fixpoint pickOrder (l1 : list Match) : list Match -> list Match :=
  fix pickOrder_l1 (l2 : list Match) : list Match :=
    match l1, l2 with
    | [], _ => l2
    | _, [] => l1
    | m1 :: r1, m2 :: r2 =>
        if startIndex m1 <? startIndex m2
        then m1 :: pickOrder r1 l2
        else m2 :: pickOrder_l1 r2
    end.

(** What the loop keeps of the items in the order they are picked: an
    item is kept when it starts at or after the end of the item picked
    before it, kept or not. *)
Fixpoint keep (lastEndIndex : Z) (l : list Match) : list Match :=
  match l with
  | [] => []
  | next :: rest =>
      if startIndex next >=? lastEndIndex
      then next :: keep (endIndex next) rest
      else keep (endIndex next) rest
  end.

(** A match with at least one character. *)
Definition proper (m : Match) : Prop := startIndex m < endIndex m.

(** No match starts before another and ends after it, and matches that
    start together end together. *)
Definition endsFollowStarts (l : list Match) : Prop :=
  forall m m', In m l -> In m' l -> startIndex m <= startIndex m' -> endIndex m <= endIndex m'.

End MergeOrder.
(** ** Properties of nodes kept by the edits *)

Module Shape.
Import Dom DomEdit.

(** A property of nodes that every text node has and that, for an
    element, does not depend on its children. *)
Definition shallow (Q : Node -> Prop) : Prop :=
  (forall i d, Q (TextNode i d)) /\
  (forall i name attrs cs cs',
     Q (ElementNode i name attrs cs) -> Q (ElementNode i name attrs cs')).

(** The attributes of the clone of a marker once [wrapPortion] has set
    its [data-word-id] and, for a title that is not empty, its [title]. *)
Definition spanAttributes (attrs : list (string * string)) (wordId : string)
    (title : option string) : list (string * string) :=
  let attrs1 := setAttribute attrs "data-word-id" wordId in
  match HighlightText.truthy title with
  | Some t => setAttribute attrs1 "title" t
  | None => attrs1
  end.

(** The node and its descendants. *)
Definition subtree (x : Node) : list Node := x :: descendants x.

(** A clone of a marker with the given name and attributes, carrying one
    of the ids [L]. *)
Definition cloneOf (L : list string) (name : string) (attrs : list (string * string))
    (title : option string) (y : Node) : Prop :=
  exists w j cs,
    existsb (String.eqb w) L = true /\
    y = ElementNode j name (spanAttributes attrs w title) cs.

(** A clone of the marker of one of the matches. *)
Definition cloneOfMarker (L : list string) (matches : list HighlightText.ExtendedMatch)
    (y : Node) : Prop :=
  exists m i name attrs scs,
    In m matches /\
    HighlightText.marker m = Some (ElementNode i name attrs scs) /\
    cloneOf L name attrs (HighlightText.title m) y.

(** The same element, but for its children. *)
Definition sameElement (y y' : Node) : Prop :=
  isElement y' = true /\
  nid y' = nid y /\ nodeNameOf y' = nodeNameOf y /\ attributes y' = attributes y.

(** Every element below [T] is still below [T'], with its name and
    attributes. *)
Definition elementsStay (T T' : Node) : Prop :=
  forall y, In y (descendants T) -> isElement y = true ->
    exists y', In y' (descendants T') /\ sameElement y y'.

(** What an edit of the host [T] keeps when the elements it adds are
    [added]: a shallow property that the added elements have holds of all
    descendants of the host afterwards if it did before. *)
Definition kept (added : Node -> Prop) (T T' : Node) : Prop :=
  forall Q : Node -> Prop,
    shallow Q -> (forall y, added y -> Q y) ->
    Forall Q (descendants T) -> Forall Q (descendants T').

End Shape.

(** ** Further sample documents *)

Module Examples.
Import Dom.

(** [<div>a<span class="highlight-comment" data-word-id="x">b</span>c</div>]:
    a host with the highlight "x" on its second character. *)
Definition highlightedHost : Node :=
  ElementNode 1 "DIV" []
    [TextNode 2 "a";
     ElementNode 3 "SPAN" [("class", "highlight-comment"); ("data-word-id", "x")]
       [TextNode 4 "b"];
     TextNode 5 "c"].

Definition highlightedDoc : Node := ElementNode 0 "#document" [] [highlightedHost].

(** [<div>a<span data-highlight="comment"></span><span
    data-highlight="comment">b</span><span
    data-highlight="comment"><br></span></div>]: a host with two markers
    that hold no text. *)
Definition staleMarkersHost : Node :=
  ElementNode 1 "DIV" []
    [TextNode 2 "a";
     ElementNode 3 "SPAN" [("data-highlight", "comment")] [];
     ElementNode 4 "SPAN" [("data-highlight", "comment")] [TextNode 5 "b"];
     ElementNode 6 "SPAN" [("data-highlight", "comment")] [ElementNode 7 "BR" [] []]].

Definition staleMarkersDoc : Node := ElementNode 0 "#document" [] [staleMarkersHost].

End Examples.

(** ** highlight-support.ts: highlighting a range of characters *)

Module HighlightRange.
Import Dom DomEdit HighlightText HighlightSupport.

(** [text.substring(start, end)]: both indices are brought into the
    string and swapped when the first is the larger one. *)
Definition substring (text : string) (indexStart indexEnd : Z) : string :=
  let len := Z.of_nat (String.length text) in
  let intStart := Z.min (Z.max indexStart 0) len in
  let intEnd := Z.min (Z.max indexEnd 0) len in
  let from := Z.min intStart intEnd in
  let to := Z.max intStart intEnd in
  takeStr (Z.to_nat (to - from)) (dropStr (Z.to_nat from) text).

(** The characters that the markup [<span class="highlight-type"></span>]
    may not take as they are when they occur in the type: the quotation
    mark (34) ends the attribute value, the ampersand (38) starts a
    character reference, the carriage return (13) is turned into a line
    feed and the null character (0) is replaced; the angle brackets (60,
    62) are left out as well. *)
Definition markupSpecial (c : ascii) : bool :=
  let code := nat_of_ascii c in
  ((code =? 34) || (code =? 38) || (code =? 60) || (code =? 62) || (code =? 13)
   || (code =? 0))%nat.

(** A type that the markup takes as it is. *)
Fixpoint markupLiteral (s : string) : bool :=
  match s with
  | EmptyString => true
  | String c rest => negb (markupSpecial c) && markupLiteral rest
  end.

(** [createMarkerNode('<span class="highlight-' + type + '"></span>',
    type, win)] with a window at hand, for a type with
    [markupLiteral highlightType = true]: the element parsed from the
    markup is then a SPAN whose [class] attribute is ["highlight-"] and
    the type, and [data-editable] and [data-highlight] are set on it.
    For any other type the markup is parsed into another element; such
    types are outside this definition, and the properties of
    [highlightRange] are stated for types with [markupLiteral].  The
    element is outside the document; it is given the identity 0, and only
    clones of it enter the document. *)
Definition createMarkerNode (highlightType : string) : Node :=
  ElementNode 0 "SPAN"
    (setAttribute
       (setAttribute [("class", ("highlight-" ++ highlightType)%string)] "data-editable" "ui-unwrap")
       "data-highlight" highlightType)
    [].

(** [highlightRange(editableHost, text, highlightId, startIndex, endIndex,
    dispatcher, win, type)] with a window at hand and without the
    dispatcher, for an id with [selectorLiteral] and a type with
    [markupLiteral]: the document afterwards and the returned number. *)
Definition highlightRange (doc : Node) (editableHost : nat) (text highlightId : string)
    (startIndex endIndex : Z) (type : string) : Outcome (Node * Z) :=
  let doc1 :=
    if hasHighlight doc editableHost highlightId
    then removeHighlight doc editableHost highlightId
    else doc in
  match extractText doc1 editableHost false with
  | None => OutOfFuel
  | Some blockText =>
      if String.eqb blockText "" then Returns (doc1, -1)
      else
        let marker := createMarkerNode type in
        doc2 <- highlightMatches doc1 editableHost
                  [mkExtendedMatch startIndex endIndex (substring text startIndex endIndex)
                     (Some marker) (Some highlightId) None]
                  false ;;
        Returns (doc2, startIndex)
  end.

End HighlightRange.

(** ** node-iterator.ts: the walk backwards *)

Module NodeIteratorBack.
Import Dom NodeIterator.

Definition lastChild (doc : Node) (n : nat) : option nat :=
  match lookup doc n with
  | Some x => option_map nid (hd_error (rev (childNodes x)))
  | None => None
  end.

(** The loop of [getPrevious]:
    [while ((n !== this.root) && n) { if (n.previousSibling) { previous =
    n.previousSibling; break }; n = n.parentNode }], with the number of
    nodes of the document as [fuel]. *)
Fixpoint climbBack (fuel : nat) (doc : Node) (root : nat) (n : nat) : option nat :=
  match fuel with
  | O => None
  | S fuel' =>
      if Nat.eqb n root then None
      else
        match previousSibling doc n with
        | Some sibling => Some sibling
        | None =>
            match parentNode doc n with
            | Some p => climbBack fuel' doc root p
            | None => None
            end
        end
  end.

(** [getPrevious()]: the new iterator state and the returned node. *)
Definition getPrevious (doc : Node) (it : NodeIterator) : NodeIterator * option nat :=
  match previous it with
  | None => (mkIterator None None (nextNode it) (root it), None)
  | Some n =>
      let prev :=
        match lastChild doc n with
        | Some child =>
            if negb (is_value (getAttribute doc n "data-editable") "remove")
            then Some child
            else climbBack (size doc) doc (root it) n
        | None => climbBack (size doc) doc (root it) n
        end in
      (mkIterator (Some n) prev (nextNode it) (root it), Some n)
  end.

(** [getPreviousTextNode()]: [None] when [fuel] calls of [getPrevious]
    were not enough to reach a text node or the end. *)
Fixpoint getPreviousTextNode (fuel : nat) (doc : Node) (it : NodeIterator)
  : option (NodeIterator * option nat) :=
  match fuel with
  | O => None
  | S fuel' =>
      match getPrevious doc it with
      | (it', None) => Some (it', None)
      | (it', Some prev) =>
          if isNonEmptyText doc prev then Some (it', Some prev)
          else getPreviousTextNode fuel' doc it'
      end
  end.

(** The result of the call number [j] (counted from 0) in a row of
    [getPreviousTextNode()] calls, each with the fuel [fuel]. *)
Fixpoint getPreviousTextNode_nth (fuel : nat) (j : nat) (doc : Node) (it : NodeIterator)
  : option (option nat) :=
  match getPreviousTextNode fuel doc it with
  | None => None
  | Some (it', result) =>
      match j with
      | O => Some result
      | S j' => getPreviousTextNode_nth fuel j' doc it'
      end
  end.

(** The result of the call number [j] in a row of [getPrevious()]
    calls. *)
Fixpoint getPrevious_nth (j : nat) (doc : Node) (it : NodeIterator) : option nat :=
  match getPrevious doc it with
  | (it', result) =>
      match j with
      | O => result
      | S j' => getPrevious_nth j' doc it'
      end
  end.

(** Reference definitions: the tree with the children of every element
    in reverse order, and an iterator with its two directions
    exchanged. *)
Fixpoint mirror (x : Node) : Node :=
  match x with
  | TextNode _ _ => x
  | ElementNode i name attrs cs => ElementNode i name attrs (rev (map mirror cs))
  end.

Definition mirrorFrame (f : Frame) : Frame :=
  mkFrame (fparent f) (fname f) (fattrs f)
    (rev (map mirror (fafter f))) (rev (map mirror (fbefore f))).

Definition turn (it : NodeIterator) : NodeIterator :=
  mkIterator (current it) (nextNode it) (previous it) (root it).

End NodeIteratorBack.

From Stdlib Require Import DecimalPos DecimalZ.

(** ** range-save-restore.ts: saving a range *)

Module RangeSave.
Import Dom DomEdit RangeSaveRestore.

(** The marker text, the character U+FEFF, written as one character. *)
Definition markerTextChar : string := String (ascii_of_nat 255) EmptyString.

(** [range.collapsed] *)
Definition isCollapsed (range : Range) : bool :=
  Nat.eqb (startContainer range) (endContainer range)
  && (startOffset range =? endOffset range).

(** The node and its ancestors, from the node upwards. *)
Definition inclusiveAncestors (doc : Node) (n : nat) : list nat :=
  match locate doc n with
  | Some (c, x) => nid x :: map fparent c
  | None => []
  end.

(** [range.commonAncestorContainer]: the first of the start container
    and its ancestors that is the end container or an ancestor of it. *)
Definition commonAncestorContainer (doc : Node) (range : Range) : nat :=
  match find (fun a => isInclusiveDescendant doc (endContainer range) a)
             (inclusiveAncestors doc (startContainer range)) with
  | Some a => a
  | None => nid doc
  end.

(** [node.parentElement]: the parent unless it is the document, which is
    the top node of the tree. *)
Definition parentElement (doc : Node) (n : nat) : option nat :=
  match parentNode doc n with
  | Some p => if Nat.eqb p (nid doc) then None else Some p
  | None => None
  end.

Definition isSecondChildOfCommonAncestor (doc : Node) (range : Range) (rangeContainer : nat)
  : bool :=
  let parent := commonAncestorContainer doc range in
  match nodeType doc parent with
  | Some 3 => false
  | _ =>
      match parentElement doc rangeContainer with
      | Some possibleChild =>
          match parentElement doc possibleChild with
          | Some p => Nat.eqb p parent
          | None => false
          end
      | None => false
      end
  end.

(** A live boundary point after a node was inserted as the child at
    [index] of [parent]. *)
Definition shiftPoint (parent : nat) (index : Z) (node : nat) (offset : Z) : nat * Z :=
  if Nat.eqb node parent && (index <? offset) then (node, offset + 1) else (node, offset).

Definition appendChild (new : Node) (p : Node) : Node :=
  match p with
  | ElementNode i name attrs cs => ElementNode i name attrs (cs ++ [new])
  | TextNode _ _ => p
  end.

(** [parent.insertBefore(new, child)] for a node [new] that is not in
    the document, with a live range around. *)
Definition insertBefore (doc : Node) (range : Range) (parent : nat) (new : Node)
    (child : option nat) : Outcome (Node * Range) :=
  match child with
  | Some ref =>
      match parentNode doc ref, indexOf doc ref with
      | Some p, Some index =>
          if Nat.eqb p parent then
            let s := shiftPoint parent index (startContainer range) (startOffset range) in
            let e := shiftPoint parent index (endContainer range) (endOffset range) in
            Returns (substNode ref (fun r => [new; r]) doc,
                     mkRange (fst s) (snd s) (fst e) (snd e))
          else Throws "NotFoundError"
      | _, _ => Throws "NotFoundError"
      end
  | None => Returns (updateNode parent (appendChild new) doc, range)
  end.

(** A live boundary point after the text node [node], the child at
    [index] of [parent], was split at [offset] and [new] holds the text
    behind it. *)
Definition splitPoint (node new parent : nat) (index offset : Z) (n : nat) (o : Z) : nat * Z :=
  if Nat.eqb n node && (offset <? o) then (new, o - offset)
  else if Nat.eqb n parent && (index <? o) then (n, o + 1)
  else (n, o).

(** [node.splitText(offset)] for a text node with a parent, with a live
    range around; [new] is the identity of the new text node. *)
Definition splitText (doc : Node) (range : Range) (node : nat) (offset : Z) (new : nat)
  : Outcome (Node * Range) :=
  match lookup doc node, parentNode doc node, indexOf doc node with
  | Some (TextNode _ d), Some parent, Some index =>
      if (offset <? 0) || (Z.of_nat (String.length d) <? offset) then Throws "IndexSizeError"
      else
        let s := splitPoint node new parent index offset
                   (startContainer range) (startOffset range) in
        let e := splitPoint node new parent index offset
                   (endContainer range) (endOffset range) in
        Returns (substNode node
                   (fun _ => [TextNode node (takeStr (Z.to_nat offset) d);
                              TextNode new (dropStr (Z.to_nat offset) d)])
                   doc,
                 mkRange (fst s) (snd s) (fst e) (snd e))
  | _, _, _ => Throws "HierarchyRequestError"
  end.

(** [boundaryRange.insertNode(new)] for the collapsed range at the point
    [(node, offset)] and a node [new] that is not in the document, with
    the live range [range] around: a text node is split at the point and
    the node is put between the halves; in an element the node becomes
    the child at [offset]. *)
Definition insertNode (doc : Node) (range : Range) (node : nat) (offset : Z) (new : Node)
    (splitId : nat) : Outcome (Node * Range) :=
  match lookup doc node with
  | Some (TextNode _ _) =>
      match parentNode doc node with
      | Some parent =>
          state <- splitText doc range node offset splitId ;;
          insertBefore (fst state) (snd state) parent new (Some splitId)
      | None => Throws "HierarchyRequestError"
      end
  | Some (ElementNode _ _ _ cs) =>
      insertBefore doc range node new (option_map nid (nth_error cs (Z.to_nat offset)))
  | None => Throws "InvalidNodeTypeError"
  end.

(** The id of the marker number [n]. *)
Definition boundaryId (n : Z) : string :=
  "editable-range-boundary-" ++ NilZero.string_of_int (Z.to_int n).

(** The marker element: a SPAN with its id, [data-editable="remove"], a
    style that hides it, and the marker text. *)
Definition createMarkerEl (i : nat) (id : string) : Node :=
  ElementNode i "SPAN"
    [("id", id); ("data-editable", "remove"); ("style", "line-height: 0; display: none;")]
    [TextNode (S i) markerTextChar].

(** What [save] works on: the document, the live range, and the counter
    [boundaryMarkerId] of the module. *)
Record State : Type := mkState {
  document : Node;
  liveRange : Range;
  boundaryMarkerId : Z
}.

Definition setStartAfter (doc : Node) (range : Range) (node : nat) : Outcome Range :=
  match parentNode doc node, indexOf doc node with
  | Some parent, Some index => setStart doc range parent (index + 1)
  | _, _ => Throws "InvalidNodeTypeError"
  end.

(** [insertRangeBoundaryMarker(range, atStart)]: the state afterwards and
    the marker element.  The document has a window.  New nodes take the
    identities above those of the document: the marker, its text, and the
    text node a split makes. *)
Definition insertRangeBoundaryMarker (state : State) (atStart : bool)
  : Outcome (State * nat) :=
  let doc := document state in
  let range := liveRange state in
  let container := commonAncestorContainer doc range in
  if Nat.eqb container (nid doc) then Throws "Cannot save range: range is empty"
  else
    let counter := boundaryMarkerId state + 1 in
    let markerEl := createMarkerEl (freshId doc) (boundaryId counter) in
    let splitId := S (S (freshId doc)) in
    let directlyBeforeFormatTag :=
      atStart && isSecondChildOfCommonAncestor doc range (startContainer range) in
    let directlyAfterFormatTag :=
      negb atStart && isSecondChildOfCommonAncestor doc range (endContainer range) in
    result <-
      (if directlyBeforeFormatTag then
         match parentElement doc (startContainer range) with
         | Some startParentElem =>
             match parentElement doc startParentElem with
             | Some parent => insertBefore doc range parent markerEl (Some startParentElem)
             | None => Returns (doc, range)
             end
         | None => Returns (doc, range)
         end
       else if directlyAfterFormatTag then
         match parentElement doc (endContainer range) with
         | Some endParentElem =>
             match parentElement doc endParentElem with
             | Some parent =>
                 insertBefore doc range parent markerEl (nextSibling doc endParentElem)
             | None => Returns (doc, range)
             end
         | None => Returns (doc, range)
         end
       else if atStart then
         insertNode doc range (startContainer range) (startOffset range) markerEl splitId
       else
         insertNode doc range (endContainer range) (endOffset range) markerEl splitId) ;;
    Returns (mkState (fst result) (snd result) counter, nid markerEl).

(** [save(range)]: the state afterwards and the range info. *)
Definition save (state : State) : Outcome (State * RangeInfo) :=
  if isCollapsed (liveRange state) then
    r <- insertRangeBoundaryMarker state false ;;
    let '(state1, endEl) := r in
    let rangeInfo :=
      mkRangeInfo (Some (boundaryId (boundaryMarkerId state1))) None None true false in
    let doc := document state1 in
    range <-
      (if isCollapsed (liveRange state1) then
         range1 <- setStartBefore doc (liveRange state1) endEl ;;
         Returns (collapseToStart range1)
       else setEndBefore doc (liveRange state1) endEl) ;;
    Returns (mkState doc range (boundaryMarkerId state1), rangeInfo)
  else
    r1 <- insertRangeBoundaryMarker state false ;;
    let '(state1, endEl) := r1 in
    r2 <- insertRangeBoundaryMarker state1 true ;;
    let '(state2, startEl) := r2 in
    let rangeInfo :=
      mkRangeInfo None (Some (boundaryId (boundaryMarkerId state2)))
        (Some (boundaryId (boundaryMarkerId state1))) false false in
    let doc := document state2 in
    range <-
      (if isCollapsed (liveRange state2) then
         range1 <- setStartBefore doc (liveRange state2) endEl ;;
         Returns (collapseToStart range1)
       else
         range1 <- setEndBefore doc (liveRange state2) endEl ;;
         setStartAfter doc range1 startEl) ;;
    Returns (mkState doc range (boundaryMarkerId state2), rangeInfo).

End RangeSave.

(** ** highlight-support.ts: removing stale markers *)

Module MarkerCleanup.
Import Dom DomEdit.

(** The selector [span[data-highlight="type"]] for a type with
    [HighlightSupport.selectorLiteral highlightType = true]: a SPAN
    element whose [data-highlight] attribute is the type.  For any other
    type the selector is another one or is invalid; such types are
    outside this definition, and the property of
    [cleanupStaleMarkerNodes] is stated for types with
    [selectorLiteral]. *)
Definition isMarkerOfType (highlightType : string) (x : Node) : bool :=
  isElement x && String.eqb (nodeNameOf x) "SPAN"
  && is_value (getAttributeOf x "data-highlight") highlightType.

Definition querySelectorAllMarkers (doc : Node) (editableHost : nat) (highlightType : string)
  : list nat :=
  match lookup doc editableHost with
  | Some h => map nid (filter (isMarkerOfType highlightType) (descendants h))
  | None => []
  end.

(** The body of the loop: [if (!node.textContent ||
    !node.textContent.length) node.remove()].  A node that left the
    document with an ancestor is no longer found; removing it from that
    ancestor changes nothing in the document. *)
Definition removeIfEmpty (doc : Node) (node : nat) : Node :=
  match lookup doc node with
  | Some x =>
      if String.eqb (Element.textContentOf x) "" then RangeSaveRestore.removeFrom node doc
      else doc
  | None => doc
  end.

(** [cleanupStaleMarkerNodes(editableHost, highlightType)] *)
Definition cleanupStaleMarkerNodes (doc : Node) (editableHost : nat) (highlightType : string)
  : Node :=
  fold_left removeIfEmpty (querySelectorAllMarkers doc editableHost highlightType) doc.

(** Reference definition: [y'] is the node [y] with some of its
    descendants gone and the same text content. *)
Definition thinned (y y' : Node) : Prop :=
  nid y' = nid y /\ isElement y' = isElement y /\
  nodeNameOf y' = nodeNameOf y /\ attributes y' = attributes y /\
  Element.textContentOf y' = Element.textContentOf y /\
  incl (ids y') (ids y).

(** What holds of the host [T] of a document, first [host], while the
    markers [processed] have been looked at. *)
Definition cleaned (rootCtx : Ctx) (host : Node) (type : string) (processed : list nat)
    (T : Node) : Prop :=
  NoDup (ids (Walk.rebuild rootCtx T)) /\
  nid T = nid host /\
  Walk.textOf false T = Walk.textOf false host /\
  (forall y', In y' (descendants T) -> exists y, In y (descendants host) /\ thinned y y') /\
  incl (ids T) (ids host) /\
  (forall n y, In n processed -> In y (descendants T) -> nid y = n ->
     Element.textContentOf y <> "") /\
  (forall j, In j (ids host) -> ~ In j (ids T) ->
     exists y, In y (descendants host) /\ isMarkerOfType type y = true /\
               Element.textContentOf y = "" /\ In j (ids y)).

End MarkerCleanup.

(** ** util/dom.ts: a range from character offsets *)

Module CharacterRange.
Import Dom DomEdit RangeSaveRestore Shape.

(** [NodeFilter.SHOW_TEXT] *)
Definition showText (x : Node) : bool :=
  match x with
  | TextNode _ _ => true
  | ElementNode _ _ _ _ => false
  end.

(** The nodes a TreeWalker with [NodeFilter.SHOW_TEXT] and no filter
    visits from its root on: the text nodes among the descendants of the
    root, in document order. *)
Definition textNodesBelow (root : Node) : list Node :=
  filter showText (descendants root).

(** [node.nodeValue?.length || 0] *)
Definition nodeValueLength (x : Node) : Z :=
  match x with
  | TextNode _ d => Z.of_nat (String.length d)
  | ElementNode _ _ _ _ => 0
  end.

(** The loop of [createRangeFromCharacterRange] over the nodes the
    walker still has.  [start] is [startNode] with [startOffset] once the
    node is set; the result is the start and the end as the loop leaves
    them, the end being set only where the loop breaks. *)
Fixpoint walk (actualStartIndex actualEndIndex : Z) (nodes : list Node) (currentIndex : Z)
    (start : option (nat * Z)) : option (nat * Z) * option (nat * Z) :=
  match nodes with
  | [] => (start, None)
  | node :: rest =>
      let nodeLength := nodeValueLength node in
      if currentIndex + nodeLength <=? actualStartIndex then
        walk actualStartIndex actualEndIndex rest (currentIndex + nodeLength) start
      else
        let start1 :=
          match start with
          | None => Some (nid node, actualStartIndex - currentIndex)
          | Some _ => start
          end in
        if currentIndex + nodeLength >=? actualEndIndex then
          (start1, Some (nid node, actualEndIndex - currentIndex))
        else walk actualStartIndex actualEndIndex rest (currentIndex + nodeLength) start1
  end.

(** [createRangeFromCharacterRange(element, actualStartIndex,
    actualEndIndex)] for an element that is a node of the document. *)
Definition createRangeFromCharacterRange (doc : Node) (element : nat)
    (actualStartIndex actualEndIndex : Z) : Outcome Range :=
  match lookup doc element with
  | Some root =>
      match walk actualStartIndex actualEndIndex (textNodesBelow root) 0 None with
      | (Some (startNode, startOffset), Some (endNode, endOffset)) =>
          range <- setStart doc (createRange doc) startNode startOffset ;;
          setEnd doc range endNode endOffset
      | _ => Throws "Invalid character offsets."
      end
  | None => Throws "TypeError"
  end.

(** [CharacterRange]: the fields [start], [end] and [text]. *)
Record CharacterRange : Type := mkCharacterRange {
  crStart : Z;
  crEnd : Z;
  crText : string
}.

(** The text nodes of the document in tree order. *)
Definition documentTextNodes (doc : Node) : list Node :=
  filter showText (subtree doc).

(** A text node is contained in a range: its start lies after the start
    of the range and its end before the end of the range. *)
Definition isContained (doc : Node) (range : Range) (y : Node) : bool :=
  match comparePoints doc (nid y) 0 (startContainer range) (startOffset range),
        comparePoints doc (nid y) (nodeValueLength y) (endContainer range) (endOffset range)
  with
  | Some Gt, Some Lt => true
  | _, _ => false
  end.

(** [range.toString()]: for a range in one text node the data between
    the offsets; otherwise the data of the start node from the start
    offset on if it is a text node, the data of the text nodes contained
    in the range, and the data of the end node up to the end offset if it
    is a text node. *)
Definition toString (doc : Node) (range : Range) : string :=
  let containedText :=
    concatAll (map Element.textContentOf
                 (filter (isContained doc range) (documentTextNodes doc))) in
  let endText :=
    match data doc (endContainer range) with
    | Some d => takeStr (Z.to_nat (endOffset range)) d
    | None => ""
    end in
  match data doc (startContainer range) with
  | Some d =>
      if Nat.eqb (startContainer range) (endContainer range) then
        takeStr (Z.to_nat (endOffset range - startOffset range))
          (dropStr (Z.to_nat (startOffset range)) d)
      else (dropStr (Z.to_nat (startOffset range)) d ++ containedText ++ endText)%string
  | None => (containedText ++ endText)%string
  end.

(** [toCharacterRange(range, container)] *)
Definition toCharacterRange (doc : Node) (range : Range) (container : nat)
  : Outcome CharacterRange :=
  startRange1 <- setStart doc range container 0 ;;
  startRange2 <- setEnd doc startRange1 (startContainer range) (startOffset range) ;;
  let rangeText := toString doc range in
  let start := Z.of_nat (String.length (toString doc startRange2)) in
  let end' := start + Z.of_nat (String.length rangeText) in
  Returns (mkCharacterRange start end' rangeText).

End CharacterRange.

(** * Part II: properties *)
(* ================================================================== *)

(** ** Match collection *)

Section MatchCollectionFacts.
Import MatchCollection.

(** The example of the tests: adjacent spans are both kept. *)
Example addMatches_adjacent :
  addAll [[span 0 1]; [span 1 2]] = [span 0 1; span 1 2].
Proof. reflexivity. Qed.

(** The example of the tests: a later overlapping span is dropped. *)
Example addMatches_overlap_dropped :
  addAll [[span 0 2]; [span 1 2]] = [span 0 2].
Proof. reflexivity. Qed.

(** C3, at the failing input.  Adding the sorted batch [{0,10}] and then
    the sorted, non-overlapping batch [{1,2},{3,4}] stores [{0,10},{3,4}]:
    the stored list is sorted by start index but its two matches overlap,
    because dropping {1,2} moved the running last end from 10 back to 2. *)
Theorem addMatches_stores_overlapping_matches :
  let batch1 := [span 0 10] in
  let batch2 := [span 1 2; span 3 4] in
  sortedByStart batch1 /\ nonOverlapping batch1 /\
  sortedByStart batch2 /\ nonOverlapping batch2 /\
  addAll [batch1; batch2] = [span 0 10; span 3 4] /\
  sortedByStart (addAll [batch1; batch2]) /\
  ~ nonOverlapping (addAll [batch1; batch2]).
Proof.
  cbv zeta. repeat split; simpl; lia.
Qed.

(** C4, at the failing input.  With the running last end at 10, the loop
    drops {1,2} and sets the last end to 2 although 2 is not greater than
    10, so that {3,4} is then appended; under the rule of the claim the
    last end stays 10 and {3,4} is dropped as well.  The two examples of
    the claim hold. *)
Theorem mergeLoop_last_end_moves_back :
  let incoming := [span 1 2; span 3 4] in
  mergeLoop 2 0 2 (mkMergeState [] 0 incoming 0) 10 [] = [span 3 4] /\
  mergeLoop_spec 2 0 2 (mkMergeState [] 0 incoming 0) 10 [] = [] /\
  mergeMatches [span 0 10] incoming = [span 0 10; span 3 4] /\
  mergeMatches_spec [span 0 10] incoming = [span 0 10] /\
  addAll [[span 0 1]; [span 1 2]] = [span 0 1; span 1 2] /\
  addAll [[span 0 2]; [span 1 2]] = [span 0 2].
Proof. cbv zeta. repeat split; reflexivity. Qed.


(** When both lists still have an item, the stored item is picked first
    if its start index is strictly smaller. *)
Lemma pickNext_strictly_smaller :
  forall (state : MergeState) (item1 item2 : Match),
    nth_error (a1 state) (i1 state) = Some item1 ->
    nth_error (a2 state) (i2 state) = Some item2 ->
    startIndex item1 < startIndex item2 ->
    pickNext state =
    (Some item1, mkMergeState (a1 state) (S (i1 state)) (a2 state) (i2 state)).
Proof.
  intros state item1 item2 H1 H2 H. unfold pickNext. rewrite H1, H2.
  apply Z.ltb_lt in H. rewrite H. reflexivity.
Qed.


End MatchCollectionFacts.

(** ** The DOM accessors on well-formed documents *)

Section DomFacts.
Import Dom.

(** Induction on nodes that reaches the children. *)
Lemma Node_induction (P : Node -> Prop) :
  (forall i d, P (TextNode i d)) ->
  (forall i name attrs cs, Forall P cs -> P (ElementNode i name attrs cs)) ->
  forall x, P x.
Proof.
  intros HT HE.
  fix IH 1. intros [i d | i name attrs cs].
  - apply HT.
  - apply HE. induction cs as [| ch cs IHcs].
    + constructor.
    + constructor; [apply IH | exact IHcs].
Qed.

Lemma scan_skip {A R : Type} (f : list A -> A -> list A -> option R) :
  forall (l1 : list A) (x : A) (l2 before : list A),
    (forall a b c, In b l1 -> f a b c = None) ->
    scan f before (l1 ++ x :: l2) =
    match f (before ++ l1) x l2 with
    | Some r => Some r
    | None => scan f (before ++ l1 ++ [x]) l2
    end.
Proof.
  induction l1 as [| y l1 IH]; intros x l2 before Hnone; simpl.
  - rewrite app_nil_r. reflexivity.
  - rewrite (Hnone before y (l1 ++ x :: l2)) by (left; reflexivity).
    rewrite IH by (intros; apply Hnone; right; assumption).
    rewrite <- !app_assoc. reflexivity.
Qed.

Lemma scan_none {A R : Type} (f : list A -> A -> list A -> option R) :
  forall (l before : list A),
    (forall a b c, In b l -> f a b c = None) -> scan f before l = None.
Proof.
  induction l as [| y l IH]; intros before Hnone; simpl.
  - reflexivity.
  - rewrite (Hnone before y l) by (left; reflexivity).
    apply IH. intros; apply Hnone; right; assumption.
Qed.

Lemma nid_in_ids : forall x, In (nid x) (ids x).
Proof. intros [i d | i name attrs cs]; simpl; left; reflexivity. Qed.

(** A reference that is not in a subtree is not found in it. *)
Lemma locate_at_absent :
  forall x n c, ~ In n (ids x) -> locate_at n c x = None.
Proof.
  induction x as [i d | i name attrs cs IH] using Node_induction; intros n c Hn; simpl in *.
  - destruct (Nat.eqb_spec i n); [exfalso; apply Hn; left; assumption | reflexivity].
  - destruct (Nat.eqb_spec i n); [exfalso; apply Hn; left; assumption |].
    apply scan_none. intros a b rest Hb.
    rewrite Forall_forall in IH. apply IH; [assumption |].
    intro Hin. apply Hn. right. apply in_flat_map. exists b. split; assumption.
Qed.

Lemma At_ids : forall x c s, At x c s -> incl (ids s) (ids x).
Proof.
  induction 1 as [x | i name attrs l1 ch l2 c s H IH].
  - apply incl_refl.
  - intros n Hn. simpl. right. apply in_flat_map. exists ch. split.
    + apply in_or_app. right. left. reflexivity.
    + apply IH. assumption.
Qed.

Lemma NoDup_app_inv {A : Type} :
  forall l1 l2 : list A, NoDup (l1 ++ l2) ->
    NoDup l1 /\ NoDup l2 /\ (forall a, In a l1 -> ~ In a l2).
Proof.
  induction l1 as [| x l1 IH]; intros l2 H; simpl in H.
  - split; [constructor | split; [assumption | intros a []]].
  - inversion H as [| ? ? Hx Hrest]; subst.
    destruct (IH l2 Hrest) as (H1 & H2 & H3).
    split; [| split].
    + constructor; [| assumption]. intro Hin. apply Hx. apply in_or_app. left. assumption.
    + assumption.
    + intros a [Ha | Ha] Hin.
      * subst a. apply Hx. apply in_or_app. right. assumption.
      * apply (H3 a Ha Hin).
Qed.

Lemma NoDup_flat_map_split {A B : Type} (f : A -> list B) :
  forall l1 x l2, NoDup (flat_map f (l1 ++ x :: l2)) ->
    NoDup (f x) /\
    (forall y b, In y l1 -> In b (f y) -> ~ In b (f x)) /\
    (forall y b, In y l2 -> In b (f y) -> ~ In b (f x)).
Proof.
  induction l1 as [| a l1 IH]; intros x l2 Hnd; simpl in Hnd.
  - split; [| split].
    + apply NoDup_app_remove_r in Hnd. assumption.
    + intros y b [].
    + intros y b Hy Hb Hx.
      apply NoDup_app_inv in Hnd. destruct Hnd as (_ & _ & Hd).
      apply (Hd b Hx). apply in_flat_map. exists y. split; assumption.
  - apply NoDup_app_inv in Hnd. destruct Hnd as (Ha & Hrest & Hd).
    destruct (IH x l2 Hrest) as (H1 & H2 & H3).
    split; [assumption | split].
    + intros y b [Hy | Hy] Hb Hx.
      * subst y. apply (Hd b Hb). apply in_flat_map. exists x. split.
        -- apply in_or_app. right. left. reflexivity.
        -- assumption.
      * apply (H2 y b Hy Hb Hx).
    + assumption.
Qed.

Lemma At_NoDup : forall x c s, At x c s -> NoDup (ids x) -> NoDup (ids s).
Proof.
  induction 1 as [x | i name attrs l1 ch l2 c s H IH]; intro Hnd.
  - assumption.
  - apply IH. simpl in Hnd. inversion Hnd as [| ? ? _ Hrest]; subst.
    apply (NoDup_flat_map_split ids l1 ch l2 Hrest).
Qed.

(** In a document with distinct identities, dereferencing the identity of
    a node that occurs in it finds that node and its frames. *)
Lemma locate_at_At :
  forall x c s, At x c s -> NoDup (ids x) ->
    forall c0, locate_at (nid s) c0 x = Some (c ++ c0, s).
Proof.
  induction 1 as [x | i name attrs l1 ch l2 c s H IH]; intros Hnd c0.
  - destruct x; simpl; rewrite Nat.eqb_refl; reflexivity.
  - simpl in Hnd. inversion Hnd as [| ? ? Hi Hrest]; subst.
    destruct (NoDup_flat_map_split ids l1 ch l2 Hrest) as (Hch & Hbefore & _).
    assert (Hs : In (nid s) (ids ch)) by (apply (At_ids _ _ _ H), nid_in_ids).
    simpl. destruct (Nat.eqb_spec i (nid s)) as [Heq | _].
    + exfalso. apply Hi. rewrite Heq. apply in_flat_map. exists ch. split.
      * apply in_or_app. right. left. reflexivity.
      * assumption.
    + rewrite scan_skip.
      * simpl. rewrite (IH Hch). rewrite <- app_assoc. reflexivity.
      * intros a b rest Hb. apply locate_at_absent.
        intro Hin. apply (Hbefore b (nid s) Hb Hin Hs).
Qed.

Lemma locate_At :
  forall doc c s, NoDup (ids doc) -> At doc c s -> locate doc (nid s) = Some (c, s).
Proof.
  intros doc c s Hnd H. unfold locate. rewrite (locate_at_At _ _ _ H Hnd).
  rewrite app_nil_r. reflexivity.
Qed.


Lemma At_root_inv : forall x s, At x [] s -> s = x.
Proof.
  intros x s H. inversion H as [| i name attrs l1 ch l2 c s' H' Hx Hc]; subst.
  - reflexivity.
  - destruct c; discriminate.
Qed.

Lemma At_trans :
  forall x c s, At x c s -> forall c' s', At s c' s' -> At x (c' ++ c) s'.
Proof.
  induction 1 as [x | i name attrs l1 ch l2 c s H IH]; intros c' s' H'.
  - rewrite app_nil_r. assumption.
  - rewrite app_assoc. constructor. apply IH. assumption.
Qed.

Lemma At_down :
  forall x c i name attrs l1 ch l2,
    At x c (ElementNode i name attrs (l1 ++ ch :: l2)) ->
    At x (mkFrame i name attrs l1 l2 :: c) ch.
Proof.
  intros x c i name attrs l1 ch l2 H.
  apply (At_trans _ _ _ H [mkFrame i name attrs l1 l2] ch).
  apply (At_child i name attrs l1 ch l2 [] ch). constructor.
Qed.

Lemma At_up : forall x f c s, At x (f :: c) s -> At x c (Walk.parentOf f s).
Proof.
  intros x f c s H. remember (f :: c) as c1 eqn:Hc1. revert f c Hc1.
  induction H as [x | i name attrs l1 ch l2 c0 s H IH]; intros f c Hc1.
  - discriminate.
  - destruct c0 as [| f0 c0].
    + simpl in Hc1. inversion Hc1; subst. apply At_root_inv in H. subst ch.
      unfold Walk.parentOf. simpl. constructor.
    + simpl in Hc1. inversion Hc1; subst. constructor. apply IH. reflexivity.
Qed.

Lemma size_pos : forall x, (1 <= size x)%nat.
Proof. intros [i d | i name attrs cs]; simpl; lia. Qed.

Lemma list_sum_app_cons :
  forall (l1 : list nat) (n : nat) (l2 : list nat), (n <= list_sum (l1 ++ n :: l2))%nat.
Proof.
  intros l1 n l2. rewrite list_sum_app. simpl. lia.
Qed.

Lemma At_size : forall x c s, At x c s -> (List.length c + size s <= size x)%nat.
Proof.
  induction 1 as [x | i name attrs l1 ch l2 c s H IH].
  - simpl. lia.
  - rewrite length_app. simpl. rewrite map_app. simpl.
    pose proof (list_sum_app_cons (map size l1) (size ch) (map size l2)). lia.
Qed.

Lemma At_proper_nid :
  forall x c s, At x c s -> c <> [] -> NoDup (ids x) -> nid s <> nid x.
Proof.
  intros x c s H Hc Hnd. destruct H as [x | i name attrs l1 ch l2 c s H].
  - contradiction.
  - simpl in *. inversion Hnd as [| ? ? Hi _]; subst. intro Heq. apply Hi.
    rewrite <- Heq. apply in_flat_map. exists ch. split.
    + apply in_or_app. right. left. reflexivity.
    + apply (At_ids _ _ _ H), nid_in_ids.
Qed.

Section Accessors.
Variable doc : Node.
Hypothesis distinct : NoDup (ids doc).
Variables (c : Ctx) (s : Node).
Hypothesis occurs : At doc c s.

Lemma lookup_At : lookup doc (nid s) = Some s.
Proof. unfold lookup. rewrite (locate_At doc c s distinct occurs). reflexivity. Qed.

Lemma parentNode_At :
  parentNode doc (nid s) = match c with [] => None | f :: _ => Some (fparent f) end.
Proof. unfold parentNode. rewrite (locate_At doc c s distinct occurs). destruct c; reflexivity. Qed.

Lemma nextSibling_At :
  nextSibling doc (nid s) =
  match c with [] => None | f :: _ => option_map nid (hd_error (fafter f)) end.
Proof. unfold nextSibling. rewrite (locate_At doc c s distinct occurs). destruct c; reflexivity. Qed.

Lemma firstChild_At :
  firstChild doc (nid s) = option_map nid (hd_error (childNodes s)).
Proof. unfold firstChild. rewrite lookup_At. reflexivity. Qed.

Lemma getAttribute_At :
  forall name, getAttribute doc (nid s) name = getAttributeOf s name.
Proof. intro name. unfold getAttribute. rewrite lookup_At. reflexivity. Qed.

Lemma nodeType_At : nodeType doc (nid s) = Some (nodeTypeOf s).
Proof. unfold nodeType. rewrite lookup_At. reflexivity. Qed.

Lemma nodeName_At : nodeName doc (nid s) = Some (nodeNameOf s).
Proof. unfold nodeName. rewrite lookup_At. reflexivity. Qed.

Lemma data_At : data doc (nid s) = dataOf s.
Proof. unfold data. rewrite lookup_At. reflexivity. Qed.

End Accessors.

End DomFacts.

(** ** The walk of the node iterator *)

Section WalkFacts.
Import Dom NodeIterator Walk.

Variable doc : Node.
Hypothesis distinct : NoDup (ids doc).

(** The root of the walk and where it sits in the document. *)
Variables (rootCtx : Ctx) (T : Node).
Hypothesis rootOccurs : At doc rootCtx T.

Lemma At_absolute : forall c s, At T c s -> At doc (c ++ rootCtx) s.
Proof. intros c s H. apply (At_trans _ _ _ rootOccurs _ _ H). Qed.

(** The loop of [getNext] and [replaceCurrent] finds [resume]. *)
Lemma climb_resume :
  forall c s fuel, At T c s -> (List.length c < fuel)%nat ->
    climb fuel doc (nid T) (nid s) = option_map nid (resume c).
Proof.
  induction c as [| f up IH]; intros s fuel H Hfuel.
  - apply At_root_inv in H. subst s. destruct fuel; [simpl in Hfuel; lia |].
    simpl. rewrite Nat.eqb_refl. reflexivity.
  - destruct fuel as [| fuel]; [simpl in Hfuel; lia |].
    simpl. assert (Hne : nid s <> nid T).
    { apply (At_proper_nid _ _ _ H); [discriminate |].
      apply (At_NoDup _ _ _ rootOccurs distinct). }
    apply Nat.eqb_neq in Hne. rewrite Hne.
    rewrite (nextSibling_At doc distinct _ _ (At_absolute _ _ H)). simpl.
    destruct (fafter f) as [| a rest] eqn:Hafter; simpl.
    + rewrite (parentNode_At doc distinct _ _ (At_absolute _ _ H)). simpl.
      apply (IH (parentOf f s)).
      * apply At_up. assumption.
      * simpl in Hfuel. lia.
    + reflexivity.
Qed.

Lemma Pending_resume :
  forall c s, At T c s -> Pending T (option_map nid (resume c)) (following c).
Proof.
  induction c as [| f up IH]; intros s H.
  - left. split; reflexivity.
  - pose proof (At_up _ _ _ _ H) as HP. simpl.
    destruct (fafter f) as [| a rest] eqn:Hafter.
    + simpl. apply (IH _ HP).
    + right. exists (mkFrame (fparent f) (fname f) (fattrs f) (fbefore f ++ [s]) rest :: up), a.
      split; [| split].
      * apply At_down. unfold parentOf in HP. rewrite Hafter in HP.
        rewrite <- app_assoc. simpl. assumption.
      * reflexivity.
      * simpl. rewrite app_assoc. reflexivity.
Qed.

Lemma At_fuel : forall c s, At T c s -> (List.length c < size doc)%nat.
Proof.
  intros c s H. pose proof (At_size _ _ _ (At_absolute _ _ H)) as Hs.
  rewrite length_app in Hs. pose proof (size_pos s). lia.
Qed.

(** One [getNext()] call. *)
Lemma getNext_step :
  forall it R, root it = nid T -> Pending T (nextNode it) R ->
    match R with
    | [] => getNext doc it = (mkIterator None (previous it) None (root it), None)
    | x :: R' =>
        exists it', getNext doc it = (it', Some (nid x)) /\
                    root it' = nid T /\ current it' = Some (nid x) /\
                    Pending T (nextNode it') R' /\ exists c, At T c x
    end.
Proof.
  intros it R Hroot [[Hnext HR] | (c & s & Hs & Hnext & HR)].
  - subst R. unfold getNext. rewrite Hnext. reflexivity.
  - subst R. unfold getNext. rewrite Hnext, Hroot.
    rewrite (firstChild_At doc distinct _ _ (At_absolute _ _ Hs)).
    rewrite (getAttribute_At doc distinct _ _ (At_absolute _ _ Hs)).
    rewrite (climb_resume c s (size doc) Hs (At_fuel _ _ Hs)).
    destruct s as [i d | i name attrs cs]; simpl.
    + eexists. split; [reflexivity |]. simpl. repeat split.
      * apply (Pending_resume _ _ Hs).
      * exists c. assumption.
    + unfold getAttributeOf. simpl.
      destruct cs as [| ch rest]; simpl.
      * eexists. split; [reflexivity |]. simpl. repeat split.
        -- destruct (is_value (assoc "data-editable" attrs) "remove");
             apply (Pending_resume _ _ Hs).
        -- exists c. assumption.
      * destruct (is_value (assoc "data-editable" attrs) "remove") eqn:Hrem; simpl.
        -- eexists. split; [reflexivity |]. simpl. repeat split.
           ++ apply (Pending_resume _ _ Hs).
           ++ exists c. assumption.
        -- eexists. split; [reflexivity |]. simpl. repeat split.
           ++ right. exists (mkFrame i name attrs [] rest :: c), ch. split; [| split].
              ** apply At_down. simpl. assumption.
              ** reflexivity.
              ** simpl. rewrite <- app_assoc. reflexivity.
           ++ exists c. assumption.
Qed.


(** A row of [getNext()] calls returns the pending nodes one by one and
    [undefined] from then on. *)
Lemma getNext_nth_pending :
  forall j it R, root it = nid T -> Pending T (nextNode it) R ->
    getNext_nth j doc it = option_map nid (nth_error R j).
Proof.
  induction j as [| j IH]; intros it R Hroot HP;
    pose proof (getNext_step it R Hroot HP) as Hstep; destruct R as [| x R'].
  - simpl. rewrite Hstep. reflexivity.
  - destruct Hstep as (it' & Hget & _). simpl. rewrite Hget. reflexivity.
  - simpl. rewrite Hstep. rewrite (IH _ []); [destruct j; reflexivity | exact Hroot |].
    left. split; reflexivity.
  - destruct Hstep as (it' & Hget & Hroot' & _ & HP' & _). simpl. rewrite Hget.
    apply IH; assumption.
Qed.

Lemma Pending_new : Pending T (nextNode (NodeIterator.new (nid T))) (visible T).
Proof.
  right. exists [], T. split; [constructor | split; [reflexivity |]].
  simpl. rewrite app_nil_r. reflexivity.
Qed.

End WalkFacts.

(** ** Strings *)

Lemma append_nil_r : forall s : string, (s ++ "")%string = s.
Proof. induction s as [| a s IH]; simpl; [reflexivity | rewrite IH; reflexivity]. Qed.

Lemma append_assoc :
  forall s1 s2 s3 : string, ((s1 ++ s2) ++ s3)%string = (s1 ++ (s2 ++ s3))%string.
Proof. induction s1 as [| a s1 IH]; intros; simpl; [reflexivity | rewrite IH; reflexivity]. Qed.

Lemma length_append :
  forall s1 s2 : string,
    String.length (s1 ++ s2) = (String.length s1 + String.length s2)%nat.
Proof. induction s1 as [| a s1 IH]; intros; simpl; [reflexivity | rewrite IH; reflexivity]. Qed.

Lemma concatAll_app :
  forall l1 l2, concatAll (l1 ++ l2) = (concatAll l1 ++ concatAll l2)%string.
Proof.
  induction l1 as [| x l1 IH]; intros l2; simpl; [reflexivity |].
  rewrite IH, append_assoc. reflexivity.
Qed.

(** ** Text extraction *)

Section ExtractTextFacts.
Import Dom NodeIterator Walk HighlightText.

Variable doc : Node.
Hypothesis distinct : NoDup (ids doc).
Variables (rootCtx : Ctx) (T : Node).
Hypothesis rootOccurs : At doc rootCtx T.

Lemma getText_pending :
  forall convertBRs R fuel it text,
    root it = nid T -> Pending T (nextNode it) R -> (List.length R < fuel)%nat ->
    getText fuel doc convertBRs it text =
    Some (text ++ concatAll (map (contribution convertBRs) R))%string.
Proof.
  intros convertBRs. induction R as [| x R' IH]; intros fuel it text Hroot HP Hfuel;
    pose proof (getNext_step doc distinct rootCtx T rootOccurs it _ Hroot HP) as Hstep;
    (destruct fuel as [| fuel]; [simpl in Hfuel; lia |]).
  - simpl. rewrite Hstep. simpl. rewrite append_nil_r. reflexivity.
  - destruct Hstep as (it' & Hget & Hroot' & _ & HP' & c & Hx).
    pose proof (At_absolute doc rootCtx T rootOccurs _ _ Hx) as Habs.
    simpl in Hfuel. simpl getText. rewrite Hget.
    unfold isNonEmptyText, isBR.
    rewrite (nodeType_At doc distinct _ _ Habs), (nodeName_At doc distinct _ _ Habs),
      (data_At doc distinct _ _ Habs).
    destruct x as [i d | i name attrs cs]; simpl.
    + destruct (String.eqb_spec d "") as [Hd | Hd]; simpl.
      * subst d. rewrite andb_false_r. rewrite IH by (assumption || lia). reflexivity.
      * rewrite IH by (assumption || lia). rewrite append_assoc. reflexivity.
    + destruct (convertBRs && (name =? "BR")%string) eqn:Hbr.
      * rewrite IH by (assumption || lia). rewrite append_assoc. reflexivity.
      * rewrite IH by (assumption || lia). reflexivity.
Qed.

Lemma visible_length : forall x, (List.length (visible x) <= size x)%nat.
Proof.
  induction x as [i d | i name attrs cs IH] using Node_induction; simpl.
  - lia.
  - destruct (is_value (assoc "data-editable" attrs) "remove"); simpl; [lia |].
    apply le_n_S. induction IH as [| ch cs Hch _ IHcs]; simpl.
    + lia.
    + rewrite length_app. lia.
Qed.

Lemma extractText_visible :
  forall convertBRs,
    extractText doc (nid T) convertBRs =
    Some (concatAll (map (contribution convertBRs) (visible T))).
Proof.
  intro convertBRs. unfold extractText.
  rewrite (getText_pending convertBRs (visible T)).
  - reflexivity.
  - reflexivity.
  - apply Pending_new.
  - pose proof (visible_length T). pose proof (At_size _ _ _ rootOccurs). lia.
Qed.

End ExtractTextFacts.

Section VisibleFacts.
Import Dom Walk.

Lemma visible_At :
  forall x y, In y (visible x) -> exists c, At x c y /\ Forall keptFrame c.
Proof.
  induction x as [i d | i name attrs cs IH] using Node_induction; intros y Hy; simpl in Hy.
  - destruct Hy as [Hy | []]. subst y. exists []. split; constructor.
  - destruct Hy as [Hy | Hy].
    + subst y. exists []. split; constructor.
    + destruct (is_value (assoc "data-editable" attrs) "remove") eqn:Hrem; [destruct Hy |].
      apply in_flat_map in Hy. destruct Hy as (ch & Hch & Hy).
      rewrite Forall_forall in IH. destruct (IH ch Hch y Hy) as (c & Hc & Hkept).
      destruct (in_split _ _ Hch) as (l1 & l2 & Hsplit). subst cs.
      exists (c ++ [mkFrame i name attrs l1 l2]). split.
      * constructor. assumption.
      * apply Forall_app. split; [assumption |]. constructor; [exact Hrem | constructor].
Qed.

Lemma visible_ids : forall x y, In y (visible x) -> incl (ids y) (ids x).
Proof.
  intros x y Hy. destruct (visible_At x y Hy) as (c & Hc & _). apply (At_ids _ _ _ Hc).
Qed.

Lemma At_unique :
  forall x c1 s1 c2 s2, NoDup (ids x) -> At x c1 s1 -> At x c2 s2 -> nid s1 = nid s2 ->
    c1 = c2 /\ s1 = s2.
Proof.
  intros x c1 s1 c2 s2 Hnd H1 H2 Heq.
  pose proof (locate_At x c1 s1 Hnd H1) as L1.
  pose proof (locate_At x c2 s2 Hnd H2) as L2.
  rewrite Heq in L1. rewrite L1 in L2. inversion L2. split; reflexivity.
Qed.

Lemma At_outer_frame :
  forall e c d, At e c d -> c <> [] ->
    exists c' f, c = c' ++ [f] /\ fattrs f = attributes e /\ fparent f = nid e.
Proof.
  intros e c d H Hc. destruct H as [x | i name attrs l1 ch l2 c s H].
  - contradiction.
  - exists c, (mkFrame i name attrs l1 l2). repeat split.
Qed.

(** No descendant of a removed element is among the visible nodes. *)
Lemma removed_descendants_invisible :
  forall T c e d, NoDup (ids T) -> At T c e -> isRemoved e = true -> properDescendant e d ->
    ~ In (nid d) (map nid (visible T)).
Proof.
  intros T c e d Hnd He Hrem (c' & Hc' & Hd) Hin.
  apply in_map_iff in Hin. destruct Hin as (y & Hnid & Hy).
  destruct (visible_At T y Hy) as (cy & Hcy & Hkept).
  pose proof (At_trans _ _ _ He _ _ Hd) as Hd'.
  destruct (At_unique T cy y (c' ++ c) d Hnd Hcy Hd' Hnid) as (Hceq & _).
  destruct (At_outer_frame e c' d Hd Hc') as (c'' & f & Hsplit & Hattrs & _).
  subst cy c'. rewrite Forall_app in Hkept. destruct Hkept as (Hkept & _).
  rewrite Forall_app in Hkept. destruct Hkept as (_ & Hf).
  inversion Hf as [| ? ? Hk _]; subst. unfold keptFrame in Hk.
  unfold isRemoved, getAttributeOf in Hrem. rewrite Hattrs in Hk. congruence.
Qed.

Lemma following_app : forall c1 c2, following (c1 ++ c2) = following c1 ++ following c2.
Proof.
  induction c1 as [| f c1 IH]; intro c2; simpl; [reflexivity |].
  rewrite IH, app_assoc. reflexivity.
Qed.

(** What follows a node shares no identity with the subtree of the node. *)
Lemma following_disjoint :
  forall T c s, At T c s -> NoDup (ids T) ->
    forall y n, In y (following c) -> In n (ids y) -> ~ In n (ids s).
Proof.
  induction 1 as [x | i name attrs l1 ch l2 c s H IH]; intros Hnd y n Hy Hn Hs.
  - destruct Hy.
  - simpl in Hnd. inversion Hnd as [| ? ? _ Hrest]; subst.
    destruct (NoDup_flat_map_split ids l1 ch l2 Hrest) as (Hch & _ & Hafter).
    rewrite following_app in Hy. apply in_app_or in Hy. destruct Hy as [Hy | Hy].
    + apply (IH Hch y n Hy Hn Hs).
    + simpl in Hy. rewrite app_nil_r in Hy. apply in_flat_map in Hy.
      destruct Hy as (a & Ha & Hy).
      apply (Hafter a n Ha).
      * apply (visible_ids a y Hy). assumption.
      * apply (At_ids _ _ _ H). assumption.
Qed.

End VisibleFacts.

(** ** Text nodes under a node *)

Section TextNodesFacts.
Import Dom NodeIterator Walk Element.

Variable doc : Node.
Hypothesis distinct : NoDup (ids doc).
Variables (rootCtx : Ctx) (T : Node).
Hypothesis rootOccurs : At doc rootCtx T.

Lemma isNonEmptyText_At :
  forall c x, At T c x -> isNonEmptyText doc (nid x) = isNonEmptyTextNode x.
Proof.
  intros c x Hx. pose proof (At_absolute doc rootCtx T rootOccurs _ _ Hx) as Habs.
  unfold isNonEmptyText.
  rewrite (nodeType_At doc distinct _ _ Habs), (data_At doc distinct _ _ Habs).
  destruct x; reflexivity.
Qed.

Lemma getNextTextNode_pending :
  forall R fuel it,
    root it = nid T -> Pending T (nextNode it) R -> (List.length R < fuel)%nat ->
    exists it',
      getNextTextNode fuel doc it = Some (it', option_map nid (find isNonEmptyTextNode R)) /\
      root it' = nid T /\
      Pending T (nextNode it') (afterFirst isNonEmptyTextNode R).
Proof.
  induction R as [| x R' IH]; intros fuel it Hroot HP Hfuel;
    pose proof (getNext_step doc distinct rootCtx T rootOccurs it _ Hroot HP) as Hstep;
    (destruct fuel as [| fuel]; [simpl in Hfuel; lia |]).
  - simpl. rewrite Hstep. eexists. split; [reflexivity |]. split; [exact Hroot |].
    left. split; reflexivity.
  - destruct Hstep as (it' & Hget & Hroot' & _ & HP' & c & Hx).
    simpl in Hfuel. simpl. rewrite Hget. rewrite (isNonEmptyText_At c x Hx).
    destruct (isNonEmptyTextNode x).
    + exists it'. repeat split; assumption.
    + apply IH; [assumption | assumption | lia].
Qed.

Lemma afterFirst_length :
  forall (p : Node -> bool) R, (List.length (afterFirst p R) <= List.length R)%nat.
Proof.
  induction R as [| x R IH]; simpl; [lia |]. destruct (p x); lia.
Qed.

Lemma afterFirst_found_length :
  forall (p : Node -> bool) R x, find p R = Some x ->
    (List.length (afterFirst p R) < List.length R)%nat.
Proof.
  induction R as [| y R IH]; intros x H; simpl in *; [discriminate |].
  destruct (p y); [lia |]. specialize (IH x H). lia.
Qed.

Lemma filter_find_afterFirst :
  forall (p : Node -> bool) R,
    filter p R =
    match find p R with
    | Some x => x :: filter p (afterFirst p R)
    | None => []
    end.
Proof.
  induction R as [| y R IH]; simpl; [reflexivity |].
  destruct (p y); [reflexivity | exact IH].
Qed.

Lemma collectTextNodes_pending :
  forall fuel R it acc,
    root it = nid T -> Pending T (nextNode it) R ->
    (List.length R < fuel)%nat -> (List.length R <= size doc)%nat ->
    collectTextNodes fuel doc it acc =
    Some (acc ++ map nid (filter isNonEmptyTextNode R)).
Proof.
  induction fuel as [| fuel IH]; intros R it acc Hroot HP Hfuel Hsize; [lia |].
  cbn [collectTextNodes].
  destruct (getNextTextNode_pending R (S (size doc)) it Hroot HP) as (it' & Hget & Hroot' & HP');
    [lia |].
  rewrite Hget. rewrite (filter_find_afterFirst isNonEmptyTextNode R).
  destruct (find isNonEmptyTextNode R) as [x |] eqn:Hfind; simpl.
  - pose proof (afterFirst_found_length _ _ _ Hfind).
    rewrite (IH _ it' (acc ++ [nid x]) Hroot' HP') by lia.
    rewrite <- app_assoc. reflexivity.
  - rewrite app_nil_r. reflexivity.
Qed.

(** The text nodes under a node are the non-empty text nodes among its
    visible nodes, in document order. *)
Lemma textNodesUnder_visible :
  textNodesUnder doc (nid T) = Some (map nid (textNodesOf T)).
Proof.
  unfold textNodesUnder, textNodesOf.
  pose proof (visible_length T). pose proof (At_size _ _ _ rootOccurs).
  rewrite (collectTextNodes_pending _ (visible T)).
  - reflexivity.
  - reflexivity.
  - apply Pending_new.
  - lia.
  - lia.
Qed.

Lemma In_textNodesOf :
  forall x, In x (textNodesOf T) ->
    exists c d, At T c x /\ x = TextNode (nid x) d /\ d <> "".
Proof.
  intros x Hx. unfold textNodesOf in Hx. apply filter_In in Hx. destruct Hx as (Hvis & Hp).
  destruct (visible_At T x Hvis) as (c & Hc & _).
  destruct x as [i d | i name attrs cs]; simpl in Hp; [| discriminate].
  exists c, d. repeat split; [assumption |].
  intro Hd. subst d. discriminate.
Qed.

Lemma textContentLength_At :
  forall c x, At T c x -> textContentLength doc (nid x) = Z.of_nat (String.length (textContentOf x)).
Proof.
  intros c x Hx. unfold textContentLength.
  rewrite (lookup_At doc distinct _ _ (At_absolute doc rootCtx T rootOccurs _ _ Hx)).
  reflexivity.
Qed.

Lemma textContentLength_nonneg : forall n, 0 <= textContentLength doc n.
Proof. intro n. unfold textContentLength. destruct (lookup doc n); lia. Qed.

End TextNodesFacts.

(** ** The geometric cursor search *)

Lemma last_default {A : Type} :
  forall (l : list A) (a d1 d2 : A), last (a :: l) d1 = last (a :: l) d2.
Proof.
  induction l as [| b l IH]; intros a d1 d2; [reflexivity |].
  change (last (b :: l) d1 = last (b :: l) d2). apply IH.
Qed.

Section BinarySearchFacts.
Import Dom NodeIterator Walk Element BinarySearch.

Variable num : Type.
Variable num_zero : num.
Variable num_sub : num -> num -> num.
Variable num_abs : num -> num.
Variable num_ltb : num -> num -> bool.
Variable num_eqb : num -> num -> bool.
Variable clientRect : nat -> Z -> option (DOMRect num).
Variable hostRangeRect : option (DOMRect num).
Variable hostRect : option (DOMRect num).

Variable doc : Node.
Variable textNodes : list nat.
Variables (requiredOnFirstLine requiredOnLastLine : bool) (positionX : num).
Variable hostCoords : DOMRect num.

Lemma fold_left_lengths :
  forall l a, fold_left (fun acc node => acc + textContentLength doc node) l a = a + sumLengths doc l.
Proof.
  induction l as [| x l IH]; intro a; simpl; [lia |]. rewrite IH. lia.
Qed.

Lemma sumLengths_nonneg : forall l, 0 <= sumLengths doc l.
Proof.
  induction l as [| x l IH]; simpl; [lia |].
  pose proof (textContentLength_nonneg doc x). lia.
Qed.

Lemma findTextNode_found :
  forall l absOffset cumulativeOffset,
    l <> [] -> cumulativeOffset <= absOffset <= cumulativeOffset + sumLengths doc l ->
    exists node relativeOffset,
      findTextNode doc l absOffset cumulativeOffset = (Some node, relativeOffset) /\
      0 <= relativeOffset <= textContentLength doc node.
Proof.
  induction l as [| x l IH]; intros absOffset cumulativeOffset Hne Hrange; [contradiction |].
  simpl in *. destruct (Z.leb_spec absOffset (cumulativeOffset + textContentLength doc x)).
  - eexists. eexists. split; [reflexivity | lia].
  - destruct l as [| y l].
    + simpl in Hrange. lia.
    + apply IH; [discriminate | lia].
Qed.

Lemma createRange_returns :
  forall offset, textNodes <> [] -> 0 <= offset <= sumLengths doc textNodes ->
    exists range, createRangeAtCharacterOffset doc textNodes offset = Returns range.
Proof.
  intros offset Hne Hrange. unfold createRangeAtCharacterOffset, getTextNodeAndRelativeOffset.
  destruct (findTextNode_found textNodes offset 0 Hne) as (node & rel & Hfind & Hrel); [lia |].
  rewrite Hfind.
  assert (Hwrap : toUnsignedLong rel <= rel).
  { unfold toUnsignedLong. apply Z.mod_le; lia. }
  destruct (Z.ltb_spec (textContentLength doc node) (toUnsignedLong rel)); [lia |].
  eexists. reflexivity.
Qed.

Lemma floorHalf_between : forall a b, a <= b -> a <= floorHalf (b + a) <= b.
Proof.
  intros a b H. unfold floorHalf. split.
  - apply Z.div_le_lower_bound; lia.
  - apply Z.div_le_upper_bound; lia.
Qed.

Lemma ceilHalf_between : forall a b, a <= b -> a <= ceilHalf (a + b) <= b.
Proof.
  intros a b H. unfold ceilHalf.
  assert (- b <= (- (a + b)) / 2 <= - a); [| lia].
  split.
  - apply Z.div_le_lower_bound; lia.
  - apply Z.div_le_upper_bound; lia.
Qed.

Lemma moveLeft_within : forall n data, Within n data -> Within n (moveLeft data).
Proof.
  intros n data (H1 & H2 & H3 & H4). unfold Within, moveLeft. simpl.
  pose proof (floorHalf_between (leftLimit data) (currentOffset data) H2). lia.
Qed.

Lemma moveRight_within : forall n data, Within n data -> Within n (moveRight data).
Proof.
  intros n data (H1 & H2 & H3 & H4). unfold Within, moveRight. simpl.
  pose proof (ceilHalf_between (currentOffset data) (rightLimit data) H3). lia.
Qed.

Local Abbreviation loop :=
  (searchLoop num num_zero num_sub num_abs num_ltb num_eqb clientRect doc textNodes
     requiredOnFirstLine requiredOnLastLine positionX hostCoords).

(** The loop returns; it leaves the interval inside [0, n], makes at most
    [safety] probes, and when it made one, [offset] and [distance] are
    those of the last probe. *)
Lemma searchLoop_returns :
  forall n, textNodes <> [] -> n = sumLengths doc textNodes ->
  forall safety data offset distance probes,
    Within n data -> 0 <= offset <= n ->
    exists data' offset' distance' extra,
      loop safety data offset distance probes =
        Returns (data', offset', distance', probes ++ extra) /\
      Within n data' /\ 0 <= offset' <= n /\
      (List.length extra <= safety)%nat /\
      (extra = [] -> offset' = offset /\ distance' = distance) /\
      (extra <> [] -> last extra (offset, distance) = (offset', distance')) /\
      ((leftLimit data <? rightLimit data) = true -> (0 < safety)%nat -> extra <> []).
Proof.
  intros n Hne Hn. induction safety as [| safety IH]; intros data offset distance probes HW Hoff.
  - exists data, offset, distance, []. simpl. rewrite app_nil_r.
    split; [reflexivity |]. split; [assumption |]. split; [assumption |].
    split; [lia |]. split; [intros _; split; reflexivity |].
    split; [intro H; contradiction |]. intros _ H; lia.
  - simpl. destruct (leftLimit data <? rightLimit data) eqn:Hlt.
    + destruct (createRange_returns (currentOffset data) Hne) as (range & Hrange).
      { unfold Within in HW. lia. }
      rewrite Hrange. simpl.
      set (coords := coordsOf num num_zero clientRect range).
      set (d := num_abs (num_sub (left num coords) positionX)).
      assert (Hcur : 0 <= currentOffset data <= n) by (unfold Within in HW; lia).
      assert (Hstep : forall data1, Within n data1 ->
        exists data' offset' distance' extra,
          loop safety data1 (currentOffset data) d (probes ++ [(currentOffset data, d)]) =
            Returns (data', offset', distance', probes ++ extra) /\
          Within n data' /\ 0 <= offset' <= n /\
          (List.length extra <= S safety)%nat /\
          (extra = [] -> offset' = offset /\ distance' = distance) /\
          (extra <> [] -> last extra (offset, distance) = (offset', distance')) /\
          (true = true -> (0 < S safety)%nat -> extra <> [])).
      { intros data1 HW1.
        destruct (IH data1 (currentOffset data) d (probes ++ [(currentOffset data, d)]) HW1 Hcur)
          as (data' & offset' & distance' & extra & Hrun & HW' & Hoff' & Hlen & Hnil & Hlast & _).
        exists data', offset', distance', ((currentOffset data, d) :: extra).
        rewrite Hrun. rewrite <- app_assoc. simpl.
        split; [reflexivity |]. split; [assumption |]. split; [assumption |].
        split; [lia |]. split; [intro H; discriminate |].
        split; [| intros _ _; discriminate].
        intros _. destruct extra as [| p extra].
        - destruct (Hnil eq_refl) as (-> & ->). reflexivity.
        - rewrite <- Hlast by discriminate.
          change (last (p :: extra) (offset, distance) =
                  last (p :: extra) (currentOffset data, d)).
          apply last_default. }
      destruct (requiredOnFirstLine && negb (num_eqb (top num hostCoords) (top num coords))).
      { apply Hstep, moveLeft_within, HW. }
      destruct (requiredOnLastLine && negb (num_eqb (bottom num hostCoords) (bottom num coords))).
      { apply Hstep, moveRight_within, HW. }
      destruct (num_ltb positionX (left num coords)).
      { apply Hstep, moveLeft_within, HW. }
      { apply Hstep, moveRight_within, HW. }
    + exists data, offset, distance, []. rewrite app_nil_r.
      split; [reflexivity |]. split; [assumption |]. split; [assumption |].
      split; [simpl; lia |]. split; [intros _; split; reflexivity |].
      split; [intro H; contradiction |]. intro H; discriminate.
Qed.

(** Every probe the loop records holds the distance measured at its
    offset. *)
Lemma searchLoop_measured :
  forall safety data offset distance probes r,
    loop safety data offset distance probes = Returns r ->
    Forall (fun p => distanceAt num num_zero num_sub num_abs clientRect doc textNodes positionX
                       (fst p) = Some (snd p)) probes ->
    Forall (fun p => distanceAt num num_zero num_sub num_abs clientRect doc textNodes positionX
                       (fst p) = Some (snd p)) (snd r).
Proof.
  induction safety as [| safety IH]; intros data offset distance probes r Hrun Hall.
  - simpl in Hrun. inversion Hrun; subst r. exact Hall.
  - simpl in Hrun. destruct (leftLimit data <? rightLimit data).
    + destruct (createRangeAtCharacterOffset doc textNodes (currentOffset data))
        as [range | message |] eqn:Hrange; simpl in Hrun; try discriminate.
      assert (Hall' : Forall (fun p => distanceAt num num_zero num_sub num_abs clientRect doc
                                         textNodes positionX (fst p) = Some (snd p))
                        (probes ++ [(currentOffset data,
                                     num_abs (num_sub (left num (coordsOf num num_zero clientRect range))
                                                positionX))])).
      { apply Forall_app. split; [exact Hall |]. constructor; [| constructor].
        unfold distanceAt. cbn [fst snd]. rewrite Hrange. reflexivity. }
      destruct (requiredOnFirstLine &&
                negb (num_eqb (top num hostCoords)
                        (top num (coordsOf num num_zero clientRect range)))).
      { apply (IH _ _ _ _ _ Hrun Hall'). }
      destruct (requiredOnLastLine &&
                negb (num_eqb (bottom num hostCoords)
                        (bottom num (coordsOf num num_zero clientRect range)))).
      { apply (IH _ _ _ _ _ Hrun Hall'). }
      destruct (num_ltb positionX (left num (coordsOf num num_zero clientRect range))).
      { apply (IH _ _ _ _ _ Hrun Hall'). }
      { apply (IH _ _ _ _ _ Hrun Hall'). }
    + inversion Hrun; subst r. exact Hall.
Qed.

End BinarySearchFacts.

Section BinaryCursorSearchFacts.
Import Dom NodeIterator Walk Element BinarySearch.

Variable num : Type.
Variable num_zero : num.
Variable num_sub : num -> num -> num.
Variable num_abs : num -> num.
Variable num_ltb : num -> num -> bool.
Variable num_eqb : num -> num -> bool.
Variable clientRect : nat -> Z -> option (DOMRect num).
Variable hostRangeRect : option (DOMRect num).
Variable hostRect : option (DOMRect num).

Variable doc : Node.
Hypothesis distinct : NoDup (ids doc).
Variables (rootCtx : Ctx) (host : Node).
Hypothesis hostOccurs : At doc rootCtx host.
Variables (requiredOnFirstLine requiredOnLastLine : bool) (positionX : num).

Local Abbreviation search :=
  (binaryCursorSearch_probes num num_zero num_sub num_abs num_ltb num_eqb
     clientRect hostRangeRect hostRect doc (nid host)
     requiredOnFirstLine requiredOnLastLine positionX).

Lemma getTotalCharCount_sum :
  getTotalCharCount doc (nid host) = Some (sumLengths doc (map nid (textNodesOf host))).
Proof.
  unfold getTotalCharCount.
  rewrite (textNodesUnder_visible doc distinct rootCtx host hostOccurs).
  rewrite fold_left_lengths. reflexivity.
Qed.

Lemma binaryCursorSearch_probes_spec :
  let n := sumLengths doc (map nid (textNodesOf host)) in
  (n = 0 -> search = Returns (mkResult num false None None, [], None)) /\
  (1 <= n ->
   exists probes lastOffset lastDistance finalOffset finalDistance,
     search =
       Returns (if num_ltb finalDistance lastDistance
                then mkResult num true (Some finalDistance) (Some finalOffset)
                else mkResult num true (Some lastDistance) (Some lastOffset),
                probes, Some (finalOffset, finalDistance)) /\
     probes <> [] /\ (List.length probes <= 20)%nat /\
     last probes (0, num_zero) = (lastOffset, lastDistance) /\
     0 <= lastOffset <= n /\ 0 <= finalOffset <= n).
Proof.
  intro n. unfold binaryCursorSearch_probes.
  rewrite getTotalCharCount_sum.
  rewrite (textNodesUnder_visible doc distinct rootCtx host hostOccurs).
  fold n. split; intro Hn.
  - rewrite Hn. reflexivity.
  - destruct (Z.eqb_spec n 0) as [H0 | _]; [lia |].
    set (textNodes := map nid (textNodesOf host)) in *.
    assert (Hne : textNodes <> []).
    { intro Hnil. unfold n in Hn. rewrite Hnil in Hn. simpl in Hn. lia. }
    set (hostCoords := match hostRangeRect with
                       | Some rect => rect
                       | None => match hostRect with
                                 | Some rect => rect
                                 | None => zeroRect num num_zero
                                 end
                       end).
    assert (HW : Within n (mkData (floorHalf n) 0 n)).
    { unfold Within. simpl. pose proof (floorHalf_between 0 n). rewrite Z.add_0_r in H. lia. }
    destruct (searchLoop_returns num num_zero num_sub num_abs num_ltb num_eqb clientRect
                doc textNodes requiredOnFirstLine requiredOnLastLine positionX hostCoords
                n Hne eq_refl 20%nat (mkData (floorHalf n) 0 n) (floorHalf n) num_zero [] HW)
      as (data' & offset' & distance' & extra & Hrun & HW' & Hoff' & Hlen & _ & Hlast & Hran).
    { unfold Within in HW. simpl in HW. lia. }
    simpl currentOffset. rewrite Hrun. simpl.
    destruct (createRange_returns doc textNodes (currentOffset data') Hne) as (range & Hrange).
    { unfold Within in HW'. fold n. lia. }
    rewrite Hrange. simpl.
    assert (Hextra : extra <> []).
    { apply Hran; [simpl; apply Z.ltb_lt; lia | lia]. }
    exists extra, offset', distance', (currentOffset data'),
      (num_abs (num_sub (left num (coordsOf num num_zero clientRect range)) positionX)).
    split; [| split; [assumption | split; [assumption | split; [| split]]]].
    + destruct (num_ltb _ distance'); reflexivity.
    + rewrite <- (Hlast Hextra). destruct extra as [| p extra]; [contradiction |].
      apply last_default.
    + assumption.
    + unfold Within in HW'. lia.
Qed.

(** The probes of a search, the one after the loop included, hold the
    distances measured at their offsets. *)
Lemma binaryCursorSearch_probes_measured :
  forall result probes finalOffset finalDistance,
    search = Returns (result, probes, Some (finalOffset, finalDistance)) ->
    let measured := fun p : Probe num =>
      distanceAt num num_zero num_sub num_abs clientRect doc (map nid (textNodesOf host))
        positionX (fst p) = Some (snd p) in
    Forall measured probes /\ measured (finalOffset, finalDistance).
Proof.
  intros result probes fo fd Hrun measured. unfold binaryCursorSearch_probes in Hrun.
  rewrite getTotalCharCount_sum in Hrun.
  rewrite (textNodesUnder_visible doc distinct rootCtx host hostOccurs) in Hrun.
  set (textNodes := map nid (textNodesOf host)) in *.
  destruct (sumLengths doc textNodes =? 0); [discriminate |].
  match type of Hrun with
  | bind ?m _ = _ => destruct m as [[[[data' offset'] distance'] probes'] | message |] eqn:Hloop
  end; simpl in Hrun; try discriminate.
  pose proof (searchLoop_measured num num_zero num_sub num_abs num_ltb num_eqb clientRect
                doc textNodes requiredOnFirstLine requiredOnLastLine positionX _ _ _ _ _ _ _
                Hloop (Forall_nil _)) as Hall.
  cbn [snd] in Hall.
  destruct (createRangeAtCharacterOffset doc textNodes (currentOffset data'))
    as [range | message |] eqn:Hrange; simpl in Hrun; try discriminate.
  assert (Hfinal : measured (currentOffset data',
                     num_abs (num_sub (left num (coordsOf num num_zero clientRect range))
                                positionX))).
  { unfold measured, distanceAt. cbn [fst snd]. rewrite Hrange. reflexivity. }
  destruct (num_ltb _ distance'); inversion Hrun; subst; split; assumption.
Qed.

End BinaryCursorSearchFacts.

(** Distinct identities of a concrete document. *)
Ltac distinct_ids :=
  simpl; repeat (constructor; [simpl; intuition discriminate |]); constructor.

(** ** The claims about walks and text extraction *)

Section WalkClaims.
Import Dom NodeIterator Walk HighlightText Samples.

Lemma resume_none_following :
  forall c, resume c = None -> following c = [].
Proof.
  induction c as [| f up IH]; intro H; simpl in *; [reflexivity |].
  destruct (fafter f); [| discriminate]. simpl. apply IH. assumption.
Qed.

(** C2, at the failing input.  On the host
    [<div>Foo <br data-editable="remove">Bar</div>] the BR element is
    marked [data-editable="remove"] and still gives its newline:
    [extractText] returns "Foo ", a newline and "Bar", where the text in
    which marked elements give nothing is "Foo Bar". *)
Lemma extractText_counts_removed_BR :
  NoDup (ids fooBarDoc) /\
  extractText fooBarDoc (nid fooBarHost) true = Some ("Foo " ++ newline ++ "Bar")%string /\
  claimedText true fooBarHost = "Foo Bar" /\
  extractText fooBarDoc (nid fooBarHost) true <> Some (claimedText true fooBarHost).
Proof.
  split; [distinct_ids |]. split; [reflexivity |]. split; [reflexivity |].
  intro H. vm_compute in H. discriminate.
Qed.

(** What [extractText] returns and which nodes its walk visits.  In a
    document with distinct node identities, for every host and both
    values of [convertBRs]:
    - [extractText] returns the concatenation, over the nodes the walk
      visits, of the data of each text node and (when [convertBRs] is set)
      one newline for each BR element, a BR element marked
      [data-editable="remove"] included;
    - the walk visits the nodes of [visible host], that is the subtree in
      depth-first pre-order without the descendants of elements marked
      [data-editable="remove"], in this order, and then ends;
    - so no proper descendant of a marked element is ever visited. *)
Theorem extractText_visible_preorder :
  forall (doc : Node) (rootCtx : Ctx) (host : Node) (convertBRs : bool),
    NoDup (ids doc) ->
    At doc rootCtx host ->
    extractText doc (nid host) convertBRs =
      Some (concatAll (map (contribution convertBRs) (visible host))) /\
    (forall j, getNext_nth j doc (NodeIterator.new (nid host)) =
               option_map nid (nth_error (visible host) j)) /\
    (forall c e d j,
        At host c e -> isRemoved e = true -> properDescendant e d ->
        getNext_nth j doc (NodeIterator.new (nid host)) <> Some (nid d)).
Proof.
  intros doc rootCtx host convertBRs Hnd Hhost.
  assert (Hnth : forall j, getNext_nth j doc (NodeIterator.new (nid host)) =
                           option_map nid (nth_error (visible host) j)).
  { intro j. apply (getNext_nth_pending doc Hnd rootCtx host Hhost).
    - reflexivity.
    - apply Pending_new. }
  split; [apply (extractText_visible doc Hnd rootCtx host Hhost) |].
  split; [exact Hnth |].
  intros c e d j He Hrem Hd Hvisit. rewrite Hnth in Hvisit.
  destruct (nth_error (visible host) j) as [y |] eqn:Hy; [| discriminate].
  simpl in Hvisit. inversion Hvisit as [Hnid].
  apply (removed_descendants_invisible host c e d
           (At_NoDup _ _ _ Hhost Hnd) He Hrem Hd).
  rewrite <- Hnid. apply in_map. apply (nth_error_In _ _ Hy).
Qed.

Lemma extractText_visible_preorder_witness :
  extractText nestedDoc (nid nestedHost) true =
    Some (concatAll (map (contribution true) (visible nestedHost))) /\
  (forall j, getNext_nth j nestedDoc (NodeIterator.new (nid nestedHost)) =
             option_map nid (nth_error (visible nestedHost) j)) /\
  (forall c e d j,
      At nestedHost c e -> isRemoved e = true -> properDescendant e d ->
      getNext_nth j nestedDoc (NodeIterator.new (nid nestedHost)) <> Some (nid d)).
Proof.
  apply (extractText_visible_preorder nestedDoc [documentFrame] nestedHost true).
  - distinct_ids.
  - exact (At_child 0 "#document" [] [] nestedHost [] [] nestedHost (At_here nestedHost)).
Defined.

(** C10.  In a document with distinct node identities, let the iterator
    walk below [T] and let [r] be a node of the subtree of [T], with the
    frames [c] from [r] up to [T].  After [replaceCurrent(r)]:
    - [current] is [r] and [nextNode] is [resume c]: the next sibling of
      [r] if it has one, otherwise the next sibling of the nearest ancestor
      of [r] strictly below [T] that has one, otherwise [undefined];
    - the following [getNext()] calls return the nodes of [following c] in
      order and then [undefined];
    - none of them returns [r] or a descendant of [r];
    - if there is no such sibling, every following call returns
      [undefined]: the walk is over. *)
Theorem replaceCurrent_resumes_after_replacement :
  forall (doc : Node) (rootCtx : Ctx) (T : Node) (c : Ctx) (r : Node) (it : NodeIterator),
    NoDup (ids doc) ->
    At doc rootCtx T ->
    At T c r ->
    root it = nid T ->
    let it' := replaceCurrent doc it (nid r) in
    current it' = Some (nid r) /\
    nextNode it' = option_map nid (resume c) /\
    (forall j, getNext_nth j doc it' = option_map nid (nth_error (following c) j)) /\
    (forall j m, getNext_nth j doc it' = Some m -> ~ In m (ids r)) /\
    (resume c = None -> forall j, getNext_nth j doc it' = None).
Proof.
  intros doc rootCtx T c r it Hnd HT Hr Hroot it'.
  assert (Hnext : nextNode it' = option_map nid (resume c)).
  { unfold it', replaceCurrent. simpl. rewrite Hroot.
    apply (climb_resume doc Hnd rootCtx T HT c r).
    - assumption.
    - apply (At_fuel doc rootCtx T HT c r Hr). }
  assert (Hnth : forall j, getNext_nth j doc it' =
                           option_map nid (nth_error (following c) j)).
  { intro j. apply (getNext_nth_pending doc Hnd rootCtx T HT).
    - exact Hroot.
    - rewrite Hnext. apply (Pending_resume T c r Hr). }
  split; [reflexivity |]. split; [exact Hnext |]. split; [exact Hnth |]. split.
  - intros j m Hvisit Hin. rewrite Hnth in Hvisit.
    destruct (nth_error (following c) j) as [y |] eqn:Hy; [| discriminate].
    simpl in Hvisit. inversion Hvisit as [Hm].
    apply (following_disjoint T c r Hr (At_NoDup _ _ _ HT Hnd) y m).
    + apply (nth_error_In _ _ Hy).
    + rewrite <- Hm. apply nid_in_ids.
    + assumption.
  - intros Hnone j. rewrite Hnth. rewrite (resume_none_following c Hnone).
    destruct j; reflexivity.
Qed.

Lemma replaceCurrent_resumes_after_replacement_witness :
  let it' := replaceCurrent nestedDoc (NodeIterator.new 1) 4 in
  current it' = Some 4%nat /\
  nextNode it' = option_map nid (resume nestedCtx) /\
  (forall j, getNext_nth j nestedDoc it' = option_map nid (nth_error (following nestedCtx) j)) /\
  (forall j m, getNext_nth j nestedDoc it' = Some m -> ~ In m (ids (TextNode 4 "a"))) /\
  (resume nestedCtx = None -> forall j, getNext_nth j nestedDoc it' = None).
Proof.
  apply (replaceCurrent_resumes_after_replacement nestedDoc [documentFrame] nestedHost
           nestedCtx (TextNode 4 "a") (NodeIterator.new 1)).
  - distinct_ids.
  - exact (At_child 0 "#document" [] [] nestedHost [] [] nestedHost (At_here nestedHost)).
  - exact (At_child 1 "DIV" [] [] _ _ [_; _] _
             (At_child 2 "B" [] [] _ [] [_] _
                (At_child 3 "I" [] [] _ [] [] _ (At_here (TextNode 4 "a"))))).
  - reflexivity.
Defined.

End WalkClaims.

(** ** The claims about the geometric cursor search *)

Section CursorSearchClaims.
Import Dom NodeIterator Walk Element BinarySearch Samples.

Section AnyRendering.

Variable num : Type.
Variable num_zero : num.
Variable num_sub : num -> num -> num.
Variable num_abs : num -> num.
Variable num_ltb : num -> num -> bool.
Variable num_eqb : num -> num -> bool.
Variable clientRect : nat -> Z -> option (DOMRect num).
Variable hostRangeRect : option (DOMRect num).
Variable hostRect : option (DOMRect num).

Local Abbreviation search :=
  (binaryCursorSearch num num_zero num_sub num_abs num_ltb num_eqb
     clientRect hostRangeRect hostRect).

Local Abbreviation search_probes :=
  (binaryCursorSearch_probes num num_zero num_sub num_abs num_ltb num_eqb
     clientRect hostRangeRect hostRect).

(** C7.  Whatever the rendering engine answers (no assumption is made on
    the bounding boxes, so they may make the comparisons oscillate), the
    search returns a result, and the loop reads at most 20 bounding boxes:
    it makes at most 20 iterations. *)
Theorem binaryCursorSearch_at_most_20_iterations :
  forall (doc : Node) (rootCtx : Ctx) (host : Node)
         (requiredOnFirstLine requiredOnLastLine : bool) (positionX : num),
    NoDup (ids doc) ->
    At doc rootCtx host ->
    exists result probes final,
      search_probes doc (nid host) requiredOnFirstLine requiredOnLastLine positionX =
        Returns (result, probes, final) /\
      (List.length probes <= 20)%nat /\
      search doc (nid host) requiredOnFirstLine requiredOnLastLine positionX =
        Returns result.
Proof.
  intros doc rootCtx host f l x Hnd Hhost.
  destruct (binaryCursorSearch_probes_spec num num_zero num_sub num_abs num_ltb num_eqb
              clientRect hostRangeRect hostRect doc Hnd rootCtx host Hhost f l x)
    as (Hzero & Hpos).
  pose proof (sumLengths_nonneg doc (map nid (textNodesOf host))) as Hn.
  destruct (Z.eq_dec (sumLengths doc (map nid (textNodesOf host))) 0) as [H0 | H0].
  - eexists. exists [], None. unfold binaryCursorSearch. rewrite (Hzero H0).
    split; [reflexivity |]. split; [simpl; lia | reflexivity].
  - destruct Hpos as (probes & lo & ld & fo & fd & Hrun & _ & Hlen & _); [lia |].
    eexists. exists probes. eexists. unfold binaryCursorSearch. rewrite Hrun.
    split; [reflexivity |]. split; [assumption | reflexivity].
Qed.

(** C8, amended.  For a host with at least one character the search
    returns; it made at least one probe in the loop and one after it, and
    the distance of each probe is the absolute difference between the
    left coordinate of the bounding box at its offset and the target.
    The result is the offset probed after the loop, with its distance,
    when that distance is smaller than the distance of the last probe of
    the loop, and otherwise (a tie included) the last probe of the loop:
    the closer of the last two probes, not of all probes.  When the
    comparison of distances is asymmetric, neither of the two is closer
    than the result. *)
Theorem binaryCursorSearch_closer_of_last_two :
  forall (doc : Node) (rootCtx : Ctx) (host : Node)
         (requiredOnFirstLine requiredOnLastLine : bool) (positionX : num) (n : Z),
    NoDup (ids doc) ->
    At doc rootCtx host ->
    getTotalCharCount doc (nid host) = Some n ->
    1 <= n ->
    exists textNodes probes lastOffset lastDistance finalOffset finalDistance o d,
      textNodesUnder doc (nid host) = Some textNodes /\
      search_probes doc (nid host) requiredOnFirstLine requiredOnLastLine positionX =
        Returns (mkResult num true (Some d) (Some o), probes,
                 Some (finalOffset, finalDistance)) /\
      search doc (nid host) requiredOnFirstLine requiredOnLastLine positionX =
        Returns (mkResult num true (Some d) (Some o)) /\
      probes <> [] /\
      last probes (0, num_zero) = (lastOffset, lastDistance) /\
      Forall (fun p => distanceAt num num_zero num_sub num_abs clientRect doc textNodes
                         positionX (fst p) = Some (snd p)) probes /\
      distanceAt num num_zero num_sub num_abs clientRect doc textNodes positionX lastOffset
        = Some lastDistance /\
      distanceAt num num_zero num_sub num_abs clientRect doc textNodes positionX finalOffset
        = Some finalDistance /\
      (o, d) = (if num_ltb finalDistance lastDistance
                then (finalOffset, finalDistance)
                else (lastOffset, lastDistance)) /\
      ((forall a b, num_ltb a b = true -> num_ltb b a = false) ->
       num_ltb lastDistance d = false /\ num_ltb finalDistance d = false).
Proof.
  intros doc rootCtx host f l x n Hnd Hhost Hcount Hn.
  rewrite (getTotalCharCount_sum doc Hnd rootCtx host Hhost) in Hcount.
  inversion Hcount as [Hn']. rewrite <- Hn' in Hn.
  destruct (binaryCursorSearch_probes_spec num num_zero num_sub num_abs num_ltb num_eqb
              clientRect hostRangeRect hostRect doc Hnd rootCtx host Hhost f l x)
    as (_ & Hpos).
  destruct (Hpos Hn) as (probes & lo & ld & fo & fd & Hrun & Hne & _ & Hlast & _).
  destruct (binaryCursorSearch_probes_measured num num_zero num_sub num_abs num_ltb num_eqb
              clientRect hostRangeRect hostRect doc Hnd rootCtx host Hhost f l x
              _ probes fo fd Hrun) as (Hall & Hfinal).
  cbn [fst snd] in Hfinal.
  assert (Hlo : distanceAt num num_zero num_sub num_abs clientRect doc
                  (map nid (textNodesOf host)) x lo = Some ld).
  { assert (Hin : In (lo, ld) probes).
    { rewrite <- Hlast. destruct probes as [| p probes]; [contradiction |].
      clear. revert p. induction probes as [| q probes IH]; intro p.
      - left. reflexivity.
      - right. apply (IH q). }
    rewrite Forall_forall in Hall. apply (Hall (lo, ld) Hin). }
  assert (Hpick : forall o d,
            (o, d) = (if num_ltb fd ld then (fo, fd) else (lo, ld)) ->
            (forall a b, num_ltb a b = true -> num_ltb b a = false) ->
            num_ltb ld d = false /\ num_ltb fd d = false).
  { intros o d Hod Hasym.
    assert (Hirrefl : forall a, num_ltb a a = false).
    { intro a. destruct (num_ltb a a) eqn:Ha; [| reflexivity].
      rewrite (Hasym a a Ha) in Ha. discriminate. }
    destruct (num_ltb fd ld) eqn:Hcmp; inversion Hod; subst o d.
    - split; [apply Hasym; assumption | apply Hirrefl].
    - split; [apply Hirrefl | assumption]. }
  exists (map nid (textNodesOf host)), probes, lo, ld, fo, fd.
  exists (if num_ltb fd ld then fo else lo), (if num_ltb fd ld then fd else ld).
  split; [apply (textNodesUnder_visible doc Hnd rootCtx host Hhost) |].
  split; [rewrite Hrun; destruct (num_ltb fd ld); reflexivity |].
  split; [unfold binaryCursorSearch; rewrite Hrun; destruct (num_ltb fd ld); reflexivity |].
  split; [assumption |]. split; [assumption |]. split; [exact Hall |].
  split; [assumption |]. split; [assumption |].
  split; [destruct (num_ltb fd ld); reflexivity |].
  apply (Hpick (if num_ltb fd ld then fo else lo)).
  destruct (num_ltb fd ld); reflexivity.
Qed.

End AnyRendering.

Lemma binaryCursorSearch_at_most_20_iterations_witness :
  exists result probes final,
    binaryCursorSearch_probes Z 0 Z.sub Z.abs Z.ltb Z.eqb twoLinesRect None None
      twoLinesDoc (nid twoLinesHost) false false 7 =
      Returns (result, probes, final) /\
    (List.length probes <= 20)%nat /\
    binaryCursorSearch Z 0 Z.sub Z.abs Z.ltb Z.eqb twoLinesRect None None
      twoLinesDoc (nid twoLinesHost) false false 7 =
      Returns result.
Proof.
  apply (binaryCursorSearch_at_most_20_iterations Z 0 Z.sub Z.abs Z.ltb Z.eqb
           twoLinesRect None None twoLinesDoc [documentFrame] twoLinesHost false false 7).
  - distinct_ids.
  - exact (At_child 0 "#document" [] [] twoLinesHost [] [] twoLinesHost (At_here twoLinesHost)).
Defined.

(** C8 as stated fails on the two-line host [<div>abcde<br>fgh</div>] with
    the target [x = 20]: the first probe, at offset 4, is at distance 0,
    but the search moves on to the second line and returns offset 8 at
    distance 5. *)
Lemma binaryCursorSearch_misses_best_probe :
  binaryCursorSearch_probes Z 0 Z.sub Z.abs Z.ltb Z.eqb twoLinesRect None None
    twoLinesDoc (nid twoLinesHost) false false 20 =
    Returns (mkResult Z true (Some 5) (Some 8),
             [(4, 0); (6, 15); (7, 10); (8, 5)], Some (8, 5)) /\
  In (4, 0) [(4, 0); (6, 15); (7, 10); (8, 5)] /\
  0 < 5.
Proof.
  split; [vm_compute; reflexivity |]. split; [left; reflexivity | lia].
Qed.

Lemma binaryCursorSearch_closer_of_last_two_witness :
  exists textNodes probes lastOffset lastDistance finalOffset finalDistance o d,
    textNodesUnder twoLinesDoc (nid twoLinesHost) = Some textNodes /\
    binaryCursorSearch_probes Z 0 Z.sub Z.abs Z.ltb Z.eqb twoLinesRect None None
      twoLinesDoc (nid twoLinesHost) false false 20 =
      Returns (mkResult Z true (Some d) (Some o), probes,
               Some (finalOffset, finalDistance)) /\
    binaryCursorSearch Z 0 Z.sub Z.abs Z.ltb Z.eqb twoLinesRect None None
      twoLinesDoc (nid twoLinesHost) false false 20 =
      Returns (mkResult Z true (Some d) (Some o)) /\
    probes <> [] /\
    last probes (0, 0) = (lastOffset, lastDistance) /\
    Forall (fun p => distanceAt Z 0 Z.sub Z.abs twoLinesRect twoLinesDoc textNodes 20 (fst p)
                     = Some (snd p)) probes /\
    distanceAt Z 0 Z.sub Z.abs twoLinesRect twoLinesDoc textNodes 20 lastOffset
      = Some lastDistance /\
    distanceAt Z 0 Z.sub Z.abs twoLinesRect twoLinesDoc textNodes 20 finalOffset
      = Some finalDistance /\
    (o, d) = (if finalDistance <? lastDistance
              then (finalOffset, finalDistance)
              else (lastOffset, lastDistance)) /\
    ((forall a b, (a <? b) = true -> (b <? a) = false) ->
     (lastDistance <? d) = false /\ (finalDistance <? d) = false).
Proof.
  apply (binaryCursorSearch_closer_of_last_two Z 0 Z.sub Z.abs Z.ltb Z.eqb
           twoLinesRect None None twoLinesDoc [documentFrame] twoLinesHost false false 20 8).
  - distinct_ids.
  - exact (At_child 0 "#document" [] [] twoLinesHost [] [] twoLinesHost (At_here twoLinesHost)).
  - reflexivity.
  - lia.
Defined.

End CursorSearchClaims.

(** ** The claim about restoring a saved range *)

Section RestoreClaims.
Import Dom DomEdit RangeSaveRestore Samples.

Lemma locate_top : forall doc, locate doc (nid doc) = Some ([], doc).
Proof. intros [i d | i name attrs cs]; unfold locate; simpl; rewrite Nat.eqb_refl; reflexivity. Qed.

Lemma normalizeBoundaries_createRange :
  forall doc, normalizeBoundaries doc (createRange doc) = Returns (createRange doc).
Proof.
  intro doc.
  assert (Hsame : compareDocumentPosition doc (nid doc) (nid doc) = 0).
  { unfold compareDocumentPosition, pathOf. rewrite locate_top, Nat.eqb_refl. reflexivity. }
  unfold normalizeBoundaries, createRange. simpl. rewrite Hsame. simpl.
  rewrite Hsame. reflexivity.
Qed.

(** When the marker of a collapsed token is not in the host, [restore]
    returns the range that [createRange()] made: collapsed at the start of
    the document. *)
Lemma restore_collapsed_marker_missing :
  forall doc host id,
    id <> "" -> getMarker doc host id = None ->
    restore doc host (mkRangeInfo (Some id) None None true false) =
    Returns (doc, Some (createRange doc)).
Proof.
  intros doc host id Hid Hmarker. unfold restore. simpl.
  apply String.eqb_neq in Hid. rewrite Hid. rewrite Hmarker. simpl.
  rewrite normalizeBoundaries_createRange. reflexivity.
Qed.

(** The same for a token with two markers. *)
Lemma restore_markers_missing :
  forall doc host startId endId,
    startId <> "" -> endId <> "" ->
    getMarker doc host startId = None -> getMarker doc host endId = None ->
    restore doc host (mkRangeInfo None (Some startId) (Some endId) false false) =
    Returns (doc, Some (createRange doc)).
Proof.
  intros doc host startId endId Hs He Hstart Hend. unfold restore. simpl.
  apply String.eqb_neq in Hs, He. rewrite Hs, He.
  unfold setRangeBoundary. rewrite Hstart. simpl. rewrite Hend. simpl.
  rewrite normalizeBoundaries_createRange. reflexivity.
Qed.

(** C9, at the failing inputs.  The host [<div>abc</div>] holds no marker;
    restoring a token that names one returns neither an error nor
    [undefined] but a range, collapsed at the start of the document.  The
    same happens to a token that is restored twice: the first [restore]
    of [<div>ab|c</div>] removes the marker and returns the cursor after
    "ab"; the second [restore] of the same token returns the range at the
    start of the document. *)
Theorem restore_missing_marker_returns_a_range :
  let token := mkRangeInfo (Some "editable-range-boundary-1") None None true false in
  let twoMarkers :=
    mkRangeInfo None (Some "editable-range-boundary-2") (Some "editable-range-boundary-1")
      false false in
  let restoredDoc :=
    ElementNode 0 "#document" [] [ElementNode 1 "DIV" [] [TextNode 2 "ab"; TextNode 3 "c"]] in
  getMarker abcDoc 1 "editable-range-boundary-1" = None /\
  restore abcDoc 1 token = Returns (abcDoc, Some (mkRange 0 0 0 0)) /\
  restore abcDoc 1 twoMarkers = Returns (abcDoc, Some (mkRange 0 0 0 0)) /\
  restore savedDoc 1 token = Returns (restoredDoc, Some (mkRange 2 2 2 2)) /\
  restore restoredDoc 1 token = Returns (restoredDoc, Some (mkRange 0 0 0 0)).
Proof. cbv zeta. repeat split; reflexivity. Qed.

End RestoreClaims.

(** ** Highlighting and removing a highlight *)

(** *** Splitting strings *)

Lemma takeStr_dropStr : forall n s, (takeStr n s ++ dropStr n s)%string = s.
Proof.
  induction n as [| n IH]; intros [| a s]; simpl; try reflexivity.
  rewrite IH. reflexivity.
Qed.

Lemma length_dropStr :
  forall n s, String.length (dropStr n s) = (String.length s - n)%nat.
Proof.
  induction n as [| n IH]; intros [| a s]; simpl; try reflexivity; try lia.
  apply IH.
Qed.

Lemma dropStr_dropStr : forall n m s, dropStr m (dropStr n s) = dropStr (n + m) s.
Proof.
  induction n as [| n IH]; intros m [| a s]; simpl; try reflexivity.
  - destruct m; reflexivity.
  - apply IH.
Qed.

Lemma split_three :
  forall a b s, (a <= b)%nat ->
    (takeStr a s ++ (takeStr (b - a) (dropStr a s) ++ dropStr b s))%string = s.
Proof.
  intros a b s H.
  replace (dropStr b s) with (dropStr (b - a) (dropStr a s)).
  - rewrite takeStr_dropStr. apply takeStr_dropStr.
  - rewrite dropStr_dropStr. f_equal. lia.
Qed.

(** *** Positions in a document *)

Section ZipperFacts.
Import Dom DomEdit Walk.

Lemma rebuild_app : forall c1 c2 x, rebuild (c1 ++ c2) x = rebuild c2 (rebuild c1 x).
Proof. induction c1 as [| f c1 IH]; intros c2 x; simpl; [reflexivity | apply IH]. Qed.

Lemma At_rebuild : forall doc c x, At doc c x -> rebuild c x = doc.
Proof.
  induction 1 as [x | i name attrs l1 ch l2 c s H IH].
  - reflexivity.
  - rewrite rebuild_app, IH. reflexivity.
Qed.

Lemma At_parentOf : forall f x, At (parentOf f x) [f] x.
Proof.
  intros [p name attrs before after] x. unfold parentOf. simpl.
  apply (At_child p name attrs before x after [] x). constructor.
Qed.

Lemma rebuild_At : forall c x, At (rebuild c x) c x.
Proof.
  induction c as [| f up IH]; intro x; simpl.
  - constructor.
  - apply (At_trans _ _ _ (IH (parentOf f x)) [f] x). apply At_parentOf.
Qed.

Lemma ids_parentOf :
  forall f x, Permutation (ids (parentOf f x)) (ids x ++ frameIds f).
Proof.
  intros f x. unfold parentOf, frameIds. simpl. rewrite flat_map_app. simpl.
  apply Permutation_sym.
  apply (Permutation_trans (Permutation_app_comm _ _)). simpl.
  apply perm_skip. rewrite <- app_assoc.
  apply Permutation_app_head. apply Permutation_app_comm.
Qed.

Lemma ids_rebuild :
  forall c x, Permutation (ids (rebuild c x)) (ids x ++ ctxIds c).
Proof.
  induction c as [| f up IH]; intro x; simpl.
  - rewrite app_nil_r. apply Permutation_refl.
  - apply (Permutation_trans (IH (parentOf f x))).
    apply (Permutation_trans (Permutation_app_tail _ (ids_parentOf f x))).
    rewrite <- app_assoc. apply Permutation_refl.
Qed.

Lemma parentIds_ctxIds : forall c j, In j (parentIds c) -> In j (ctxIds c).
Proof.
  induction c as [| f up IH]; intros j H; simpl in *; [assumption |].
  destruct H as [H | H]; [left; assumption | right].
  apply in_or_app. right. apply IH. assumption.
Qed.

Lemma beforeIds_ctxIds : forall c j, In j (beforeIds c) -> In j (ctxIds c).
Proof.
  induction c as [| f up IH]; intros j H; simpl in *; [assumption |].
  apply in_app_or in H. destruct H as [H | H].
  - right. apply in_or_app. left. apply in_or_app. left. assumption.
  - right. apply in_or_app. right. apply IH. assumption.
Qed.

Lemma afterIds_ctxIds : forall c j, In j (afterIds c) -> In j (ctxIds c).
Proof.
  induction c as [| f up IH]; intros j H; simpl in *; [assumption |].
  apply in_app_or in H. destruct H as [H | H].
  - right. apply in_or_app. left. apply in_or_app. right. assumption.
  - right. apply in_or_app. right. apply IH. assumption.
Qed.

(** In a document with distinct identities, the subtree of a node and the
    frames around it share no identity, and no identity occurs twice in
    the frames. *)
Lemma At_split_ids :
  forall doc c x, At doc c x -> NoDup (ids doc) -> NoDup (ids x ++ ctxIds c).
Proof.
  intros doc c x H Hnd. rewrite <- (At_rebuild _ _ _ H) in Hnd.
  apply (Permutation_NoDup (ids_rebuild c x) Hnd).
Qed.

Lemma At_ctx_disjoint :
  forall doc c x j, At doc c x -> NoDup (ids doc) -> In j (ids x) -> ~ In j (ctxIds c).
Proof.
  intros doc c x j H Hnd Hj. destruct (NoDup_app_inv _ _ (At_split_ids _ _ _ H Hnd)) as (_ & _ & Hd).
  apply Hd. assumption.
Qed.

Lemma ctx_before_not_after :
  forall c j, NoDup (ctxIds c) -> In j (beforeIds c) -> ~ In j (afterIds c).
Proof.
  induction c as [| f up IH]; intros j Hnd Hb Ha; [destruct Hb |].
  change (NoDup (frameIds f ++ ctxIds up)) in Hnd.
  change (In j (flat_map ids (fbefore f) ++ beforeIds up)) in Hb.
  change (In j (flat_map ids (fafter f) ++ afterIds up)) in Ha.
  destruct (NoDup_app_inv _ _ Hnd) as (Hf & Hup & Hd).
  unfold frameIds in Hf. inversion Hf as [| ? ? _ Hf']; subst.
  destruct (NoDup_app_inv _ _ Hf') as (_ & _ & Hba).
  apply in_app_or in Hb. apply in_app_or in Ha.
  destruct Hb as [Hb | Hb], Ha as [Ha | Ha].
  - apply (Hba j Hb Ha).
  - apply (Hd j); [| apply afterIds_ctxIds; assumption].
    right. apply in_or_app. left. assumption.
  - apply (Hd j); [| apply beforeIds_ctxIds; assumption].
    right. apply in_or_app. right. assumption.
  - apply (IH j Hup Hb Ha).
Qed.

Lemma ctx_before_not_parent :
  forall c j, NoDup (ctxIds c) -> In j (beforeIds c) -> ~ In j (parentIds c).
Proof.
  induction c as [| f up IH]; intros j Hnd Hb Hp; [destruct Hb |].
  change (NoDup (frameIds f ++ ctxIds up)) in Hnd.
  change (In j (flat_map ids (fbefore f) ++ beforeIds up)) in Hb.
  change (In j (fparent f :: parentIds up)) in Hp.
  destruct (NoDup_app_inv _ _ Hnd) as (Hf & Hup & Hd).
  unfold frameIds in Hf. inversion Hf as [| ? ? Hpf _]; subst.
  apply in_app_or in Hb.
  destruct Hb as [Hb | Hb], Hp as [Hp | Hp].
  - subst j. apply Hpf. apply in_or_app. left. assumption.
  - apply (Hd j); [| apply parentIds_ctxIds; assumption].
    right. apply in_or_app. left. assumption.
  - subst j. apply (Hd (fparent f)); [left; reflexivity |].
    apply beforeIds_ctxIds. assumption.
  - apply (IH j Hup Hb Hp).
Qed.

Lemma At_ctx_NoDup :
  forall doc c x, At doc c x -> NoDup (ids doc) -> NoDup (ctxIds c).
Proof.
  intros doc c x H Hnd. apply (NoDup_app_inv _ _ (At_split_ids _ _ _ H Hnd)).
Qed.

(** Where the walk goes next. *)

Lemma resumeAt_resume :
  forall c s, option_map (fun p => nid (snd p)) (resumeAt c s) = option_map nid (resume c).
Proof.
  induction c as [| f up IH]; intro s; simpl; [reflexivity |].
  destruct (fafter f); [apply IH | reflexivity].
Qed.

Lemma resumeAt_At :
  forall doc c s c' s', At doc c s -> resumeAt c s = Some (c', s') -> At doc c' s'.
Proof.
  intros doc c. induction c as [| f up IH]; intros s c' s' H Hres; simpl in Hres; [discriminate |].
  pose proof (At_up _ _ _ _ H) as HP.
  destruct (fafter f) as [| a rest] eqn:Hafter.
  - apply (IH _ _ _ HP Hres).
  - inversion Hres; subst. apply At_down. unfold parentOf in HP. rewrite Hafter in HP.
    rewrite <- app_assoc. assumption.
Qed.

Lemma resumeAt_pending :
  forall c s, pending (resumeAt c s) = following c.
Proof.
  induction c as [| f up IH]; intro s; simpl; [reflexivity |].
  destruct (fafter f) as [| a rest] eqn:Hafter.
  - simpl. apply IH.
  - simpl. rewrite app_assoc. reflexivity.
Qed.

Lemma resumeAt_before :
  forall c s c' s' j, resumeAt c s = Some (c', s') ->
    In j (beforeIds c) \/ In j (ids s) -> In j (beforeIds c').
Proof.
  induction c as [| f up IH]; intros s c' s' j Hres Hj; simpl in Hres; [discriminate |].
  destruct (fafter f) as [| a rest] eqn:Hafter.
  - apply (IH _ _ _ j Hres). simpl in Hj. destruct Hj as [Hj | Hj].
    + apply in_app_or in Hj. destruct Hj as [Hj | Hj]; [| left; assumption].
      right. unfold parentOf. simpl. right. rewrite flat_map_app.
      apply in_or_app. left. assumption.
    + right. unfold parentOf. simpl. right. rewrite flat_map_app.
      apply in_or_app. right. simpl. apply in_or_app. left. assumption.
  - inversion Hres; subst. simpl. rewrite flat_map_app. simpl. rewrite app_nil_r.
    destruct Hj as [Hj | Hj].
    + simpl in Hj. apply in_app_or in Hj. destruct Hj as [Hj | Hj].
      * apply in_or_app. left. apply in_or_app. left. assumption.
      * apply in_or_app. right. assumption.
    + apply in_or_app. left. apply in_or_app. right. assumption.
Qed.

Lemma advance_At :
  forall doc c s c' s', At doc c s -> advance c s = Some (c', s') -> At doc c' s'.
Proof.
  intros doc c s c' s' H Hadv. unfold advance in Hadv.
  destruct s as [i d | i name attrs [| ch rest]];
    try (apply (resumeAt_At _ _ _ _ _ H Hadv)).
  destruct (is_value (assoc "data-editable" attrs) "remove").
  - apply (resumeAt_At _ _ _ _ _ H Hadv).
  - inversion Hadv; subst. apply At_down. simpl. assumption.
Qed.

Lemma advance_pending :
  forall c s, pending (Some (c, s)) = s :: pending (advance c s).
Proof.
  intros c s. unfold advance.
  destruct s as [i d | i name attrs [| ch rest]]; simpl;
    try (rewrite resumeAt_pending; reflexivity).
  - destruct (is_value (assoc "data-editable" attrs) "remove");
      rewrite resumeAt_pending; reflexivity.
  - destruct (is_value (assoc "data-editable" attrs) "remove"); simpl.
    + rewrite resumeAt_pending. reflexivity.
    + rewrite <- app_assoc. reflexivity.
Qed.

Lemma advance_before :
  forall c s c' s' j, advance c s = Some (c', s') ->
    In j (beforeIds c) -> In j (beforeIds c').
Proof.
  intros c s c' s' j Hadv Hj. unfold advance in Hadv.
  destruct s as [i d | i name attrs [| ch rest]];
    try (apply (resumeAt_before _ _ _ _ j Hadv); left; assumption).
  destruct (is_value (assoc "data-editable" attrs) "remove").
  - apply (resumeAt_before _ _ _ _ j Hadv). left. assumption.
  - inversion Hadv; subst. simpl. assumption.
Qed.

Lemma advance_before_text :
  forall c i d c' s', advance c (TextNode i d) = Some (c', s') -> In i (beforeIds c').
Proof.
  intros c i d c' s' Hadv. simpl in Hadv.
  apply (resumeAt_before _ _ _ _ i Hadv). right. simpl. left. reflexivity.
Qed.

End ZipperFacts.

Section AdvanceFacts.
Import Dom DomEdit NodeIterator Walk.

(** One [getNext()] call of a walk below [T]. *)
Lemma getNext_advance :
  forall doc rootCtx T c s it,
    NoDup (ids doc) -> At doc rootCtx T -> At T c s ->
    root it = nid T -> nextNode it = Some (nid s) ->
    getNext doc it =
    (mkIterator (Some (nid s)) (previous it)
       (option_map (fun p => nid (snd p)) (advance c s)) (root it),
     Some (nid s)).
Proof.
  intros doc rootCtx T c s it Hnd HT Hs Hroot Hnext.
  pose proof (At_trans _ _ _ HT _ _ Hs) as Habs.
  unfold getNext. rewrite Hnext.
  rewrite (firstChild_At doc Hnd _ _ Habs), (getAttribute_At doc Hnd _ _ Habs).
  rewrite Hroot.
  rewrite (climb_resume doc Hnd rootCtx T HT c s (size doc) Hs
             (At_fuel doc rootCtx T HT c s Hs)).
  rewrite <- (resumeAt_resume c s). unfold advance.
  destruct s as [i d | i name attrs [| ch rest]]; simpl; try reflexivity.
  unfold getAttributeOf. simpl.
  destruct (is_value (assoc "data-editable" attrs) "remove"); reflexivity.
Qed.

End AdvanceFacts.

(** *** Replacing a child *)

Section SubstFacts.
Import Dom DomEdit Walk.

Lemma substNode_absent :
  forall n g x, ~ In n (ids x) -> substNode n g x = x.
Proof.
  intros n g. induction x as [i d | i name attrs cs IH] using Node_induction; intro Hn.
  - reflexivity.
  - simpl. f_equal. simpl in Hn.
    assert (Hcs : ~ In n (flat_map ids cs)) by (intro H; apply Hn; right; assumption).
    clear Hn. induction IH as [| ch cs Hch _ IHcs]; [reflexivity |].
    simpl in *. destruct (Nat.eqb_spec (nid ch) n) as [Heq | Hne].
    + exfalso. apply Hcs. apply in_or_app. left. rewrite <- Heq. apply nid_in_ids.
    + rewrite Hch by (intro H; apply Hcs; apply in_or_app; left; assumption).
      simpl. f_equal. apply IHcs. intro H. apply Hcs. apply in_or_app. right. assumption.
Qed.

Lemma substChildren_absent :
  forall n g l, ~ In n (flat_map ids l) -> substChildren n g l = l.
Proof.
  intros n g. induction l as [| ch l IH]; intro Hn; [reflexivity |].
  unfold substChildren in *. simpl in *.
  destruct (Nat.eqb_spec (nid ch) n) as [Heq | Hne].
  - exfalso. apply Hn. apply in_or_app. left. rewrite <- Heq. apply nid_in_ids.
  - rewrite substNode_absent by (intro H; apply Hn; apply in_or_app; left; assumption).
    simpl. f_equal. apply IH. intro H. apply Hn. apply in_or_app. right. assumption.
Qed.

Lemma substChildren_app :
  forall n g l1 l2,
    substChildren n g (l1 ++ l2) = substChildren n g l1 ++ substChildren n g l2.
Proof. intros. unfold substChildren. apply flat_map_app. Qed.

Lemma substNode_parentOf :
  forall n g f x, nid x <> n ->
    substNode n g (parentOf f x) = parentOf (substFrame n g f) (substNode n g x).
Proof.
  intros n g f x Hne. unfold parentOf, substFrame. simpl. f_equal.
  fold (substChildren n g (fbefore f ++ x :: fafter f)).
  rewrite substChildren_app. f_equal. unfold substChildren at 1. simpl.
  apply Nat.eqb_neq in Hne. rewrite Hne. reflexivity.
Qed.

Lemma substNode_rebuild :
  forall n g c x, nid x <> n -> ~ In n (parentIds c) ->
    substNode n g (rebuild c x) = rebuild (map (substFrame n g) c) (substNode n g x).
Proof.
  intros n g. induction c as [| f up IH]; intros x Hx Hp; simpl; [reflexivity |].
  rewrite IH.
  - rewrite substNode_parentOf by assumption. reflexivity.
  - unfold parentOf. simpl. intro H. apply Hp. left. assumption.
  - intro H. apply Hp. right. assumption.
Qed.

Lemma substFrame_absent :
  forall n g f, ~ In n (frameIds f) -> substFrame n g f = f.
Proof.
  intros n g [p name attrs before after] Hn. unfold substFrame, frameIds in *. simpl in *.
  rewrite !substChildren_absent; [reflexivity | |];
    intro H; apply Hn; right; apply in_or_app; [right | left]; assumption.
Qed.

Lemma substFrames_absent :
  forall n g c, ~ In n (ctxIds c) -> map (substFrame n g) c = c.
Proof.
  intros n g. induction c as [| f up IH]; intro Hn; [reflexivity |].
  change (ctxIds (f :: up)) with (frameIds f ++ ctxIds up) in Hn.
  simpl. rewrite substFrame_absent, IH; [reflexivity | |];
    intro H; apply Hn; apply in_or_app; [right | left]; assumption.
Qed.

(** Replacing the node at a position: the parent gets the new nodes in
    its place and nothing else changes. *)
Lemma substNode_focus :
  forall doc f up x g,
    At doc (f :: up) x -> NoDup (ids doc) ->
    substNode (nid x) g doc =
    rebuild up (ElementNode (fparent f) (fname f) (fattrs f)
                  (fbefore f ++ g x ++ fafter f)).
Proof.
  intros doc f up x g H Hnd.
  pose proof (At_ctx_disjoint doc (f :: up) x (nid x) H Hnd (nid_in_ids x)) as Hd.
  change (ctxIds (f :: up)) with (frameIds f ++ ctxIds up) in Hd.
  rewrite <- (At_rebuild _ _ _ H). simpl.
  rewrite substNode_rebuild.
  - rewrite substFrames_absent by (intro Hin; apply Hd; apply in_or_app; right; assumption).
    f_equal. unfold parentOf. simpl. f_equal.
    fold (substChildren (nid x) g (fbefore f ++ x :: fafter f)).
    rewrite substChildren_app. unfold substChildren at 2. simpl.
    rewrite Nat.eqb_refl.
    fold (substChildren (nid x) g (fafter f)).
    rewrite !substChildren_absent; [reflexivity | |];
      intro Hin; apply Hd; apply in_or_app; left; unfold frameIds; right;
      apply in_or_app; [right | left]; assumption.
  - unfold parentOf. simpl. intro Heq. apply Hd. apply in_or_app. left.
    unfold frameIds. left. assumption.
  - intro Hin. apply Hd. apply in_or_app. right. apply parentIds_ctxIds. assumption.
Qed.

(** Replacing a node that sits before the path of [x]: the frames of [x]
    change only in what comes before. *)
Lemma substNode_before :
  forall doc c x n g,
    At doc c x -> NoDup (ids doc) -> In n (beforeIds c) ->
    substNode n g doc = rebuild (map (substFrame n g) c) x /\
    map fafter (map (substFrame n g) c) = map fafter c /\
    parentIds (map (substFrame n g) c) = parentIds c.
Proof.
  intros doc c x n g H Hnd Hn.
  pose proof (At_ctx_NoDup _ _ _ H Hnd) as Hc.
  assert (Hx : ~ In n (ids x)).
  { intro Hin. apply (At_ctx_disjoint _ _ _ n H Hnd Hin). apply beforeIds_ctxIds. assumption. }
  split; [| split].
  - rewrite <- (At_rebuild _ _ _ H) at 1. rewrite substNode_rebuild.
    + rewrite (substNode_absent n g x Hx). reflexivity.
    + intro Heq. apply Hx. rewrite <- Heq. apply nid_in_ids.
    + apply (ctx_before_not_parent c n Hc Hn).
  - pose proof (ctx_before_not_after c n Hc Hn) as Ha. clear - Ha.
    induction c as [| f up IH]; [reflexivity |]. simpl. f_equal.
    + apply substChildren_absent. intro Hin. apply Ha. simpl. apply in_or_app. left. assumption.
    + apply IH. intro Hin. apply Ha. simpl. apply in_or_app. right. assumption.
  - unfold parentIds. rewrite map_map. reflexivity.
Qed.

Lemma scan_found {A R : Type} (f : list A -> A -> list A -> option R) :
  forall l before r, scan f before l = Some r ->
    exists l1 x l2, l = l1 ++ x :: l2 /\ f (before ++ l1) x l2 = Some r.
Proof.
  induction l as [| y l IH]; intros before r H; simpl in H; [discriminate |].
  destruct (f before y l) as [r' |] eqn:Hy.
  - inversion H; subst. exists [], y, l. rewrite app_nil_r. split; [reflexivity | assumption].
  - destruct (IH _ _ H) as (l1 & x & l2 & Hl & Hx).
    exists (y :: l1), x, l2. split; [simpl; f_equal; assumption |].
    rewrite <- app_assoc in Hx. assumption.
Qed.

(** What [locate] finds is a node of the tree with the identity asked
    for. *)
Lemma locate_at_sound :
  forall x n c0 c s, locate_at n c0 x = Some (c, s) ->
    nid s = n /\ exists c', c = c' ++ c0 /\ At x c' s.
Proof.
  induction x as [i d | i name attrs cs IH] using Node_induction; intros n c0 c s H; simpl in H.
  - destruct (Nat.eqb_spec i n); [| discriminate]. inversion H; subst.
    split; [reflexivity |]. exists []. split; [reflexivity | constructor].
  - destruct (Nat.eqb_spec i n).
    + inversion H; subst. split; [reflexivity |]. exists []. split; [reflexivity | constructor].
    + apply scan_found in H. destruct H as (l1 & ch & l2 & Hcs & Hch). simpl in Hch.
      rewrite Forall_forall in IH.
      destruct (IH ch (ltac:(subst cs; apply in_or_app; right; left; reflexivity)) _ _ _ _ Hch)
        as (Hnid & c' & Hc & Hat).
      split; [assumption |]. exists (c' ++ [mkFrame i name attrs l1 l2]). split.
      * rewrite <- app_assoc. assumption.
      * subst cs. constructor. assumption.
Qed.

Lemma lookup_At_inv :
  forall doc n y, lookup doc n = Some y -> nid y = n /\ exists c, At doc c y.
Proof.
  intros doc n y H. unfold lookup, locate in H.
  destruct (locate_at n [] doc) as [[c s] |] eqn:Hloc; [| discriminate].
  simpl in H. inversion H; subst.
  destruct (locate_at_sound _ _ _ _ _ Hloc) as (Hnid & c' & _ & Hat).
  split; [assumption |]. exists c'. assumption.
Qed.

(** Every identity of a tree is that of a node at some position. *)
Lemma ids_At : forall x j, In j (ids x) -> exists c y, At x c y /\ nid y = j.
Proof.
  induction x as [i d | i name attrs cs IH] using Node_induction; intros j Hj.
  - destruct Hj as [Hj | []]. exists [], (TextNode i d). split; [constructor | assumption].
  - destruct Hj as [Hj | Hj].
    + exists [], (ElementNode i name attrs cs). split; [constructor | assumption].
    + apply in_flat_map in Hj. destruct Hj as (ch & Hch & Hj).
      rewrite Forall_forall in IH. destruct (IH ch Hch j Hj) as (c & y & Hat & Hy).
      destruct (in_split _ _ Hch) as (l1 & l2 & Hcs). subst cs.
      exists (c ++ [mkFrame i name attrs l1 l2]), y. split; [| assumption].
      apply At_child. assumption.
Qed.

(** Replacing a node inside a subtree [T] of the document replaces it in
    [T] and leaves what is around [T]. *)
Lemma substNode_inside :
  forall doc rootCtx T n g,
    At doc rootCtx T -> NoDup (ids doc) -> In n (ids T) -> n <> nid T ->
    substNode n g doc = rebuild rootCtx (substNode n g T).
Proof.
  intros doc rootCtx T n g HT Hnd Hn Hne.
  pose proof (At_ctx_disjoint _ _ _ n HT Hnd Hn) as Hd.
  rewrite <- (At_rebuild _ _ _ HT) at 1.
  rewrite substNode_rebuild.
  - rewrite (substFrames_absent n g rootCtx Hd). reflexivity.
  - apply not_eq_sym. assumption.
  - intro Hin. apply Hd. apply parentIds_ctxIds. assumption.
Qed.

End SubstFacts.

(** *** Wrapping a portion *)

Section WrapFacts.
Import Dom DomEdit NodeIterator Walk HighlightText Shape.

Variable L : list string.
Variable convertBRs : bool.

Lemma rebuild_text :
  forall up P P',
    plainText L convertBRs P = plainText L convertBRs P' ->
    hostText L convertBRs P = hostText L convertBRs P' ->
    hostText L convertBRs (rebuild up P) = hostText L convertBRs (rebuild up P') /\
    plainText L convertBRs (rebuild up P) = plainText L convertBRs (rebuild up P').
Proof.
  induction up as [| f up IH]; intros P P' Hp Hh; simpl; [split; assumption |].
  apply IH; unfold parentOf; simpl; rewrite !map_app, !concatAll_app; simpl; rewrite Hp;
    reflexivity.
Qed.

Lemma text_of_children :
  forall i name attrs l l',
    concatAll (map (plainText L convertBRs) l) = concatAll (map (plainText L convertBRs) l') ->
    plainText L convertBRs (ElementNode i name attrs l) =
      plainText L convertBRs (ElementNode i name attrs l') /\
    hostText L convertBRs (ElementNode i name attrs l) =
      hostText L convertBRs (ElementNode i name attrs l').
Proof. intros i name attrs l l' H. simpl. rewrite H. split; reflexivity. Qed.

Lemma ids_focus :
  forall f l,
    Permutation
      (ids (ElementNode (fparent f) (fname f) (fattrs f) (fbefore f ++ l ++ fafter f)))
      (flat_map ids l ++ frameIds f).
Proof.
  intros f l. unfold frameIds. simpl. rewrite !flat_map_app.
  apply Permutation_sym.
  apply (Permutation_trans (Permutation_app_comm _ _)). simpl.
  apply perm_skip. rewrite <- app_assoc.
  apply Permutation_app_head. apply Permutation_app_comm.
Qed.

(** Replacing the node [x] at a position by the nodes [l]: the identities
    of [x] give way to those of [l]. *)
Lemma ids_replaced :
  forall doc f up x l,
    At doc (f :: up) x ->
    Permutation
      (ids x ++ ids (rebuild up (ElementNode (fparent f) (fname f) (fattrs f)
                                   (fbefore f ++ l ++ fafter f))))
      (flat_map ids l ++ ids doc).
Proof.
  intros doc f up x l H.
  rewrite <- (At_rebuild _ _ _ H).
  apply (Permutation_trans (Permutation_app_head _ (ids_rebuild up _))).
  apply (Permutation_trans
           (Permutation_app_head _ (Permutation_app_tail _ (ids_focus f l)))).
  apply Permutation_sym.
  apply (Permutation_trans (Permutation_app_head _ (ids_rebuild (f :: up) x))).
  change (ctxIds (f :: up)) with (frameIds f ++ ctxIds up).
  rewrite <- !app_assoc.
  apply (Permutation_trans (Permutation_app_swap_app _ _ _)).
  apply Permutation_refl.
Qed.

Lemma freshId_above : forall doc j, In j (ids doc) -> (j < freshId doc)%nat.
Proof.
  intros doc j H. unfold freshId.
  assert (Hle : (list_max (ids doc) <= list_max (ids doc))%nat) by lia.
  rewrite list_max_le in Hle. rewrite Forall_forall in Hle.
  specialize (Hle j H). lia.
Qed.

Lemma nid_rebuild :
  forall c x, c <> [] -> nid (rebuild c x) = nid (rebuild c (TextNode 0 "")).
Proof.
  induction c as [| f up IH]; intros x Hc; [contradiction |].
  simpl. destruct up as [| g up].
  - reflexivity.
  - rewrite (IH (parentOf f x)) by discriminate.
    rewrite (IH (parentOf f (TextNode 0 ""))) by discriminate. reflexivity.
Qed.

Lemma isElement_rebuild :
  forall c x, c <> [] -> isElement (rebuild c x) = true.
Proof.
  induction c as [| f up IH]; intros x Hc; [contradiction |].
  simpl. destruct up as [| g up].
  - reflexivity.
  - apply IH. discriminate.
Qed.


Lemma nid_rebuild_same :
  forall up P P', nid P = nid P' -> nid (rebuild up P) = nid (rebuild up P').
Proof.
  induction up as [| f up IH]; intros P P' H; simpl; [assumption |].
  apply IH. reflexivity.
Qed.

Lemma isElement_rebuild_same :
  forall up P, isElement P = true -> isElement (rebuild up P) = true.
Proof.
  induction up as [| f up IH]; intros P H; simpl; [assumption |].
  apply IH. reflexivity.
Qed.

Lemma NoDup_app_intro {A : Type} :
  forall l1 l2 : list A,
    NoDup l1 -> NoDup l2 -> (forall a, In a l1 -> ~ In a l2) -> NoDup (l1 ++ l2).
Proof.
  induction l1 as [| x l1 IH]; intros l2 H1 H2 Hd; simpl; [assumption |].
  inversion H1 as [| ? ? Hx H1']; subst. constructor.
  - intro Hin. apply in_app_or in Hin. destruct Hin as [Hin | Hin].
    + contradiction.
    + apply (Hd x); [left; reflexivity | assumption].
  - apply IH; [assumption | assumption |]. intros a Ha. apply Hd. right. assumption.
Qed.

(** Replacing the node at a position by nodes whose identities are new or
    taken from the replaced node keeps the identities distinct. *)
Lemma replaced_NoDup :
  forall doc f up x l,
    At doc (f :: up) x -> NoDup (ids doc) ->
    NoDup (flat_map ids l) ->
    (forall j, In j (flat_map ids l) -> In j (ids x) \/ ~ In j (ids doc)) ->
    NoDup (ids (rebuild up (ElementNode (fparent f) (fname f) (fattrs f)
                              (fbefore f ++ l ++ fafter f)))).
Proof.
  intros doc f up x l H Hnd Hl Hnew.
  pose proof (At_split_ids _ _ _ H Hnd) as Hsplit.
  change (ctxIds (f :: up)) with (frameIds f ++ ctxIds up) in Hsplit.
  destruct (NoDup_app_inv _ _ Hsplit) as (_ & Hrest & Hd).
  assert (Hdoc : forall j, In j (frameIds f ++ ctxIds up) -> In j (ids doc)).
  { intros j Hj. rewrite <- (At_rebuild _ _ _ H).
    apply (Permutation_in _ (Permutation_sym (ids_rebuild (f :: up) x))).
    apply in_or_app. right. assumption. }
  apply (Permutation_NoDup
           (l := (flat_map ids l ++ frameIds f) ++ ctxIds up)).
  - apply Permutation_sym.
    apply (Permutation_trans (ids_rebuild up _)).
    apply Permutation_app_tail. apply ids_focus.
  - rewrite <- app_assoc. apply NoDup_app_intro; [assumption | assumption |].
    intros j Hj Hin. destruct (Hnew j Hj) as [Hx | Hfresh].
    + apply (Hd j Hx Hin).
    + apply Hfresh. apply Hdoc. assumption.
Qed.

Lemma assoc_setAttribute_same :
  forall attrs name value, assoc name (setAttribute attrs name value) = Some value.
Proof.
  induction attrs as [| [k v] attrs IH]; intros name value; simpl.
  - rewrite String.eqb_refl. reflexivity.
  - destruct (String.eqb_spec k name) as [Heq | Hne]; simpl.
    + subst k. rewrite String.eqb_refl. reflexivity.
    + apply String.eqb_neq in Hne. rewrite Hne. apply IH.
Qed.

Lemma assoc_setAttribute_other :
  forall attrs name name' value, name' <> name ->
    assoc name' (setAttribute attrs name value) = assoc name' attrs.
Proof.
  induction attrs as [| [k v] attrs IH]; intros name name' value Hne; simpl.
  - apply not_eq_sym in Hne. apply String.eqb_neq in Hne. rewrite Hne. reflexivity.
  - destruct (String.eqb_spec k name) as [Heq | Hk]; simpl.
    + subst k. apply not_eq_sym in Hne. apply String.eqb_neq in Hne. rewrite Hne. reflexivity.
    + destruct (String.eqb k name'); [reflexivity | apply IH; assumption].
Qed.

Lemma wrapPortion_unfold :
  forall doc portion si name attrs sch title i d,
    lookup doc (element portion) = Some (TextNode i d) ->
    0 <= offset portion <= Z.of_nat (String.length d) ->
    0 <= offset portion + length portion <= Z.of_nat (String.length d) ->
    wrapPortion doc portion (Some (ElementNode si name attrs sch)) title =
    Returns (substNode (element portion)
               (fun _ => wrapNodes doc portion name attrs title d) doc,
             freshId doc).
Proof.
  intros doc portion si name attrs sch title i d Hlook Hs He.
  unfold wrapPortion. rewrite Hlook.
  destruct (Z.ltb_spec (offset portion) 0); [lia |].
  destruct (Z.ltb_spec (Z.of_nat (String.length d)) (offset portion)); [lia |].
  destruct (Z.ltb_spec (offset portion + length portion) 0); [lia |].
  destruct (Z.ltb_spec (Z.of_nat (String.length d)) (offset portion + length portion)); [lia |].
  reflexivity.
Qed.

Lemma wrapNodes_text :
  forall doc portion name attrs title d,
    0 <= offset portion <= Z.of_nat (String.length d) ->
    0 <= offset portion + length portion <= Z.of_nat (String.length d) ->
    existsb (String.eqb (wordId portion)) L = true ->
    concatAll (map (plainText L convertBRs) (wrapNodes doc portion name attrs title d)) = d.
Proof.
  intros doc portion name attrs title d Hs He HL. unfold wrapNodes.
  set (rangeEnd := offset portion + length portion).
  set (rangeStart := Z.min (offset portion) rangeEnd).
  assert (Hse : (Z.to_nat rangeStart <= Z.to_nat rangeEnd)%nat) by (unfold rangeStart; lia).
  assert (Htag : isTagged L
            (ElementNode (freshId doc) name
               match truthy title with
               | Some t => setAttribute (setAttribute attrs "data-word-id" (wordId portion)) "title" t
               | None => setAttribute attrs "data-word-id" (wordId portion)
               end []) = true).
  { simpl. destruct (truthy title).
    - rewrite assoc_setAttribute_other by discriminate.
      rewrite assoc_setAttribute_same. assumption.
    - rewrite assoc_setAttribute_same. assumption. }
  simpl in Htag. simpl map. cbn [concatAll fold_right plainText isTagged].
  rewrite Htag.
  assert (Hmid : concatAll
            (map (plainText L convertBRs)
               (if rangeStart =? rangeEnd then []
                else [TextNode (S (freshId doc))
                        (takeStr (Z.to_nat (rangeEnd - rangeStart))
                           (dropStr (Z.to_nat rangeStart) d))])) =
          takeStr (Z.to_nat rangeEnd - Z.to_nat rangeStart) (dropStr (Z.to_nat rangeStart) d)).
  { destruct (Z.eqb_spec rangeStart rangeEnd) as [Heq | Hne]; simpl.
    - rewrite Heq, Nat.sub_diag. destruct (dropStr (Z.to_nat rangeEnd) d); reflexivity.
    - rewrite append_nil_r. f_equal. f_equal. unfold rangeStart in *. lia. }
  fold (concatAll (map (plainText L convertBRs)
          (if rangeStart =? rangeEnd then []
           else [TextNode (S (freshId doc))
                   (takeStr (Z.to_nat (rangeEnd - rangeStart))
                      (dropStr (Z.to_nat rangeStart) d))]))).
  rewrite Hmid.
  assert (Hsuf : concatAll
            (map (plainText L convertBRs)
               (if (dropStr (Z.to_nat rangeEnd) d =? "")%string then []
                else [TextNode (S (S (freshId doc))) (dropStr (Z.to_nat rangeEnd) d)])) =
          dropStr (Z.to_nat rangeEnd) d).
  { destruct (String.eqb_spec (dropStr (Z.to_nat rangeEnd) d) "") as [Heq | Hne]; simpl.
    - symmetry. assumption.
    - apply append_nil_r. }
  fold (concatAll (map (plainText L convertBRs)
          (if (dropStr (Z.to_nat rangeEnd) d =? "")%string then []
           else [TextNode (S (S (freshId doc))) (dropStr (Z.to_nat rangeEnd) d)]))).
  rewrite Hsuf.
  apply split_three. assumption.
Qed.


Lemma wrapNodes_ids :
  forall doc portion name attrs title d j,
    In j (flat_map ids (wrapNodes doc portion name attrs title d)) ->
    j = element portion \/ (freshId doc <= j)%nat.
Proof.
  intros doc portion name attrs title d j H. unfold wrapNodes in H. simpl in H.
  destruct H as [H | [H | H]]; [left; auto | right; lia |].
  right. apply in_app_or in H. destruct H as [H | H].
  - destruct (Z.min (offset portion) (offset portion + length portion)
              =? offset portion + length portion); simpl in H; [destruct H |].
    destruct H as [H | []]. lia.
  - destruct (dropStr (Z.to_nat (offset portion + length portion)) d =? "")%string;
      simpl in H; [destruct H |].
    destruct H as [H | []]. lia.
Qed.

Lemma wrapNodes_NoDup :
  forall doc portion name attrs title d,
    (element portion < freshId doc)%nat ->
    NoDup (flat_map ids (wrapNodes doc portion name attrs title d)).
Proof.
  intros doc portion name attrs title d Hlt. unfold wrapNodes. simpl.
  destruct (Z.min (offset portion) (offset portion + length portion)
            =? offset portion + length portion);
    destruct (dropStr (Z.to_nat (offset portion + length portion)) d =? "")%string;
    simpl; repeat (constructor; [simpl; intuition lia |]); constructor.
Qed.

Lemma At_descendants :
  forall x c y, At x c y -> c <> [] -> In y (descendants x).
Proof.
  induction 1 as [x | i name attrs l1 ch l2 c s H IH]; intro Hc; [contradiction |].
  simpl. apply in_flat_map. exists ch. split; [apply in_or_app; right; left; reflexivity |].
  destruct c as [| f c].
  - apply At_root_inv in H. subst s. left. reflexivity.
  - right. apply IH. discriminate.
Qed.

Lemma descendants_At :
  forall x y, In y (descendants x) -> exists c, At x c y /\ c <> [].
Proof.
  induction x as [i d | i name attrs cs IH] using Node_induction; intros y Hy; [destruct Hy |].
  simpl in Hy. apply in_flat_map in Hy. destruct Hy as (ch & Hch & Hy).
  destruct (in_split _ _ Hch) as (l1 & l2 & Hcs). subst cs.
  rewrite Forall_forall in IH. destruct Hy as [Hy | Hy].
  - subst y. exists [mkFrame i name attrs l1 l2]. split; [| discriminate].
    apply (At_child i name attrs l1 ch l2 [] ch). constructor.
  - destruct (IH ch Hch y Hy) as (c & Hat & Hc).
    exists (c ++ [mkFrame i name attrs l1 l2]). split; [constructor; assumption |].
    destruct c; [contradiction | discriminate].
Qed.

(** Replacing a text node leaves every element where it is. *)
Lemma substNode_elements_stay :
  forall n nodes x,
    (forall y, In y (descendants x) -> nid y = n -> isElement y = false) ->
    elementsStay x (substNode n (fun _ => nodes) x).
Proof.
  intros n nodes. induction x as [i d | i name attrs cs IH] using Node_induction;
    intros Htext y Hy Hel; [destruct Hy |].
  simpl in Hy. apply in_flat_map in Hy. destruct Hy as (ch & Hch & Hy).
  rewrite Forall_forall in IH.
  assert (Hchild : In ch (descendants (ElementNode i name attrs cs))).
  { simpl. apply in_flat_map. exists ch. split; [assumption | left; reflexivity]. }
  assert (Hkeep : isElement ch = true ->
            In (substNode n (fun _ => nodes) ch)
               (descendants (substNode n (fun _ => nodes) (ElementNode i name attrs cs)))).
  { intro Hech. simpl. apply in_flat_map. exists (substNode n (fun _ => nodes) ch). split.
    - apply in_flat_map. exists ch. split; [assumption |].
      destruct (Nat.eqb_spec (nid ch) n) as [Heq | Hne]; [| left; reflexivity].
      rewrite (Htext ch Hchild Heq) in Hech. discriminate.
    - left. reflexivity. }
  destruct Hy as [Hy | Hy].
  - subst y. exists (substNode n (fun _ => nodes) ch). split; [apply Hkeep; assumption |].
    destruct ch; [discriminate | repeat split].
  - assert (Hech : isElement ch = true) by (destruct ch; [destruct Hy | reflexivity]).
    destruct (IH ch Hch) with (y := y) as (y' & Hy' & Hsame); try assumption.
    + intros z Hz Hzn. apply Htext; [| assumption].
      simpl. apply in_flat_map. exists ch. split; [assumption | right; assumption].
    + exists y'. split; [| assumption].
      specialize (Hkeep Hech). simpl in Hkeep |- *.
      apply in_flat_map in Hkeep. destruct Hkeep as (z & Hz & Hin).
      apply in_flat_map. exists z. split; [assumption |].
      destruct Hin as [Hin | Hin].
      * subst z. right. assumption.
      * right.
        assert (Hsub : In (substNode n (fun _ => nodes) ch) (descendants z)) by assumption.
        destruct (descendants_At _ _ Hsub) as (c1 & Hc1 & Hn1).
        destruct (descendants_At _ _ Hy') as (c2 & Hc2 & Hn2).
        apply (At_descendants _ (c2 ++ c1) y').
        -- apply (At_trans _ _ _ Hc1 _ _ Hc2).
        -- destruct c2; [contradiction | discriminate].
Qed.

(** The nodes put in the place of a text node are text nodes and one
    clone of the marker. *)
Lemma wrapNodes_shallow :
  forall (Q : Node -> Prop) doc portion name attrs title d,
    shallow Q ->
    (forall j cs, Q (ElementNode j name (spanAttributes attrs (wordId portion) title) cs)) ->
    Forall Q (flat_map subtree (wrapNodes doc portion name attrs title d)).
Proof.
  intros Q doc portion name attrs title d (Htext & _) Hspan.
  unfold wrapNodes. cbn [flat_map subtree descendants app].
  constructor; [apply Htext |]. constructor; [apply Hspan |].
  apply Forall_app. split.
  - destruct (Z.min (offset portion) (offset portion + length portion)
              =? offset portion + length portion); simpl; [constructor |].
    constructor; [apply Htext | constructor].
  - destruct (dropStr (Z.to_nat (offset portion + length portion)) d =? "")%string; simpl;
      [constructor |].
    constructor; [apply Htext | constructor].
Qed.

(** Replacing a node by nodes that have a shallow property keeps the
    property of all descendants. *)
Lemma substNode_shallow :
  forall (Q : Node -> Prop) n nodes,
    shallow Q -> Forall Q (flat_map subtree nodes) ->
    forall x, Forall Q (descendants x) ->
      Forall Q (descendants (substNode n (fun _ => nodes) x)).
Proof.
  intros Q n nodes HQ Hnodes x. induction x as [i d | i name attrs cs IH] using Node_induction;
    intro Hx; [constructor |].
  simpl substNode. cbn [descendants]. cbn [descendants] in Hx.
  induction IH as [| ch cs Hch _ IHcs]; [constructor |].
  cbn [flat_map] in Hx |- *. apply Forall_app in Hx. destruct Hx as (Hhead & Hrest).
  rewrite flat_map_app. apply Forall_app. split; [| apply IHcs; assumption].
  destruct (Nat.eqb (nid ch) n); [assumption |].
  cbn [flat_map]. rewrite app_nil_r.
  inversion Hhead as [| ? ? Hq Hd]; subst. constructor; [| apply Hch; assumption].
  destruct ch as [j d | j name' attrs' cs']; [assumption |].
  simpl substNode. apply (proj2 HQ j name' attrs' cs'). assumption.
Qed.

(** Wrapping a portion of the text node at a position. *)
Lemma wrap_at :
  forall doc0 doc f up n d portion name attrs title,
    NoDup (ids doc) ->
    (forall j, In j (ids doc) -> (j < freshId doc0)%nat) ->
    At doc (f :: up) (TextNode n d) ->
    element portion = n ->
    0 <= offset portion <= Z.of_nat (String.length d) ->
    0 <= offset portion + length portion <= Z.of_nat (String.length d) ->
    existsb (String.eqb (wordId portion)) L = true ->
    let doc' := substNode n (fun _ => wrapNodes doc0 portion name attrs title d) doc in
    doc' = rebuild up (ElementNode (fparent f) (fname f) (fattrs f)
                         (fbefore f ++ wrapNodes doc0 portion name attrs title d ++ fafter f)) /\
    NoDup (ids doc') /\
    nid doc' = nid doc /\
    isElement doc' = true /\
    hostText L convertBRs doc' = hostText L convertBRs doc /\
    (forall j, In j (ids doc) -> In j (ids doc')).
Proof.
  intros doc0 doc f up n d portion name attrs title Hnd Hfresh Hat Hel Hs He HL doc'.
  assert (Hform : doc' = rebuild up (ElementNode (fparent f) (fname f) (fattrs f)
             (fbefore f ++ wrapNodes doc0 portion name attrs title d ++ fafter f))).
  { unfold doc'.
    exact (substNode_focus doc f up (TextNode n d)
             (fun _ => wrapNodes doc0 portion name attrs title d) Hat Hnd). }
  assert (Hn : In n (ids doc)).
  { apply (At_ids _ _ _ Hat). simpl. left. reflexivity. }
  split; [exact Hform |]. rewrite Hform. split; [| split; [| split; [| split]]].
  - apply (replaced_NoDup doc f up (TextNode n d) _ Hat Hnd).
    + apply wrapNodes_NoDup. rewrite Hel. apply Hfresh. assumption.
    + intros j Hj. destruct (wrapNodes_ids _ _ _ _ _ _ _ Hj) as [Hj' | Hj'].
      * left. simpl. left. congruence.
      * right. intro Hin. pose proof (Hfresh j Hin). lia.
  - rewrite <- (At_rebuild _ _ _ Hat). simpl. apply nid_rebuild_same. reflexivity.
  - apply isElement_rebuild_same. reflexivity.
  - rewrite <- (At_rebuild _ _ _ Hat).
    change (rebuild (f :: up) (TextNode n d))
      with (rebuild up (parentOf f (TextNode n d))).
    assert (Hch : concatAll (map (plainText L convertBRs)
                     (fbefore f ++ wrapNodes doc0 portion name attrs title d ++ fafter f)) =
                  concatAll (map (plainText L convertBRs)
                     (fbefore f ++ TextNode n d :: fafter f))).
    { rewrite !map_app, !concatAll_app.
      rewrite (wrapNodes_text doc0 portion name attrs title d Hs He HL). reflexivity. }
    destruct (text_of_children (fparent f) (fname f) (fattrs f) _ _ Hch) as (Hp & Hh).
    apply rebuild_text; assumption.
  - intros j Hj. rewrite <- (At_rebuild _ _ _ Hat) in Hj.
    apply (Permutation_in _ (ids_rebuild (f :: up) (TextNode n d))) in Hj.
    change (ctxIds (f :: up)) with (frameIds f ++ ctxIds up) in Hj.
    apply (Permutation_in _ (Permutation_sym (ids_rebuild up _))).
    apply in_app_or in Hj. destruct Hj as [Hj | Hj].
    + simpl in Hj. destruct Hj as [Hj | []]. subst j.
      apply in_or_app. left.
      apply (Permutation_in _ (Permutation_sym (ids_focus f _))).
      apply in_or_app. left. unfold wrapNodes. simpl. left. assumption.
    + apply in_app_or in Hj. destruct Hj as [Hj | Hj].
      * apply in_or_app. left.
        apply (Permutation_in _ (Permutation_sym (ids_focus f _))).
        apply in_or_app. right. assumption.
      * apply in_or_app. right. assumption.
Qed.


Lemma At_parents_elements :
  forall doc c y j, At doc c y -> In j (parentIds c) ->
    exists c' P, At doc c' P /\ nid P = j /\ isElement P = true.
Proof.
  intros doc c. induction c as [| f up IH]; intros y j H Hj; [destruct Hj |].
  pose proof (At_up _ _ _ _ H) as HP. destruct Hj as [Hj | Hj].
  - exists up, (parentOf f y). split; [assumption | split; [assumption | reflexivity]].
  - apply (IH _ j HP Hj).
Qed.

Lemma text_not_parent :
  forall doc c y n d, NoDup (ids doc) -> lookup doc n = Some (TextNode n d) ->
    At doc c y -> ~ In n (parentIds c).
Proof.
  intros doc c y n d Hnd Hlook H Hin.
  destruct (At_parents_elements _ _ _ _ H Hin) as (c' & P & HP & Hnid & Hel).
  pose proof (lookup_At doc Hnd c' P HP) as HlookP. rewrite Hnid, Hlook in HlookP.
  inversion HlookP as [HP']. rewrite <- HP' in Hel. discriminate Hel.
Qed.

(** A text node other than the replaced one is found unchanged after the
    replacement. *)
Lemma lookup_after_subst :
  forall doc n d g m dm,
    NoDup (ids doc) -> NoDup (ids (substNode n g doc)) ->
    lookup doc n = Some (TextNode n d) ->
    lookup doc m = Some (TextNode m dm) -> m <> n ->
    lookup (substNode n g doc) m = Some (TextNode m dm).
Proof.
  intros doc n d g m dm Hnd Hnd' Hn Hm Hne.
  destruct (lookup_At_inv _ _ _ Hm) as (_ & cm & Hat).
  pose proof (text_not_parent doc cm _ n d Hnd Hn Hat) as Hpar.
  assert (Heq : substNode n g doc = rebuild (map (substFrame n g) cm) (TextNode m dm)).
  { rewrite <- (At_rebuild _ _ _ Hat) at 1.
    rewrite substNode_rebuild; [reflexivity | simpl; assumption | assumption]. }
  pose proof (rebuild_At (map (substFrame n g) cm) (TextNode m dm)) as Hat'.
  rewrite <- Heq in Hat'.
  apply (lookup_At _ Hnd' _ _ Hat').
Qed.

Lemma ctxIds_split :
  forall c j, In j (ctxIds c) ->
    In j (parentIds c) \/ In j (beforeIds c) \/ In j (afterIds c).
Proof.
  induction c as [| f up IH]; intros j H; [destruct H |].
  change (In j (frameIds f ++ ctxIds up)) in H.
  change (In j (fparent f :: parentIds up) \/
          In j (flat_map ids (fbefore f) ++ beforeIds up) \/
          In j (flat_map ids (fafter f) ++ afterIds up)).
  apply in_app_or in H. destruct H as [H | H].
  - destruct H as [H | H]; [left; left; assumption |].
    apply in_app_or in H. destruct H as [H | H].
    + right. left. apply in_or_app. left. assumption.
    + right. right. apply in_or_app. left. assumption.
  - destruct (IH j H) as [H' | [H' | H']].
    + left. right. assumption.
    + right. left. apply in_or_app. right. assumption.
    + right. right. apply in_or_app. right. assumption.
Qed.

Lemma afterIds_fafter :
  forall c c', map fafter c = map fafter c' -> afterIds c = afterIds c'.
Proof.
  induction c as [| f up IH]; intros [| f' up'] H; try discriminate; [reflexivity |].
  simpl in H. inversion H as [[Hf Hup]]. unfold afterIds. simpl. rewrite Hf.
  f_equal. apply IH. assumption.
Qed.

Lemma following_fafter :
  forall c c', map fafter c = map fafter c' -> following c = following c'.
Proof.
  induction c as [| f up IH]; intros [| f' up'] H; try discriminate; [reflexivity |].
  simpl in H. inversion H as [[Hf Hup]]. simpl. rewrite Hf.
  f_equal. apply IH. assumption.
Qed.

Lemma load_app : forall l1 l2, load (l1 ++ l2) = (load l1 + load l2)%nat.
Proof. intros. unfold load. rewrite map_app, list_sum_app. reflexivity. Qed.

Variables (stencilId : nat) (stencilName : string)
          (stencilAttrs : list (string * string)) (stencilChildren : list Node).
Variable title : option string.

Local Abbreviation stencil :=
  (Some (ElementNode stencilId stencilName stencilAttrs stencilChildren)).

(** Wrapping the last portion, whose text node is where the walk below
    the host [T] is. *)
Lemma wrapMatch_last :
  forall doc rootCtx T f up n d q last,
    NoDup (ids doc) -> At doc rootCtx T -> At T (f :: up) (TextNode n d) ->
    element q = n ->
    0 <= offset q <= Z.of_nat (String.length d) ->
    0 <= offset q + length q <= Z.of_nat (String.length d) ->
    existsb (String.eqb (wordId q)) L = true ->
    exists doc' T' cs spanNode,
      wrapMatch doc [q] stencil title last = Returns (doc', Some (nid spanNode)) /\
      At doc' rootCtx T' /\ At T' cs spanNode /\
      NoDup (ids doc') /\ nid T' = nid T /\ isElement T' = true /\
      hostText L convertBRs T' = hostText L convertBRs T /\
      (load (following cs) + Z.to_nat (offset q + length q)
       <= load (following (f :: up)) + S (String.length d))%nat /\
      kept (cloneOf L stencilName stencilAttrs title) T T' /\
      (In spanNode (descendants T') /\
       exists j cs',
         spanNode = ElementNode j stencilName (spanAttributes stencilAttrs (wordId q) title) cs') /\
      elementsStay T T'.
Proof.
  intros doc rootCtx T f up n d q last Hnd HT Hat Hel Hs He HL.
  assert (Hstay : elementsStay T
            (substNode n (fun _ => wrapNodes doc q stencilName stencilAttrs title d) T)).
  { apply substNode_elements_stay. intros y Hy Hyn.
    destruct (descendants_At _ _ Hy) as (cy & Hcy & _).
    destruct (At_unique T cy y (f :: up) (TextNode n d) (At_NoDup _ _ _ HT Hnd) Hcy Hat Hyn)
      as (_ & Heq).
    rewrite Heq. reflexivity. }
  assert (Hkept : kept (cloneOf L stencilName stencilAttrs title) T
            (substNode n (fun _ => wrapNodes doc q stencilName stencilAttrs title d) T)).
  { intros Q HQ Hspans HT0. apply substNode_shallow; [assumption | | assumption].
    apply wrapNodes_shallow; [assumption |]. intros j cs0. apply Hspans.
    exists (wordId q), j, cs0. split; [assumption | reflexivity]. }
  pose proof (At_trans _ _ _ HT _ _ Hat) as Habs. simpl in Habs.
  pose proof (At_NoDup _ _ _ HT Hnd) as HndT.
  pose proof (lookup_At doc Hnd _ _ Habs) as Hlook. simpl in Hlook. rewrite <- Hel in Hlook.
  assert (HfreshT : forall j, In j (ids T) -> (j < freshId doc)%nat).
  { intros j Hj. apply freshId_above. apply (At_ids _ _ _ HT). assumption. }
  destruct (wrap_at doc doc f (up ++ rootCtx) n d q stencilName stencilAttrs title
              Hnd (freshId_above doc) Habs Hel Hs He HL)
    as (_ & Hnd' & _).
  destruct (wrap_at doc T f up n d q stencilName stencilAttrs title
              HndT HfreshT Hat Hel Hs He HL)
    as (Hform & _ & Hnid & Hiselt & Htext & _).
  assert (Hinside : substNode n (fun _ => wrapNodes doc q stencilName stencilAttrs title d) doc
                    = rebuild rootCtx
                        (substNode n (fun _ => wrapNodes doc q stencilName stencilAttrs title d) T)).
  { apply (substNode_inside doc rootCtx T n _ HT Hnd).
    - apply (At_ids _ _ _ Hat). simpl. left. reflexivity.
    - apply (At_proper_nid _ _ _ Hat); [discriminate | assumption]. }
  simpl wrapMatch.
  rewrite (wrapPortion_unfold doc q stencilId stencilName stencilAttrs stencilChildren
             title (element q) d Hlook Hs He).
  simpl. rewrite Hel.
  set (doc' := substNode n (fun _ => wrapNodes doc q stencilName stencilAttrs title d) doc) in *.
  set (T' := substNode n (fun _ => wrapNodes doc q stencilName stencilAttrs title d) T) in *.
  remember (wrapNodes doc q stencilName stencilAttrs title d) as nodes eqn:Hnodes.
  unfold wrapNodes in Hnodes.
  match type of Hnodes with
  | nodes = ?pre :: ?span :: ?next =>
      set (preNode := pre) in *; set (spanNode := span) in *; set (nextNodes := next) in *
  end.
  exists doc', T',
    (mkFrame (fparent f) (fname f) (fattrs f) (fbefore f ++ [preNode]) (nextNodes ++ fafter f)
     :: up), spanNode.
  assert (Hspan_at : At T' (mkFrame (fparent f) (fname f) (fattrs f)
                               (fbefore f ++ [preNode]) (nextNodes ++ fafter f) :: up)
                        spanNode).
  { assert (Heq : T' = rebuild (mkFrame (fparent f) (fname f) (fattrs f)
                                  (fbefore f ++ [preNode]) (nextNodes ++ fafter f) :: up)
                         spanNode).
    { rewrite Hform, Hnodes. simpl. unfold parentOf. simpl.
      rewrite <- app_assoc. reflexivity. }
    rewrite Heq. apply rebuild_At. }
  split; [reflexivity |]. split; [rewrite Hinside; apply rebuild_At |]. split.
  - exact Hspan_at.
  - split; [assumption |]. split; [assumption |]. split; [assumption |].
    split; [assumption |].
    split; [| split; [exact Hkept | split; [| exact Hstay]]].
    2:{ split; [apply (At_descendants _ _ _ Hspan_at); discriminate |].
        exists (freshId doc),
          (if Z.min (offset q) (offset q + length q) =? offset q + length q then []
           else [TextNode (S (freshId doc))
                   (takeStr (Z.to_nat (offset q + length q - Z.min (offset q) (offset q + length q)))
                      (dropStr (Z.to_nat (Z.min (offset q) (offset q + length q))) d))]).
        reflexivity. }
    simpl following. rewrite flat_map_app, <- app_assoc, !load_app.
    assert (Hnext : (load (flat_map visible nextNodes) + Z.to_nat (offset q + length q)
                     <= S (String.length d))%nat).
    { unfold nextNodes.
      destruct (dropStr (Z.to_nat (offset q + length q)) d =? "")%string; simpl.
      - unfold load. simpl. lia.
      - unfold load. simpl. rewrite length_dropStr. lia. }
    lia.
Qed.

Lemma beforeIds_in_doc :
  forall doc c x j, At doc c x -> In j (beforeIds c) -> In j (ids doc).
Proof.
  intros doc c x j H Hj. rewrite <- (At_rebuild _ _ _ H).
  apply (Permutation_in _ (Permutation_sym (ids_rebuild c x))).
  apply in_or_app. right. apply beforeIds_ctxIds. assumption.
Qed.

(** A text node of the document that has the identity of a node of the
    subtree [T] is at a position of [T]. *)
Lemma lookup_inside :
  forall doc rootCtx T n d,
    NoDup (ids doc) -> At doc rootCtx T -> In n (ids T) ->
    lookup doc n = Some (TextNode n d) ->
    exists c, At T c (TextNode n d).
Proof.
  intros doc rootCtx T n d Hnd HT Hn Hlook.
  destruct (ids_At T n Hn) as (c & y & Hat & Hy).
  pose proof (lookup_At doc Hnd _ _ (At_trans _ _ _ HT _ _ Hat)) as Hy'.
  rewrite Hy, Hlook in Hy'. inversion Hy' as [Heq]. exists c. rewrite Heq. assumption.
Qed.

(** Wrapping the portions collected for a match: those on text nodes
    before the walk, then the one on the text node where the walk is. *)
Lemma wrapMatch_spec :
  forall ps doc rootCtx T c n d q last,
    NoDup (ids doc) -> At doc rootCtx T -> At T c (TextNode n d) -> c <> [] ->
    NoDup (map element ps) ->
    (forall p, In p ps -> PortionOk L doc p /\ In (element p) (beforeIds c)) ->
    element q = n ->
    0 <= offset q <= Z.of_nat (String.length d) ->
    0 <= offset q + length q <= Z.of_nat (String.length d) ->
    existsb (String.eqb (wordId q)) L = true ->
    exists doc' T' cs spanNode,
      wrapMatch doc (ps ++ [q]) stencil title last = Returns (doc', Some (nid spanNode)) /\
      At doc' rootCtx T' /\ At T' cs spanNode /\
      NoDup (ids doc') /\ nid T' = nid T /\ isElement T' = true /\
      hostText L convertBRs T' = hostText L convertBRs T /\
      (load (following cs) + Z.to_nat (offset q + length q)
       <= load (following c) + S (String.length d))%nat /\
      kept (cloneOf L stencilName stencilAttrs title) T T' /\
      (In spanNode (descendants T') /\
       exists j cs',
         spanNode = ElementNode j stencilName (spanAttributes stencilAttrs (wordId q) title) cs') /\
      elementsStay T T'.
Proof.
  induction ps as [| p ps IH];
    intros doc rootCtx T c n d q last Hnd HT Hat Hc Hdist Hps Hel Hs He HL.
  - destruct c as [| f up]; [contradiction |].
    apply (wrapMatch_last doc rootCtx T f up n d q last Hnd HT Hat Hel Hs He HL).
  - destruct (Hps p (or_introl eq_refl)) as ((dm & Hlook & Hms & Hme & HmL) & Hbefore).
    pose proof (At_NoDup _ _ _ HT Hnd) as HndT.
    assert (HpT : In (element p) (ids T)) by (apply (beforeIds_in_doc _ _ _ _ Hat Hbefore)).
    destruct (lookup_inside doc rootCtx T (element p) dm Hnd HT HpT Hlook) as (cm & Hatm).
    destruct cm as [| fm upm].
    { apply At_root_inv in Hatm. destruct c as [| f up]; [contradiction |].
      pose proof (isElement_rebuild_same up (parentOf f (TextNode n d)) eq_refl) as Hel'.
      change (rebuild up (parentOf f (TextNode n d)))
        with (rebuild (f :: up) (TextNode n d)) in Hel'.
      rewrite (At_rebuild _ _ _ Hat), <- Hatm in Hel'. discriminate. }
    pose proof (At_trans _ _ _ HT _ _ Hatm) as Habsm. simpl in Habsm.
    assert (HfreshT : forall j, In j (ids T) -> (j < freshId doc)%nat).
    { intros j Hj. apply freshId_above. apply (At_ids _ _ _ HT). assumption. }
    destruct (wrap_at doc doc fm (upm ++ rootCtx) (element p) dm p stencilName stencilAttrs
                title Hnd (freshId_above doc) Habsm eq_refl Hms Hme HmL)
      as (_ & Hnd1 & _).
    destruct (wrap_at doc T fm upm (element p) dm p stencilName stencilAttrs title
                HndT HfreshT Hatm eq_refl Hms Hme HmL)
      as (_ & HndT1 & Hnid1 & Hiselt1 & Htext1 & Hincl1).
    simpl wrapMatch.
    rewrite (wrapPortion_unfold doc p stencilId stencilName stencilAttrs stencilChildren
               title (element p) dm Hlook Hms Hme).
    simpl.
    set (g := fun _ : Node => wrapNodes doc p stencilName stencilAttrs title dm) in *.
    assert (Hinside : substNode (element p) g doc = rebuild rootCtx (substNode (element p) g T)).
    { apply (substNode_inside doc rootCtx T (element p) g HT Hnd HpT).
      apply (At_proper_nid _ _ _ Hatm); [discriminate | assumption]. }
    set (doc1 := substNode (element p) g doc) in *.
    set (T1 := substNode (element p) g T) in *.
    assert (HT1 : At doc1 rootCtx T1) by (rewrite Hinside; apply rebuild_At).
    assert (Hstay1 : elementsStay T T1).
    { unfold T1, g. apply substNode_elements_stay. intros y Hy Hyn.
      destruct (descendants_At _ _ Hy) as (cy & Hcy & _).
      destruct (At_unique T cy y (fm :: upm) (TextNode (element p) dm) HndT Hcy Hatm Hyn)
        as (_ & Heq).
      rewrite Heq. reflexivity. }
    assert (Hkept1 : kept (cloneOf L stencilName stencilAttrs title) T T1).
    { intros Q HQ Hspans HT0. unfold T1, g.
      apply substNode_shallow; [assumption | | assumption].
      apply wrapNodes_shallow; [assumption |]. intros j cs0. apply Hspans.
      exists (wordId p), j, cs0. split; [assumption | reflexivity]. }
    destruct (substNode_before T c (TextNode n d) (element p) g Hat HndT Hbefore)
      as (Hform & Hafter & Hparents).
    fold T1 in Hform.
    set (c1 := map (substFrame (element p) g) c) in *.
    assert (Hat1 : At T1 c1 (TextNode n d)).
    { rewrite Hform. apply rebuild_At. }
    assert (Hc1 : c1 <> []).
    { unfold c1. destruct c; [contradiction | discriminate]. }
    pose proof (At_ctx_NoDup _ _ _ Hat HndT) as Hctx.
    simpl in Hdist. apply NoDup_cons_iff in Hdist. destruct Hdist as [Hp_notin Hdist'].
    destruct (IH doc1 rootCtx T1 c1 n d q (Some (freshId doc)) Hnd1 HT1 Hat1 Hc1 Hdist')
      as (doc' & T' & cs & spanNode & Hrun & HT' & Hats & Hnd' & Hnid' & Hiselt' & Htext'
          & Hload & Hkept' & Hclone & Hstay');
      try assumption; try reflexivity.
    + intros p' Hp'. destruct (Hps p' (or_intror Hp')) as ((d' & Hlook' & Hs' & He' & HL') & Hb').
      assert (Hne : element p' <> element p).
      { intro Heq. apply Hp_notin. rewrite <- Heq. apply in_map. assumption. }
      split.
      * exists d'. split; [| split; [assumption | split; assumption]].
        apply (lookup_after_subst doc (element p) dm g (element p') d' Hnd Hnd1 Hlook Hlook' Hne).
      * pose proof (beforeIds_in_doc _ _ _ _ Hat Hb') as Hin.
        apply Hincl1 in Hin. fold T1 in Hin. rewrite Hform in Hin.
        apply (Permutation_in _ (ids_rebuild c1 (TextNode n d))) in Hin.
        apply in_app_or in Hin. destruct Hin as [Hin | Hin].
        -- exfalso. apply (At_ctx_disjoint _ _ _ (element p') Hat HndT Hin).
           apply beforeIds_ctxIds. assumption.
        -- destruct (ctxIds_split _ _ Hin) as [Hin' | [Hin' | Hin']].
           ++ exfalso. rewrite Hparents in Hin'.
              apply (ctx_before_not_parent c _ Hctx Hb' Hin').
           ++ assumption.
           ++ exfalso. rewrite (afterIds_fafter c1 c Hafter) in Hin'.
              apply (ctx_before_not_after c _ Hctx Hb' Hin').
    + exists doc', T', cs, spanNode. split; [exact Hrun |]. split; [assumption |].
      split; [assumption |]. split; [assumption |]. split; [congruence |].
      split; [assumption |]. split; [congruence |].
      split; [rewrite <- (following_fafter c1 c Hafter); assumption |].
      split; [| split; [assumption |]].
      * intros Q HQ Hspans HT0. apply (Hkept' Q HQ Hspans). apply (Hkept1 Q HQ Hspans HT0).
      * intros y Hy Hely. destruct (Hstay1 y Hy Hely) as (y1 & Hy1 & Hel1 & Hs1 & Hn1 & Ha1).
        destruct (Hstay' y1 Hy1 Hel1) as (y2 & Hy2 & Hel2 & Hs2 & Hn2 & Ha2).
        exists y2. split; [assumption |]. repeat split; congruence.
Qed.

End WrapFacts.

(** *** The loop of [highlightMatches] *)

Section LoopFacts.
Import Dom DomEdit NodeIterator Walk HighlightText Shape.

Variable L : list string.
Variable convertBRs : bool.
Variable matches : list ExtendedMatch.
Variable countBRs : bool.

Hypothesis markers :
  forall m, In m matches ->
    exists i name attrs cs, marker m = Some (ElementNode i name attrs cs).
Hypothesis tagged :
  forall m, In m matches -> existsb (String.eqb (wordIdOf m)) L = true.

Lemma load_pending_advance :
  forall c s, (load (pending (advance c s)) < load (pending (Some (c, s))))%nat.
Proof.
  intros c s. rewrite (advance_pending c s). unfold load. simpl. destruct s; lia.
Qed.

Lemma Collected_advance :
  forall doc T c s portions,
    Collected L doc T (Some (c, s)) portions -> Collected L doc T (advance c s) portions.
Proof.
  intros doc T c s portions (Hd & H). destruct (H c s eq_refl) as (Hat & Hps).
  split; [assumption |]. intros c' s' Hadv. split.
  - apply (advance_At _ _ _ _ _ Hat Hadv).
  - intros p Hp. destruct (Hps p Hp) as (Hok & Hb). split; [assumption |].
    apply (advance_before _ _ _ _ _ Hadv Hb).
Qed.

Lemma Collected_add :
  forall doc rootCtx T c n d q portions,
    NoDup (ids doc) -> At doc rootCtx T ->
    Collected L doc T (Some (c, TextNode n d)) portions ->
    element q = n ->
    0 <= offset q <= Z.of_nat (String.length d) ->
    0 <= offset q + length q <= Z.of_nat (String.length d) ->
    existsb (String.eqb (wordId q)) L = true ->
    Collected L doc T (advance c (TextNode n d)) (portions ++ [q]).
Proof.
  intros doc rootCtx T c n d q portions Hnd HT (Hd & H) Hel Hs He HL.
  destruct (H c _ eq_refl) as (Hat & Hps).
  pose proof (At_NoDup _ _ _ HT Hnd) as HndT.
  split.
  - rewrite map_app. apply NoDup_app_intro; [assumption | simpl; constructor; [intros [] | constructor] |].
    intros j Hj Hq. simpl in Hq. destruct Hq as [Hq | []]. subst j.
    apply in_map_iff in Hj. destruct Hj as (p & Hp & Hin).
    destruct (Hps p Hin) as (_ & Hb). rewrite Hp, Hel in Hb.
    apply (At_ctx_disjoint _ _ _ n Hat HndT); [simpl; left; reflexivity |].
    apply beforeIds_ctxIds. assumption.
  - intros c' s' Hadv. split; [apply (advance_At _ _ _ _ _ Hat Hadv) |].
    intros p Hp. apply in_app_or in Hp. destruct Hp as [Hp | [Hp | []]].
    + destruct (Hps p Hp) as (Hok & Hb). split; [assumption |].
      apply (advance_before _ _ _ _ _ Hadv Hb).
    + subst p. split.
      * exists d. rewrite Hel. split; [| split; [assumption | split; assumption]].
        apply (lookup_At doc Hnd _ _ (At_trans _ _ _ HT _ _ Hat)).
      * rewrite Hel. apply (advance_before_text _ _ _ _ _ Hadv).
Qed.

(** The loop ends with a document in which the host has the identity and,
    looking through the highlights, the text it started with, in which
    the identities are distinct, and in which the elements of the host
    are those it had and clones of the markers. *)
Lemma highlightLoop_keeps :
  forall fuel doc rootCtx T it pos idx totalOffset cur portions wid,
    NoDup (ids doc) -> At doc rootCtx T -> isElement T = true -> root it = nid T ->
    nextNode it = option_map (fun p => nid (snd p)) pos ->
    Collected L doc T pos portions ->
    In cur matches -> existsb (String.eqb wid) L = true ->
    (load (pending pos) < fuel)%nat ->
    exists doc' T',
      highlightLoop fuel matches countBRs doc it idx totalOffset cur portions wid
        = Returns doc' /\
      At doc' rootCtx T' /\
      NoDup (ids doc') /\ nid T' = nid T /\ isElement T' = true /\
      hostText L convertBRs T' = hostText L convertBRs T /\
      kept (cloneOfMarker L matches) T T' /\
      elementsStay T T'.
Proof.
  induction fuel as [| fuel IH];
    intros doc rootCtx T it pos idx totalOffset cur portions wid
           Hnd HT Hiselt Hroot Hnext Hcol Hcur Hwid Hfuel;
    [lia |].
  destruct pos as [[c s] |].
  2:{ simpl in Hnext. exists doc, T. cbn [highlightLoop]. unfold getNext. rewrite Hnext.
      split; [reflexivity |]. split; [assumption |]. split; [assumption |].
      split; [reflexivity |]. split; [assumption |]. split; [reflexivity |].
      split; [intros Q _ _ HT0; exact HT0 |].
      intros y Hy Hely. exists y. split; [assumption | repeat split; assumption]. }
  pose proof Hcol as (Hdist & Hpos). destruct (Hpos c s eq_refl) as (Hat & Hps).
  pose proof (At_trans _ _ _ HT _ _ Hat) as Habs.
  cbn [highlightLoop].
  rewrite (getNext_advance doc rootCtx T c s it Hnd HT Hat Hroot Hnext).
  rewrite (isNonEmptyText_At doc Hnd rootCtx T HT c s Hat).
  set (it' := mkIterator (Some (nid s)) (previous it)
                (option_map (fun p => nid (snd p)) (advance c s)) (root it)).
  assert (Hstep : forall totalOffset' wid',
             existsb (String.eqb wid') L = true ->
             exists doc' T',
               highlightLoop fuel matches countBRs doc it' idx totalOffset' cur portions wid'
                 = Returns doc' /\
               At doc' rootCtx T' /\
               NoDup (ids doc') /\ nid T' = nid T /\ isElement T' = true /\
               hostText L convertBRs T' = hostText L convertBRs T /\
               kept (cloneOfMarker L matches) T T' /\
               elementsStay T T').
  { intros totalOffset' wid' Hwid'.
    apply (IH doc rootCtx T it' (advance c s)); try assumption; try reflexivity.
    - apply Collected_advance. assumption.
    - pose proof (load_pending_advance c s). lia. }
  destruct s as [n d | i name attrs cs].
  - simpl isNonEmptyTextNode. destruct (String.eqb d "") eqn:Hd; simpl negb; cbv iota.
    + destruct (countBRs && isBR doc (nid (TextNode n d))); apply Hstep; assumption.
    + rewrite (data_At doc Hnd _ _ Habs). simpl dataOf. cbv iota.
      simpl nid.
      destruct ((startIndex cur <? totalOffset + Z.of_nat (String.length d))
                && (totalOffset <? endIndex cur)) eqn:Hrange; [| apply Hstep; assumption].
      apply andb_prop in Hrange. destruct Hrange as [Hlo Hhi].
      apply Z.ltb_lt in Hlo. apply Z.ltb_lt in Hhi.
      set (isFirst := totalOffset <=? startIndex cur) in *.
      set (wid' := if isFirst then wordIdOf cur else wid) in *.
      set (off := if isFirst then startIndex cur - totalOffset else 0) in *.
      assert (Hwid' : existsb (String.eqb wid') L = true).
      { unfold wid'. destruct isFirst; [apply tagged |]; assumption. }
      assert (Hoff : 0 <= off < Z.of_nat (String.length d)).
      { unfold off, isFirst. destruct (totalOffset <=? startIndex cur) eqn:Hf.
        - apply Z.leb_le in Hf. lia.
        - assert (String.length d <> 0%nat).
          { destruct d; [discriminate | simpl; lia]. }
          lia. }
      destruct (totalOffset + Z.of_nat (String.length d) >=? endIndex cur) eqn:Hlast.
      * apply Z.geb_le in Hlast.
        set (q := mkPortion n _ off (endIndex cur - totalOffset - off) true wid').
        destruct (markers cur Hcur) as (si & sname & sattrs & scs & Hmarker).
        rewrite Hmarker.
        assert (Hc : c <> []).
        { intro Hc. subst c. apply At_root_inv in Hat. subst T. discriminate. }
        destruct (wrapMatch_spec L convertBRs si sname sattrs scs (title cur)
                    portions doc rootCtx T c n d q None Hnd HT Hat Hc Hdist Hps eq_refl)
          as (doc' & T' & cs & spanNode & Hrun & HT' & Hats & Hnd' & Hnid' & Hiselt' & Htext'
              & Hload & Hkept' & _ & Hstay');
          [simpl; lia | simpl; lia | exact Hwid' |].
        rewrite Hrun. simpl bind. cbv iota. simpl snd. simpl fst. cbv iota.
        destruct (IH doc' rootCtx T' (replaceCurrent doc' it' (nid spanNode))
                    (resumeAt cs spanNode)
                    (S idx) (totalOffset + (endIndex cur - totalOffset - off) + off)
                    (match nth_error matches (S idx) with Some m => m | None => cur end)
                    [] wid' Hnd' HT' Hiselt')
          as (doc'' & T'' & Hrun' & HT'' & Hnd'' & Hnid'' & Hiselt'' & Htext'' & Hkept''
              & Hstay'').
        -- simpl. congruence.
        -- unfold replaceCurrent. simpl nextNode. simpl root. rewrite Hroot, <- Hnid'.
           rewrite (climb_resume doc' Hnd' rootCtx T' HT' cs spanNode (size doc') Hats
                      (At_fuel doc' rootCtx T' HT' cs spanNode Hats)).
           symmetry. apply resumeAt_resume.
        -- split; [constructor |]. intros c' s' Hres. split; [| intros p []].
           apply (resumeAt_At _ _ _ _ _ Hats Hres).
        -- destruct (nth_error matches (S idx)) eqn:Hnth; [| assumption].
           apply (nth_error_In _ _ Hnth).
        -- assumption.
        -- rewrite resumeAt_pending. simpl in Hload.
           change (pending (Some (c, TextNode n d)))
             with ([TextNode n d] ++ following c) in Hfuel.
           rewrite load_app in Hfuel.
           change (load [TextNode n d]) with (S (String.length d) + 0)%nat in Hfuel.
           replace (off + (endIndex cur - totalOffset - off)) with (endIndex cur - totalOffset)
             in Hload by lia.
           lia.
        -- exists doc'', T''. split; [exact Hrun' |]. split; [assumption |].
           split; [assumption |].
           split; [congruence |]. split; [assumption |]. split; [congruence |]. split.
           ++ intros Q HQ Hspans HT0. apply (Hkept'' Q HQ Hspans).
              apply (Hkept' Q HQ); [| assumption].
              intros y Hy. apply Hspans. exists cur, si, sname, sattrs, scs.
              split; [assumption |]. split; assumption.
           ++ intros y Hy Hely.
              destruct (Hstay' y Hy Hely) as (y1 & Hy1 & Hel1 & Hs1 & Hn1 & Ha1).
              destruct (Hstay'' y1 Hy1 Hel1) as (y2 & Hy2 & Hel2 & Hs2 & Hn2 & Ha2).
              exists y2. split; [assumption |]. repeat split; congruence.
      * assert (Hlast' : totalOffset + Z.of_nat (String.length d) < endIndex cur).
        { rewrite Z.geb_leb in Hlast. apply Z.leb_gt in Hlast. lia. }
        set (q := mkPortion n _ off (Z.of_nat (String.length d) - off) false wid').
        apply (IH doc rootCtx T it' (advance c (TextNode n d))); try assumption;
          try reflexivity.
        -- apply (Collected_add doc rootCtx); try assumption; try reflexivity; simpl; lia.
        -- pose proof (load_pending_advance c (TextNode n d)). lia.
  - simpl isNonEmptyTextNode. cbv iota.
    destruct (countBRs && isBR doc (nid (ElementNode i name attrs cs))); apply Hstep; assumption.
Qed.

(** The characters of the text nodes among the nodes. *)
Lemma textLength_cons :
  forall x R,
    String.length (concatAll (map (contribution false) (x :: R)))
    = (String.length (contribution false x)
       + String.length (concatAll (map (contribution false) R)))%nat.
Proof.
  intros x R. cbn [map concatAll fold_right]. apply length_append.
Qed.

(** Without counting line breaks, a match that ends within the text
    still to come is wrapped: the loop ends with a document in which an
    element of the host carries the word id of the match. *)
Lemma highlightLoop_wraps :
  countBRs = false ->
  forall fuel doc rootCtx T it pos idx totalOffset cur portions wid,
    NoDup (ids doc) -> At doc rootCtx T -> isElement T = true -> root it = nid T ->
    nextNode it = option_map (fun p => nid (snd p)) pos ->
    Collected L doc T pos portions ->
    In cur matches -> existsb (String.eqb wid) L = true ->
    (load (pending pos) < fuel)%nat ->
    totalOffset < endIndex cur ->
    endIndex cur
      <= totalOffset
         + Z.of_nat (String.length (concatAll (map (contribution false) (pending pos)))) ->
    (totalOffset <= startIndex cur \/ wid = wordIdOf cur) ->
    startIndex cur < endIndex cur ->
    exists doc' T' y,
      highlightLoop fuel matches countBRs doc it idx totalOffset cur portions wid
        = Returns doc' /\
      At doc' rootCtx T' /\ NoDup (ids doc') /\ nid T' = nid T /\
      In y (descendants T') /\ isElement y = true /\
      getAttributeOf y "data-word-id" = Some (wordIdOf cur).
Proof.
  intro Hcount.
  induction fuel as [| fuel IH];
    intros doc rootCtx T it pos idx totalOffset cur portions wid
           Hnd HT Hiselt Hroot Hnext Hcol Hcur Hwid Hfuel Hbefore Hreach Hfirst Hproper;
    [lia |].
  destruct pos as [[c s] |]; [| simpl in Hreach; lia].
  pose proof Hcol as (Hdist & Hpos). destruct (Hpos c s eq_refl) as (Hat & Hps).
  pose proof (At_trans _ _ _ HT _ _ Hat) as Habs.
  cbn [highlightLoop].
  rewrite (getNext_advance doc rootCtx T c s it Hnd HT Hat Hroot Hnext).
  rewrite (isNonEmptyText_At doc Hnd rootCtx T HT c s Hat).
  set (it' := mkIterator (Some (nid s)) (previous it)
                (option_map (fun p => nid (snd p)) (advance c s)) (root it)).
  rewrite (advance_pending c s), textLength_cons in Hreach.
  assert (Hstep : String.length (contribution false s) = 0%nat ->
             exists doc' T' y,
               highlightLoop fuel matches countBRs doc it' idx totalOffset cur portions wid
                 = Returns doc' /\
               At doc' rootCtx T' /\ NoDup (ids doc') /\ nid T' = nid T /\
               In y (descendants T') /\ isElement y = true /\
               getAttributeOf y "data-word-id" = Some (wordIdOf cur)).
  { intro Hzero.
    apply (IH doc rootCtx T it' (advance c s)); try assumption; try reflexivity.
    - apply Collected_advance. assumption.
    - pose proof (load_pending_advance c s). lia.
    - lia. }
  destruct s as [n d | i name attrs cs].
  - simpl isNonEmptyTextNode. destruct (String.eqb d "") eqn:Hd; simpl negb; cbv iota.
    + replace (countBRs && isBR doc (nid (TextNode n d))) with false
        by (rewrite Hcount; reflexivity).
      apply Hstep. apply String.eqb_eq in Hd. subst d. reflexivity.
    + rewrite (data_At doc Hnd _ _ Habs). simpl dataOf. cbv iota.
      simpl nid. cbn [contribution] in Hreach.
      destruct ((startIndex cur <? totalOffset + Z.of_nat (String.length d))
                && (totalOffset <? endIndex cur)) eqn:Hrange.
      * apply andb_prop in Hrange. destruct Hrange as [Hlo Hhi].
        apply Z.ltb_lt in Hlo. apply Z.ltb_lt in Hhi.
        set (isFirst := totalOffset <=? startIndex cur) in *.
        set (wid' := if isFirst then wordIdOf cur else wid) in *.
        set (off := if isFirst then startIndex cur - totalOffset else 0) in *.
        assert (Hwid' : existsb (String.eqb wid') L = true).
        { unfold wid'. destruct isFirst; [apply tagged |]; assumption. }
        assert (Hwid'' : wid' = wordIdOf cur).
        { unfold wid', isFirst. destruct (Z.leb_spec totalOffset (startIndex cur));
            [reflexivity |]. destruct Hfirst; [lia | assumption]. }
        assert (Hoff : 0 <= off < Z.of_nat (String.length d)).
        { unfold off, isFirst. destruct (totalOffset <=? startIndex cur) eqn:Hf.
          - apply Z.leb_le in Hf. lia.
          - assert (String.length d <> 0%nat).
            { destruct d; [discriminate | simpl; lia]. }
            lia. }
        destruct (totalOffset + Z.of_nat (String.length d) >=? endIndex cur) eqn:Hlast.
        -- apply Z.geb_le in Hlast.
           set (q := mkPortion n _ off (endIndex cur - totalOffset - off) true wid').
           destruct (markers cur Hcur) as (si & sname & sattrs & scs & Hmarker).
           rewrite Hmarker.
           assert (Hc : c <> []).
           { intro Hc. subst c. apply At_root_inv in Hat. subst T. discriminate. }
           destruct (wrapMatch_spec L convertBRs si sname sattrs scs (title cur)
                       portions doc rootCtx T c n d q None Hnd HT Hat Hc Hdist Hps eq_refl)
             as (doc' & T' & cs & spanNode & Hrun & HT' & Hats & Hnd' & Hnid' & Hiselt'
                 & Htext' & Hload & _ & (Hin & j & cs' & Hspan) & _);
             [simpl; lia | simpl; lia | exact Hwid' |].
           rewrite Hrun. simpl bind. cbv iota. simpl snd. simpl fst. cbv iota.
           destruct (highlightLoop_keeps
                       fuel doc' rootCtx T' (replaceCurrent doc' it' (nid spanNode))
                       (resumeAt cs spanNode)
                       (S idx) (totalOffset + (endIndex cur - totalOffset - off) + off)
                       (match nth_error matches (S idx) with Some m => m | None => cur end)
                       [] wid' Hnd' HT' Hiselt')
             as (doc'' & T'' & Hrun' & HT'' & Hnd'' & Hnid'' & _ & _ & _ & Hstay).
           ++ simpl. congruence.
           ++ unfold replaceCurrent. simpl nextNode. simpl root. rewrite Hroot, <- Hnid'.
              rewrite (climb_resume doc' Hnd' rootCtx T' HT' cs spanNode (size doc') Hats
                         (At_fuel doc' rootCtx T' HT' cs spanNode Hats)).
              symmetry. apply resumeAt_resume.
           ++ split; [constructor |]. intros c' s' Hres. split; [| intros p []].
              apply (resumeAt_At _ _ _ _ _ Hats Hres).
           ++ destruct (nth_error matches (S idx)) eqn:Hnth; [| assumption].
              apply (nth_error_In _ _ Hnth).
           ++ assumption.
           ++ rewrite resumeAt_pending. simpl in Hload.
              change (pending (Some (c, TextNode n d)))
                with ([TextNode n d] ++ following c) in Hfuel.
              rewrite load_app in Hfuel.
              change (load [TextNode n d]) with (S (String.length d) + 0)%nat in Hfuel.
              replace (off + (endIndex cur - totalOffset - off)) with (endIndex cur - totalOffset)
                in Hload by lia.
              lia.
           ++ assert (Hels : isElement spanNode = true) by (rewrite Hspan; reflexivity).
              destruct (Hstay spanNode Hin Hels) as (y & Hy & Hely & _ & _ & Hattrs).
              exists doc'', T'', y. split; [exact Hrun' |]. split; [assumption |].
              split; [assumption |]. split; [congruence |]. split; [assumption |].
              split; [assumption |].
              unfold getAttributeOf. rewrite Hattrs, Hspan. cbn [attributes wordId q].
              rewrite Hwid''. unfold spanAttributes. destruct (truthy (title cur)).
              ** rewrite assoc_setAttribute_other by discriminate.
                 apply assoc_setAttribute_same.
              ** apply assoc_setAttribute_same.
        -- assert (Hlast' : totalOffset + Z.of_nat (String.length d) < endIndex cur).
           { rewrite Z.geb_leb in Hlast. apply Z.leb_gt in Hlast. lia. }
           set (q := mkPortion n _ off (Z.of_nat (String.length d) - off) false wid').
           apply (IH doc rootCtx T it' (advance c (TextNode n d))); try assumption;
             try reflexivity.
           ++ apply (Collected_add doc rootCtx); try assumption; try reflexivity; simpl; lia.
           ++ pose proof (load_pending_advance c (TextNode n d)). lia.
           ++ lia.
           ++ right. assumption.
      * assert (Hskip : startIndex cur >= totalOffset + Z.of_nat (String.length d)).
        { apply andb_false_iff in Hrange. destruct Hrange as [Hr | Hr].
          - apply Z.ltb_ge in Hr. lia.
          - apply Z.ltb_ge in Hr. lia. }
        apply (IH doc rootCtx T it' (advance c (TextNode n d))); try assumption;
          try reflexivity.
        -- apply Collected_advance. assumption.
        -- pose proof (load_pending_advance c (TextNode n d)). lia.
        -- lia.
        -- lia.
        -- left. lia.
  - simpl isNonEmptyTextNode. cbv iota.
    replace (countBRs && isBR doc (nid (ElementNode i name attrs cs))) with false
      by (rewrite Hcount; reflexivity).
    apply Hstep. reflexivity.
Qed.

(** The loop ends with a document in which the host has the identity and,
    looking through the highlights, the text it started with, and in
    which the identities are distinct. *)
Lemma highlightLoop_spec :
  forall fuel doc rootCtx T it pos idx totalOffset cur portions wid,
    NoDup (ids doc) -> At doc rootCtx T -> isElement T = true -> root it = nid T ->
    nextNode it = option_map (fun p => nid (snd p)) pos ->
    Collected L doc T pos portions ->
    In cur matches -> existsb (String.eqb wid) L = true ->
    (load (pending pos) < fuel)%nat ->
    exists doc' T',
      highlightLoop fuel matches countBRs doc it idx totalOffset cur portions wid
        = Returns doc' /\
      At doc' rootCtx T' /\
      NoDup (ids doc') /\ nid T' = nid T /\ isElement T' = true /\
      hostText L convertBRs T' = hostText L convertBRs T.
Proof.
  intros fuel doc rootCtx T it pos idx totalOffset cur portions wid
         Hnd HT Hiselt Hroot Hnext Hcol Hcur Hwid Hfuel.
  destruct (highlightLoop_keeps fuel doc rootCtx T it pos idx totalOffset cur portions wid
              Hnd HT Hiselt Hroot Hnext Hcol Hcur Hwid Hfuel)
    as (doc' & T' & Hrun & HT' & Hnd' & Hnid' & Hiselt' & Htext' & _).
  exists doc', T'. repeat split; assumption.
Qed.

End LoopFacts.

(** *** Unwrapping elements *)

Section RemoveFacts.
Import Dom DomEdit Walk HighlightText HighlightSupport.

Variable L : list string.
Variable convertBRs : bool.

Lemma isTagged_mark : forall x, isTagged L x = taggedValue L (snd (mark x)).
Proof. intros [i d | i name attrs cs]; reflexivity. Qed.

Lemma marks_element :
  forall i name attrs cs,
    marks (ElementNode i name attrs cs) = flat_map (fun ch => mark ch :: marks ch) cs.
Proof.
  intros i name attrs cs. unfold marks. simpl.
  induction cs as [| ch cs IH]; simpl; [reflexivity |].
  rewrite map_app, IH. reflexivity.
Qed.

Lemma marks_children : forall x, flat_map (fun ch => mark ch :: marks ch) (childNodes x) = marks x.
Proof. intros [i d | i name attrs cs]; [reflexivity | symmetry; apply marks_element]. Qed.

Lemma ids_marks : forall x, ids x = nid x :: map fst (marks x).
Proof.
  induction x as [i d | i name attrs cs IH] using Node_induction; [reflexivity |].
  rewrite marks_element. simpl. f_equal.
  induction IH as [| ch cs Hch _ IHcs]; simpl; [reflexivity |].
  rewrite map_app, <- IHcs, Hch. reflexivity.
Qed.

Lemma filter_all {A : Type} (p : A -> bool) :
  forall l, (forall a, In a l -> p a = true) -> filter p l = l.
Proof.
  induction l as [| a l IH]; intro H; simpl; [reflexivity |].
  rewrite (H a (or_introl eq_refl)). f_equal. apply IH. intros b Hb. apply H. right. assumption.
Qed.

Lemma mark_substNode :
  forall e g x, mark (substNode e g x) = mark x.
Proof. intros e g [i d | i name attrs cs]; reflexivity. Qed.

(** Unwrapping the element [e] takes its mark out of the list and leaves
    the others. *)
Lemma marks_substNode :
  forall e x, NoDup (ids x) ->
    marks (substNode e childNodes x) = filter (fun s => negb (Nat.eqb (fst s) e)) (marks x).
Proof.
  intro e. induction x as [i d | i name attrs cs IH] using Node_induction; intro Hnd;
    [reflexivity |].
  simpl substNode. rewrite !marks_element.
  simpl in Hnd. inversion Hnd as [| ? ? _ Hcs]; subst. clear Hnd.
  induction IH as [| ch cs Hch _ IHcs]; simpl; [reflexivity |].
  simpl in Hcs. destruct (NoDup_app_inv _ _ Hcs) as (Hndch & Hndcs & _).
  rewrite flat_map_app, filter_app, (IHcs Hndcs).
  destruct (Nat.eqb (nid ch) e) eqn:He; simpl.
  - f_equal. rewrite marks_children.
    symmetry. apply filter_all. intros a Ha.
    apply Nat.eqb_eq in He. apply negb_true_iff. apply Nat.eqb_neq. intro Hfst.
    rewrite ids_marks in Hndch. inversion Hndch as [| ? ? Hnot _]; subst.
    apply Hnot. rewrite <- Hfst. apply in_map. assumption.
  - rewrite mark_substNode. rewrite app_nil_r.
    rewrite (Hch Hndch). reflexivity.
Qed.

Lemma NoDup_map_filter {A B : Type} (f : A -> B) (p : A -> bool) :
  forall l, NoDup (map f l) -> NoDup (map f (filter p l)).
Proof.
  induction l as [| a l IH]; intro H; simpl; [constructor |].
  simpl in H. inversion H as [| ? ? Ha Hl]; subst.
  destruct (p a); simpl; [| apply IH; assumption].
  constructor; [| apply IH; assumption].
  intro Hin. apply Ha. apply in_map_iff in Hin. destruct Hin as (b & Hb & Hin).
  apply filter_In in Hin. rewrite <- Hb. apply in_map. apply Hin.
Qed.

Lemma substNode_NoDup :
  forall e x, NoDup (ids x) -> NoDup (ids (substNode e childNodes x)).
Proof.
  intros e x Hnd. pose proof (marks_substNode e x Hnd) as Hm.
  assert (Hnid : nid (substNode e childNodes x) = nid x) by (destruct x; reflexivity).
  rewrite ids_marks, Hm, Hnid. rewrite ids_marks in Hnd.
  inversion Hnd as [| ? ? Hx Hrest]; subst. constructor.
  - intro Hin. apply Hx. apply in_map_iff in Hin. destruct Hin as (b & Hb & Hin).
    apply filter_In in Hin. rewrite <- Hb. apply in_map. apply Hin.
  - apply NoDup_map_filter. assumption.
Qed.

(** Unwrapping an element tagged with an id of [L] leaves the text that
    looks through such elements. *)
Lemma substNode_text :
  forall e x,
    (forall y, In y (descendants x) -> nid y = e -> isTagged L y = true) ->
    plainText L convertBRs (substNode e childNodes x) = plainText L convertBRs x /\
    hostText L convertBRs (substNode e childNodes x) = hostText L convertBRs x.
Proof.
  intro e. induction x as [i d | i name attrs cs IH] using Node_induction; intro Htag;
    [split; reflexivity |].
  simpl substNode. apply text_of_children.
  simpl descendants in Htag.
  induction IH as [| ch cs Hch _ IHcs]; simpl; [reflexivity |].
  rewrite map_app, concatAll_app. rewrite IHcs.
  2:{ intros y Hy. apply Htag. simpl. right. apply in_or_app. right. assumption. }
  f_equal. destruct (Nat.eqb (nid ch) e) eqn:He.
  - apply Nat.eqb_eq in He.
    assert (Ht : isTagged L ch = true).
    { apply Htag; [simpl; left; reflexivity | assumption]. }
    destruct ch as [j d | j cname cattrs ccs]; [discriminate |].
    simpl. simpl in Ht. rewrite Ht. reflexivity.
  - simpl. rewrite append_nil_r. apply Hch.
    intros y Hy. apply Htag. simpl. right. apply in_or_app. left. assumption.
Qed.

Lemma unwrap_substNode :
  forall doc e, NoDup (ids doc) -> unwrap doc e = substNode e childNodes doc.
Proof.
  intros doc e Hnd. unfold unwrap.
  destruct (parentNode doc e) eqn:Hpar; [reflexivity |].
  destruct doc as [i d | i name attrs cs]; [reflexivity |].
  simpl. f_equal. symmetry.
  apply (substChildren_absent e childNodes cs). intro Hin.
  destruct (ids_At (ElementNode i name attrs cs) e (or_intror Hin)) as (c & y & Hat & Hy).
  pose proof (parentNode_At _ Hnd _ _ Hat) as Hp. rewrite Hy, Hpar in Hp.
  destruct c as [| f up]; [| discriminate].
  apply At_root_inv in Hat. subst y. simpl in Hy. subst e.
  simpl in Hnd. inversion Hnd as [| ? ? Hnot _]. contradiction.
Qed.


Lemma filter_filter_and {A : Type} (p q : A -> bool) :
  forall l, filter p (filter q l) = filter (fun a => q a && p a) l.
Proof.
  induction l as [| a l IH]; simpl; [reflexivity |].
  destruct (q a); simpl; [destruct (p a) |]; rewrite IH; reflexivity.
Qed.

Lemma substNode_ids_incl :
  forall e x, NoDup (ids x) -> incl (ids (substNode e childNodes x)) (ids x).
Proof.
  intros e x Hnd j Hj. rewrite ids_marks in Hj. rewrite ids_marks.
  rewrite (marks_substNode e x Hnd) in Hj.
  destruct Hj as [Hj | Hj]; [left; rewrite <- Hj; destruct x; reflexivity | right].
  apply in_map_iff in Hj. destruct Hj as (b & Hb & Hin).
  apply filter_In in Hin. rewrite <- Hb. apply in_map. apply Hin.
Qed.

(** A subtree with fewer identities, all distinct, in the place of [T]. *)
Lemma rebuild_NoDup :
  forall c T T',
    NoDup (ids (rebuild c T)) -> NoDup (ids T') -> incl (ids T') (ids T) ->
    NoDup (ids (rebuild c T')).
Proof.
  intros c T T' Hnd HT' Hincl.
  pose proof (Permutation_NoDup (ids_rebuild c T) Hnd) as Hsplit.
  destruct (NoDup_app_inv _ _ Hsplit) as (_ & Hc & Hd).
  apply (Permutation_NoDup (Permutation_sym (ids_rebuild c T'))).
  apply NoDup_app_intro; [assumption | assumption |].
  intros j Hj. apply Hd. apply Hincl. assumption.
Qed.

Lemma substNode_in_ctx :
  forall rootCtx T n g,
    n <> nid T -> ~ In n (ctxIds rootCtx) ->
    substNode n g (rebuild rootCtx T) = rebuild rootCtx (substNode n g T).
Proof.
  intros rootCtx T n g Hne Hd.
  rewrite substNode_rebuild.
  - rewrite (substFrames_absent n g rootCtx Hd). reflexivity.
  - apply not_eq_sym. assumption.
  - intro Hin. apply Hd. apply parentIds_ctxIds. assumption.
Qed.

(** Unwrapping the elements [es] of the host [T] one after the other. *)
Lemma unwrapAll_spec :
  forall rootCtx es T,
    NoDup (ids (rebuild rootCtx T)) ->
    (forall e, In e es -> e <> nid T /\ ~ In e (ctxIds rootCtx)) ->
    (forall s, In s (marks T) -> In (fst s) es -> taggedValue L (snd s) = true) ->
    exists T',
      fold_left unwrap es (rebuild rootCtx T) = rebuild rootCtx T' /\
      NoDup (ids (rebuild rootCtx T')) /\
      nid T' = nid T /\
      isElement T' = isElement T /\
      hostText L convertBRs T' = hostText L convertBRs T /\
      marks T' = filter (fun s => negb (existsb (Nat.eqb (fst s)) es)) (marks T).
Proof.
  intro rootCtx. induction es as [| e es IH]; intros T Hnd Hes Htag; simpl.
  - exists T. repeat split; try assumption. symmetry. apply filter_all. reflexivity.
  - rewrite (unwrap_substNode _ e Hnd).
    destruct (Hes e (or_introl eq_refl)) as (Hne & Hctx).
    rewrite (substNode_in_ctx rootCtx T e childNodes Hne Hctx).
    assert (HndT : NoDup (ids T)).
    { apply (At_NoDup _ _ _ (rebuild_At rootCtx T) Hnd). }
    pose proof (marks_substNode e T HndT) as Hm.
    assert (Hnid1 : nid (substNode e childNodes T) = nid T) by (destruct T; reflexivity).
    destruct (IH (substNode e childNodes T))
      as (T' & Hrun & Hnd' & Hnid & Hel & Htext & Hmarks).
    { apply (rebuild_NoDup rootCtx T _ Hnd (substNode_NoDup e T HndT)
               (substNode_ids_incl e T HndT)). }
    { intros e' He'. rewrite Hnid1. apply Hes. right. assumption. }
    { intros s Hs Hin. rewrite Hm in Hs. apply filter_In in Hs.
      apply Htag; [apply Hs | right; assumption]. }
    exists T'. split; [exact Hrun |]. split; [assumption |].
    split; [congruence |].
    split; [rewrite Hel; destruct T; reflexivity |].
    split.
    + rewrite Htext. apply substNode_text. intros y Hy He.
      rewrite isTagged_mark. apply Htag.
      * unfold marks. apply in_map. assumption.
      * left. symmetry. assumption.
    + rewrite Hmarks, Hm, filter_filter_and. apply filter_ext.
      intro a. simpl. rewrite negb_orb. reflexivity.
Qed.

Lemma NoDup_map_inj {A B : Type} (f : A -> B) :
  forall l a b, NoDup (map f l) -> In a l -> In b l -> f a = f b -> a = b.
Proof.
  induction l as [| x l IH]; intros a b Hnd Ha Hb Hf; [destruct Ha |].
  simpl in Hnd. inversion Hnd as [| ? ? Hx Hl]; subst.
  destruct Ha as [Ha | Ha], Hb as [Hb | Hb].
  - congruence.
  - subst x. exfalso. apply Hx. rewrite Hf. apply in_map. assumption.
  - subst x. exfalso. apply Hx. rewrite <- Hf. apply in_map. assumption.
  - apply (IH a b Hl Ha Hb Hf).
Qed.

End RemoveFacts.

(** *** [normalize()] *)

Section NormalizeFacts.
Import Dom DomEdit Walk HighlightText.

Lemma flat_map_map {A B C : Type} (f : A -> B) (g : B -> list C) :
  forall l, flat_map g (map f l) = flat_map (fun a => g (f a)) l.
Proof. induction l as [| a l IH]; simpl; [reflexivity | rewrite IH; reflexivity]. Qed.

Lemma incl_flat_map {A B : Type} (f f' : A -> list B) :
  forall l, Forall (fun a => incl (f' a) (f a)) l -> incl (flat_map f' l) (flat_map f l).
Proof.
  induction 1 as [| a l Ha _ IH]; simpl; [apply incl_refl |].
  apply incl_app; [apply incl_appl | apply incl_appr]; assumption.
Qed.

Lemma NoDup_flat_map_shrink {A B : Type} (f f' : A -> list B) :
  forall l,
    Forall (fun a => incl (f' a) (f a) /\ (NoDup (f a) -> NoDup (f' a))) l ->
    NoDup (flat_map f l) -> NoDup (flat_map f' l).
Proof.
  induction 1 as [| a l (Hincl & Hnd) Hl IH]; simpl; intro H; [constructor |].
  destruct (NoDup_app_inv _ _ H) as (Ha & Hrest & Hd).
  apply NoDup_app_intro; [apply Hnd; assumption | apply IH; assumption |].
  intros b Hb Hin. apply (Hd b (Hincl b Hb)).
  revert Hin. apply incl_flat_map.
  apply (Forall_impl _ (fun a H => proj1 H) Hl).
Qed.

Lemma mergeTexts_ids :
  forall l,
    incl (flat_map ids (mergeTexts l)) (flat_map ids l) /\
    (NoDup (flat_map ids l) -> NoDup (flat_map ids (mergeTexts l))).
Proof.
  induction l as [| x l (Hincl & Hnd)]; [split; [apply incl_refl | trivial] |].
  simpl mergeTexts. destruct x as [i d | i name attrs cs].
  - destruct (String.eqb d "").
    + split; [simpl; apply incl_tl; assumption |].
      simpl. intro H. inversion H; subst. apply Hnd. assumption.
    + destruct (mergeTexts l) as [| [j d' | j name attrs cs] merged] eqn:Hm.
      * split; [simpl; apply incl_refl with (l := [i]) || (intros a Ha; left; destruct Ha as [Ha | []]; assumption) |].
        intros _. simpl. constructor; [intros [] | constructor].
      * split.
        -- simpl. intros a [Ha | Ha]; [left; assumption | right].
           apply Hincl. simpl. right. assumption.
        -- simpl. intro H. inversion H as [| ? ? Hi Hl]; subst.
           specialize (Hnd Hl). simpl in Hnd. inversion Hnd as [| ? ? _ Hrest]; subst.
           constructor; [| assumption].
           intro Hin. apply Hi. apply Hincl. simpl. right. assumption.
      * split.
        -- simpl. intros a [Ha | Ha]; [left; assumption | right].
           apply Hincl. assumption.
        -- simpl. intro H. inversion H as [| ? ? Hi Hl]; subst.
           specialize (Hnd Hl). constructor; [| assumption].
           intro Hin. apply Hi. apply Hincl. assumption.
  - split.
    + change (incl (ids (ElementNode i name attrs cs) ++ flat_map ids (mergeTexts l))
                   (ids (ElementNode i name attrs cs) ++ flat_map ids l)).
      apply incl_app; [apply incl_appl; apply incl_refl | apply incl_appr; assumption].
    + change (NoDup (ids (ElementNode i name attrs cs) ++ flat_map ids l) ->
              NoDup (ids (ElementNode i name attrs cs) ++ flat_map ids (mergeTexts l))).
      intro H. destruct (NoDup_app_inv _ _ H) as (Hx & Hl & Hd).
      apply NoDup_app_intro; [assumption | apply Hnd; assumption |].
      intros a Ha Hin. apply (Hd a Ha). apply Hincl. assumption.
Qed.

Lemma normalizeNode_ids :
  forall x,
    incl (ids (normalizeNode x)) (ids x) /\ (NoDup (ids x) -> NoDup (ids (normalizeNode x))).
Proof.
  induction x as [i d | i name attrs cs IH] using Node_induction;
    [split; [apply incl_refl | trivial] |].
  simpl normalizeNode.
  destruct (mergeTexts_ids (map normalizeNode cs)) as (Hincl & Hnd).
  rewrite flat_map_map in Hincl, Hnd.
  assert (Hcs : incl (flat_map (fun a => ids (normalizeNode a)) cs) (flat_map ids cs)).
  { apply incl_flat_map. apply (Forall_impl _ (fun a H => proj1 H) IH). }
  split.
  - simpl. intros a [Ha | Ha]; [left; assumption | right]. apply Hcs, Hincl. assumption.
  - simpl. intro H. inversion H as [| ? ? Hi Hl]; subst. constructor.
    + intro Hin. apply Hi. apply Hcs, Hincl. assumption.
    + apply Hnd. apply (NoDup_flat_map_shrink ids (fun a => ids (normalizeNode a)) cs IH Hl).
Qed.

Lemma normalizeNode_nid : forall x, nid (normalizeNode x) = nid x.
Proof. intros [i d | i name attrs cs]; reflexivity. Qed.

Lemma normalizeNode_isElement : forall x, isElement (normalizeNode x) = isElement x.
Proof. intros [i d | i name attrs cs]; reflexivity. Qed.

(** Merging text nodes keeps the text, for every way to read a text off
    a node that gives the data of a text node. *)
Lemma mergeTexts_text (t : Node -> string) :
  (forall i d, t (TextNode i d) = d) ->
  forall l, concatAll (map t (mergeTexts l)) = concatAll (map t l).
Proof.
  intros Ht. induction l as [| x l IH]; [reflexivity |].
  simpl mergeTexts. destruct x as [i d | i name attrs cs].
  - destruct (String.eqb d "") eqn:Hd.
    + apply String.eqb_eq in Hd. subst d. simpl. rewrite Ht. simpl. assumption.
    + destruct (mergeTexts l) as [| [j d' | j name attrs cs] merged] eqn:Hm.
      * simpl. rewrite <- IH. reflexivity.
      * simpl. rewrite <- IH. simpl. rewrite !Ht. rewrite append_assoc. reflexivity.
      * simpl. rewrite <- IH. reflexivity.
  - simpl. rewrite IH. reflexivity.
Qed.

Lemma mergeTexts_marks :
  forall l,
    incl (flat_map (fun ch => mark ch :: marks ch) (mergeTexts l))
         (flat_map (fun ch => mark ch :: marks ch) l).
Proof.
  induction l as [| x l IH]; [apply incl_refl |].
  simpl mergeTexts. destruct x as [i d | i name attrs cs].
  - destruct (String.eqb d "").
    + simpl. apply incl_tl. assumption.
    + destruct (mergeTexts l) as [| [j d' | j name attrs cs] merged] eqn:Hm.
      * simpl. intros a [Ha | []]. left. assumption.
      * simpl. intros a [Ha | Ha]; [left; assumption | right].
        apply IH. simpl. right. assumption.
      * simpl. intros a [Ha | Ha]; [left; assumption | right].
        apply IH. assumption.
  - change (incl ((mark (ElementNode i name attrs cs) :: marks (ElementNode i name attrs cs))
                  ++ flat_map (fun ch => mark ch :: marks ch) (mergeTexts l))
                 ((mark (ElementNode i name attrs cs) :: marks (ElementNode i name attrs cs))
                  ++ flat_map (fun ch => mark ch :: marks ch) l)).
    apply incl_app; [apply incl_appl; apply incl_refl | apply incl_appr; assumption].
Qed.

Lemma mark_normalizeNode : forall x, mark (normalizeNode x) = mark x.
Proof. intros [i d | i name attrs cs]; reflexivity. Qed.

Lemma normalizeNode_marks : forall x, incl (marks (normalizeNode x)) (marks x).
Proof.
  induction x as [i d | i name attrs cs IH] using Node_induction; [apply incl_refl |].
  simpl normalizeNode. rewrite !marks_element.
  apply (incl_tran (mergeTexts_marks (map normalizeNode cs))).
  rewrite flat_map_map. apply incl_flat_map.
  eapply Forall_impl; [| exact IH]. intros a Ha. simpl. rewrite mark_normalizeNode.
  intros b [Hb | Hb]; [left; assumption | right; apply Ha; assumption].
Qed.

End NormalizeFacts.

(** *** The text before and after *)

Section TextFacts.
Import Dom DomEdit NodeIterator Walk HighlightText HighlightSupport.

Variable L : list string.
Variable convertBRs : bool.

Lemma map_text_Forall (t : Node -> string) (g : Node -> Node) :
  forall cs, Forall (fun ch => t (g ch) = t ch) cs ->
    concatAll (map t (map g cs)) = concatAll (map t cs).
Proof.
  induction 1 as [| ch cs Hch _ IH]; simpl; [reflexivity |]. rewrite Hch, IH. reflexivity.
Qed.

Lemma children_text_eq (t t' : Node -> string) :
  forall cs, Forall (fun ch => t ch = t' ch) cs ->
    concatAll (map t cs) = concatAll (map t' cs).
Proof.
  induction 1 as [| ch cs Hch _ IH]; simpl; [reflexivity |]. rewrite Hch, IH. reflexivity.
Qed.

Lemma normalizeNode_plainText :
  forall x, plainText L convertBRs (normalizeNode x) = plainText L convertBRs x.
Proof.
  induction x as [i d | i name attrs cs IH] using Node_induction; [reflexivity |].
  simpl normalizeNode. apply text_of_children.
  rewrite (mergeTexts_text (plainText L convertBRs)); [| reflexivity].
  apply map_text_Forall. assumption.
Qed.

Lemma normalizeNode_hostText :
  forall x, hostText L convertBRs (normalizeNode x) = hostText L convertBRs x.
Proof.
  intros [i d | i name attrs cs]; [reflexivity |].
  simpl normalizeNode. apply text_of_children.
  rewrite (mergeTexts_text (plainText L convertBRs)); [| reflexivity].
  apply map_text_Forall. apply Forall_forall. intros ch _. apply normalizeNode_plainText.
Qed.

(** The extracted text is the text read off the tree. *)
Lemma textOf_visible :
  forall x, textOf convertBRs x = concatAll (map (contribution convertBRs) (visible x)).
Proof.
  induction x as [i d | i name attrs cs IH] using Node_induction.
  - simpl. rewrite append_nil_r. reflexivity.
  - simpl. f_equal.
    destruct (is_value (assoc "data-editable" attrs) "remove"); [reflexivity |].
    induction IH as [| ch cs Hch _ IHcs]; simpl; [reflexivity |].
    rewrite map_app, concatAll_app, Hch, IHcs. reflexivity.
Qed.

(** Where no element tagged with an id of [L] is a BR element or is
    marked [data-editable="remove"], looking through the tagged elements
    does not change the text. *)
Lemma plainText_textOf :
  forall x,
    (forall y, In y (x :: descendants x) -> isTagged L y = true ->
       isRemoved y = false /\ (convertBRs && String.eqb (nodeNameOf y) "BR") = false) ->
    plainText L convertBRs x = textOf convertBRs x.
Proof.
  induction x as [i d | i name attrs cs IH] using Node_induction; intro Hok; [reflexivity |].
  assert (Hcs : concatAll (map (plainText L convertBRs) cs)
                = concatAll (map (textOf convertBRs) cs)).
  { apply children_text_eq. rewrite Forall_forall in IH. apply Forall_forall.
    intros ch Hch. apply (IH ch Hch). intros y Hy Hty. apply Hok; [| assumption].
    right. simpl. apply in_flat_map. exists ch. split; assumption. }
  simpl plainText. simpl textOf. rewrite Hcs.
  destruct (match assoc "data-word-id" attrs with
            | Some v => existsb (String.eqb v) L
            | None => false
            end) eqn:Ht; [| reflexivity].
  destruct (Hok (ElementNode i name attrs cs) (or_introl eq_refl) Ht) as (Hrem & Hbr).
  unfold isRemoved, getAttributeOf in Hrem. simpl in Hrem, Hbr. rewrite Hrem, Hbr.
  reflexivity.
Qed.


Lemma hostText_textOf :
  forall x,
    (forall y, In y (descendants x) -> isTagged L y = true ->
       isRemoved y = false /\ (convertBRs && String.eqb (nodeNameOf y) "BR") = false) ->
    hostText L convertBRs x = textOf convertBRs x.
Proof.
  intros [i d | i name attrs cs] Hok; [reflexivity |].
  simpl. f_equal. destruct (is_value (assoc "data-editable" attrs) "remove"); [reflexivity |].
  apply children_text_eq. apply Forall_forall. intros ch Hch.
  apply plainText_textOf. intros y Hy Hty. apply Hok; [| assumption].
  simpl. apply in_flat_map. exists ch. split; assumption.
Qed.

Lemma updateNode_absent :
  forall n f x, ~ In n (ids x) -> updateNode n f x = x.
Proof.
  intros n f. induction x as [i d | i name attrs cs IH] using Node_induction; intro Hn.
  - simpl. destruct (Nat.eqb_spec i n) as [Heq | Hne]; [| reflexivity].
    exfalso. apply Hn. left. assumption.
  - simpl. destruct (Nat.eqb_spec i n) as [Heq | Hne].
    + exfalso. apply Hn. left. assumption.
    + f_equal. simpl in Hn.
      assert (Hcs : ~ In n (flat_map ids cs)) by (intro H; apply Hn; right; assumption).
      clear Hn. induction IH as [| ch cs Hch _ IHcs]; [reflexivity |].
      simpl in *. rewrite Hch, IHcs; [reflexivity | |];
        intro H; apply Hcs; apply in_or_app; [right | left]; assumption.
Qed.

(** Rewriting the subtree [T] of a document rewrites [T] and leaves what
    is around it. *)
Lemma updateNode_inside :
  forall doc rootCtx T f,
    At doc rootCtx T -> NoDup (ids doc) ->
    updateNode (nid T) f doc = rebuild rootCtx (f T).
Proof.
  intros doc rootCtx T f H. induction H as [x | i name attrs l1 ch l2 c s H IH]; intro Hnd.
  - simpl. destruct x; simpl; rewrite Nat.eqb_refl; reflexivity.
  - rewrite rebuild_app. simpl rebuild. unfold parentOf. simpl fparent. simpl fname.
    simpl fattrs. simpl fbefore. simpl fafter.
    assert (Hin : In (nid s) (ids ch)) by (apply (At_ids _ _ _ H); apply nid_in_ids).
    simpl in Hnd. inversion Hnd as [| ? ? Hi Hcs]; subst.
    destruct (NoDup_flat_map_split ids l1 ch l2 Hcs) as (Hch & Hl1 & Hl2).
    simpl. destruct (Nat.eqb_spec i (nid s)) as [Heq | Hne].
    + exfalso. apply Hi. rewrite Heq. apply in_flat_map. exists ch. split; [| assumption].
      apply in_or_app. right. left. reflexivity.
    + f_equal. rewrite map_app. simpl. rewrite (IH Hch). f_equal; [| f_equal].
      * rewrite <- (map_id l1) at 2. apply map_ext_in. intros y Hy.
        apply updateNode_absent. intro Hy'. apply (Hl1 y (nid s) Hy Hy' Hin).
      * rewrite <- (map_id l2) at 2. apply map_ext_in. intros y Hy.
        apply updateNode_absent. intro Hy'. apply (Hl2 y (nid s) Hy Hy' Hin).
Qed.

(** [normalize()] on the host [T] of a document. *)
Lemma normalize_inside :
  forall doc rootCtx T,
    At doc rootCtx T -> NoDup (ids doc) ->
    normalize doc (nid T) = rebuild rootCtx (normalizeNode T) /\
    NoDup (ids (rebuild rootCtx (normalizeNode T))).
Proof.
  intros doc rootCtx T HT Hnd. split; [apply (updateNode_inside _ _ _ _ HT Hnd) |].
  apply (rebuild_NoDup rootCtx T).
  - rewrite (At_rebuild _ _ _ HT). assumption.
  - apply normalizeNode_ids. apply (At_NoDup _ _ _ HT Hnd).
  - apply normalizeNode_ids.
Qed.

(** [removeHighlight] on the host [T]: the text that looks through the
    highlights stays, and no element of the host keeps the id. *)
Lemma removeHighlight_spec :
  forall doc rootCtx T id,
    NoDup (ids doc) -> At doc rootCtx T -> In id L ->
    exists T',
      removeHighlight doc (nid T) id = rebuild rootCtx T' /\
      NoDup (ids (rebuild rootCtx T')) /\
      nid T' = nid T /\
      isElement T' = isElement T /\
      hostText L convertBRs T' = hostText L convertBRs T /\
      incl (marks T') (marks T) /\
      (forall s, In s (marks T') -> is_value (snd s) id = false).
Proof.
  intros doc rootCtx T id Hnd HT Hid. unfold removeHighlight, querySelectorAllWordId.
  rewrite (lookup_At doc Hnd rootCtx T HT).
  set (p := fun x => isElement x && is_value (getAttributeOf x "data-word-id") id).
  set (es := map nid (filter p (descendants T))).
  pose proof (At_NoDup _ _ _ HT Hnd) as HndT.
  assert (Hmarks_nodup : NoDup (map nid (descendants T))).
  { pose proof HndT as H. rewrite ids_marks in H. inversion H as [| ? ? _ Hrest]; subst.
    unfold marks in Hrest. rewrite map_map in Hrest. exact Hrest. }
  assert (Hes : forall e, In e es -> In e (map fst (marks T))).
  { intros e He. unfold es in He. apply in_map_iff in He. destruct He as (y & Hy & Hin).
    apply filter_In in Hin. unfold marks. rewrite map_map. simpl. rewrite <- Hy.
    apply in_map. apply Hin. }
  rewrite <- (At_rebuild _ _ _ HT) in Hnd |- *.
  destruct (unwrapAll_spec L convertBRs rootCtx es T Hnd)
    as (T1 & Hrun & Hnd1 & Hnid1 & Hel1 & Htext1 & Hm1).
  { intros e He. apply Hes in He. split.
    - intro Heq. rewrite ids_marks in HndT. inversion HndT as [| ? ? Hnot _].
      apply Hnot. rewrite <- Heq. assumption.
    - apply (At_ctx_disjoint _ _ _ e (rebuild_At rootCtx T) Hnd).
      rewrite ids_marks. right. assumption. }
  { intros s Hs Hin. unfold es in Hin. apply in_map_iff in Hin.
    destruct Hin as (y & Hy & Hin). apply filter_In in Hin. destruct Hin as (Hdesc & Hp).
    unfold marks in Hs. apply in_map_iff in Hs. destruct Hs as (y' & Hy' & Hdesc').
    assert (Heq : y' = y).
    { apply (NoDup_map_inj nid _ _ _ Hmarks_nodup Hdesc' Hdesc).
      rewrite Hy, <- Hy'. reflexivity. }
    subst y'. rewrite <- Hy'. simpl.
    unfold p in Hp. apply andb_prop in Hp. destruct Hp as (_ & Hv).
    destruct (getAttributeOf y "data-word-id") as [w |]; [| discriminate].
    simpl in Hv. apply String.eqb_eq in Hv. subst w. simpl.
    apply existsb_exists. exists id. split; [assumption | apply String.eqb_refl]. }
  rewrite Hrun. rewrite <- Hnid1.
  destruct (normalize_inside (rebuild rootCtx T1) rootCtx T1 (rebuild_At rootCtx T1) Hnd1)
    as (Hnorm & Hnd2).
  exists (normalizeNode T1). split; [exact Hnorm |]. split; [assumption |].
  split; [rewrite normalizeNode_nid; reflexivity |].
  split; [rewrite normalizeNode_isElement; assumption |].
  split; [rewrite normalizeNode_hostText; assumption |].
  assert (Hincl : incl (marks (normalizeNode T1)) (marks T1)) by apply normalizeNode_marks.
  split.
  - intros s Hs. apply Hincl in Hs. rewrite Hm1 in Hs. apply filter_In in Hs. apply Hs.
  - intros s Hs. apply Hincl in Hs. rewrite Hm1 in Hs. apply filter_In in Hs.
    destruct Hs as (Hs & Hnot).
    destruct (is_value (snd s) id) eqn:Hv; [| reflexivity]. exfalso.
    apply negb_true_iff in Hnot.
    assert (Hex : existsb (Nat.eqb (fst s)) es = true).
    { apply existsb_exists. exists (fst s). split; [| apply Nat.eqb_refl].
      unfold marks in Hs. apply in_map_iff in Hs. destruct Hs as (y & Hy & Hdesc).
      subst s. simpl. unfold es. apply in_map. apply filter_In. split; [assumption |].
      unfold p. simpl in Hv. rewrite Hv, andb_true_r.
      destruct y; [discriminate | reflexivity]. }
    congruence.
Qed.

(** Removing the highlights [ks] of the host [T] one after the other. *)
Lemma removeHighlights_spec :
  forall rootCtx ks doc T,
    NoDup (ids doc) -> At doc rootCtx T -> incl ks L ->
    exists T',
      fold_left (fun d id => removeHighlight d (nid T) id) ks doc = rebuild rootCtx T' /\
      NoDup (ids (rebuild rootCtx T')) /\
      nid T' = nid T /\
      hostText L convertBRs T' = hostText L convertBRs T /\
      incl (marks T') (marks T) /\
      (forall id s, In id ks -> In s (marks T') -> is_value (snd s) id = false).
Proof.
  intro rootCtx. induction ks as [| k ks IH]; intros doc T Hnd HT Hks; simpl.
  - exists T. rewrite (At_rebuild _ _ _ HT).
    split; [reflexivity |]. split; [assumption |]. split; [reflexivity |].
    split; [reflexivity |]. split; [apply incl_refl |]. intros id s [].
  - destruct (removeHighlight_spec doc rootCtx T k Hnd HT (Hks k (or_introl eq_refl)))
      as (T1 & Hrun1 & Hnd1 & Hnid1 & _ & Htext1 & Hincl1 & Hgone1).
    rewrite Hrun1. rewrite <- Hnid1.
    destruct (IH (rebuild rootCtx T1) T1 Hnd1 (rebuild_At rootCtx T1))
      as (T' & Hrun' & Hnd' & Hnid' & Htext' & Hincl' & Hgone').
    { intros a Ha. apply Hks. right. assumption. }
    exists T'. split; [exact Hrun' |]. split; [assumption |]. split; [congruence |].
    split; [congruence |]. split; [apply (incl_tran Hincl' Hincl1) |].
    intros id s [Hid | Hid] Hs.
    + subst id. apply Hgone1. apply Hincl'. assumption.
    + apply (Hgone' id s Hid Hs).
Qed.

Lemma load_visible_weight : forall x, (load (visible x) <= weight x)%nat.
Proof.
  induction x as [i d | i name attrs cs IH] using Node_induction.
  - unfold load. simpl. lia.
  - simpl visible. change (load (?a :: ?l)) with (1 + load l)%nat.
    simpl weight. apply le_n_S.
    destruct (is_value (assoc "data-editable" attrs) "remove");
      [unfold load; simpl; lia |].
    induction IH as [| ch cs Hch _ IHcs]; simpl; [unfold load; simpl; lia |].
    rewrite load_app. lia.
Qed.

Lemma weight_parentOf : forall f x, (weight x <= weight (parentOf f x))%nat.
Proof.
  intros f x. unfold parentOf. simpl. rewrite map_app, list_sum_app. simpl. lia.
Qed.

Lemma weight_rebuild : forall c x, (weight x <= weight (rebuild c x))%nat.
Proof.
  induction c as [| f up IH]; intro x; simpl; [lia |].
  pose proof (IH (parentOf f x)). pose proof (weight_parentOf f x). lia.
Qed.

Lemma weight_At : forall doc c x, At doc c x -> (weight x <= weight doc)%nat.
Proof.
  intros doc c x H. rewrite <- (At_rebuild _ _ _ H). apply weight_rebuild.
Qed.

End TextFacts.

(** ** The claim about the highlight round trip *)

Section HighlightClaims.
Import Dom DomEdit NodeIterator Walk HighlightText HighlightSupport Samples.

(** C1, counterexample.  The host [<div>a<br data-word-id="x">b</div>]
    holds no element marked [data-editable="remove"], and its text is "a",
    a newline and "b".  Highlighting the match "a" with the id "x" wraps
    the "a"; removing the highlight "x" unwraps every element with that
    id, the line break among them, and the text of the host is "ab". *)
Lemma highlight_then_remove_loses_tagged_line_break :
  let highlighted :=
    ElementNode 1 "DIV" []
      [TextNode 2 "";
       ElementNode 5 "SPAN"
         [("class", "highlight-comment"); ("data-editable", "ui-unwrap");
          ("data-highlight", "comment"); ("data-word-id", "x")]
         [TextNode 6 "a"];
       ElementNode 3 "BR" [("data-word-id", "x")] [];
       TextNode 4 "b"] in
  (forall y, In y (taggedBRHost :: descendants taggedBRHost) -> isRemoved y = false) /\
  wordIdOf firstCharacterMatch = "x" /\
  extractText taggedBRHost (nid taggedBRHost) true = Some ("a" ++ newline ++ "b")%string /\
  highlightMatches taggedBRHost (nid taggedBRHost) [firstCharacterMatch] true
    = Returns highlighted /\
  removeHighlight highlighted (nid taggedBRHost) "x"
    = ElementNode 1 "DIV" [] [TextNode 6 "ab"] /\
  extractText (removeHighlight highlighted (nid taggedBRHost) "x") (nid taggedBRHost) true
    = Some "ab".
Proof.
  cbv zeta. split; [| repeat split; reflexivity].
  intros y Hy. simpl in Hy.
  repeat (destruct Hy as [Hy | Hy]; [subst y; reflexivity |]). destruct Hy.
Qed.

(** C1, amended.  In a document with distinct node identities, let
    [host] be an element, let every match come with a marker element, and
    let the id of every match be a string that the selector
    [[data-word-id="id"]] takes as it is (no quotation mark, backslash,
    line feed, form feed, carriage return or null character in it), so
    that [removeHighlight] selects the elements whose [data-word-id]
    attribute is the id.  Provided no element inside the host that
    carries the id of one of the highlights in its [data-word-id]
    attribute is marked [data-editable="remove"] or is a BR element,
    [highlightMatches] returns, [extractText] returns a text before
    highlighting, and after removing the highlights by their ids it
    returns the same text, whatever [countBRs] and [convertBRs] are. *)
Theorem highlight_then_remove_restores_text :
  forall doc rootCtx host matches countBRs convertBRs,
    NoDup (ids doc) -> At doc rootCtx host -> isElement host = true ->
    (forall m, In m matches ->
       exists i name attrs cs, marker m = Some (ElementNode i name attrs cs)) ->
    (forall m, In m matches -> selectorLiteral (wordIdOf m) = true) ->
    (forall y, In y (descendants host) -> isTagged (map wordIdOf matches) y = true ->
       isRemoved y = false /\ nodeNameOf y <> "BR") ->
    exists highlighted text,
      highlightMatches doc (nid host) matches countBRs = Returns highlighted /\
      extractText doc (nid host) convertBRs = Some text /\
      extractText
        (fold_left (fun d id => removeHighlight d (nid host) id) (map wordIdOf matches)
           highlighted)
        (nid host) convertBRs
      = Some text.
Proof.
  intros doc rootCtx host matches countBRs convertBRs Hnd Hhost Hel Hmarkers _ Hok.
  set (L := map wordIdOf matches) in *.
  assert (Htagged : forall m, In m matches -> existsb (String.eqb (wordIdOf m)) L = true).
  { intros m Hm. apply existsb_exists. exists (wordIdOf m).
    split; [apply in_map; assumption | apply String.eqb_refl]. }
  assert (Hloop : exists highlighted T,
             highlightMatches doc (nid host) matches countBRs = Returns highlighted /\
             At highlighted rootCtx T /\
             NoDup (ids highlighted) /\ nid T = nid host /\
             hostText L convertBRs T = hostText L convertBRs host).
  { unfold highlightMatches. destruct matches as [| m0 rest] eqn:Hmatches.
    - exists doc, host. repeat split; assumption.
    - rewrite <- Hmatches in *.
      destruct (normalize_inside doc rootCtx host Hhost Hnd) as (Hnorm & HndN).
      rewrite Hnorm.
      set (docN := rebuild rootCtx (normalizeNode host)) in *.
      assert (HhostN : At docN rootCtx (normalizeNode host)) by apply rebuild_At.
      destruct (highlightLoop_spec L convertBRs matches countBRs Hmarkers Htagged
                  (S (weight docN)) docN rootCtx (normalizeNode host)
                  (NodeIterator.new (nid host)) (Some ([], normalizeNode host))
                  0%nat 0 m0 [] (wordIdOf m0) HndN HhostN)
        as (highlighted & T & Hrun & HT & Hnd' & Hnid' & _ & Htext').
      + rewrite normalizeNode_isElement. assumption.
      + simpl. symmetry. apply normalizeNode_nid.
      + simpl. f_equal. symmetry. apply normalizeNode_nid.
      + split; [constructor |]. intros c s Hpos. inversion Hpos; subst.
        split; [constructor | intros p []].
      + rewrite Hmatches. left. reflexivity.
      + apply Htagged. rewrite Hmatches. left. reflexivity.
      + simpl pending. rewrite app_nil_r.
        pose proof (load_visible_weight (normalizeNode host)) as Hload.
        pose proof (weight_At _ _ _ HhostN) as Hweight. lia.
      + exists highlighted, T. split; [exact Hrun |]. split; [assumption |].
        split; [assumption |].
        split; [rewrite Hnid'; apply normalizeNode_nid |].
        rewrite Htext'. apply normalizeNode_hostText. }
  destruct Hloop as (highlighted & T & Hrun & HT & Hnd1 & Hnid1 & Htext1).
  exists highlighted, (textOf convertBRs host). split; [exact Hrun |].
  split.
  { rewrite (extractText_visible doc Hnd rootCtx host Hhost convertBRs).
    rewrite <- textOf_visible. reflexivity. }
  rewrite <- Hnid1.
  destruct (removeHighlights_spec L convertBRs rootCtx L highlighted T Hnd1 HT (incl_refl L))
    as (final & Hfinal & Hnd2 & Hnid2 & Htext2 & _ & Hgone).
  rewrite Hfinal. rewrite <- Hnid2.
  rewrite (extractText_visible _ Hnd2 rootCtx final (rebuild_At rootCtx final) convertBRs).
  f_equal. rewrite <- textOf_visible.
  rewrite <- (hostText_textOf L convertBRs final).
  - rewrite Htext2, Htext1. apply hostText_textOf.
    intros y Hy Hty. destruct (Hok y Hy Hty) as (Hrem & Hbr). split; [assumption |].
    apply andb_false_iff. right. apply String.eqb_neq. assumption.
  - intros y Hy Hty. exfalso. rewrite isTagged_mark in Hty.
    assert (Hm : In (mark y) (marks final)) by (unfold marks; apply in_map; assumption).
    destruct (snd (mark y)) as [w |] eqn:Hw; [| discriminate].
    simpl in Hty. apply existsb_exists in Hty. destruct Hty as (id & Hid & Heq).
    pose proof (Hgone id (mark y) Hid Hm) as Hv. rewrite Hw in Hv. simpl in Hv. congruence.
Qed.

Lemma highlight_then_remove_restores_text_witness :
  exists highlighted text,
    highlightMatches twoLinesDoc (nid twoLinesHost) [acrossLinesMatch] true
      = Returns highlighted /\
    extractText twoLinesDoc (nid twoLinesHost) true = Some text /\
    extractText
      (fold_left (fun d id => removeHighlight d (nid twoLinesHost) id)
         (map wordIdOf [acrossLinesMatch]) highlighted)
      (nid twoLinesHost) true
    = Some text.
Proof.
  apply (highlight_then_remove_restores_text twoLinesDoc [documentFrame] twoLinesHost
           [acrossLinesMatch] true true).
  - distinct_ids.
  - exact (At_child 0 "#document" [] [] twoLinesHost [] [] twoLinesHost (At_here twoLinesHost)).
  - reflexivity.
  - intros m [Hm | []]. subst m. simpl. unfold commentMarker. repeat eexists.
  - intros m [Hm | []]. subst m. reflexivity.
  - intros y Hy Hty. simpl in Hy.
    repeat (destruct Hy as [Hy | Hy]; [subst y; discriminate Hty |]). destruct Hy.
Defined.

End HighlightClaims.

(** ** The merge of the match collection *)

Section MergeFacts.
Import MatchCollection MergeOrder.

Lemma pickOrder_nil_r : forall l1, pickOrder l1 [] = l1.
Proof. destruct l1; reflexivity. Qed.

Lemma pickOrder_nil_l : forall l2, pickOrder [] l2 = l2.
Proof. destruct l2; reflexivity. Qed.

Lemma skipn_nth_error {A : Type} :
  forall (l : list A) i,
    skipn i l = match nth_error l i with
                | Some x => x :: skipn (S i) l
                | None => []
                end.
Proof.
  induction l as [| a l IH]; intros [| i]; simpl; try reflexivity.
  rewrite (IH i). destruct (nth_error l i); reflexivity.
Qed.

(** The loop, started at the indices [i1] and [i2] with enough fuel,
    appends to the output what [keep] keeps of the remaining items in the
    order of [pickOrder]. *)
Lemma mergeLoop_keep :
  forall fuel l1 l2 j1 j2 lastEndIndex output,
    (List.length l1 - j1 + (List.length l2 - j2) <= fuel)%nat ->
    mergeLoop fuel (List.length l1) (List.length l2) (mkMergeState l1 j1 l2 j2)
      lastEndIndex output
    = output ++ keep lastEndIndex (pickOrder (skipn j1 l1) (skipn j2 l2)).
Proof.
  induction fuel as [| fuel IH]; intros l1 l2 j1 j2 lastEnd output Hfuel.
  - assert (H1 : (List.length l1 <= j1)%nat) by lia.
    assert (H2 : (List.length l2 <= j2)%nat) by lia.
    rewrite (skipn_all2 l1 H1), (skipn_all2 l2 H2). simpl. rewrite app_nil_r. reflexivity.
  - cbn [mergeLoop]. cbn [i1 i2 a1 a2].
    rewrite (skipn_nth_error l1 j1), (skipn_nth_error l2 j2).
    unfold pickNext. cbn [i1 i2 a1 a2].
    destruct (nth_error l1 j1) as [m1 |] eqn:Hn1; destruct (nth_error l2 j2) as [m2 |] eqn:Hn2.
    + assert (Hlt : (j1 < List.length l1)%nat) by (apply nth_error_Some; congruence).
      apply Nat.ltb_lt in Hlt. rewrite Hlt. simpl orb. cbv iota.
      assert (Hlt2 : (j2 < List.length l2)%nat) by (apply nth_error_Some; congruence).
      apply Nat.ltb_lt in Hlt. 
      cbn [pickOrder]. destruct (startIndex m1 <? startIndex m2).
      * cbn [keep]. destruct (startIndex m1 >=? lastEnd).
        -- rewrite IH by lia. rewrite <- app_assoc. cbn [app].
           rewrite (skipn_nth_error l2 j2), Hn2. reflexivity.
        -- rewrite IH by lia. rewrite (skipn_nth_error l2 j2), Hn2. reflexivity.
      * cbn [keep]. destruct (startIndex m2 >=? lastEnd).
        -- rewrite IH by lia. rewrite <- app_assoc. cbn [app].
           rewrite (skipn_nth_error l1 j1), Hn1. reflexivity.
        -- rewrite IH by lia. rewrite (skipn_nth_error l1 j1), Hn1. reflexivity.
    + assert (Hlt : (j1 < List.length l1)%nat) by (apply nth_error_Some; congruence).
      apply Nat.ltb_lt in Hlt. rewrite Hlt. simpl orb. cbv iota.
      apply Nat.ltb_lt in Hlt.
      assert (Hge : (List.length l2 <= j2)%nat) by (apply nth_error_None; assumption).
      rewrite pickOrder_nil_r. cbn [keep]. destruct (startIndex m1 >=? lastEnd).
      * rewrite IH by lia. rewrite <- app_assoc. cbn [app].
        rewrite (skipn_all2 l2 Hge), pickOrder_nil_r. reflexivity.
      * rewrite IH by lia. rewrite (skipn_all2 l2 Hge), pickOrder_nil_r. reflexivity.
    + assert (Hlt : (j2 < List.length l2)%nat) by (apply nth_error_Some; congruence).
      apply Nat.ltb_lt in Hlt. rewrite Hlt, orb_true_r. cbv iota.
      apply Nat.ltb_lt in Hlt.
      assert (Hge : (List.length l1 <= j1)%nat) by (apply nth_error_None; assumption).
      rewrite pickOrder_nil_l. cbn [keep]. destruct (startIndex m2 >=? lastEnd).
      * rewrite IH by lia. rewrite <- app_assoc. cbn [app].
        rewrite (skipn_all2 l1 Hge), pickOrder_nil_l. reflexivity.
      * rewrite IH by lia. rewrite (skipn_all2 l1 Hge), pickOrder_nil_l. reflexivity.
    + assert (H1 : (List.length l1 <= j1)%nat) by (apply nth_error_None; assumption).
      assert (H2 : (List.length l2 <= j2)%nat) by (apply nth_error_None; assumption).
      apply Nat.ltb_ge in H1, H2. rewrite H1, H2. simpl. rewrite app_nil_r. reflexivity.
Qed.

Lemma mergeMatches_keep :
  forall l1 l2, mergeMatches l1 l2 = keep (-1) (pickOrder l1 l2).
Proof.
  intros l1 l2. unfold mergeMatches. rewrite mergeLoop_keep by lia. reflexivity.
Qed.

(** The number of iterations [mergeMatches] gives the loop is enough:
    more fuel changes nothing. *)
Lemma mergeLoop_fuel_exact :
  forall extra l1 l2,
    mergeLoop (List.length l1 + List.length l2 + extra) (List.length l1) (List.length l2)
      (mkMergeState l1 0 l2 0) (-1) []
    = mergeMatches l1 l2.
Proof.
  intros extra l1 l2. rewrite mergeMatches_keep, mergeLoop_keep by lia. reflexivity.
Qed.


Lemma addMatches_keep :
  forall this batch,
    addMatches this batch = match batch with
                            | [] => this
                            | _ :: _ => keep (-1) (pickOrder this batch)
                            end.
Proof.
  intros this [| m batch]; [reflexivity |]. unfold addMatches. apply mergeMatches_keep.
Qed.

(** *** Sorted lists *)

Lemma sortedByStart_cons :
  forall m l,
    sortedByStart (m :: l) <->
    Forall (fun m' => startIndex m <= startIndex m') l /\ sortedByStart l.
Proof.
  intros m l. revert m. induction l as [| m' l IH]; intro m.
  - simpl. split; [intros _; split; [constructor | exact I] | intros _; exact I].
  - change (sortedByStart (m :: m' :: l))
      with (startIndex m <= startIndex m' /\ sortedByStart (m' :: l)).
    split.
    + intros (Hle & Hs). split; [| assumption]. constructor; [assumption |].
      apply (IH m') in Hs. destruct Hs as (Hall & _).
      apply (Forall_impl _ (fun a (Ha : startIndex m' <= startIndex a) =>
                              Z.le_trans _ _ _ Hle Ha) Hall).
    + intros (Hall & Hs). inversion Hall; subst. split; assumption.
Qed.

Lemma pickOrder_In :
  forall l1 l2 m, In m (pickOrder l1 l2) <-> In m l1 \/ In m l2.
Proof.
  induction l1 as [| m1 r1 IH1]; intros l2 m.
  - rewrite pickOrder_nil_l. simpl. tauto.
  - induction l2 as [| m2 r2 IH2].
    + rewrite pickOrder_nil_r. simpl. tauto.
    + cbn [pickOrder]. destruct (startIndex m1 <? startIndex m2).
      * simpl. rewrite IH1. simpl. tauto.
      * change (In m (m2 :: pickOrder (m1 :: r1) r2) <-> In m (m1 :: r1) \/ In m (m2 :: r2)).
        simpl. rewrite IH2. simpl. tauto.
Qed.

Lemma pickOrder_sorted :
  forall l1 l2, sortedByStart l1 -> sortedByStart l2 -> sortedByStart (pickOrder l1 l2).
Proof.
  induction l1 as [| m1 r1 IH1]; intros l2 H1 H2.
  - rewrite pickOrder_nil_l. assumption.
  - induction l2 as [| m2 r2 IH2].
    + rewrite pickOrder_nil_r. assumption.
    + apply sortedByStart_cons in H1. destruct H1 as (Hall1 & Hs1).
      pose proof H2 as H2'. apply sortedByStart_cons in H2'. destruct H2' as (Hall2 & Hs2).
      cbn [pickOrder]. destruct (Z.ltb_spec (startIndex m1) (startIndex m2)) as [Hlt | Hge].
      * apply sortedByStart_cons. split; [| apply IH1; assumption].
        apply Forall_forall. intros m Hm. apply pickOrder_In in Hm.
        rewrite Forall_forall in Hall1, Hall2. destruct Hm as [Hm | [Hm | Hm]].
        -- apply Hall1. assumption.
        -- subst m. lia.
        -- specialize (Hall2 m Hm). lia.
      * change (sortedByStart (m2 :: pickOrder (m1 :: r1) r2)).
        apply sortedByStart_cons. split.
        -- apply Forall_forall. intros m Hm. apply pickOrder_In in Hm.
           rewrite Forall_forall in Hall1, Hall2. destruct Hm as [[Hm | Hm] | Hm].
           ++ subst m. assumption.
           ++ specialize (Hall1 m Hm). lia.
           ++ apply Hall2. assumption.
        -- apply IH2. assumption.
Qed.

Lemma keep_In : forall l e m, In m (keep e l) -> In m l.
Proof.
  induction l as [| x l IH]; intros e m H; simpl in H; [assumption |].
  destruct (startIndex x >=? e).
  - destruct H as [H | H]; [left; assumption | right; apply (IH _ _ H)].
  - right. apply (IH _ _ H).
Qed.

Lemma keep_length : forall l e, (List.length (keep e l) <= List.length l)%nat.
Proof.
  induction l as [| x l IH]; intro e; simpl; [lia |].
  destruct (startIndex x >=? e); simpl; pose proof (IH (endIndex x)); lia.
Qed.

Lemma keep_sorted : forall l e, sortedByStart l -> sortedByStart (keep e l).
Proof.
  induction l as [| x l IH]; intros e H; [exact I |].
  apply sortedByStart_cons in H. destruct H as (Hall & Hs).
  simpl. destruct (startIndex x >=? e); [| apply IH; assumption].
  apply sortedByStart_cons. split; [| apply IH; assumption].
  apply Forall_forall. intros m Hm. rewrite Forall_forall in Hall.
  apply Hall. apply (keep_In _ _ _ Hm).
Qed.

Lemma pickOrder_length :
  forall l1 l2, List.length (pickOrder l1 l2) = (List.length l1 + List.length l2)%nat.
Proof.
  induction l1 as [| m1 r1 IH1]; intro l2.
  - rewrite pickOrder_nil_l. reflexivity.
  - induction l2 as [| m2 r2 IH2].
    + rewrite pickOrder_nil_r. simpl. lia.
    + cbn [pickOrder]. destruct (startIndex m1 <? startIndex m2).
      * cbn [List.length]. rewrite IH1. cbn [List.length]. lia.
      * change (List.length (m2 :: pickOrder (m1 :: r1) r2)
                = (List.length (m1 :: r1) + List.length (m2 :: r2))%nat).
        cbn [List.length]. rewrite IH2. cbn [List.length]. lia.
Qed.

Lemma addMatches_sorted :
  forall this batch,
    sortedByStart this -> sortedByStart batch -> sortedByStart (addMatches this batch).
Proof.
  intros this batch H1 H2. rewrite addMatches_keep. destruct batch; [assumption |].
  apply keep_sorted. apply pickOrder_sorted; assumption.
Qed.

Lemma addMatches_In :
  forall this batch m, In m (addMatches this batch) -> In m this \/ In m batch.
Proof.
  intros this batch m H. rewrite addMatches_keep in H. destruct batch; [left; assumption |].
  apply keep_In in H. apply pickOrder_In in H. assumption.
Qed.

Lemma addMatches_length :
  forall this batch,
    (List.length (addMatches this batch) <= List.length this + List.length batch)%nat.
Proof.
  intros this batch. rewrite addMatches_keep. destruct batch; [lia |].
  pose proof (keep_length (pickOrder this (m :: batch)) (-1)) as H.
  rewrite pickOrder_length in H. assumption.
Qed.


(** *** Overlaps *)

Lemma nonOverlapping_cons :
  forall m l,
    nonOverlapping (m :: l) <->
    match l with
    | [] => True
    | m' :: _ => endIndex m <= startIndex m'
    end /\ nonOverlapping l.
Proof.
  intros m [| m' l]; simpl; tauto.
Qed.

Lemma keep_head_bound :
  forall l e b y,
    b <= e -> Forall (fun z => b <= endIndex z) l ->
    hd_error (keep e l) = Some y -> b <= startIndex y.
Proof.
  induction l as [| x l IH]; intros e b y Hbe Hall Hy; simpl in Hy; [discriminate |].
  inversion Hall as [| ? ? Hx Hl]; subst.
  destruct (Z.geb_spec (startIndex x) e) as [Hge | Hlt].
  - simpl in Hy. inversion Hy; subst. lia.
  - apply (IH (endIndex x) b y Hx Hl Hy).
Qed.

Lemma keep_nonOverlapping :
  forall l e,
    sortedByStart l -> endsFollowStarts l -> nonOverlapping (keep e l).
Proof.
  induction l as [| x l IH]; intros e Hs Hends; [exact I |].
  apply sortedByStart_cons in Hs. destruct Hs as (Hall & Hs).
  assert (Hends' : endsFollowStarts l).
  { intros m m' Hm Hm'. apply Hends; right; assumption. }
  assert (Hlater : Forall (fun z => endIndex x <= endIndex z) l).
  { apply Forall_forall. intros z Hz. rewrite Forall_forall in Hall.
    apply Hends; [left; reflexivity | right; assumption | apply Hall; assumption]. }
  simpl. destruct (startIndex x >=? e); [| apply IH; assumption].
  apply nonOverlapping_cons. split; [| apply IH; assumption].
  destruct (keep (endIndex x) l) as [| y rest] eqn:Hk; [exact I |].
  apply (keep_head_bound l (endIndex x) (endIndex x) y); [lia | assumption |].
  rewrite Hk. reflexivity.
Qed.

Lemma starts_before_head :
  forall this b0 r,
    Forall proper this -> nonOverlapping (this ++ b0 :: r) ->
    Forall (fun m => startIndex m < startIndex b0) this.
Proof.
  induction this as [| x t IH]; intros b0 r Hp Hn; [constructor |].
  inversion Hp as [| ? ? Hx Ht]; subst. unfold proper in Hx.
  change ((x :: t) ++ b0 :: r) with (x :: (t ++ b0 :: r)) in Hn.
  apply nonOverlapping_cons in Hn. destruct Hn as (Hhead & Hn).
  pose proof (IH b0 r Ht Hn) as Hrest. constructor; [| assumption].
  destruct t as [| y t']; simpl in Hhead.
  - lia.
  - inversion Hrest; subst. lia.
Qed.

Lemma pickOrder_before :
  forall l1 m2 r2,
    Forall (fun m => startIndex m < startIndex m2) l1 ->
    pickOrder l1 (m2 :: r2) = l1 ++ m2 :: r2.
Proof.
  induction l1 as [| m1 r1 IH]; intros m2 r2 H; [reflexivity |].
  inversion H as [| ? ? Hlt Hrest]; subst. cbn [pickOrder].
  apply Z.ltb_lt in Hlt. rewrite Hlt. simpl. f_equal. apply IH. assumption.
Qed.

Lemma keep_all :
  forall l e,
    match l with
    | [] => True
    | m :: _ => e <= startIndex m
    end ->
    nonOverlapping l -> keep e l = l.
Proof.
  induction l as [| x l IH]; intros e He Hn; [reflexivity |].
  apply nonOverlapping_cons in Hn. destruct Hn as (Hhead & Hn).
  simpl. destruct (Z.geb_spec (startIndex x) e) as [Hge | Hlt]; [| lia].
  f_equal. apply IH; assumption.
Qed.

Lemma pickOrder_same :
  forall l e,
    Forall proper l -> nonOverlapping l ->
    match l with
    | [] => True
    | m :: _ => e <= startIndex m
    end ->
    keep e (pickOrder l l) = l.
Proof.
  induction l as [| m r IH]; intros e Hp Hn He; [reflexivity |].
  inversion Hp as [| ? ? Hm Hr]; subst. unfold proper in Hm.
  apply nonOverlapping_cons in Hn. destruct Hn as (Hhead & Hn).
  cbn [pickOrder]. rewrite Z.ltb_irrefl.
  change (keep e (m :: pickOrder (m :: r) r) = m :: r).
  assert (Hrest : pickOrder (m :: r) r = m :: pickOrder r r).
  { destruct r as [| m' r']; [reflexivity |].
    cbn [pickOrder]. assert (Hlt : startIndex m < startIndex m') by lia.
    apply Z.ltb_lt in Hlt. rewrite Hlt. reflexivity. }
  rewrite Hrest. cbn [keep].
  destruct (Z.geb_spec (startIndex m) e) as [Hge | Hlt]; [| lia].
  destruct (Z.geb_spec (startIndex m) (endIndex m)) as [Hge' | Hlt']; [lia |].
  f_equal. apply IH; assumption.
Qed.

End MergeFacts.

(** ** The claim about ties in the merge *)

Section MergeTieClaim.
Import MatchCollection MergeOrder.

(** A tie in the middle of a merge: the new item {3,3} is taken before
    the stored item {3,4} and dropped, because it starts before the end of
    {0,5}; the stored item is taken after it and kept. *)
Lemma addAll_tie_new_item_dropped :
  addAll [[span 3 4]; [span 0 5; span 3 3]] = [span 0 5; span 3 4] /\
  mergeLoop 2 1 2 (mkMergeState [span 3 4] 0 [span 0 5; span 3 3] 1) 5 [span 0 5] =
    [span 0 5; span 3 4].
Proof. split; reflexivity. Qed.



End MergeTieClaim.

Section MergeExtras.
Import MatchCollection MergeOrder.

(** The stored list stays sorted by start index: after any sequence of
    [addMatches] calls on a new collection, each with a batch sorted by
    [startIndex], the stored matches are sorted by [startIndex]. *)
Theorem addAll_sorted :
  forall batches : list (list Match),
    Forall sortedByStart batches -> sortedByStart (addAll batches).
Proof.
  intros batches H. unfold addAll.
  assert (Hgen : forall acc, sortedByStart acc -> sortedByStart (fold_left addMatches batches acc)).
  { induction H as [| batch batches Hb _ IH]; intros acc Hacc; simpl; [assumption |].
    apply IH. apply addMatches_sorted; assumption. }
  apply Hgen. exact I.
Qed.

Lemma addAll_sorted_witness :
  sortedByStart (addAll [[span 0 10]; [span 1 2; span 3 4]; []; [span 0 1; span 20 21]]).
Proof.
  apply (addAll_sorted [[span 0 10]; [span 1 2; span 3 4]; []; [span 0 1; span 20 21]]).
  repeat constructor; simpl; lia.
Defined.

(** [addMatches] stores matches as they are given: every stored match is
    a match of one of the batches, and the collection is never longer
    than the batches together. *)
Theorem addAll_stores_given_matches :
  forall batches : list (list Match),
    (forall m, In m (addAll batches) -> exists batch, In batch batches /\ In m batch) /\
    (List.length (addAll batches) <= List.length (List.concat batches))%nat.
Proof.
  intro batches. unfold addAll.
  assert (Hgen : forall acc,
             (forall m, In m (fold_left addMatches batches acc) ->
                        In m acc \/ exists batch, In batch batches /\ In m batch) /\
             (List.length (fold_left addMatches batches acc)
              <= List.length acc + List.length (List.concat batches))%nat).
  { induction batches as [| batch batches IH]; intro acc; simpl.
    - split; [intros m Hm; left; assumption | lia].
    - destruct (IH (addMatches acc batch)) as (Hin & Hlen). split.
      + intros m Hm. destruct (Hin m Hm) as [Hm' | (b & Hb & Hm')].
        * destruct (addMatches_In _ _ _ Hm') as [Ha | Hb]; [left; assumption |].
          right. exists batch. split; [left; reflexivity | assumption].
        * right. exists b. split; [right; assumption | assumption].
      + pose proof (addMatches_length acc batch). rewrite length_app. lia. }
  destruct (Hgen []) as (Hin & Hlen). split.
  - intros m Hm. destruct (Hin m Hm) as [[] | H]. assumption.
  - simpl in Hlen. assumption.
Qed.


(** Where no match starts before another and ends after it (and matches
    that start together end together), the stored matches do not overlap:
    after any sequence of [addMatches] calls with batches sorted by
    [startIndex], each stored match ends at or before the start of the
    next one. *)
Theorem addAll_nonOverlapping :
  forall batches : list (list Match),
    Forall sortedByStart batches ->
    endsFollowStarts (List.concat batches) ->
    nonOverlapping (addAll batches).
Proof.
  intros batches Hsorted Hends. unfold addAll.
  assert (Hgen : forall acc,
             sortedByStart acc -> nonOverlapping acc ->
             endsFollowStarts (acc ++ List.concat batches) ->
             nonOverlapping (fold_left addMatches batches acc)).
  { clear Hends. induction Hsorted as [| batch batches Hb _ IH]; intros acc Hs Hn Hends;
      simpl; [assumption |].
    simpl in Hends. apply IH.
    - apply addMatches_sorted; assumption.
    - rewrite addMatches_keep. destruct batch as [| b0 batch]; [assumption |].
      apply keep_nonOverlapping; [apply pickOrder_sorted; assumption |].
      intros m m' Hm Hm'. apply pickOrder_In in Hm, Hm'.
      apply Hends; rewrite app_assoc; apply in_or_app; left; apply in_or_app; assumption.
    - intros m m' Hm Hm'. apply Hends.
      + apply in_app_or in Hm. destruct Hm as [Hm | Hm].
        * destruct (addMatches_In _ _ _ Hm) as [Ha | Hbm];
            [apply in_or_app; left; assumption |].
          apply in_or_app. right. apply in_or_app. left. assumption.
        * apply in_or_app. right. apply in_or_app. right. assumption.
      + apply in_app_or in Hm'. destruct Hm' as [Hm' | Hm'].
        * destruct (addMatches_In _ _ _ Hm') as [Ha | Hbm];
            [apply in_or_app; left; assumption |].
          apply in_or_app. right. apply in_or_app. left. assumption.
        * apply in_or_app. right. apply in_or_app. right. assumption. }
  apply Hgen; [exact I | exact I | assumption].
Qed.

Lemma addAll_nonOverlapping_witness :
  nonOverlapping (addAll [[span 0 2; span 5 7]; [span 1 3; span 5 7; span 8 10]]).
Proof.
  apply (addAll_nonOverlapping [[span 0 2; span 5 7]; [span 1 3; span 5 7; span 8 10]]).
  - repeat constructor; simpl; lia.
  - intros m m' Hm Hm'. simpl in Hm, Hm'.
    repeat (destruct Hm as [Hm | Hm]; [subst m |]); try destruct Hm;
      repeat (destruct Hm' as [Hm' | Hm']; [subst m' |]); try destruct Hm';
      simpl; lia.
Defined.

(** A batch of matches that lie after the stored ones is appended: when
    the stored matches have at least one character each, and the stored
    matches followed by the batch do not overlap and do not start before
    -1, [addMatches] stores exactly the stored matches followed by the
    batch.  On a new collection this stores the batch as it is. *)
Theorem addMatches_appends :
  forall this batch : list Match,
    Forall proper this ->
    nonOverlapping (this ++ batch) ->
    match this ++ batch with
    | [] => True
    | m :: _ => -1 <= startIndex m
    end ->
    addMatches this batch = this ++ batch.
Proof.
  intros this batch Hp Hn Hhead. rewrite addMatches_keep.
  destruct batch as [| b0 r]; [rewrite app_nil_r; reflexivity |].
  rewrite (pickOrder_before this b0 r (starts_before_head this b0 r Hp Hn)).
  apply keep_all; assumption.
Qed.

Lemma addMatches_appends_witness :
  addMatches [span 0 2; span 2 5] [span 5 5; span 7 9] = [span 0 2; span 2 5] ++ [span 5 5; span 7 9].
Proof.
  apply (addMatches_appends [span 0 2; span 2 5] [span 5 5; span 7 9]).
  - repeat constructor; unfold proper; simpl; lia.
  - simpl. lia.
  - simpl. lia.
Defined.

(** Adding the stored matches once more changes nothing: for matches
    with at least one character each that do not overlap and do not start
    before -1, [addMatches] of the list to itself gives the list. *)
Theorem addMatches_same_batch :
  forall l : list Match,
    Forall proper l ->
    nonOverlapping l ->
    match l with
    | [] => True
    | m :: _ => -1 <= startIndex m
    end ->
    addMatches l l = l.
Proof.
  intros l Hp Hn Hhead. rewrite addMatches_keep. destruct l as [| m r]; [reflexivity |].
  apply pickOrder_same; assumption.
Qed.

Lemma addMatches_same_batch_witness :
  addMatches [span 0 2; span 2 5; span 7 9] [span 0 2; span 2 5; span 7 9]
  = [span 0 2; span 2 5; span 7 9].
Proof.
  apply (addMatches_same_batch [span 0 2; span 2 5; span 7 9]).
  - repeat constructor; unfold proper; simpl; lia.
  - simpl. lia.
  - simpl. lia.
Defined.

End MergeExtras.

(** ** Text nodes and character offsets *)

Section ElementExtras.
Import Dom DomEdit NodeIterator HighlightText Element BinarySearch Walk.

Lemma At_visible :
  forall x c y, At x c y -> Forall keptFrame c -> In y (visible x).
Proof.
  induction 1 as [x | i name attrs l1 ch l2 c s H IH]; intro Hkept.
  - destruct x; simpl; left; reflexivity.
  - apply Forall_app in Hkept. destruct Hkept as (Hc & Hf).
    inversion Hf as [| ? ? Hframe _]; subst. unfold keptFrame in Hframe. simpl in Hframe.
    simpl. right. rewrite Hframe. apply in_flat_map. exists ch. split.
    + apply in_or_app. right. left. reflexivity.
    + apply IH. assumption.
Qed.

Lemma visible_NoDup : forall x, NoDup (ids x) -> NoDup (map nid (visible x)).
Proof.
  induction x as [i d | i name attrs cs IH] using Node_induction; intro Hnd.
  - simpl. constructor; [intros [] | constructor].
  - simpl. simpl in Hnd. inversion Hnd as [| ? ? Hi Hcs]; subst.
    destruct (is_value (assoc "data-editable" attrs) "remove");
      [constructor; [intros [] | constructor] |].
    constructor.
    + intro Hin. apply Hi. apply in_map_iff in Hin. destruct Hin as (y & Hy & Hin).
      apply in_flat_map in Hin. destruct Hin as (ch & Hch & Hin).
      apply in_flat_map. exists ch. split; [assumption |].
      apply (visible_ids ch y Hin). rewrite <- Hy. apply nid_in_ids.
    + clear Hi Hnd. revert Hcs. induction IH as [| ch cs Hch _ IHcs]; intro Hcs; [constructor |].
      simpl in Hcs. destruct (NoDup_app_inv _ _ Hcs) as (H1 & H2 & Hd).
      simpl. rewrite map_app. apply NoDup_app_intro; [apply Hch; assumption | apply IHcs; assumption |].
      intros a Ha Hb. apply in_map_iff in Ha. destruct Ha as (y & Hy & Hiny).
      apply in_map_iff in Hb. destruct Hb as (z & Hz & Hinz).
      apply in_flat_map in Hinz. destruct Hinz as (ch' & Hch' & Hinz).
      apply (Hd a).
      * apply (visible_ids ch y Hiny). rewrite <- Hy. apply nid_in_ids.
      * apply in_flat_map. exists ch'. split; [assumption |].
        apply (visible_ids ch' z Hinz). rewrite <- Hz. apply nid_in_ids.
Qed.

(** [textNodesUnder(host)] returns, once each and in the order of the
    walk, exactly the non-empty text nodes of the host that do not lie
    inside an element marked [data-editable="remove"] (the host
    included). *)
Theorem textNodesUnder_nonempty_kept_text_nodes :
  forall (doc : Node) (rootCtx : Ctx) (host : Node),
    NoDup (ids doc) -> At doc rootCtx host ->
    exists textNodes,
      textNodesUnder doc (nid host) = Some textNodes /\
      textNodes = map nid (filter isNonEmptyTextNode (visible host)) /\
      NoDup textNodes /\
      (forall n, In n textNodes <->
                 exists c d, At host c (TextNode n d) /\ d <> "" /\ Forall keptFrame c).
Proof.
  intros doc rootCtx host Hnd Hhost.
  exists (map nid (filter isNonEmptyTextNode (visible host))).
  split; [apply (textNodesUnder_visible doc Hnd rootCtx host Hhost) |].
  split; [reflexivity |]. split.
  - apply NoDup_map_filter. apply visible_NoDup. apply (At_NoDup _ _ _ Hhost Hnd).
  - intro n. split.
    + intro Hin. apply in_map_iff in Hin. destruct Hin as (x & Hx & Hin).
      apply filter_In in Hin. destruct Hin as (Hvis & Htext).
      destruct (visible_At host x Hvis) as (c & Hat & Hkept).
      destruct x as [i d | i name attrs cs]; [| discriminate].
      simpl in Hx. subst i. exists c, d. split; [assumption |]. split; [| assumption].
      simpl in Htext. intro Hd. subst d. discriminate.
    + intros (c & d & Hat & Hd & Hkept).
      apply in_map_iff. exists (TextNode n d). split; [reflexivity |].
      apply filter_In. split; [apply (At_visible _ _ _ Hat Hkept) |].
      simpl. apply negb_true_iff. apply String.eqb_neq. assumption.
Qed.

Lemma textNodesUnder_nonempty_kept_text_nodes_witness :
  exists textNodes,
    textNodesUnder Samples.nestedDoc (nid Samples.nestedHost) = Some textNodes /\
    textNodes = map nid (filter isNonEmptyTextNode (visible Samples.nestedHost)) /\
    NoDup textNodes /\
    (forall n, In n textNodes <->
               exists c d, At Samples.nestedHost c (TextNode n d) /\ d <> "" /\
                           Forall keptFrame c).
Proof.
  apply (textNodesUnder_nonempty_kept_text_nodes Samples.nestedDoc [Samples.documentFrame]
           Samples.nestedHost).
  - distinct_ids.
  - exact (At_child 0 "#document" [] [] Samples.nestedHost [] [] Samples.nestedHost
             (At_here Samples.nestedHost)).
Defined.


Lemma sumLengths_visible_text :
  forall doc rootCtx host,
    NoDup (ids doc) -> At doc rootCtx host ->
    forall R, (forall x, In x R -> exists c, At host c x) ->
      sumLengths doc (map nid (filter isNonEmptyTextNode R))
      = Z.of_nat (String.length (concatAll (map (contribution false) R))).
Proof.
  intros doc rootCtx host Hnd Hhost. induction R as [| x R IH]; intro HR; [reflexivity |].
  assert (HR' : forall y, In y R -> exists c, At host c y).
  { intros y Hy. apply HR. right. assumption. }
  specialize (IH HR'). destruct (HR x (or_introl eq_refl)) as (c & Hat).
  cbn [filter map concatAll fold_right]. rewrite length_append, Nat2Z.inj_add.
  change (fold_right append "" (map (contribution false) R))
    with (concatAll (map (contribution false) R)).
  rewrite <- IH.
  destruct x as [i d | i name attrs cs].
  - simpl isNonEmptyTextNode. simpl contribution.
    destruct (String.eqb_spec d "") as [Hd | Hd]; simpl negb; cbv iota.
    + subst d. reflexivity.
    + cbn [map sumLengths fold_right].
      rewrite (textContentLength_At doc Hnd rootCtx host Hhost c (TextNode i d) Hat).
      reflexivity.
  - reflexivity.
Qed.

(** The character count of a host is the length of its extracted text
    without line breaks: [getTotalCharCount(host)] equals
    [extractText(host, false).length]. *)
Theorem getTotalCharCount_is_text_length :
  forall (doc : Node) (rootCtx : Ctx) (host : Node),
    NoDup (ids doc) -> At doc rootCtx host ->
    exists text,
      extractText doc (nid host) false = Some text /\
      getTotalCharCount doc (nid host) = Some (Z.of_nat (String.length text)).
Proof.
  intros doc rootCtx host Hnd Hhost.
  exists (concatAll (map (contribution false) (visible host))).
  split; [apply (extractText_visible doc Hnd rootCtx host Hhost) |].
  rewrite (getTotalCharCount_sum doc Hnd rootCtx host Hhost). f_equal.
  unfold textNodesOf. apply (sumLengths_visible_text doc rootCtx host Hnd Hhost).
  intros x Hx. destruct (visible_At host x Hx) as (c & Hat & _). exists c. assumption.
Qed.

Lemma getTotalCharCount_is_text_length_witness :
  exists text,
    extractText Samples.twoLinesDoc (nid Samples.twoLinesHost) false = Some text /\
    getTotalCharCount Samples.twoLinesDoc (nid Samples.twoLinesHost)
    = Some (Z.of_nat (String.length text)).
Proof.
  apply (getTotalCharCount_is_text_length Samples.twoLinesDoc [Samples.documentFrame]
           Samples.twoLinesHost).
  - distinct_ids.
  - exact (At_child 0 "#document" [] [] Samples.twoLinesHost [] [] Samples.twoLinesHost
             (At_here Samples.twoLinesHost)).
Defined.

Lemma sumLengths_app :
  forall doc l1 l2, sumLengths doc (l1 ++ l2) = sumLengths doc l1 + sumLengths doc l2.
Proof.
  intros doc. induction l1 as [| x l1 IH]; intro l2; simpl; [reflexivity |].
  rewrite IH. lia.
Qed.

Lemma findTextNode_spec :
  forall doc l absOffset cumulativeOffset,
    (cumulativeOffset + sumLengths doc l < absOffset ->
     findTextNode doc l absOffset cumulativeOffset = (None, 0)) /\
    (l <> [] -> absOffset <= cumulativeOffset + sumLengths doc l ->
     exists before node after,
       l = before ++ node :: after /\
       findTextNode doc l absOffset cumulativeOffset
       = (Some node, absOffset - (cumulativeOffset + sumLengths doc before)) /\
       absOffset - (cumulativeOffset + sumLengths doc before) <= textContentLength doc node /\
       (before <> [] -> 0 < absOffset - (cumulativeOffset + sumLengths doc before))).
Proof.
  intros doc. induction l as [| x l IH]; intros absOffset cum.
  - split; [reflexivity | intros H; contradiction].
  - pose proof (textContentLength_nonneg doc x) as Hx.
    pose proof (sumLengths_nonneg doc l) as Hl.
    destruct (IH absOffset (cum + textContentLength doc x)) as (IHnone & IHsome).
    cbn [findTextNode sumLengths fold_right].
    change (fold_right (fun node acc => textContentLength doc node + acc) 0 l)
      with (sumLengths doc l).
    destruct (Z.leb_spec absOffset (cum + textContentLength doc x)) as [Hle | Hgt].
    + split; [intro H; lia |]. intros _ _.
      exists [], x, l. simpl. rewrite Z.add_0_r.
      split; [reflexivity |]. split; [reflexivity |]. split; [lia |].
      intro H. contradiction.
    + split.
      * intro H. apply IHnone. lia.
      * intros _ Hle. destruct l as [| y l'].
        -- simpl in Hle. lia.
        -- destruct IHsome as (before & node & after & Hsplit & Hfind & Hrel & Hpos);
             [discriminate | lia |].
           exists (x :: before), node, after.
           split; [rewrite Hsplit; reflexivity |].
           cbn [sumLengths fold_right].
           change (fold_right (fun node acc => textContentLength doc node + acc) 0 before)
             with (sumLengths doc before).
           replace (cum + (textContentLength doc x + sumLengths doc before))
             with (cum + textContentLength doc x + sumLengths doc before) by lia.
           split; [exact Hfind |]. split; [exact Hrel |].
           intros _. destruct before as [| b before'].
           ++ simpl. lia.
           ++ apply Hpos. discriminate.
Qed.

(** [getTextNodeAndRelativeOffset] splits an offset into a text node and
    an offset in it.  For an offset up to the total length, the node is the
    first one whose end the offset does not pass: the lengths of the nodes
    before it and the relative offset add up to the offset, and the
    relative offset does not exceed the length of the node and is positive
    unless the node is the first.  No node is found, and the relative
    offset is 0, exactly when the list is empty or the offset exceeds the
    total length. *)
Theorem getTextNodeAndRelativeOffset_splits_offset :
  forall (doc : Node) (textNodes : list nat) (absOffset : Z),
    (getTextNodeAndRelativeOffset doc textNodes absOffset = (None, 0) <->
     textNodes = [] \/ sumLengths doc textNodes < absOffset) /\
    (forall node relativeOffset,
        getTextNodeAndRelativeOffset doc textNodes absOffset = (Some node, relativeOffset) ->
        exists before after,
          textNodes = before ++ node :: after /\
          sumLengths doc before + relativeOffset = absOffset /\
          relativeOffset <= textContentLength doc node /\
          (before <> [] -> 0 < relativeOffset)).
Proof.
  intros doc textNodes absOffset. unfold getTextNodeAndRelativeOffset.
  destruct (findTextNode_spec doc textNodes absOffset 0) as (Hnone & Hsome).
  simpl in Hnone, Hsome.
  destruct textNodes as [| x l].
  - split; [split; [intros _; left; reflexivity | reflexivity] |].
    intros node rel H. discriminate.
  - destruct (Z.ltb_spec (sumLengths doc (x :: l)) absOffset) as [Hgt | Hle].
    + rewrite (Hnone Hgt). split; [split; [intros _; right; assumption | reflexivity] |].
      intros node rel H. discriminate.
    + destruct Hsome as (before & node & after & Hsplit & Hfind & Hrel & Hpos);
        [discriminate | assumption |].
      rewrite Hfind. split.
      * split; [intro H; discriminate | intros [H | H]; [discriminate | lia]].
      * intros node' rel' H. inversion H; subst node' rel'.
        exists before, after. split; [assumption |]. split; [lia |].
        split; assumption.
Qed.

(** Negative offsets on the text nodes "abcde" and "fgh": -1 is read as
    2^32 - 1 and throws, -4294967295 is read as 1 and gives the point
    after the "a". *)
Lemma createRangeAtCharacterOffset_negative_offsets :
  textNodesUnder Samples.twoLinesDoc (nid Samples.twoLinesHost) = Some [2; 4]%nat /\
  createRangeAtCharacterOffset Samples.twoLinesDoc [2; 4]%nat (-1) = Throws "IndexSizeError" /\
  createRangeAtCharacterOffset Samples.twoLinesDoc [2; 4]%nat (-4294967295)
  = Returns (2%nat, 1).
Proof. repeat split; reflexivity. Qed.

(** [createRangeAtCharacterOffset] (as [createCursorAtCharacterOffset])
    on the text nodes of a host with [n] characters:
    - an offset above [n], or any offset when the host has no text,
      throws "Could not find text node for offset";
    - a negative offset is handed to [setStart] with the first text node
      and is read there as an [unsigned long]: the call throws the
      [IndexSizeError] when the offset modulo 2^32 exceeds the length of
      that node, and otherwise returns the point at that offset in the
      first text node;
    - so every offset from [n - 2^32] (exclusive) up to -1 throws the
      [IndexSizeError];
    - an offset from 0 to [n] gives a point in a text node of the host
      whose offset lies within the node. *)
Theorem createRangeAtCharacterOffset_bounds :
  forall (doc : Node) (rootCtx : Ctx) (host : Node) (offset : Z),
    NoDup (ids doc) -> At doc rootCtx host ->
    exists textNodes n,
      textNodesUnder doc (nid host) = Some textNodes /\
      getTotalCharCount doc (nid host) = Some n /\
      (n = 0 \/ n < offset ->
       createRangeAtCharacterOffset doc textNodes offset
       = Throws "Could not find text node for offset") /\
      (1 <= n -> offset < 0 ->
       exists first rest,
         textNodes = first :: rest /\
         createRangeAtCharacterOffset doc textNodes offset
         = if textContentLength doc first <? toUnsignedLong offset
           then Throws "IndexSizeError"
           else Returns (first, toUnsignedLong offset)) /\
      (1 <= n -> n - 4294967296 < offset < 0 ->
       createRangeAtCharacterOffset doc textNodes offset = Throws "IndexSizeError") /\
      (1 <= n -> 0 <= offset <= n ->
       exists node relativeOffset,
         createRangeAtCharacterOffset doc textNodes offset = Returns (node, relativeOffset) /\
         In node textNodes /\
         0 <= relativeOffset <= textContentLength doc node).
Proof.
  intros doc rootCtx host offset Hnd Hhost.
  exists (map nid (textNodesOf host)), (sumLengths doc (map nid (textNodesOf host))).
  split; [apply (textNodesUnder_visible doc Hnd rootCtx host Hhost) |].
  split; [apply (getTotalCharCount_sum doc Hnd rootCtx host Hhost) |].
  set (l := map nid (textNodesOf host)).
  assert (Hempty : sumLengths doc l = 0 -> l = []).
  { unfold l. destruct (textNodesOf host) as [| x R] eqn:HR; [reflexivity |]. intro Hsum.
    assert (Hin : In x (textNodesOf host)) by (rewrite HR; left; reflexivity).
    destruct (In_textNodesOf host x Hin) as (c & d & Hat & Hx & Hd).
    change (sumLengths doc (map nid (x :: R)))
      with (textContentLength doc (nid x) + sumLengths doc (map nid R)) in Hsum.
    rewrite (textContentLength_At doc Hnd rootCtx host Hhost c x Hat) in Hsum.
    pose proof (sumLengths_nonneg doc (map nid R)).
    rewrite Hx in Hsum. cbn [textContentOf] in Hsum.
    destruct d; [contradiction | cbn [String.length] in Hsum; lia]. }
  assert (Hfound : 1 <= sumLengths doc l -> offset <= sumLengths doc l ->
            exists before node after,
              l = before ++ node :: after /\
              getTextNodeAndRelativeOffset doc l offset
              = (Some node, offset - sumLengths doc before) /\
              offset - sumLengths doc before <= textContentLength doc node /\
              (before <> [] -> 0 < offset - sumLengths doc before)).
  { intros Hn Hle. destruct (findTextNode_spec doc l offset 0) as (_ & Hs).
    destruct Hs as (before & node & after & Hsplit & Hfind & Hrel & Hpos).
    - intro Hl. rewrite Hl in Hn. simpl in Hn. lia.
    - lia.
    - exists before, node, after. simpl in Hfind, Hrel, Hpos. repeat split; assumption. }
  assert (Hnegative : 1 <= sumLengths doc l -> offset < 0 ->
            exists first rest,
              l = first :: rest /\
              textContentLength doc first <= sumLengths doc l /\
              createRangeAtCharacterOffset doc l offset
              = if textContentLength doc first <? toUnsignedLong offset
                then Throws "IndexSizeError"
                else Returns (first, toUnsignedLong offset)).
  { intros Hn Hneg.
    destruct Hfound as (before & node & after & Hsplit & Hfind & Hrel & Hpos); [assumption | lia |].
    destruct before as [| b before'].
    - exists node, after. split; [exact Hsplit |]. split.
      + rewrite Hsplit. cbn [app sumLengths fold_right].
        pose proof (sumLengths_nonneg doc after) as Hafter. unfold sumLengths in Hafter. lia.
      + unfold createRangeAtCharacterOffset. rewrite Hfind.
        cbn [sumLengths fold_right]. rewrite Z.sub_0_r. reflexivity.
    - pose proof (sumLengths_nonneg doc (b :: before')).
      assert (0 < offset - sumLengths doc (b :: before')) by (apply Hpos; discriminate). lia. }
  split; [| split; [| split]].
  - intro H. unfold createRangeAtCharacterOffset.
    assert (Hr : getTextNodeAndRelativeOffset doc l offset = (None, 0)).
    { unfold getTextNodeAndRelativeOffset. destruct H as [H | H].
      - rewrite (Hempty H). reflexivity.
      - apply (proj1 (findTextNode_spec doc l offset 0)). simpl. assumption. }
    rewrite Hr. reflexivity.
  - intros Hn Hneg.
    destruct (Hnegative Hn Hneg) as (first & rest & Hl & _ & Hrun).
    exists first, rest. split; assumption.
  - intros Hn Hoff.
    destruct (Hnegative Hn (proj2 Hoff)) as (first & rest & Hl & Hlen & Hrun).
    rewrite Hrun.
    assert (Hwrap : toUnsignedLong offset = offset + 4294967296).
    { unfold toUnsignedLong. symmetry. apply (Z.mod_unique _ _ (-1)); lia. }
    rewrite Hwrap.
    destruct (Z.ltb_spec (textContentLength doc first) (offset + 4294967296)); [reflexivity | lia].
  - intros Hn Hoff. unfold createRangeAtCharacterOffset.
    destruct Hfound as (before & node & after & Hsplit & Hfind & Hrel & Hpos); [assumption | lia |].
    rewrite Hfind.
    assert (Hrel0 : 0 <= offset - sumLengths doc before).
    { destruct before as [| b before']; [simpl; lia |].
      assert (0 < offset - sumLengths doc (b :: before')) by (apply Hpos; discriminate). lia. }
    assert (Hwrap : 0 <= toUnsignedLong (offset - sumLengths doc before)
                    <= offset - sumLengths doc before).
    { unfold toUnsignedLong. split; [apply Z.mod_pos_bound; lia | apply Z.mod_le; lia]. }
    destruct (Z.ltb_spec (textContentLength doc node)
                (toUnsignedLong (offset - sumLengths doc before))); [lia |].
    exists node, (toUnsignedLong (offset - sumLengths doc before)).
    split; [reflexivity |]. split; [| lia].
    rewrite Hsplit. apply in_or_app. right. left. reflexivity.
Qed.

Lemma createRangeAtCharacterOffset_bounds_witness :
  exists textNodes n,
    textNodesUnder Samples.twoLinesDoc (nid Samples.twoLinesHost) = Some textNodes /\
    getTotalCharCount Samples.twoLinesDoc (nid Samples.twoLinesHost) = Some n /\
    (n = 0 \/ n < -4294967295 ->
     createRangeAtCharacterOffset Samples.twoLinesDoc textNodes (-4294967295)
     = Throws "Could not find text node for offset") /\
    (1 <= n -> -4294967295 < 0 ->
     exists first rest,
       textNodes = first :: rest /\
       createRangeAtCharacterOffset Samples.twoLinesDoc textNodes (-4294967295)
       = if textContentLength Samples.twoLinesDoc first <? toUnsignedLong (-4294967295)
         then Throws "IndexSizeError"
         else Returns (first, toUnsignedLong (-4294967295))) /\
    (1 <= n -> n - 4294967296 < -4294967295 < 0 ->
     createRangeAtCharacterOffset Samples.twoLinesDoc textNodes (-4294967295)
     = Throws "IndexSizeError") /\
    (1 <= n -> 0 <= -4294967295 <= n ->
     exists node relativeOffset,
       createRangeAtCharacterOffset Samples.twoLinesDoc textNodes (-4294967295)
       = Returns (node, relativeOffset) /\
       In node textNodes /\
       0 <= relativeOffset <= textContentLength Samples.twoLinesDoc node).
Proof.
  apply (createRangeAtCharacterOffset_bounds Samples.twoLinesDoc [Samples.documentFrame]
           Samples.twoLinesHost (-4294967295)).
  - distinct_ids.
  - exact (At_child 0 "#document" [] [] Samples.twoLinesHost [] [] Samples.twoLinesHost
             (At_here Samples.twoLinesHost)).
Defined.

End ElementExtras.

(** ** The claim about hosts without characters *)

Section CursorSearchCharacters.
Import Dom NodeIterator Walk HighlightText Element BinarySearch Samples.

Section AnyRendering.

Variable num : Type.
Variable num_zero : num.
Variable num_sub : num -> num -> num.
Variable num_abs : num -> num.
Variable num_ltb : num -> num -> bool.
Variable num_eqb : num -> num -> bool.
Variable clientRect : nat -> Z -> option (DOMRect num).
Variable hostRangeRect : option (DOMRect num).
Variable hostRect : option (DOMRect num).

Local Abbreviation search :=
  (binaryCursorSearch num num_zero num_sub num_abs num_ltb num_eqb
     clientRect hostRangeRect hostRect).

(** C6.  Let [text] be the characters of the host: the data of its text
    nodes outside elements marked [data-editable="remove"], in document
    order, which is what [extractText(host, false)] returns, and let [n]
    be the length of [text].  Whatever the rendering engine answers, for
    every host of a document with distinct node identities, both flags
    and every target coordinate: [getTotalCharCount(host)] is [n]; when
    the host has no characters the search returns the not-found result,
    and when it has [n >= 1] characters the search returns a found result
    whose offset lies in [0, n].  So the result is not-found exactly when
    the host has no characters. *)
Theorem binaryCursorSearch_found_iff_characters :
  forall (doc : Node) (rootCtx : Ctx) (host : Node)
         (requiredOnFirstLine requiredOnLastLine : bool) (positionX : num),
    NoDup (ids doc) ->
    At doc rootCtx host ->
    let text := concatAll (map (contribution false) (visible host)) in
    let n := Z.of_nat (String.length text) in
    extractText doc (nid host) false = Some text /\
    getTotalCharCount doc (nid host) = Some n /\
    (text = "" ->
     search doc (nid host) requiredOnFirstLine requiredOnLastLine positionX =
       Returns (mkResult num false None None)) /\
    (text <> "" ->
     1 <= n /\
     exists d o,
       search doc (nid host) requiredOnFirstLine requiredOnLastLine positionX =
         Returns (mkResult num true (Some d) (Some o)) /\
       0 <= o <= n).
Proof.
  intros doc rootCtx host f l x Hnd Hhost text n.
  assert (Hsum : sumLengths doc (map nid (textNodesOf host)) = n).
  { unfold textNodesOf. apply (sumLengths_visible_text doc rootCtx host Hnd Hhost).
    intros y Hy. destruct (visible_At host y Hy) as (c & Hat & _). exists c. assumption. }
  split; [apply (extractText_visible doc Hnd rootCtx host Hhost) |].
  split; [rewrite (getTotalCharCount_sum doc Hnd rootCtx host Hhost), Hsum; reflexivity |].
  destruct (binaryCursorSearch_probes_spec num num_zero num_sub num_abs num_ltb num_eqb
              clientRect hostRangeRect hostRect doc Hnd rootCtx host Hhost f l x)
    as (Hzero & Hpos).
  rewrite Hsum in Hzero, Hpos.
  split.
  - intro Htext. unfold binaryCursorSearch. rewrite Hzero; [reflexivity |].
    unfold n. rewrite Htext. reflexivity.
  - intro Htext.
    assert (Hn : 1 <= n).
    { unfold n. destruct text as [| ch rest]; [contradiction |]. cbn [String.length]. lia. }
    split; [assumption |].
    destruct (Hpos Hn) as (probes & lo & ld & fo & fd & Hrun & _ & _ & _ & Hlo & Hfo).
    unfold binaryCursorSearch. rewrite Hrun. simpl.
    destruct (num_ltb fd ld).
    + exists fd, fo. split; [reflexivity | assumption].
    + exists ld, lo. split; [reflexivity | assumption].
Qed.

End AnyRendering.

Lemma binaryCursorSearch_found_iff_characters_witness :
  let text := concatAll (map (contribution false) (visible twoLinesHost)) in
  let n := Z.of_nat (String.length text) in
  extractText twoLinesDoc (nid twoLinesHost) false = Some text /\
  getTotalCharCount twoLinesDoc (nid twoLinesHost) = Some n /\
  (text = "" ->
   binaryCursorSearch Z 0 Z.sub Z.abs Z.ltb Z.eqb twoLinesRect None None
     twoLinesDoc (nid twoLinesHost) false false 20 =
     Returns (mkResult Z false None None)) /\
  (text <> "" ->
   1 <= n /\
   exists d o,
     binaryCursorSearch Z 0 Z.sub Z.abs Z.ltb Z.eqb twoLinesRect None None
       twoLinesDoc (nid twoLinesHost) false false 20 =
       Returns (mkResult Z true (Some d) (Some o)) /\
     0 <= o <= n).
Proof.
  apply (binaryCursorSearch_found_iff_characters Z 0 Z.sub Z.abs Z.ltb Z.eqb
           twoLinesRect None None twoLinesDoc [documentFrame] twoLinesHost false false 20).
  - distinct_ids.
  - exact (At_child 0 "#document" [] [] twoLinesHost [] [] twoLinesHost (At_here twoLinesHost)).
Defined.

End CursorSearchCharacters.

(** ** Highlights: removing *)

Section RemoveExtras.
Import Dom DomEdit NodeIterator HighlightText HighlightSupport Walk.

Lemma hostText_nil :
  forall convertBRs x, hostText [] convertBRs x = textOf convertBRs x.
Proof.
  intros convertBRs x. apply hostText_textOf. intros y _ Hy.
  rewrite isTagged_mark in Hy. destruct (snd (mark y)); discriminate.
Qed.

Lemma filter_none {A : Type} (p : A -> bool) :
  forall l, (forall a, In a l -> p a = false) -> filter p l = [].
Proof.
  induction l as [| a l IH]; intro H; simpl; [reflexivity |].
  rewrite (H a (or_introl eq_refl)). apply IH. intros b Hb. apply H. right. assumption.
Qed.

Lemma taggedValue_single :
  forall id v, taggedValue [id] v = is_value v id.
Proof.
  intros id [w |]; [| reflexivity]. simpl. apply orb_false_r.
Qed.

(** For an id that the selector [[data-word-id="id"]] takes as it is (no
    quotation mark, backslash, line feed, form feed, carriage return or
    null character in it): after [removeHighlight(host, id)] no element
    of the host carries the id, [hasHighlight(host, id)] is false, the
    host is still where it was, and nothing outside the host has
    changed. *)
Theorem removeHighlight_then_hasHighlight_false :
  forall (doc : Node) (rootCtx : Ctx) (host : Node) (id : string),
    NoDup (ids doc) -> At doc rootCtx host ->
    selectorLiteral id = true ->
    hasHighlight (removeHighlight doc (nid host) id) (nid host) id = false /\
    exists host',
      At (removeHighlight doc (nid host) id) rootCtx host' /\
      nid host' = nid host /\
      NoDup (ids (removeHighlight doc (nid host) id)).
Proof.
  intros doc rootCtx host id Hnd Hhost _.
  destruct (removeHighlight_spec [id] true doc rootCtx host id Hnd Hhost (or_introl eq_refl))
    as (T' & Hrun & Hnd' & Hnid & _ & _ & _ & Hgone).
  rewrite Hrun. split.
  - unfold hasHighlight, querySelectorAllWordId. rewrite <- Hnid.
    rewrite (lookup_At _ Hnd' rootCtx T' (rebuild_At rootCtx T')).
    assert (Hnone : filter (fun x => isElement x && is_value (getAttributeOf x "data-word-id") id)
                      (descendants T') = []).
    { apply filter_none. intros y Hy.
      assert (Hm : In (mark y) (marks T')) by (unfold marks; apply in_map; assumption).
      specialize (Hgone (mark y) Hm). simpl in Hgone. rewrite Hgone. apply andb_false_r. }
    rewrite Hnone. reflexivity.
  - exists T'. split; [apply rebuild_At |]. split; assumption.
Qed.

Lemma removeHighlight_then_hasHighlight_false_witness :
  hasHighlight (removeHighlight Samples.taggedBRHost (nid Samples.taggedBRHost) "x")
    (nid Samples.taggedBRHost) "x" = false /\
  exists host',
    At (removeHighlight Samples.taggedBRHost (nid Samples.taggedBRHost) "x") [] host' /\
    nid host' = nid Samples.taggedBRHost /\
    NoDup (ids (removeHighlight Samples.taggedBRHost (nid Samples.taggedBRHost) "x")).
Proof.
  apply (removeHighlight_then_hasHighlight_false Samples.taggedBRHost [] Samples.taggedBRHost "x").
  - distinct_ids.
  - constructor.
  - reflexivity.
Defined.

(** [removeHighlight(host, id)] keeps the extracted text unless it
    unwraps a line break or uncovers hidden text: for an id that the
    selector [[data-word-id="id"]] takes as it is (no quotation mark,
    backslash, line feed, form feed, carriage return or null character
    in it), when no element of the host that carries the id is a BR
    element or is marked [data-editable="remove"], [extractText] gives
    the same text before and after, with and without the conversion of
    line breaks. *)
Theorem removeHighlight_keeps_text :
  forall (doc : Node) (rootCtx : Ctx) (host : Node) (id : string) (convertBRs : bool),
    NoDup (ids doc) -> At doc rootCtx host ->
    selectorLiteral id = true ->
    (forall y, In y (descendants host) ->
       is_value (getAttributeOf y "data-word-id") id = true ->
       isRemoved y = false /\ nodeNameOf y <> "BR") ->
    exists text,
      extractText doc (nid host) convertBRs = Some text /\
      extractText (removeHighlight doc (nid host) id) (nid host) convertBRs = Some text.
Proof.
  intros doc rootCtx host id convertBRs Hnd Hhost _ Hok.
  destruct (removeHighlight_spec [id] convertBRs doc rootCtx host id Hnd Hhost
              (or_introl eq_refl))
    as (T' & Hrun & Hnd' & Hnid & _ & Htext & _ & Hgone).
  exists (textOf convertBRs host). split.
  - rewrite (extractText_visible doc Hnd rootCtx host Hhost). rewrite <- textOf_visible.
    reflexivity.
  - rewrite Hrun, <- Hnid.
    rewrite (extractText_visible _ Hnd' rootCtx T' (rebuild_At rootCtx T')).
    rewrite <- textOf_visible. f_equal.
    rewrite <- (hostText_textOf [id] convertBRs T').
    + rewrite Htext. apply hostText_textOf. intros y Hy Hty.
      rewrite isTagged_mark, taggedValue_single in Hty. simpl in Hty.
      destruct (Hok y Hy Hty) as (Hrem & Hbr). split; [assumption |].
      apply andb_false_iff. right. apply String.eqb_neq. assumption.
    + intros y Hy Hty. exfalso. rewrite isTagged_mark, taggedValue_single in Hty.
      assert (Hm : In (mark y) (marks T')) by (unfold marks; apply in_map; assumption).
      rewrite (Hgone (mark y) Hm) in Hty. discriminate.
Qed.

Lemma removeHighlight_keeps_text_witness :
  exists text,
    extractText Examples.highlightedDoc (nid Examples.highlightedHost) true = Some text /\
    extractText (removeHighlight Examples.highlightedDoc (nid Examples.highlightedHost) "x")
      (nid Examples.highlightedHost) true = Some text.
Proof.
  apply (removeHighlight_keeps_text Examples.highlightedDoc [Samples.documentFrame]
           Examples.highlightedHost "x" true).
  - distinct_ids.
  - exact (At_child 0 "#document" [] [] Examples.highlightedHost [] []
             Examples.highlightedHost (At_here Examples.highlightedHost)).
  - reflexivity.
  - intros y Hy Hty. simpl in Hy.
    repeat (destruct Hy as [Hy | Hy];
            [subst y; first [discriminate Hty | split; [reflexivity | discriminate]] |]).
    destruct Hy.
Defined.

End RemoveExtras.

(** ** Highlights: wrapping *)

Section HighlightExtras.
Import Dom DomEdit NodeIterator HighlightText HighlightSupport Walk Shape.

Lemma mergeTexts_shallow :
  forall (Q : Node -> Prop) l,
    shallow Q -> Forall Q (flat_map subtree l) -> Forall Q (flat_map subtree (mergeTexts l)).
Proof.
  intros Q l HQ. induction l as [| x l IH]; intro H; [constructor |].
  cbn [flat_map] in H. apply Forall_app in H. destruct H as (Hx & Hl).
  specialize (IH Hl). simpl mergeTexts. destruct x as [i d | i name attrs cs].
  - destruct (String.eqb d ""); [assumption |].
    destruct (mergeTexts l) as [| [j d' | j name attrs cs] merged] eqn:Hm.
    + constructor; [apply (proj1 HQ) | constructor].
    + cbn [flat_map subtree descendants app] in IH |- *.
      inversion IH; subst. constructor; [apply (proj1 HQ) | assumption].
    + cbn [flat_map]. apply Forall_app. split; [assumption | assumption].
  - cbn [flat_map]. apply Forall_app. split; assumption.
Qed.

Lemma normalizeNode_shallow :
  forall (Q : Node -> Prop) x,
    shallow Q -> Forall Q (descendants x) -> Forall Q (descendants (normalizeNode x)).
Proof.
  intros Q x HQ. induction x as [i d | i name attrs cs IH] using Node_induction;
    intro H; [assumption |].
  simpl normalizeNode. cbn [descendants] in H |- *.
  apply (mergeTexts_shallow Q _ HQ).
  induction IH as [| ch cs Hch _ IHcs]; [constructor |].
  cbn [map flat_map] in H |- *. apply Forall_app in H. destruct H as (Hhead & Hrest).
  apply Forall_app. split; [| apply IHcs; assumption].
  inversion Hhead as [| ? ? Hq Hd]; subst. constructor; [| apply Hch; assumption].
  destruct ch as [j d | j name' attrs' cs']; [assumption |].
  simpl normalizeNode. apply (proj2 HQ j name' attrs' cs'). assumption.
Qed.

Lemma extractText_textOf :
  forall doc rootCtx T convertBRs,
    NoDup (ids doc) -> At doc rootCtx T ->
    extractText doc (nid T) convertBRs = Some (textOf convertBRs T).
Proof.
  intros doc rootCtx T convertBRs Hnd HT.
  rewrite (extractText_visible doc Hnd rootCtx T HT convertBRs).
  rewrite <- textOf_visible. reflexivity.
Qed.

(** [highlightMatches] on a host anywhere in a document, with the ids [L]
    of the matches looked through. *)
Lemma highlightMatches_spec :
  forall doc rootCtx host matches countBRs convertBRs,
    NoDup (ids doc) -> At doc rootCtx host -> isElement host = true ->
    (forall m, In m matches ->
       exists i name attrs cs, marker m = Some (ElementNode i name attrs cs)) ->
    let L := map wordIdOf matches in
    exists highlighted host',
      highlightMatches doc (nid host) matches countBRs = Returns highlighted /\
      At highlighted rootCtx host' /\
      NoDup (ids highlighted) /\ nid host' = nid host /\ isElement host' = true /\
      hostText L convertBRs host' = hostText L convertBRs host /\
      kept (cloneOfMarker L matches) host host'.
Proof.
  intros doc rootCtx host matches countBRs convertBRs Hnd Hhost Hel Hmarkers L.
  assert (Htagged : forall m, In m matches -> existsb (String.eqb (wordIdOf m)) L = true).
  { intros m Hm. apply existsb_exists. exists (wordIdOf m).
    split; [apply in_map; assumption | apply String.eqb_refl]. }
  unfold highlightMatches. destruct matches as [| m0 rest] eqn:Hmatches.
  - exists doc, host. repeat split; try assumption. intros Q _ _ H. exact H.
  - rewrite <- Hmatches in *.
    destruct (normalize_inside doc rootCtx host Hhost Hnd) as (Hnorm & HndN).
    rewrite Hnorm.
    set (docN := rebuild rootCtx (normalizeNode host)) in *.
    assert (HhostN : At docN rootCtx (normalizeNode host)) by apply rebuild_At.
    destruct (highlightLoop_keeps L convertBRs matches countBRs Hmarkers Htagged
                (S (weight docN)) docN rootCtx (normalizeNode host)
                (NodeIterator.new (nid host)) (Some ([], normalizeNode host))
                0%nat 0 m0 [] (wordIdOf m0) HndN HhostN)
      as (highlighted & T & Hrun & HT & Hnd' & Hnid' & Hel' & Htext' & Hkept & _).
    + rewrite normalizeNode_isElement. assumption.
    + simpl. symmetry. apply normalizeNode_nid.
    + simpl. f_equal. symmetry. apply normalizeNode_nid.
    + split; [constructor |]. intros c s Hpos. inversion Hpos; subst.
      split; [constructor | intros p []].
    + rewrite Hmatches. left. reflexivity.
    + apply Htagged. rewrite Hmatches. left. reflexivity.
    + simpl pending. rewrite app_nil_r.
      pose proof (load_visible_weight (normalizeNode host)) as Hload.
      pose proof (weight_At _ _ _ HhostN) as Hweight. lia.
    + exists highlighted, T. split; [exact Hrun |]. split; [assumption |].
      split; [assumption |].
      split; [rewrite Hnid'; apply normalizeNode_nid |]. split; [assumption |].
      split; [rewrite Htext'; apply normalizeNode_hostText |].
      intros Q HQ Hspans H0. apply (Hkept Q HQ Hspans).
      apply (normalizeNode_shallow Q _ HQ). assumption.
Qed.

(** [highlightMatches] with a marker element for every match returns a
    document: it does not throw.  The host is where it was and has its
    identity, so nothing outside the host has changed, and the node
    identities are still distinct.  Every element below the host then has
    the name and the attributes of an element that was below the host
    before, or it is a clone of the marker of one of the matches whose
    [data-word-id] is the id of one of the matches and whose [title] is
    that of the match, if it has one. *)
Theorem highlightMatches_adds_marker_clones_only :
  forall doc rootCtx host matches countBRs,
    NoDup (ids doc) -> At doc rootCtx host -> isElement host = true ->
    (forall m, In m matches ->
       exists i name attrs cs, marker m = Some (ElementNode i name attrs cs)) ->
    exists highlighted host',
      highlightMatches doc (nid host) matches countBRs = Returns highlighted /\
      At highlighted rootCtx host' /\ nid host' = nid host /\
      NoDup (ids highlighted) /\
      forall y, In y (descendants host') -> isElement y = true ->
        (exists x, In x (descendants host) /\
                   nodeNameOf x = nodeNameOf y /\ attributes x = attributes y) \/
        (exists m i name attrs cs w,
           In m matches /\ marker m = Some (ElementNode i name attrs cs) /\
           In w (map wordIdOf matches) /\
           nodeNameOf y = name /\ attributes y = spanAttributes attrs w (title m)).
Proof.
  intros doc rootCtx host matches countBRs Hnd Hhost Hel Hmarkers.
  destruct (highlightMatches_spec doc rootCtx host matches countBRs true Hnd Hhost Hel Hmarkers)
    as (highlighted & host' & Hrun & Hhost' & Hnd' & Hnid & _ & _ & Hkept).
  exists highlighted, host'. split; [exact Hrun |]. split; [assumption |].
  split; [assumption |]. split; [assumption |].
  set (Q := fun y : Node =>
    isElement y = true ->
    (exists x, In x (descendants host) /\
               nodeNameOf x = nodeNameOf y /\ attributes x = attributes y) \/
    (exists m i name attrs cs w,
       In m matches /\ marker m = Some (ElementNode i name attrs cs) /\
       In w (map wordIdOf matches) /\
       nodeNameOf y = name /\ attributes y = spanAttributes attrs w (title m))).
  assert (HQ : Forall Q (descendants host')).
  { apply (Hkept Q).
    - split; [intros i d Hy; discriminate Hy |].
      intros i name attrs cs cs' H _. apply (H eq_refl).
    - intros y (m & i & name & attrs & scs & Hm & Hmarker & w & j & cs & Hw & Hy) _.
      right. exists m, i, name, attrs, scs, w. subst y.
      split; [assumption |]. split; [assumption |]. split; [| split; reflexivity].
      apply existsb_exists in Hw. destruct Hw as (v & Hv & Heq).
      apply String.eqb_eq in Heq. subst v. assumption.
    - apply Forall_forall. intros y Hy _. left. exists y.
      split; [assumption | split; reflexivity]. }
  intros y Hy. apply (proj1 (Forall_forall Q _) HQ y Hy).
Qed.

Lemma highlightMatches_adds_marker_clones_only_witness :
  exists highlighted host',
    highlightMatches Samples.twoLinesDoc (nid Samples.twoLinesHost)
      [Samples.acrossLinesMatch] true = Returns highlighted /\
    At highlighted [Samples.documentFrame] host' /\ nid host' = nid Samples.twoLinesHost /\
    NoDup (ids highlighted) /\
    forall y, In y (descendants host') -> isElement y = true ->
      (exists x, In x (descendants Samples.twoLinesHost) /\
                 nodeNameOf x = nodeNameOf y /\ attributes x = attributes y) \/
      (exists m i name attrs cs w,
         In m [Samples.acrossLinesMatch] /\ marker m = Some (ElementNode i name attrs cs) /\
         In w (map wordIdOf [Samples.acrossLinesMatch]) /\
         nodeNameOf y = name /\ attributes y = spanAttributes attrs w (title m)).
Proof.
  apply (highlightMatches_adds_marker_clones_only Samples.twoLinesDoc [Samples.documentFrame]
           Samples.twoLinesHost [Samples.acrossLinesMatch] true).
  - distinct_ids.
  - exact (At_child 0 "#document" [] [] Samples.twoLinesHost [] [] Samples.twoLinesHost
             (At_here Samples.twoLinesHost)).
  - reflexivity.
  - intros m [Hm | []]. subst m. simpl. unfold Samples.commentMarker. repeat eexists.
Defined.

(** Highlighting does not change the text: when no marker is a BR element
    or is marked [data-editable="remove"], and no element inside the host
    that already carries the id of one of the matches is, [extractText]
    returns the same text for the host before and after
    [highlightMatches], whatever [countBRs] and [convertBRs] are. *)
Theorem highlightMatches_keeps_text :
  forall doc rootCtx host matches countBRs convertBRs,
    NoDup (ids doc) -> At doc rootCtx host -> isElement host = true ->
    (forall m, In m matches ->
       exists i name attrs cs,
         marker m = Some (ElementNode i name attrs cs) /\
         name <> "BR" /\ assoc "data-editable" attrs <> Some "remove") ->
    (forall y, In y (descendants host) -> isTagged (map wordIdOf matches) y = true ->
       isRemoved y = false /\ nodeNameOf y <> "BR") ->
    exists highlighted text,
      highlightMatches doc (nid host) matches countBRs = Returns highlighted /\
      extractText doc (nid host) convertBRs = Some text /\
      extractText highlighted (nid host) convertBRs = Some text.
Proof.
  intros doc rootCtx host matches countBRs convertBRs Hnd Hhost Hel Hmarkers Hok.
  set (L := map wordIdOf matches) in *.
  assert (Hmarkers' : forall m, In m matches ->
            exists i name attrs cs, marker m = Some (ElementNode i name attrs cs)).
  { intros m Hm. destruct (Hmarkers m Hm) as (i & name & attrs & cs & H & _).
    exists i, name, attrs, cs. assumption. }
  destruct (highlightMatches_spec doc rootCtx host matches countBRs convertBRs
              Hnd Hhost Hel Hmarkers')
    as (highlighted & host' & Hrun & Hhost' & Hnd' & Hnid & _ & Htext & Hkept).
  fold L in Htext, Hkept.
  exists highlighted, (textOf convertBRs host). split; [exact Hrun |]. split.
  { rewrite (extractText_visible doc Hnd rootCtx host Hhost convertBRs).
    rewrite <- textOf_visible. reflexivity. }
  rewrite <- Hnid.
  rewrite (extractText_visible highlighted Hnd' rootCtx host' Hhost' convertBRs).
  rewrite <- textOf_visible. f_equal.
  set (Q := fun y : Node =>
    isTagged L y = true -> isRemoved y = false /\ nodeNameOf y <> "BR").
  assert (HQ : Forall Q (descendants host')).
  { apply (Hkept Q).
    - split; [intros i d Hy; discriminate Hy |].
      intros i name attrs cs cs' H. exact H.
    - intros y (m & i & name & attrs & scs & Hm & Hmarker & w & j & cs & Hw & Hy) _.
      destruct (Hmarkers m Hm) as (i' & name' & attrs' & scs' & Hmarker' & Hname & Hattr).
      rewrite Hmarker in Hmarker'. inversion Hmarker'; subst.
      split; [| assumption].
      unfold isRemoved, getAttributeOf, spanAttributes. simpl attributes.
      assert (Hval : is_value (assoc "data-editable" attrs') "remove" = false).
      { destruct (assoc "data-editable" attrs') as [v |]; [| reflexivity]. simpl.
        apply String.eqb_neq. intro Hv. apply Hattr. rewrite Hv. reflexivity. }
      destruct (truthy (title m)).
      + rewrite !assoc_setAttribute_other by discriminate. assumption.
      + rewrite assoc_setAttribute_other by discriminate. assumption.
    - apply Forall_forall. intros y Hy Hty. apply Hok; assumption. }
  rewrite <- (hostText_textOf L convertBRs host').
  - rewrite Htext. apply hostText_textOf.
    intros y Hy Hty. destruct (Hok y Hy Hty) as (Hrem & Hbr). split; [assumption |].
    apply andb_false_iff. right. apply String.eqb_neq. assumption.
  - intros y Hy Hty. destruct (proj1 (Forall_forall Q _) HQ y Hy Hty) as (Hrem & Hbr).
    split; [assumption |]. apply andb_false_iff. right. apply String.eqb_neq. assumption.
Qed.

Lemma highlightMatches_keeps_text_witness :
  exists highlighted text,
    highlightMatches Samples.twoLinesDoc (nid Samples.twoLinesHost)
      [Samples.acrossLinesMatch] true = Returns highlighted /\
    extractText Samples.twoLinesDoc (nid Samples.twoLinesHost) true = Some text /\
    extractText highlighted (nid Samples.twoLinesHost) true = Some text.
Proof.
  apply (highlightMatches_keeps_text Samples.twoLinesDoc [Samples.documentFrame]
           Samples.twoLinesHost [Samples.acrossLinesMatch] true true).
  - distinct_ids.
  - exact (At_child 0 "#document" [] [] Samples.twoLinesHost [] [] Samples.twoLinesHost
             (At_here Samples.twoLinesHost)).
  - reflexivity.
  - intros m [Hm | []]. subst m. simpl. unfold Samples.commentMarker.
    repeat eexists; discriminate.
  - intros y Hy Hty. simpl in Hy.
    repeat (destruct Hy as [Hy | Hy]; [subst y; discriminate Hty |]). destruct Hy.
Defined.

Lemma normalizeNode_textOf :
  forall convertBRs x, textOf convertBRs (normalizeNode x) = textOf convertBRs x.
Proof.
  intros convertBRs x. rewrite <- !hostText_nil. apply normalizeNode_hostText.
Qed.

(** Without counting line breaks, [highlightMatches] wraps the first
    match when it ends within the text of the host. *)
Lemma highlightMatches_wraps_first :
  forall doc rootCtx host m rest,
    NoDup (ids doc) -> At doc rootCtx host -> isElement host = true ->
    (forall m', In m' (m :: rest) ->
       exists i name attrs cs, marker m' = Some (ElementNode i name attrs cs)) ->
    startIndex m < endIndex m -> 0 < endIndex m ->
    endIndex m <= Z.of_nat (String.length (textOf false host)) ->
    exists highlighted host' y,
      highlightMatches doc (nid host) (m :: rest) false = Returns highlighted /\
      At highlighted rootCtx host' /\ NoDup (ids highlighted) /\ nid host' = nid host /\
      In y (descendants host') /\ isElement y = true /\
      getAttributeOf y "data-word-id" = Some (wordIdOf m).
Proof.
  intros doc rootCtx host m rest Hnd Hhost Hel Hmarkers Hproper Hpos Hend.
  set (matches := m :: rest) in *.
  set (L := map wordIdOf matches).
  assert (Htagged : forall m', In m' matches -> existsb (String.eqb (wordIdOf m')) L = true).
  { intros m' Hm. apply existsb_exists. exists (wordIdOf m').
    split; [apply in_map; assumption | apply String.eqb_refl]. }
  unfold highlightMatches. unfold matches at 1. fold matches.
  destruct (normalize_inside doc rootCtx host Hhost Hnd) as (Hnorm & HndN).
  rewrite Hnorm.
  set (docN := rebuild rootCtx (normalizeNode host)) in *.
  assert (HhostN : At docN rootCtx (normalizeNode host)) by apply rebuild_At.
  destruct (highlightLoop_wraps L true matches false Hmarkers Htagged eq_refl
              (S (weight docN)) docN rootCtx (normalizeNode host)
              (NodeIterator.new (nid host)) (Some ([], normalizeNode host))
              0%nat 0 m [] (wordIdOf m) HndN HhostN)
    as (highlighted & T & y & Hrun & HT & Hnd' & Hnid' & Hy & Hely & Hattr).
  - rewrite normalizeNode_isElement. assumption.
  - simpl. symmetry. apply normalizeNode_nid.
  - simpl. f_equal. symmetry. apply normalizeNode_nid.
  - split; [constructor |]. intros c s Hp. inversion Hp; subst.
    split; [constructor | intros p []].
  - left. reflexivity.
  - apply Htagged. left. reflexivity.
  - simpl pending. rewrite app_nil_r.
    pose proof (load_visible_weight (normalizeNode host)) as Hload.
    pose proof (weight_At _ _ _ HhostN) as Hweight. lia.
  - assumption.
  - simpl pending. rewrite app_nil_r. rewrite <- textOf_visible, normalizeNode_textOf.
    lia.
  - right. reflexivity.
  - assumption.
  - exists highlighted, T, y. split; [exact Hrun |]. split; [assumption |].
    split; [assumption |]. split; [rewrite Hnid'; apply normalizeNode_nid |].
    split; [assumption |]. split; assumption.
Qed.

Lemma hasHighlight_element :
  forall doc rootCtx host y id,
    NoDup (ids doc) -> At doc rootCtx host ->
    In y (descendants host) -> isElement y = true ->
    getAttributeOf y "data-word-id" = Some id ->
    hasHighlight doc (nid host) id = true.
Proof.
  intros doc rootCtx host y id Hnd Hhost Hy Hel Hattr.
  unfold hasHighlight, querySelectorAllWordId.
  rewrite (lookup_At doc Hnd rootCtx host Hhost).
  assert (Hin : In y (filter (fun x => isElement x
                                       && is_value (getAttributeOf x "data-word-id") id)
                         (descendants host))).
  { apply filter_In. split; [assumption |]. rewrite Hel, Hattr. simpl.
    apply String.eqb_refl. }
  destruct (filter _ (descendants host)); [destruct Hin | reflexivity].
Qed.

(** When line breaks are not counted, [highlightMatches] highlights the
    first match whenever it is not empty and ends within the text of the
    host: the call returns, and [hasHighlight] then finds the word id of
    the match, which is its id or else its start index.  The word id is
    assumed to be a string that the selector [[data-word-id="id"]] takes
    as it is (no quotation mark, backslash, line feed, form feed,
    carriage return or null character in it). *)
Theorem highlightMatches_highlights_first_match :
  forall (doc : Node) (rootCtx : Ctx) (host : Node) (m : ExtendedMatch)
         (rest : list ExtendedMatch) (text : string),
    NoDup (ids doc) -> At doc rootCtx host -> isElement host = true ->
    (forall m', In m' (m :: rest) ->
       exists i name attrs cs, marker m' = Some (ElementNode i name attrs cs)) ->
    selectorLiteral (wordIdOf m) = true ->
    extractText doc (nid host) false = Some text ->
    startIndex m < endIndex m -> 0 < endIndex m ->
    endIndex m <= Z.of_nat (String.length text) ->
    exists highlighted,
      highlightMatches doc (nid host) (m :: rest) false = Returns highlighted /\
      hasHighlight highlighted (nid host) (wordIdOf m) = true.
Proof.
  intros doc rootCtx host m rest text Hnd Hhost Hel Hmarkers _ Htext Hproper Hpos Hend.
  rewrite (extractText_textOf doc rootCtx host false Hnd Hhost) in Htext.
  inversion Htext; subst text.
  destruct (highlightMatches_wraps_first doc rootCtx host m rest Hnd Hhost Hel Hmarkers
              Hproper Hpos Hend)
    as (highlighted & host' & y & Hrun & Hhost' & Hnd' & Hnid & Hy & Hely & Hattr).
  exists highlighted. split; [exact Hrun |]. rewrite <- Hnid.
  apply (hasHighlight_element highlighted rootCtx host' y); assumption.
Qed.

Lemma highlightMatches_highlights_first_match_witness :
  exists highlighted,
    highlightMatches Samples.twoLinesDoc (nid Samples.twoLinesHost)
      [mkExtendedMatch 3 7 "defg" (Some Samples.commentMarker) (Some "x") None] false
      = Returns highlighted /\
    hasHighlight highlighted (nid Samples.twoLinesHost)
      (wordIdOf (mkExtendedMatch 3 7 "defg" (Some Samples.commentMarker) (Some "x") None))
    = true.
Proof.
  apply (highlightMatches_highlights_first_match Samples.twoLinesDoc [Samples.documentFrame]
           Samples.twoLinesHost
           (mkExtendedMatch 3 7 "defg" (Some Samples.commentMarker) (Some "x") None) []
           "abcdefgh").
  - distinct_ids.
  - exact (At_child 0 "#document" [] [] Samples.twoLinesHost [] [] Samples.twoLinesHost
             (At_here Samples.twoLinesHost)).
  - reflexivity.
  - intros m' [Hm | []]. subst m'. simpl. unfold Samples.commentMarker. repeat eexists.
  - reflexivity.
  - reflexivity.
  - simpl. lia.
  - simpl. lia.
  - simpl. lia.
Defined.

End HighlightExtras.

(** ** Highlights: a range of characters *)

Section HighlightRangeExtras.
Import Dom DomEdit NodeIterator HighlightText HighlightSupport HighlightRange Walk Shape.

Lemma isTagged_single :
  forall id y, isTagged [id] y = is_value (getAttributeOf y "data-word-id") id.
Proof.
  intros id [i d | i name attrs cs]; [reflexivity |].
  unfold getAttributeOf. simpl. destruct (assoc "data-word-id" attrs); [| reflexivity].
  simpl. apply orb_false_r.
Qed.

(** [removeHighlight] for an id whose elements are no line breaks and
    hide nothing: the host afterwards has the text it had and no element
    with the id. *)
Lemma removeHighlight_text :
  forall doc rootCtx T id,
    NoDup (ids doc) -> At doc rootCtx T ->
    (forall y, In y (descendants T) ->
       is_value (getAttributeOf y "data-word-id") id = true ->
       isRemoved y = false /\ nodeNameOf y <> "BR") ->
    exists T',
      removeHighlight doc (nid T) id = rebuild rootCtx T' /\
      NoDup (ids (rebuild rootCtx T')) /\
      nid T' = nid T /\
      isElement T' = isElement T /\
      (forall convertBRs, textOf convertBRs T' = textOf convertBRs T) /\
      (forall y, In y (descendants T') -> isTagged [id] y = false).
Proof.
  intros doc rootCtx T id Hnd HT Hok.
  destruct (removeHighlight_spec [id] true doc rootCtx T id Hnd HT (or_introl eq_refl))
    as (T' & Hrun & Hnd' & Hnid & Hel & _ & _ & Hgone).
  assert (Hnone : forall y, In y (descendants T') -> isTagged [id] y = false).
  { intros y Hy. rewrite isTagged_single.
    assert (Hm : In (mark y) (marks T')) by (unfold marks; apply in_map; assumption).
    apply (Hgone (mark y) Hm). }
  exists T'. split; [exact Hrun |]. split; [assumption |]. split; [assumption |].
  split; [assumption |]. split; [| assumption].
  intro convertBRs.
  destruct (removeHighlight_spec [id] convertBRs doc rootCtx T id Hnd HT (or_introl eq_refl))
    as (T2 & Hrun2 & Hnd2 & Hnid2 & _ & Htext & _ & _).
  assert (HT2 : T2 = T').
  { rewrite Hrun in Hrun2.
    pose proof (rebuild_At rootCtx T') as H1. pose proof (rebuild_At rootCtx T2) as H2.
    rewrite <- Hrun2 in H2.
    apply (At_unique _ _ _ _ _ Hnd' H2 H1). congruence. }
  subst T2.
  rewrite <- (hostText_textOf [id] convertBRs T').
  - rewrite Htext. apply hostText_textOf. intros y Hy Hty. rewrite isTagged_single in Hty.
    destruct (Hok y Hy Hty) as (Hrem & Hbr). split; [assumption |].
    apply andb_false_iff. right. apply String.eqb_neq. assumption.
  - intros y Hy Hty. rewrite (Hnone y Hy) in Hty. discriminate.
Qed.

(** [highlightRange] does not change the text of the host.  Let the id
    be not empty and a string that the selector [[data-word-id="id"]]
    takes as it is (no quotation mark, backslash, line feed, form feed,
    carriage return or null character in it), and let the type be a
    string that the markup of the marker takes as it is (no quotation
    mark, ampersand, angle bracket, carriage return or null character in
    it).  When no element of the host that carries the id is a BR element
    or is marked [data-editable="remove"], the call returns;
    [extractText] gives the same text for the host before and after, with
    and without the conversion of line breaks; and the number returned is
    -1 when the host has no text and the start index otherwise. *)
Theorem highlightRange_keeps_text :
  forall (doc : Node) (rootCtx : Ctx) (host : Node) (text highlightId : string)
         (startIndex endIndex : Z) (type : string),
    NoDup (ids doc) -> At doc rootCtx host -> isElement host = true ->
    highlightId <> "" ->
    selectorLiteral highlightId = true ->
    markupLiteral type = true ->
    (forall y, In y (descendants host) ->
       is_value (getAttributeOf y "data-word-id") highlightId = true ->
       isRemoved y = false /\ nodeNameOf y <> "BR") ->
    exists doc' result,
      highlightRange doc (nid host) text highlightId startIndex endIndex type
        = Returns (doc', result) /\
      (forall convertBRs,
         exists blockText,
           extractText doc (nid host) convertBRs = Some blockText /\
           extractText doc' (nid host) convertBRs = Some blockText) /\
      (exists blockText,
         extractText doc (nid host) false = Some blockText /\
         result = if String.eqb blockText "" then -1 else startIndex).
Proof.
  intros doc rootCtx host text highlightId startIndex endIndex type Hnd Hhost Hel Hid _ _ Hok.
  assert (Hfirst : exists doc1 host1,
             (if hasHighlight doc (nid host) highlightId
              then removeHighlight doc (nid host) highlightId else doc) = doc1 /\
             NoDup (ids doc1) /\ At doc1 rootCtx host1 /\ nid host1 = nid host /\
             isElement host1 = true /\
             (forall convertBRs, textOf convertBRs host1 = textOf convertBRs host) /\
             (forall y, In y (descendants host1) -> isTagged [highlightId] y = true ->
                isRemoved y = false /\ nodeNameOf y <> "BR")).
  { destruct (hasHighlight doc (nid host) highlightId).
    - destruct (removeHighlight_text doc rootCtx host highlightId Hnd Hhost Hok)
        as (T' & Hrun & Hnd' & Hnid & Hel' & Htext & Hnone).
      exists (rebuild rootCtx T'), T'. split; [assumption |]. split; [assumption |].
      split; [apply rebuild_At |]. split; [assumption |]. split; [congruence |].
      split; [assumption |]. intros y Hy Hty. rewrite (Hnone y Hy) in Hty. discriminate.
    - exists doc, host. split; [reflexivity |]. split; [assumption |]. split; [assumption |].
      split; [reflexivity |]. split; [assumption |]. split; [reflexivity |].
      intros y Hy Hty. rewrite isTagged_single in Hty. apply Hok; assumption. }
  destruct Hfirst as (doc1 & host1 & Hdoc1 & Hnd1 & Hhost1 & Hnid1 & Hel1 & Htext1 & Hok1).
  unfold highlightRange. rewrite Hdoc1. rewrite <- Hnid1.
  rewrite (extractText_textOf doc1 rootCtx host1 false Hnd1 Hhost1).
  rewrite Htext1.
  destruct (String.eqb (textOf false host) "") eqn:Hempty.
  - exists doc1, (-1). split; [reflexivity |]. split.
    + intro convertBRs. exists (textOf convertBRs host). rewrite Hnid1. split.
      * apply (extractText_textOf doc rootCtx host convertBRs Hnd Hhost).
      * rewrite <- Hnid1, <- Htext1.
        apply (extractText_textOf doc1 rootCtx host1 convertBRs Hnd1 Hhost1).
    + exists (textOf false host). rewrite Hnid1. split.
      * apply (extractText_textOf doc rootCtx host false Hnd Hhost).
      * rewrite Hempty. reflexivity.
  - set (m := mkExtendedMatch startIndex endIndex (substring text startIndex endIndex)
                (Some (createMarkerNode type)) (Some highlightId) None).
    assert (Hword : map wordIdOf [m] = [highlightId]).
    { simpl. unfold wordIdOf. simpl.
      destruct (String.eqb_spec highlightId "") as [Heq | _]; [contradiction | reflexivity]. }
    assert (Hmarkers : forall m', In m' [m] ->
              exists i name attrs cs, marker m' = Some (ElementNode i name attrs cs)).
    { intros m' [Hm | []]. subst m'. simpl. unfold createMarkerNode. repeat eexists. }
    assert (Hrun : forall convertBRs,
              exists highlighted host2,
                highlightMatches doc1 (nid host1) [m] false = Returns highlighted /\
                At highlighted rootCtx host2 /\ NoDup (ids highlighted) /\
                nid host2 = nid host1 /\
                textOf convertBRs host2 = textOf convertBRs host1).
    { intro convertBRs.
      destruct (highlightMatches_spec doc1 rootCtx host1 [m] false convertBRs
                  Hnd1 Hhost1 Hel1 Hmarkers)
        as (highlighted & host2 & Hrun & Hhost2 & Hnd2 & Hnid2 & _ & Htext2 & Hkept).
      rewrite Hword in Htext2, Hkept.
      exists highlighted, host2. split; [exact Hrun |]. split; [assumption |].
      split; [assumption |]. split; [assumption |].
      set (Q := fun y : Node =>
        isTagged [highlightId] y = true -> isRemoved y = false /\ nodeNameOf y <> "BR").
      assert (HQ : Forall Q (descendants host2)).
      { apply (Hkept Q).
        - split; [intros i d Hy; discriminate Hy |].
          intros i name attrs cs cs' H. exact H.
        - intros y (m' & i & name & attrs & scs & Hm & Hmarker & w & j & cs & Hw & Hy) _.
          destruct Hm as [Hm | []]. subst m'. simpl in Hmarker. unfold createMarkerNode in Hmarker.
          inversion Hmarker; subst. split; [| discriminate].
          reflexivity.
        - apply Forall_forall. intros y Hy Hty. apply Hok1; assumption. }
      rewrite <- (hostText_textOf [highlightId] convertBRs host2).
      - rewrite Htext2. apply hostText_textOf.
        intros y Hy Hty. destruct (Hok1 y Hy Hty) as (Hrem & Hbr). split; [assumption |].
        apply andb_false_iff. right. apply String.eqb_neq. assumption.
      - intros y Hy Hty. destruct (proj1 (Forall_forall Q _) HQ y Hy Hty) as (Hrem & Hbr).
        split; [assumption |]. apply andb_false_iff. right. apply String.eqb_neq. assumption. }
    destruct (Hrun false) as (highlighted & host2 & Hhl & _).
    fold m. rewrite Hhl. exists highlighted, startIndex. split; [reflexivity |]. split.
    + intro convertBRs. exists (textOf convertBRs host). rewrite Hnid1. split.
      * apply (extractText_textOf doc rootCtx host convertBRs Hnd Hhost).
      * destruct (Hrun convertBRs) as (highlighted' & host2' & Hhl' & Hhost2 & Hnd2 & Hnid2 & Htext2).
        rewrite Hhl in Hhl'. inversion Hhl'; subst highlighted'.
        rewrite <- Hnid1, <- Hnid2, <- Htext1, <- Htext2.
        apply (extractText_textOf highlighted rootCtx host2' convertBRs Hnd2 Hhost2).
    + exists (textOf false host). rewrite Hnid1. split.
      * apply (extractText_textOf doc rootCtx host false Hnd Hhost).
      * rewrite Hempty. reflexivity.
Qed.

Lemma highlightRange_keeps_text_witness :
  exists doc' result,
    highlightRange Examples.highlightedDoc (nid Examples.highlightedHost) "abc" "x" 0 2 "comment"
      = Returns (doc', result) /\
    (forall convertBRs,
       exists blockText,
         extractText Examples.highlightedDoc (nid Examples.highlightedHost) convertBRs
           = Some blockText /\
         extractText doc' (nid Examples.highlightedHost) convertBRs = Some blockText) /\
    (exists blockText,
       extractText Examples.highlightedDoc (nid Examples.highlightedHost) false
         = Some blockText /\
       result = if String.eqb blockText "" then -1 else 0).
Proof.
  apply (highlightRange_keeps_text Examples.highlightedDoc [Samples.documentFrame]
           Examples.highlightedHost "abc" "x" 0 2 "comment").
  - distinct_ids.
  - exact (At_child 0 "#document" [] [] Examples.highlightedHost [] []
             Examples.highlightedHost (At_here Examples.highlightedHost)).
  - reflexivity.
  - discriminate.
  - reflexivity.
  - reflexivity.
  - intros y Hy Hty. simpl in Hy.
    repeat (destruct Hy as [Hy | Hy];
            [subst y; first [discriminate Hty | split; [reflexivity | discriminate]] |]).
    destruct Hy.
Defined.

(** [highlightRange] creates the highlight.  Let the id be not empty
    and a string that the selector [[data-word-id="id"]] takes as it is
    (no quotation mark, backslash, line feed, form feed, carriage return
    or null character in it), and let the type be a string that the
    markup of the marker takes as it is (no quotation mark, ampersand,
    angle bracket, carriage return or null character in it).  For a range
    that is not empty and ends within the text of the host, when no
    element of the host that carries the id is a BR element or is marked
    [data-editable="remove"], the call returns the start index and
    [hasHighlight] then finds the id. *)
Theorem highlightRange_creates_highlight :
  forall (doc : Node) (rootCtx : Ctx) (host : Node) (text highlightId : string)
         (startIndex endIndex : Z) (type blockText : string),
    NoDup (ids doc) -> At doc rootCtx host -> isElement host = true ->
    highlightId <> "" ->
    selectorLiteral highlightId = true ->
    markupLiteral type = true ->
    (forall y, In y (descendants host) ->
       is_value (getAttributeOf y "data-word-id") highlightId = true ->
       isRemoved y = false /\ nodeNameOf y <> "BR") ->
    extractText doc (nid host) false = Some blockText ->
    startIndex < endIndex -> 0 < endIndex ->
    endIndex <= Z.of_nat (String.length blockText) ->
    exists doc',
      highlightRange doc (nid host) text highlightId startIndex endIndex type
        = Returns (doc', startIndex) /\
      hasHighlight doc' (nid host) highlightId = true.
Proof.
  intros doc rootCtx host text highlightId startIndex endIndex type blockText
         Hnd Hhost Hel Hid _ _ Hok Htext Hproper Hpos Hend.
  rewrite (extractText_textOf doc rootCtx host false Hnd Hhost) in Htext.
  inversion Htext; subst blockText.
  assert (Hfirst : exists doc1 host1,
             (if hasHighlight doc (nid host) highlightId
              then removeHighlight doc (nid host) highlightId else doc) = doc1 /\
             NoDup (ids doc1) /\ At doc1 rootCtx host1 /\ nid host1 = nid host /\
             isElement host1 = true /\
             textOf false host1 = textOf false host).
  { destruct (hasHighlight doc (nid host) highlightId).
    - destruct (removeHighlight_text doc rootCtx host highlightId Hnd Hhost Hok)
        as (T' & Hrun & Hnd' & Hnid & Hel' & Htext' & _).
      exists (rebuild rootCtx T'), T'. split; [assumption |]. split; [assumption |].
      split; [apply rebuild_At |]. split; [assumption |]. split; [congruence |].
      apply Htext'.
    - exists doc, host. repeat split; assumption. }
  destruct Hfirst as (doc1 & host1 & Hdoc1 & Hnd1 & Hhost1 & Hnid1 & Hel1 & Htext1).
  unfold highlightRange. rewrite Hdoc1. rewrite <- Hnid1.
  rewrite (extractText_textOf doc1 rootCtx host1 false Hnd1 Hhost1).
  rewrite Htext1.
  destruct (String.eqb_spec (textOf false host) "") as [Hempty | _].
  { rewrite Hempty in Hend. simpl in Hend. lia. }
  set (m := mkExtendedMatch startIndex endIndex (substring text startIndex endIndex)
              (Some (createMarkerNode type)) (Some highlightId) None).
  assert (Hword : wordIdOf m = highlightId).
  { unfold wordIdOf. simpl.
    destruct (String.eqb_spec highlightId "") as [Heq | _]; [contradiction | reflexivity]. }
  destruct (highlightMatches_wraps_first doc1 rootCtx host1 m [] Hnd1 Hhost1 Hel1)
    as (highlighted & host2 & y & Hrun & Hhost2 & Hnd2 & Hnid2 & Hy & Hely & Hattr).
  - intros m' [Hm | []]. subst m'. simpl. unfold createMarkerNode. repeat eexists.
  - assumption.
  - assumption.
  - rewrite Htext1. assumption.
  - rewrite Hrun. exists highlighted. split; [reflexivity |].
    rewrite <- Hnid2. rewrite Hword in Hattr.
    apply (hasHighlight_element highlighted rootCtx host2 y); assumption.
Qed.

Lemma highlightRange_creates_highlight_witness :
  exists doc',
    highlightRange Examples.highlightedDoc (nid Examples.highlightedHost) "abc" "x" 0 2 "comment"
      = Returns (doc', 0) /\
    hasHighlight doc' (nid Examples.highlightedHost) "x" = true.
Proof.
  apply (highlightRange_creates_highlight Examples.highlightedDoc [Samples.documentFrame]
           Examples.highlightedHost "abc" "x" 0 2 "comment" "abc").
  - distinct_ids.
  - exact (At_child 0 "#document" [] [] Examples.highlightedHost [] []
             Examples.highlightedHost (At_here Examples.highlightedHost)).
  - reflexivity.
  - discriminate.
  - reflexivity.
  - reflexivity.
  - intros y Hy Hty. simpl in Hy.
    repeat (destruct Hy as [Hy | Hy];
            [subst y; first [discriminate Hty | split; [reflexivity | discriminate]] |]).
    destruct Hy.
  - reflexivity.
  - lia.
  - lia.
  - simpl. lia.
Defined.

End HighlightRangeExtras.

(** ** The walk backwards *)

Section BackwardFacts.
Import Dom DomEdit NodeIterator NodeIteratorBack Walk.

Lemma mirror_nid : forall x, nid (mirror x) = nid x.
Proof. destruct x; reflexivity. Qed.

Lemma mirror_size : forall x, size (mirror x) = size x.
Proof.
  induction x as [i d | i name attrs cs IH] using Node_induction; [reflexivity |].
  simpl. f_equal. induction IH as [| ch cs Hch _ IHcs]; [reflexivity |].
  simpl. rewrite map_app, list_sum_app. simpl. rewrite Hch, IHcs. lia.
Qed.

Lemma mirror_ids : forall x, Permutation (ids (mirror x)) (ids x).
Proof.
  induction x as [i d | i name attrs cs IH] using Node_induction; [apply Permutation_refl |].
  simpl. apply perm_skip. induction IH as [| ch cs Hch _ IHcs]; [apply Permutation_refl |].
  simpl. rewrite flat_map_app. simpl. rewrite app_nil_r.
  apply (Permutation_trans (Permutation_app_comm _ _)).
  apply Permutation_app; assumption.
Qed.

Lemma mirror_NoDup : forall x, NoDup (ids x) -> NoDup (ids (mirror x)).
Proof.
  intros x H. apply (Permutation_NoDup (Permutation_sym (mirror_ids x)) H).
Qed.

Lemma At_mirror :
  forall x c s, At x c s -> At (mirror x) (map mirrorFrame c) (mirror s).
Proof.
  induction 1 as [x | i name attrs l1 ch l2 c s H IH]; [constructor |].
  simpl. rewrite map_app, rev_app_distr. simpl. rewrite <- app_assoc. simpl.
  rewrite map_app. simpl.
  exact (At_child i name attrs (rev (map mirror l2)) (mirror ch) (rev (map mirror l1))
           (map mirrorFrame c) (mirror s) IH).
Qed.

Lemma locate_mirror :
  forall doc n, NoDup (ids doc) ->
    locate (mirror doc) n =
    option_map (fun p => (map mirrorFrame (fst p), mirror (snd p))) (locate doc n).
Proof.
  intros doc n Hnd. destruct (locate doc n) as [[c s] |] eqn:Hloc.
  - unfold locate in Hloc. destruct (locate_at_sound _ _ _ _ _ Hloc) as (Hn & c' & Hc & Hat).
    rewrite app_nil_r in Hc. subst c'. simpl.
    rewrite <- Hn, <- (mirror_nid s).
    apply (locate_At (mirror doc) _ _ (mirror_NoDup doc Hnd) (At_mirror _ _ _ Hat)).
  - simpl. apply locate_at_absent. intro Hin.
    apply (Permutation_in _ (mirror_ids doc)) in Hin.
    destruct (ids_At doc n Hin) as (c & y & Hat & Hy).
    pose proof (locate_At doc c y Hnd Hat) as Hloc'. rewrite Hy, Hloc in Hloc'. discriminate.
Qed.

Lemma hd_error_map {A B : Type} (f : A -> B) :
  forall l, hd_error (map f l) = option_map f (hd_error l).
Proof. destruct l; reflexivity. Qed.

Section Mirrored.
Variable doc : Node.
Hypothesis distinct : NoDup (ids doc).

Lemma lookup_mirror : forall n, lookup (mirror doc) n = option_map mirror (lookup doc n).
Proof.
  intro n. unfold lookup. rewrite (locate_mirror doc n distinct).
  destruct (locate doc n) as [[c s] |]; reflexivity.
Qed.

Lemma parentNode_mirror : forall n, parentNode (mirror doc) n = parentNode doc n.
Proof.
  intro n. unfold parentNode. rewrite (locate_mirror doc n distinct).
  destruct (locate doc n) as [[[| f c] s] |]; reflexivity.
Qed.

Lemma nextSibling_mirror : forall n, nextSibling (mirror doc) n = previousSibling doc n.
Proof.
  intro n. unfold nextSibling, previousSibling. rewrite (locate_mirror doc n distinct).
  destruct (locate doc n) as [[[| f c] s] |]; simpl; try reflexivity.
  rewrite <- map_rev, hd_error_map.
  destruct (hd_error (rev (fbefore f))) as [y |]; simpl; [rewrite mirror_nid |]; reflexivity.
Qed.

Lemma firstChild_mirror : forall n, firstChild (mirror doc) n = lastChild doc n.
Proof.
  intro n. unfold firstChild, lastChild. rewrite lookup_mirror.
  destruct (lookup doc n) as [[i d | i name attrs cs] |]; simpl; try reflexivity.
  rewrite <- map_rev, hd_error_map.
  destruct (hd_error (rev cs)) as [y |]; simpl; [rewrite mirror_nid |]; reflexivity.
Qed.

Lemma getAttribute_mirror :
  forall n name, getAttribute (mirror doc) n name = getAttribute doc n name.
Proof.
  intros n name. unfold getAttribute. rewrite lookup_mirror.
  destruct (lookup doc n) as [[i d | i nm attrs cs] |]; reflexivity.
Qed.

Lemma isNonEmptyText_mirror :
  forall n, isNonEmptyText (mirror doc) n = isNonEmptyText doc n.
Proof.
  intro n. unfold isNonEmptyText, nodeType, data. rewrite lookup_mirror.
  destruct (lookup doc n) as [[i d | i nm attrs cs] |]; reflexivity.
Qed.

Lemma climb_mirror :
  forall fuel root n, climb fuel (mirror doc) root n = climbBack fuel doc root n.
Proof.
  induction fuel as [| fuel IH]; intros root n; [reflexivity |].
  simpl. rewrite nextSibling_mirror, parentNode_mirror.
  destruct (Nat.eqb n root); [reflexivity |].
  destruct (previousSibling doc n); [reflexivity |].
  destruct (parentNode doc n); [apply IH | reflexivity].
Qed.

(** [getPrevious] is [getNext] on the mirrored document. *)
Lemma getPrevious_mirror :
  forall it,
    getPrevious doc it =
    (turn (fst (getNext (mirror doc) (turn it))), snd (getNext (mirror doc) (turn it))).
Proof.
  intro it. unfold getPrevious, getNext. simpl.
  destruct (previous it) as [n |]; [| reflexivity].
  rewrite firstChild_mirror, getAttribute_mirror, mirror_size, climb_mirror.
  reflexivity.
Qed.

Lemma getPrevious_nth_mirror :
  forall j it, getPrevious_nth j doc it = getNext_nth j (mirror doc) (turn it).
Proof.
  induction j as [| j IH]; intro it; simpl; rewrite getPrevious_mirror;
    destruct (getNext (mirror doc) (turn it)) as [it' r]; simpl; [reflexivity |].
  rewrite IH. destruct it'; reflexivity.
Qed.

Lemma getPreviousTextNode_mirror :
  forall fuel it,
    getPreviousTextNode fuel doc it =
    option_map (fun p => (turn (fst p), snd p)) (getNextTextNode fuel (mirror doc) (turn it)).
Proof.
  induction fuel as [| fuel IH]; intro it; [reflexivity |].
  simpl. rewrite getPrevious_mirror.
  destruct (getNext (mirror doc) (turn it)) as [it' [r |]]; simpl; [| reflexivity].
  rewrite isNonEmptyText_mirror. destruct (isNonEmptyText doc r); [reflexivity |].
  rewrite IH. destruct it'; reflexivity.
Qed.

End Mirrored.

Lemma rev_flat_map {A B : Type} (f : A -> list B) :
  forall l, rev (flat_map f l) = flat_map (fun a => rev (f a)) (rev l).
Proof.
  induction l as [| a l IH]; [reflexivity |].
  simpl. rewrite rev_app_distr, IH, flat_map_app. simpl. rewrite app_nil_r. reflexivity.
Qed.

Lemma filter_flat_map {A B : Type} (p : B -> bool) (f : A -> list B) :
  forall l, filter p (flat_map f l) = flat_map (fun a => filter p (f a)) l.
Proof.
  induction l as [| a l IH]; [reflexivity |].
  simpl. rewrite filter_app, IH. reflexivity.
Qed.

Lemma filter_rev {A : Type} (p : A -> bool) :
  forall l, filter p (rev l) = rev (filter p l).
Proof.
  induction l as [| a l IH]; [reflexivity |].
  simpl. rewrite filter_app, IH. simpl. destruct (p a); simpl; [reflexivity |].
  rewrite app_nil_r. reflexivity.
Qed.

Lemma flat_map_ext_Forall {A B : Type} (f g : A -> list B) :
  forall l, Forall (fun a => f a = g a) l -> flat_map f l = flat_map g l.
Proof.
  induction 1 as [| a l Ha _ IH]; [reflexivity |]. simpl. rewrite Ha, IH. reflexivity.
Qed.

(** The text nodes of the mirrored tree are the text nodes of the tree
    in reverse order. *)
Lemma textNodes_mirror :
  forall x,
    filter isNonEmptyTextNode (visible (mirror x)) = rev (filter isNonEmptyTextNode (visible x)).
Proof.
  induction x as [i d | i name attrs cs IH] using Node_induction.
  - simpl. destruct (negb (String.eqb d "")); reflexivity.
  - simpl mirror. cbn [visible filter isNonEmptyTextNode].
    destruct (is_value (assoc "data-editable" attrs) "remove"); [reflexivity |].
    rewrite !filter_flat_map, rev_flat_map.
    rewrite <- map_rev, flat_map_map.
    apply flat_map_ext_Forall. apply Forall_rev. exact IH.
Qed.

Lemma find_afterFirst_nth :
  forall (p : Node -> bool) R j,
    nth_error (filter p R) (S j) = nth_error (filter p (afterFirst p R)) j.
Proof.
  intros p R j. rewrite (filter_find_afterFirst p R).
  destruct (find p R) as [x |] eqn:Hfind; [reflexivity |].
  assert (Hnone : filter p (afterFirst p R) = []).
  { clear j. induction R as [| y R IH]; [reflexivity |]. simpl in *.
    destruct (p y); [discriminate | apply IH; assumption]. }
  rewrite Hnone. destruct j; reflexivity.
Qed.

Lemma find_head_filter :
  forall (p : Node -> bool) R, find p R = hd_error (filter p R).
Proof.
  induction R as [| y R IH]; [reflexivity |]. simpl. destruct (p y); [reflexivity | exact IH].
Qed.

End BackwardFacts.

Section BackwardExtras.
Import Dom DomEdit NodeIterator NodeIteratorBack Element Walk.

(** A row of [getPreviousTextNode()] calls on a walk of the mirrored
    host. *)
Lemma getPreviousTextNode_nth_pending :
  forall doc rootCtx T, NoDup (ids doc) -> At doc rootCtx T ->
    forall j R it,
      root it = nid T -> Pending (mirror T) (previous it) R ->
      (List.length R <= size doc)%nat ->
      getPreviousTextNode_nth (S (size doc)) j doc it
      = Some (option_map nid (nth_error (filter isNonEmptyTextNode R) j)).
Proof.
  intros doc rootCtx T Hnd HT.
  pose proof (mirror_NoDup doc Hnd) as HndM.
  pose proof (At_mirror _ _ _ HT) as HTM.
  induction j as [| j IH]; intros R it Hroot HP Hlen; cbn [getPreviousTextNode_nth];
    rewrite (getPreviousTextNode_mirror doc Hnd);
    destruct (getNextTextNode_pending (mirror doc) HndM (map mirrorFrame rootCtx) (mirror T) HTM
                R (S (size doc)) (turn it))
      as (it' & Hget & Hroot' & HP');
    try (simpl; rewrite mirror_nid; assumption); try assumption; try lia;
    rewrite Hget; cbn [option_map fst snd].
  - rewrite find_head_filter. destruct (filter isNonEmptyTextNode R); reflexivity.
  - rewrite find_afterFirst_nth. apply IH.
    + simpl. rewrite mirror_nid in Hroot'. assumption.
    + assumption.
    + pose proof (afterFirst_length isNonEmptyTextNode R). lia.
Qed.

(** Walking backwards from a new iterator, [getPreviousTextNode()]
    returns the text nodes of [textNodesUnder] in reverse order, one per
    call, and [undefined] from then on. *)
Theorem getPreviousTextNode_reverse_order :
  forall (doc : Node) (rootCtx : Ctx) (host : Node),
    NoDup (ids doc) -> At doc rootCtx host ->
    exists textNodes,
      textNodesUnder doc (nid host) = Some textNodes /\
      forall j,
        getPreviousTextNode_nth (S (size doc)) j doc (NodeIterator.new (nid host))
        = Some (nth_error (rev textNodes) j).
Proof.
  intros doc rootCtx host Hnd Hhost.
  exists (map nid (textNodesOf host)).
  split; [apply (textNodesUnder_visible doc Hnd rootCtx host Hhost) |].
  intro j.
  rewrite (getPreviousTextNode_nth_pending doc rootCtx host Hnd Hhost j (visible (mirror host))).
  - rewrite textNodes_mirror. unfold textNodesOf. rewrite <- map_rev.
    rewrite nth_error_map. reflexivity.
  - reflexivity.
  - simpl. rewrite <- (mirror_nid host). apply Pending_new.
  - pose proof (visible_length (mirror host)). rewrite mirror_size in H.
    pose proof (At_size _ _ _ Hhost). lia.
Qed.

Lemma getPreviousTextNode_reverse_order_witness :
  exists textNodes,
    textNodesUnder Samples.twoLinesDoc (nid Samples.twoLinesHost) = Some textNodes /\
    forall j,
      getPreviousTextNode_nth (S (size Samples.twoLinesDoc)) j Samples.twoLinesDoc
        (NodeIterator.new (nid Samples.twoLinesHost))
      = Some (nth_error (rev textNodes) j).
Proof.
  apply (getPreviousTextNode_reverse_order Samples.twoLinesDoc [Samples.documentFrame]
           Samples.twoLinesHost).
  - distinct_ids.
  - exact (At_child 0 "#document" [] [] Samples.twoLinesHost [] [] Samples.twoLinesHost
             (At_here Samples.twoLinesHost)).
Defined.

(** Walking backwards is not the walk forwards in reverse: a row of
    [getPrevious()] calls on a new iterator returns the host first and
    every element before its children, the children from the last to the
    first, without the children of elements marked
    [data-editable="remove"]; then it returns [undefined]. *)
Theorem getPrevious_parents_first_children_last_to_first :
  forall (doc : Node) (rootCtx : Ctx) (host : Node) (j : nat),
    NoDup (ids doc) -> At doc rootCtx host ->
    getPrevious_nth j doc (NodeIterator.new (nid host))
    = option_map nid (nth_error (visible (mirror host)) j).
Proof.
  intros doc rootCtx host j Hnd Hhost.
  rewrite (getPrevious_nth_mirror doc Hnd).
  apply (getNext_nth_pending (mirror doc) (mirror_NoDup doc Hnd)
           (map mirrorFrame rootCtx) (mirror host) (At_mirror _ _ _ Hhost)).
  - simpl. symmetry. apply mirror_nid.
  - simpl. rewrite <- (mirror_nid host). apply Pending_new.
Qed.

Lemma getPrevious_parents_first_children_last_to_first_witness :
  getPrevious_nth 1 Samples.nestedDoc (NodeIterator.new (nid Samples.nestedHost))
  = option_map nid (nth_error (visible (mirror Samples.nestedHost)) 1).
Proof.
  apply (getPrevious_parents_first_children_last_to_first Samples.nestedDoc
           [Samples.documentFrame] Samples.nestedHost 1).
  - distinct_ids.
  - exact (At_child 0 "#document" [] [] Samples.nestedHost [] [] Samples.nestedHost
             (At_here Samples.nestedHost)).
Defined.

End BackwardExtras.

(** ** Saving and restoring a cursor *)

Section SaveFacts.
Import Dom DomEdit RangeSaveRestore RangeSave Walk Shape.

Lemma indexOf_At :
  forall doc f up x, NoDup (ids doc) -> At doc (f :: up) x ->
    indexOf doc (nid x) = Some (Z.of_nat (List.length (fbefore f))).
Proof.
  intros doc f up x Hnd H. unfold indexOf. rewrite (locate_At doc _ _ Hnd H). reflexivity.
Qed.

Lemma previousSibling_At :
  forall doc f up x, NoDup (ids doc) -> At doc (f :: up) x ->
    previousSibling doc (nid x) = option_map nid (hd_error (rev (fbefore f))).
Proof.
  intros doc f up x Hnd H. unfold previousSibling. rewrite (locate_At doc _ _ Hnd H).
  reflexivity.
Qed.

Lemma pathOf_At :
  forall doc c x, NoDup (ids doc) -> At doc c x ->
    pathOf doc (nid x) = Some (rev (map (fun f => Z.of_nat (List.length (fbefore f))) c)).
Proof.
  intros doc c x Hnd H. unfold pathOf. rewrite (locate_At doc _ _ Hnd H). reflexivity.
Qed.

Lemma nodeLength_text :
  forall doc c n d, NoDup (ids doc) -> At doc c (TextNode n d) ->
    nodeLength doc n = Some (Z.of_nat (String.length d)).
Proof.
  intros doc c n d Hnd H. unfold nodeLength.
  pose proof (lookup_At doc Hnd c (TextNode n d) H) as Hlook. simpl in Hlook.
  rewrite Hlook. reflexivity.
Qed.

Lemma length_takeStr :
  forall n s, (n <= String.length s)%nat -> String.length (takeStr n s) = n.
Proof.
  induction n as [| n IH]; intros [| a s] H; simpl in *; try reflexivity; try lia.
  rewrite IH; [reflexivity | lia].
Qed.

(** A point inside the document lies after the start of the document. *)
Lemma lexCompare_after_start :
  forall p o, p <> [] -> Forall (fun a => 0 <= a) p -> lexCompare (p ++ [o]) [0] = Gt.
Proof.
  intros [| a r] o Hp Hpos; [contradiction |]. inversion Hpos as [| ? ? Ha _]; subst.
  simpl. destruct (Z.compare_spec a 0) as [Heq | Hlt | Hgt]; [| lia | reflexivity].
  destruct r; reflexivity.
Qed.

Lemma setStart_from_createRange :
  forall doc c n d offset,
    NoDup (ids doc) -> At doc c (TextNode n d) -> c <> [] ->
    0 <= offset <= Z.of_nat (String.length d) ->
    setStart doc (createRange doc) n offset = Returns (mkRange n offset n offset).
Proof.
  intros doc c n d offset Hnd H Hc Hoff. unfold setStart.
  rewrite (nodeLength_text doc c n d Hnd H).
  destruct (Z.ltb_spec offset 0); [lia |].
  destruct (Z.ltb_spec (Z.of_nat (String.length d)) offset); [lia |]. simpl.
  unfold comparePoints, createRange. simpl.
  pose proof (pathOf_At doc c (TextNode n d) Hnd H) as Hpath. simpl in Hpath.
  rewrite Hpath. unfold pathOf. rewrite locate_top. simpl app.
  rewrite lexCompare_after_start; [reflexivity | |].
  - intro Hnil. apply Hc. destruct c; [reflexivity |]. simpl in Hnil.
    apply app_eq_nil in Hnil. destruct Hnil as (_ & Hnil). discriminate.
  - apply Forall_rev. apply Forall_forall. intros a Ha. apply in_map_iff in Ha.
    destruct Ha as (f & Hf & _). subst a. lia.
Qed.

Lemma normalizeBoundaries_collapsed :
  forall doc n offset,
    normalizeBoundaries doc (mkRange n offset n offset) = Returns (mkRange n offset n offset).
Proof.
  intros doc n offset.
  assert (Hsame : compareDocumentPosition doc n n = 0 \/ compareDocumentPosition doc n n = 35).
  { unfold compareDocumentPosition. destruct (pathOf doc n); [| right; reflexivity].
    rewrite Nat.eqb_refl. left. reflexivity. }
  unfold normalizeBoundaries. simpl.
  destruct Hsame as [H | H]; rewrite H; simpl; rewrite H; reflexivity.
Qed.

(** Replacing the children of the element at a position keeps a shallow
    property of the descendants that the new children have. *)
Lemma rebuild_shallow :
  forall (Q : Node -> Prop) c i name attrs l l',
    shallow Q ->
    Forall Q (descendants (rebuild c (ElementNode i name attrs l))) ->
    Forall Q (flat_map subtree l') ->
    Forall Q (descendants (rebuild c (ElementNode i name attrs l'))).
Proof.
  intros Q c. induction c as [| f up IH]; intros i name attrs l l' HQ H Hl'; [exact Hl' |].
  simpl rebuild in *. unfold parentOf in *.
  apply (IH _ _ _ (fbefore f ++ ElementNode i name attrs l :: fafter f) _ HQ H).
  assert (Hsub : Forall Q (flat_map subtree
                             (fbefore f ++ ElementNode i name attrs l :: fafter f))).
  { apply Forall_forall. intros y Hy. rewrite Forall_forall in H. apply H.
    assert (Hin : In y (descendants (ElementNode (fparent f) (fname f) (fattrs f)
                          (fbefore f ++ ElementNode i name attrs l :: fafter f)))) by exact Hy.
    destruct (descendants_At _ _ Hin) as (c' & Hat & Hc').
    apply (At_descendants _ (c' ++ up) y).
    - apply (At_trans _ _ _ (rebuild_At up _) _ _ Hat).
    - destruct c'; [contradiction | discriminate]. }
  rewrite flat_map_app in Hsub |- *. apply Forall_app in Hsub. destruct Hsub as (Hb & Ha).
  apply Forall_app. split; [assumption |].
  cbn [flat_map subtree descendants] in Ha |- *.
  inversion Ha as [| ? ? Hx Hrest]; subst.
  apply Forall_app in Hrest. destruct Hrest as (_ & Hafter).
  constructor; [apply (proj2 HQ i name attrs l l'); assumption |].
  apply Forall_app. split; assumption.
Qed.

End SaveFacts.

Section CursorSave.
Import Dom DomEdit RangeSaveRestore RangeSave HighlightText Walk Shape.

Variables (doc : Node) (rootCtx : Ctx) (host : Node).
Variables (f : Frame) (cup : Ctx) (t : nat) (d : string).
Variables (offset counter : Z).

Hypothesis distinct : NoDup (ids doc).
Hypothesis hostAt : At doc rootCtx host.
Hypothesis textAt : At host (f :: cup) (TextNode t d).
Hypothesis inside : 0 <= offset <= Z.of_nat (String.length d).

Local Abbreviation up := (cup ++ rootCtx).
Local Abbreviation m := (freshId doc).
Local Abbreviation k := (S (S (freshId doc))).
Local Abbreviation M := (createMarkerEl (freshId doc) (boundaryId (counter + 1))).
Local Abbreviation T1 := (TextNode t (takeStr (Z.to_nat offset) d)).
Local Abbreviation T2 := (TextNode (S (S (freshId doc))) (dropStr (Z.to_nat offset) d)).
Local Abbreviation E l := (ElementNode (fparent f) (fname f) (fattrs f) l).
Local Abbreviation cursor := (mkRange t offset t offset).

Lemma cursor_abs : At doc (f :: up) (TextNode t d).
Proof. exact (At_trans _ _ _ hostAt _ _ textAt). Qed.

Lemma cursor_not_parent : t <> fparent f.
Proof.
  intro Heq.
  apply (At_ctx_disjoint doc (f :: up) (TextNode t d) t cursor_abs distinct (or_introl eq_refl)).
  simpl. left. symmetry. assumption.
Qed.

Lemma cursor_not_top : t <> nid doc.
Proof.
  apply (At_proper_nid doc (f :: up) (TextNode t d) cursor_abs); [discriminate | assumption].
Qed.

Lemma split_doc :
  substNode t (fun _ => [T1; T2]) doc = rebuild up (E (fbefore f ++ [T1; T2] ++ fafter f)).
Proof. exact (substNode_focus doc f up (TextNode t d) _ cursor_abs distinct). Qed.

Lemma fresh_not_in : forall j, (m <= j)%nat -> ~ In j (ids doc).
Proof. intros j Hj Hin. pose proof (freshId_above doc j Hin). lia. Qed.

Lemma split_NoDup : NoDup (ids (rebuild up (E (fbefore f ++ [T1; T2] ++ fafter f)))).
Proof.
  apply (replaced_NoDup doc f up (TextNode t d) _ cursor_abs distinct).
  - simpl. constructor; [| constructor; [intros [] | constructor]].
    intros [Heq | []]. apply (fresh_not_in k); [lia |]. rewrite Heq.
    apply (At_ids _ _ _ cursor_abs). left. reflexivity.
  - intros j Hj. simpl in Hj. destruct Hj as [Hj | [Hj | []]].
    + left. left. assumption.
    + right. apply fresh_not_in. lia.
Qed.

Lemma split_ids :
  forall j, In j (ids (rebuild up (E (fbefore f ++ [T1; T2] ++ fafter f)))) ->
    In j (ids doc) \/ j = k.
Proof.
  intros j Hj.
  pose proof (ids_replaced doc f up (TextNode t d) [T1; T2] cursor_abs) as Hperm.
  assert (Hin : In j (flat_map ids [T1; T2] ++ ids doc)).
  { apply (Permutation_in _ Hperm). apply in_or_app. right. assumption. }
  apply in_app_or in Hin. destruct Hin as [Hin | Hin]; [| left; assumption].
  simpl in Hin. destruct Hin as [Hin | [Hin | []]].
  - left. subst j. apply (At_ids _ _ _ cursor_abs). left. reflexivity.
  - right. symmetry. assumption.
Qed.

Lemma split_second :
  At (rebuild up (E (fbefore f ++ [T1; T2] ++ fafter f)))
     (mkFrame (fparent f) (fname f) (fattrs f) (fbefore f ++ [T1]) (fafter f) :: up) T2.
Proof.
  assert (Heq : rebuild up (E (fbefore f ++ [T1; T2] ++ fafter f))
                = rebuild (mkFrame (fparent f) (fname f) (fattrs f) (fbefore f ++ [T1])
                             (fafter f) :: up) T2).
  { simpl. unfold parentOf. simpl. rewrite <- app_assoc. reflexivity. }
  rewrite Heq. apply rebuild_At.
Qed.

Lemma marked_doc :
  substNode k (fun r => [M; r]) (rebuild up (E (fbefore f ++ [T1; T2] ++ fafter f)))
  = rebuild up (E ((fbefore f ++ [T1]) ++ [M; T2] ++ fafter f)).
Proof.
  exact (substNode_focus _ _ up T2 (fun r => [M; r]) split_second split_NoDup).
Qed.

Lemma marked_NoDup : NoDup (ids (rebuild up (E ((fbefore f ++ [T1]) ++ [M; T2] ++ fafter f)))).
Proof.
  apply (replaced_NoDup _ _ up T2 [M; T2] split_second split_NoDup).
  - simpl. repeat (constructor; [simpl; intuition lia |]). constructor.
  - intros j Hj. simpl in Hj. destruct Hj as [Hj | [Hj | [Hj | []]]].
    + right. intro Hin. destruct (split_ids j Hin) as [H | H]; [| lia].
      apply (fresh_not_in j); [lia | assumption].
    + right. intro Hin. destruct (split_ids j Hin) as [H | H]; [| lia].
      apply (fresh_not_in j); [lia | assumption].
    + left. left. assumption.
Qed.

Lemma marked_marker :
  At (rebuild up (E ((fbefore f ++ [T1]) ++ [M; T2] ++ fafter f)))
     (mkFrame (fparent f) (fname f) (fattrs f) (fbefore f ++ [T1]) (T2 :: fafter f) :: up) M.
Proof.
  exact (rebuild_At (mkFrame (fparent f) (fname f) (fattrs f) (fbefore f ++ [T1])
                       (T2 :: fafter f) :: up) M).
Qed.

Lemma marked_first :
  At (rebuild up (E ((fbefore f ++ [T1]) ++ [M; T2] ++ fafter f)))
     (mkFrame (fparent f) (fname f) (fattrs f) (fbefore f) (M :: T2 :: fafter f) :: up) T1.
Proof.
  assert (Heq : rebuild up (E ((fbefore f ++ [T1]) ++ [M; T2] ++ fafter f))
                = rebuild (mkFrame (fparent f) (fname f) (fattrs f) (fbefore f)
                             (M :: T2 :: fafter f) :: up) T1).
  { simpl. unfold parentOf. simpl. rewrite <- app_assoc. reflexivity. }
  rewrite Heq. apply rebuild_At.
Qed.

Lemma restored_doc :
  removeFrom m (rebuild up (E ((fbefore f ++ [T1]) ++ [M; T2] ++ fafter f)))
  = rebuild up (E (fbefore f ++ T1 :: T2 :: fafter f)).
Proof.
  unfold removeFrom.
  etransitivity;
    [exact (substNode_focus _ _ up M (fun _ => []) marked_marker marked_NoDup) |].
  simpl. rewrite <- app_assoc. reflexivity.
Qed.

Lemma restored_NoDup : NoDup (ids (rebuild up (E (fbefore f ++ T1 :: T2 :: fafter f)))).
Proof.
  pose proof (replaced_NoDup _ _ up M [] marked_marker marked_NoDup (NoDup_nil _)) as H.
  cbn [fparent fname fattrs fbefore fafter app] in H.
  replace (fbefore f ++ T1 :: T2 :: fafter f) with ((fbefore f ++ [T1]) ++ T2 :: fafter f)
    by (rewrite <- app_assoc; reflexivity).
  apply H. intros j [].
Qed.

Lemma restored_first :
  At (rebuild up (E (fbefore f ++ T1 :: T2 :: fafter f)))
     (mkFrame (fparent f) (fname f) (fattrs f) (fbefore f) (T2 :: fafter f) :: up) T1.
Proof.
  exact (rebuild_At (mkFrame (fparent f) (fname f) (fattrs f) (fbefore f)
                       (T2 :: fafter f) :: up) T1).
Qed.

Local Abbreviation docS := (rebuild up (E (fbefore f ++ [T1; T2] ++ fafter f))).
Local Abbreviation doc1 := (rebuild up (E ((fbefore f ++ [T1]) ++ [M; T2] ++ fafter f))).
Local Abbreviation doc2 := (rebuild up (E (fbefore f ++ T1 :: T2 :: fafter f))).
Local Abbreviation index := (Z.of_nat (List.length (fbefore f ++ [T1]))).

Lemma commonAncestorContainer_cursor : commonAncestorContainer doc cursor = t.
Proof.
  unfold commonAncestorContainer, inclusiveAncestors. simpl.
  pose proof (locate_At doc _ _ distinct cursor_abs) as Hloc. simpl in Hloc. rewrite Hloc.
  simpl. unfold isInclusiveDescendant.
  pose proof (lookup_At doc distinct _ _ cursor_abs) as Hlook. simpl in Hlook. rewrite Hlook.
  simpl. rewrite Nat.eqb_refl. reflexivity.
Qed.

Lemma insertNode_cursor :
  insertNode doc cursor t offset M k = Returns (doc1, cursor).
Proof.
  pose proof (lookup_At doc distinct _ _ cursor_abs) as Hlook. simpl in Hlook.
  pose proof (parentNode_At doc distinct _ _ cursor_abs) as Hparent. simpl in Hparent.
  pose proof (indexOf_At doc f up _ distinct cursor_abs) as Hindex. simpl in Hindex.
  pose proof cursor_not_parent as Hne. apply Nat.eqb_neq in Hne.
  unfold insertNode. rewrite Hlook, Hparent.
  unfold splitText. rewrite Hlook, Hparent, Hindex.
  destruct (Z.ltb_spec offset 0); [lia |].
  destruct (Z.ltb_spec (Z.of_nat (String.length d)) offset); [lia |].
  cbn [orb bind fst snd].
  unfold splitPoint. cbn [startContainer startOffset endContainer endOffset].
  rewrite Nat.eqb_refl, Z.ltb_irrefl, Hne. cbn [andb fst snd].
  rewrite split_doc.
  pose proof (parentNode_At docS split_NoDup _ _ split_second) as Hparent2.
  pose proof (indexOf_At docS _ up _ split_NoDup split_second) as Hindex2.
  cbn [nid fparent fbefore fafter] in Hparent2, Hindex2.
  unfold insertBefore. rewrite Hparent2, Hindex2. rewrite Nat.eqb_refl.
  unfold shiftPoint. cbn [startContainer startOffset endContainer endOffset].
  rewrite Hne. cbn [andb fst snd].
  rewrite marked_doc. reflexivity.
Qed.

Lemma insertRangeBoundaryMarker_cursor :
  insertRangeBoundaryMarker (mkState doc cursor counter) false
  = Returns (mkState doc1 cursor (counter + 1), m).
Proof.
  unfold insertRangeBoundaryMarker. cbn [document liveRange boundaryMarkerId].
  rewrite commonAncestorContainer_cursor.
  pose proof cursor_not_top as Hne. apply Nat.eqb_neq in Hne. rewrite Hne.
  assert (Hsecond : isSecondChildOfCommonAncestor doc cursor t = false).
  { unfold isSecondChildOfCommonAncestor. rewrite commonAncestorContainer_cursor.
    pose proof (nodeType_At doc distinct _ _ cursor_abs) as Htype. simpl in Htype.
    rewrite Htype. reflexivity. }
  cbn [andb negb startContainer startOffset endContainer endOffset].
  rewrite Hsecond. rewrite insertNode_cursor. reflexivity.
Qed.

Lemma save_cursor :
  save (mkState doc cursor counter)
  = Returns (mkState doc1 (mkRange (fparent f) index (fparent f) index) (counter + 1),
             mkRangeInfo (Some (boundaryId (counter + 1))) None None true false).
Proof.
  unfold save. cbn [liveRange]. unfold isCollapsed at 1.
  cbn [startContainer startOffset endContainer endOffset].
  rewrite Nat.eqb_refl, Z.eqb_refl. cbn [andb].
  rewrite insertRangeBoundaryMarker_cursor. cbn [bind document liveRange boundaryMarkerId].
  unfold isCollapsed. cbn [startContainer startOffset endContainer endOffset].
  rewrite Nat.eqb_refl, Z.eqb_refl. cbn [andb].
  pose proof (parentNode_At doc1 marked_NoDup _ _ marked_marker) as Hparent.
  pose proof (indexOf_At doc1 _ up _ marked_NoDup marked_marker) as Hindex.
  cbn [nid fparent fbefore fafter createMarkerEl] in Hparent, Hindex.
  unfold setStartBefore. rewrite Hparent, Hindex.
  assert (Hparent_at : At doc1 up (E ((fbefore f ++ [T1]) ++ [M; T2] ++ fafter f)))
    by apply rebuild_At.
  pose proof (lookup_At doc1 marked_NoDup _ _ Hparent_at) as Hlook. cbn [nid] in Hlook.
  unfold setStart, nodeLength. rewrite Hlook.
  destruct (Z.ltb_spec index 0); [lia |].
  destruct (Z.ltb_spec
              (Z.of_nat (List.length ((fbefore f ++ [T1]) ++ [M; T2] ++ fafter f))) index)
    as [Hlt | _]; [rewrite !length_app in Hlt; simpl in Hlt; lia |].
  cbn [orb startContainer startOffset endContainer endOffset].
  destruct (comparePoints doc1 (fparent f) index t offset) as [[| |] |]; reflexivity.
Qed.

Hypothesis noMarker :
  forall y, In y (descendants host) ->
    getAttributeOf y "id" <> Some (boundaryId (counter + 1)).

Local Abbreviation host1 := (rebuild cup (E ((fbefore f ++ [T1]) ++ [M; T2] ++ fafter f))).
Local Abbreviation host2 := (rebuild cup (E (fbefore f ++ T1 :: T2 :: fafter f))).

Lemma host_shape : host = rebuild cup (E (fbefore f ++ TextNode t d :: fafter f)).
Proof. symmetry. exact (At_rebuild _ _ _ textAt). Qed.

Lemma marked_host : At doc1 rootCtx host1 /\ nid host1 = nid host.
Proof.
  split.
  - rewrite rebuild_app. apply rebuild_At.
  - rewrite host_shape. apply nid_rebuild_same. reflexivity.
Qed.

Lemma restored_host : At doc2 rootCtx host2 /\ nid host2 = nid host.
Proof.
  split.
  - rewrite rebuild_app. apply rebuild_At.
  - rewrite host_shape. apply nid_rebuild_same. reflexivity.
Qed.

Lemma top_unchanged : nid doc1 = nid doc /\ nid doc2 = nid doc.
Proof.
  rewrite <- (At_rebuild _ _ _ cursor_abs). simpl rebuild. unfold parentOf.
  split; apply nid_rebuild_same; reflexivity.
Qed.

Lemma getMarker_cursor : getMarker doc1 (nid host) (boundaryId (counter + 1)) = Some m.
Proof.
  destruct marked_host as (Hat & Hnid).
  unfold getMarker. rewrite <- Hnid. rewrite (lookup_At doc1 marked_NoDup _ _ Hat).
  set (p := fun x : Node =>
              isElement x && is_value (getAttributeOf x "id") (boundaryId (counter + 1))).
  set (Q := fun y : Node => p y = true -> nid y = m).
  assert (HQ : shallow Q).
  { split; [intros i s H; discriminate H |]. intros i name attrs cs cs' H. exact H. }
  assert (Hold : Forall Q (descendants host)).
  { apply Forall_forall. intros y Hy Hp. exfalso. apply (noMarker y Hy).
    unfold p in Hp. apply andb_prop in Hp. destruct Hp as (_ & Hv).
    destruct (getAttributeOf y "id") as [v |]; [| discriminate].
    simpl in Hv. apply String.eqb_eq in Hv. rewrite Hv. reflexivity. }
  assert (Hnew : Forall Q (descendants host1)).
  { rewrite host_shape in Hold.
    apply (rebuild_shallow Q cup _ _ _ _ _ HQ Hold).
    assert (Hsub : Forall Q (flat_map subtree (fbefore f ++ TextNode t d :: fafter f))).
    { apply Forall_forall. intros y Hy. rewrite Forall_forall in Hold. apply Hold.
      assert (Hin : In y (descendants (E (fbefore f ++ TextNode t d :: fafter f)))) by exact Hy.
      destruct (descendants_At _ _ Hin) as (c' & Hc' & Hne).
      apply (At_descendants _ (c' ++ cup) y).
      - apply (At_trans _ _ _ (rebuild_At cup _) _ _ Hc').
      - destruct c'; [contradiction | discriminate]. }
    rewrite flat_map_app in Hsub. apply Forall_app in Hsub. destruct Hsub as (Hb & Ha).
    cbn [flat_map subtree descendants app] in Ha. inversion Ha as [| ? ? _ Hafter]; subst.
    rewrite !flat_map_app. apply Forall_app. split; [apply Forall_app; split |].
    - assumption.
    - cbn [flat_map subtree descendants app]. constructor; [apply (proj1 HQ) | constructor].
    - cbn [flat_map subtree descendants app createMarkerEl].
      constructor; [intros _; reflexivity |].
      constructor; [apply (proj1 HQ) |].
      constructor; [apply (proj1 HQ) | assumption]. }
  assert (Hin : In M (descendants host1)).
  { apply (At_descendants _ (mkFrame (fparent f) (fname f) (fattrs f) (fbefore f ++ [T1])
                               (T2 :: fafter f) :: cup) M); [| discriminate].
    exact (rebuild_At (mkFrame (fparent f) (fname f) (fattrs f) (fbefore f ++ [T1])
                         (T2 :: fafter f) :: cup) M). }
  destruct (find p (descendants host1)) as [y |] eqn:Hfind.
  - apply find_some in Hfind. destruct Hfind as (Hy & Hp).
    rewrite Forall_forall in Hnew. simpl. f_equal. apply (Hnew y Hy Hp).
  - exfalso. pose proof (find_none _ _ Hfind M Hin) as Hp.
    unfold p in Hp. simpl in Hp. rewrite String.eqb_refl in Hp. discriminate.
Qed.

Lemma boundaryId_not_empty : forall n, String.eqb (boundaryId n) "" = false.
Proof. intro n. reflexivity. Qed.

Lemma restore_cursor :
  restore doc1 (nid host)
    (mkRangeInfo (Some (boundaryId (counter + 1))) None None true false)
  = Returns (doc2, Some cursor).
Proof.
  destruct top_unchanged as (Htop1 & Htop2).
  unfold restore. cbn [restored collapsed RangeSaveRestore.markerId truthyId].
  rewrite boundaryId_not_empty. rewrite getMarker_cursor.
  assert (Hprev : previousSibling doc1 m = Some t).
  { etransitivity; [exact (previousSibling_At doc1 _ up _ marked_NoDup marked_marker) |].
    cbn [fbefore]. rewrite rev_app_distr. reflexivity. }
  rewrite Hprev.
  assert (Htype : nodeType doc1 t = Some 3).
  { exact (nodeType_At doc1 marked_NoDup _ _ marked_first). }
  rewrite Htype. change (3 =? textNode) with true. cbv iota.
  assert (Hparent : parentNode doc1 m = Some (fparent f)).
  { exact (parentNode_At doc1 marked_NoDup _ _ marked_marker). }
  assert (Hindex : indexOf doc1 m = Some index).
  { exact (indexOf_At doc1 _ up _ marked_NoDup marked_marker). }
  assert (Hlook : lookup doc1 m = Some M).
  { exact (lookup_At doc1 marked_NoDup _ _ marked_marker). }
  unfold remove. rewrite Hparent, Hindex.
  assert (Hpoint : adjustPoint doc1 m (fparent f) index (nid doc1) 0 = (nid doc1, 0)).
  { unfold adjustPoint, isInclusiveDescendant. rewrite Hlook, Htop1.
    cbn [ids createMarkerEl flat_map app existsb].
    pose proof (freshId_above doc (nid doc) (nid_in_ids doc)) as Hlt.
    destruct (Nat.eqb_spec (nid doc) m); [lia |].
    destruct (Nat.eqb_spec (nid doc) (S m)); [lia |].
    cbn [orb]. destruct (Z.ltb_spec index 0); [lia |].
    rewrite andb_false_r. reflexivity. }
  unfold createRange.
  cbn [startContainer startOffset endContainer endOffset]. rewrite Hpoint. cbn [fst snd].
  rewrite restored_doc.
  rewrite (nodeLength_text doc2 _ t _ restored_NoDup restored_first).
  cbn [bind].
  assert (Hlen : Z.of_nat (String.length (takeStr (Z.to_nat offset) d)) = offset).
  { rewrite length_takeStr; lia. }
  rewrite Hlen. rewrite Htop1, <- Htop2.
  change (mkRange (nid doc2) 0 (nid doc2) 0) with (createRange doc2).
  rewrite (setStart_from_createRange doc2 _ t _ offset restored_NoDup restored_first);
    [| discriminate | rewrite Hlen; lia].
  cbn [bind fst snd]. rewrite normalizeBoundaries_collapsed. reflexivity.
Qed.

Lemma restored_text :
  forall convertBRs, textOf convertBRs host2 = textOf convertBRs host.
Proof.
  intro convertBRs. rewrite <- !hostText_nil. rewrite host_shape.
  apply (rebuild_text [] convertBRs cup).
  - apply text_of_children. rewrite !map_app, !concatAll_app. f_equal.
    simpl. rewrite <- append_assoc. rewrite takeStr_dropStr. reflexivity.
  - apply text_of_children. rewrite !map_app, !concatAll_app. f_equal.
    simpl. rewrite <- append_assoc. rewrite takeStr_dropStr. reflexivity.
Qed.

Lemma restored_no_marker : getMarker doc2 (nid host) (boundaryId (counter + 1)) = None.
Proof.
  destruct restored_host as (Hat & Hnid).
  unfold getMarker. rewrite <- Hnid. rewrite (lookup_At doc2 restored_NoDup _ _ Hat).
  set (p := fun x : Node =>
              isElement x && is_value (getAttributeOf x "id") (boundaryId (counter + 1))).
  set (Q := fun y : Node => p y = false).
  assert (HQ : shallow Q).
  { split; [intros i s; reflexivity |]. intros i name attrs cs cs' H. exact H. }
  assert (Hold : Forall Q (descendants host)).
  { apply Forall_forall. intros y Hy. unfold Q, p.
    destruct (isElement y); [| reflexivity]. simpl.
    pose proof (noMarker y Hy) as Hno.
    destruct (getAttributeOf y "id") as [v |]; [| reflexivity].
    simpl. apply String.eqb_neq. intro Hv. apply Hno. rewrite Hv. reflexivity. }
  assert (Hnew : Forall Q (descendants host2)).
  { rewrite host_shape in Hold.
    apply (rebuild_shallow Q cup _ _ _ _ _ HQ Hold).
    assert (Hsub : Forall Q (flat_map subtree (fbefore f ++ TextNode t d :: fafter f))).
    { apply Forall_forall. intros y Hy. rewrite Forall_forall in Hold. apply Hold.
      assert (Hin : In y (descendants (E (fbefore f ++ TextNode t d :: fafter f)))) by exact Hy.
      destruct (descendants_At _ _ Hin) as (c' & Hc' & Hne).
      apply (At_descendants _ (c' ++ cup) y).
      - apply (At_trans _ _ _ (rebuild_At cup _) _ _ Hc').
      - destruct c'; [contradiction | discriminate]. }
    rewrite flat_map_app in Hsub. apply Forall_app in Hsub. destruct Hsub as (Hb & Ha).
    cbn [flat_map subtree descendants app] in Ha. inversion Ha as [| ? ? _ Hafter]; subst.
    rewrite flat_map_app. apply Forall_app. split; [assumption |].
    cbn [flat_map subtree descendants app].
    constructor; [reflexivity |]. constructor; [reflexivity | assumption]. }
  destruct (find p (descendants host2)) as [y |] eqn:Hfind; [| reflexivity].
  apply find_some in Hfind. destruct Hfind as (Hy & Hp).
  rewrite Forall_forall in Hnew. rewrite (Hnew y Hy) in Hp. discriminate.
Qed.

Lemma restored_data : data doc2 t = Some (takeStr (Z.to_nat offset) d).
Proof. exact (data_At doc2 restored_NoDup _ _ restored_first). Qed.

End CursorSave.

Section SaveExtras.
Import Dom DomEdit RangeSaveRestore RangeSave HighlightText Walk.

(** Saving a cursor that is in a text node of the host and restoring it
    gives the cursor back.  [save] splits the text node at the cursor and
    puts the marker between the halves; [restore] finds the marker,
    removes it, and returns the collapsed range at the same text node and
    offset.  The text of the host is then what it was, no element with the
    id of the marker is left, and the text node is still split: it holds
    the text in front of the cursor.  The id of the marker must not be the
    id of an element of the host already. *)
Theorem save_then_restore_returns_cursor :
  forall (doc : Node) (rootCtx : Ctx) (host : Node) (f : Frame) (cup : Ctx)
         (t : nat) (d : string) (offset counter : Z),
    NoDup (ids doc) -> At doc rootCtx host -> At host (f :: cup) (TextNode t d) ->
    0 <= offset <= Z.of_nat (String.length d) ->
    (forall y, In y (descendants host) ->
       getAttributeOf y "id" <> Some (boundaryId (counter + 1))) ->
    exists saved rangeInfo restored,
      save (mkState doc (mkRange t offset t offset) counter) = Returns (saved, rangeInfo) /\
      boundaryMarkerId saved = counter + 1 /\
      RangeSaveRestore.markerId rangeInfo = Some (boundaryId (counter + 1)) /\
      restore (document saved) (nid host) rangeInfo
        = Returns (restored, Some (mkRange t offset t offset)) /\
      getMarker restored (nid host) (boundaryId (counter + 1)) = None /\
      data restored t = Some (takeStr (Z.to_nat offset) d) /\
      forall convertBRs,
        exists text,
          extractText doc (nid host) convertBRs = Some text /\
          extractText restored (nid host) convertBRs = Some text.
Proof.
  intros doc rootCtx host f cup t d offset counter Hnd Hhost Htext Hoff Hno.
  eexists. eexists. eexists.
  split; [exact (save_cursor doc rootCtx host f cup t d offset counter Hnd Hhost Htext Hoff) |].
  split; [reflexivity |]. split; [reflexivity |].
  split; [apply restore_cursor; assumption |].
  split; [apply restored_no_marker; assumption |].
  split; [apply (restored_data doc rootCtx host f cup); assumption |].
  intro convertBRs. exists (textOf convertBRs host).
  split; [apply (extractText_textOf doc rootCtx host convertBRs Hnd Hhost) |].
  assert (Hhost2 : At (rebuild (cup ++ rootCtx)
                         (ElementNode (fparent f) (fname f) (fattrs f)
                            (fbefore f ++ TextNode t (takeStr (Z.to_nat offset) d)
                               :: TextNode (S (S (freshId doc))) (dropStr (Z.to_nat offset) d)
                               :: fafter f)))
                      rootCtx
                      (rebuild cup
                         (ElementNode (fparent f) (fname f) (fattrs f)
                            (fbefore f ++ TextNode t (takeStr (Z.to_nat offset) d)
                               :: TextNode (S (S (freshId doc))) (dropStr (Z.to_nat offset) d)
                               :: fafter f))) /\
                   nid (rebuild cup
                         (ElementNode (fparent f) (fname f) (fattrs f)
                            (fbefore f ++ TextNode t (takeStr (Z.to_nat offset) d)
                               :: TextNode (S (S (freshId doc))) (dropStr (Z.to_nat offset) d)
                               :: fafter f))) = nid host).
  { apply (restored_host doc rootCtx host f cup t d offset); assumption. }
  destruct Hhost2 as (Hat & Hnid).
  rewrite <- Hnid.
  rewrite <- (restored_text doc host f cup t d offset Htext convertBRs).
  apply (extractText_textOf _ rootCtx _ convertBRs); [| exact Hat].
  apply (restored_NoDup doc rootCtx host f cup t d offset counter); assumption.
Qed.

Lemma save_then_restore_returns_cursor_witness :
  exists saved rangeInfo restored,
    save (mkState Samples.abcDoc (mkRange 2 2 2 2) 0) = Returns (saved, rangeInfo) /\
    boundaryMarkerId saved = 0 + 1 /\
    RangeSaveRestore.markerId rangeInfo = Some (boundaryId (0 + 1)) /\
    restore (document saved) (nid Samples.abcHost) rangeInfo
      = Returns (restored, Some (mkRange 2 2 2 2)) /\
    getMarker restored (nid Samples.abcHost) (boundaryId (0 + 1)) = None /\
    data restored 2 = Some (takeStr (Z.to_nat 2) "abc") /\
    forall convertBRs,
      exists text,
        extractText Samples.abcDoc (nid Samples.abcHost) convertBRs = Some text /\
        extractText restored (nid Samples.abcHost) convertBRs = Some text.
Proof.
  apply (save_then_restore_returns_cursor Samples.abcDoc [Samples.documentFrame] Samples.abcHost
           (mkFrame 1 "DIV" [] [] []) [] 2 "abc" 2 0).
  - distinct_ids.
  - exact (At_child 0 "#document" [] [] Samples.abcHost [] [] Samples.abcHost
             (At_here Samples.abcHost)).
  - exact (At_child 1 "DIV" [] [] (TextNode 2 "abc") [] [] (TextNode 2 "abc")
             (At_here (TextNode 2 "abc"))).
  - simpl. lia.
  - intros y Hy. simpl in Hy. destruct Hy as [Hy | []]. subst y. discriminate.
Defined.

End SaveExtras.

(** ** Stale markers *)

Section CleanupFacts.
Import Dom DomEdit RangeSaveRestore HighlightText Element Walk MarkerCleanup.

Lemma append_empty : forall a b : string, (a ++ b)%string = "" -> a = "" /\ b = "".
Proof. intros [| c a] b H; [split; [reflexivity | exact H] | discriminate H]. Qed.

Lemma concatAll_empty :
  forall l, concatAll l = "" -> Forall (fun s => s = "") l.
Proof.
  induction l as [| s l IH]; intro H; [constructor |].
  simpl in H. apply append_empty in H. destruct H as (Hs & Hl).
  constructor; [assumption | apply IH; assumption].
Qed.

Lemma concatAll_all_empty :
  forall l, Forall (fun s => s = "") l -> concatAll l = "".
Proof.
  induction 1 as [| s l Hs _ IH]; [reflexivity |]. simpl. rewrite Hs, IH. reflexivity.
Qed.

(** A node without text content has no extracted text when line breaks
    are not converted. *)
Lemma textOf_empty :
  forall x, textContentOf x = "" -> textOf false x = "".
Proof.
  induction x as [i d | i name attrs cs IH] using Node_induction; intro H; [exact H |].
  simpl in H |- *. destruct (is_value (assoc "data-editable" attrs) "remove"); [reflexivity |].
  apply concatAll_all_empty. apply concatAll_empty in H.
  rewrite Forall_map in H |- *. rewrite Forall_forall in IH, H |- *.
  intros ch Hch. apply IH; [assumption | apply H; assumption].
Qed.

Lemma flat_map_flat_map {A B C : Type} (f : B -> list C) (g : A -> list B) :
  forall l, flat_map f (flat_map g l) = flat_map (fun a => flat_map f (g a)) l.
Proof.
  induction l as [| a l IH]; [reflexivity |]. simpl. rewrite flat_map_app, IH. reflexivity.
Qed.

Lemma thinned_refl : forall y, thinned y y.
Proof. intro y. repeat split; try reflexivity. apply incl_refl. Qed.

Lemma thinned_trans : forall x y z, thinned x y -> thinned y z -> thinned x z.
Proof.
  intros x y z (H1 & H2 & H3 & H4 & H5 & H6) (K1 & K2 & K3 & K4 & K5 & K6).
  repeat split; try congruence. apply (incl_tran K6 H6).
Qed.

Section RemoveEmpty.
Variable n : nat.

Local Abbreviation cut := (substNode n (fun _ : Node => [])).

(** Removing nodes without text content. *)
Lemma cut_thinned :
  forall x,
    (forall y, In y (descendants x) -> nid y = n -> textContentOf y = "") ->
    thinned x (cut x) /\
    textOf false (cut x) = textOf false x /\
    (forall y', In y' (descendants (cut x)) -> exists y, In y (descendants x) /\ thinned y y').
Proof.
  induction x as [i d | i name attrs cs IH] using Node_induction; intro Hempty.
  - split; [apply thinned_refl |]. split; [reflexivity | intros y' []].
  - assert (Hcs : Forall (fun ch =>
               (nid ch = n -> textContentOf ch = "") /\
               (nid ch <> n ->
                thinned ch (cut ch) /\ textOf false (cut ch) = textOf false ch /\
                (forall y', In y' (descendants (cut ch)) ->
                   exists y, In y (descendants ch) /\ thinned y y'))) cs).
    { rewrite Forall_forall in IH |- *. intros ch Hch. split.
      - intro Hn. apply Hempty; [| assumption].
        simpl. apply in_flat_map. exists ch. split; [assumption | left; reflexivity].
      - intros _. apply IH; [assumption |]. intros y Hy Hn. apply Hempty; [| assumption].
        simpl. apply in_flat_map. exists ch. split; [assumption | right; assumption]. }
    clear IH Hempty. simpl substNode.
    set (cs' := flat_map (fun ch => if Nat.eqb (nid ch) n then [] else [cut ch]) cs).
    assert (Hlist :
              concatAll (map textContentOf cs') = concatAll (map textContentOf cs) /\
              concatAll (map (textOf false) cs') = concatAll (map (textOf false) cs) /\
              incl (flat_map ids cs') (flat_map ids cs) /\
              (forall z, In z cs' -> exists ch, In ch cs /\ nid ch <> n /\ z = cut ch)).
    { unfold cs'. clear cs'. induction Hcs as [| ch cs (Hcut & Hkeep) _ IHcs].
      - repeat split; try reflexivity; [apply incl_refl | intros z []].
      - destruct IHcs as (I1 & I2 & I3 & I4). cbn [flat_map map concatAll fold_right].
        destruct (Nat.eqb_spec (nid ch) n) as [Heq | Hne].
        + cbn [app]. rewrite (Hcut Heq), (textOf_empty ch (Hcut Heq)).
          split; [exact I1 |]. split; [exact I2 |]. split.
          * apply incl_appr. assumption.
          * intros z Hz. destruct (I4 z Hz) as (ch' & Hch' & Hne' & Hz').
            exists ch'. split; [right; assumption | split; assumption].
        + destruct (Hkeep Hne) as ((_ & _ & _ & _ & Htc & Hids) & Htext & _).
          cbn [app map concatAll fold_right flat_map].
          fold (concatAll (map textContentOf
                  (flat_map (fun ch => if Nat.eqb (nid ch) n then [] else [cut ch]) cs))).
          fold (concatAll (map (textOf false)
                  (flat_map (fun ch => if Nat.eqb (nid ch) n then [] else [cut ch]) cs))).
          fold (concatAll (map textContentOf cs)).
          fold (concatAll (map (textOf false) cs)).
          rewrite Htc, Htext, I1, I2.
          split; [reflexivity |]. split; [reflexivity |]. split.
          * apply incl_app; [apply incl_appl; assumption | apply incl_appr; assumption].
          * intros z [Hz | Hz].
            -- exists ch. split; [left; reflexivity | split; [assumption | symmetry; assumption]].
            -- destruct (I4 z Hz) as (ch' & Hch' & Hne' & Hz').
               exists ch'. split; [right; assumption | split; assumption]. }
    destruct Hlist as (Htc & Htext & Hids & Hfrom).
    split; [| split].
    + repeat split; try reflexivity; [exact Htc |].
      simpl. intros j [Hj | Hj]; [left; assumption | right; apply Hids; assumption].
    + simpl. rewrite Htext. reflexivity.
    + intros y' Hy'. simpl in Hy'. apply in_flat_map in Hy'.
      destruct Hy' as (z & Hz & Hy'). destruct (Hfrom z Hz) as (ch & Hch & Hne & Hzc).
      rewrite Forall_forall in Hcs. destruct (Hcs ch Hch) as (_ & Hkeep).
      destruct (Hkeep Hne) as (Hthin & _ & Hdesc). subst z.
      destruct Hy' as [Hy' | Hy'].
      * subst y'. exists ch. split; [| assumption].
        simpl. apply in_flat_map. exists ch. split; [assumption | left; reflexivity].
      * destruct (Hdesc y' Hy') as (y & Hy & Hyy). exists y. split; [| assumption].
        simpl. apply in_flat_map. exists ch. split; [assumption | right; assumption].
Qed.

Lemma cut_gone : forall x, nid x <> n -> ~ In n (ids (cut x)).
Proof.
  induction x as [i d | i name attrs cs IH] using Node_induction; intros Hne Hin.
  - simpl in Hin. destruct Hin as [Hin | []]. apply Hne. assumption.
  - simpl in Hin. destruct Hin as [Hin | Hin]; [apply Hne; assumption |].
    apply in_flat_map in Hin. destruct Hin as (z & Hz & Hin).
    apply in_flat_map in Hz. destruct Hz as (ch & Hch & Hz).
    destruct (Nat.eqb_spec (nid ch) n) as [Heq | Hne']; [destruct Hz |].
    destruct Hz as [Hz | []]. subst z. rewrite Forall_forall in IH.
    apply (IH ch Hch Hne' Hin).
Qed.

Lemma cut_lost :
  forall x j, In j (ids x) -> ~ In j (ids (cut x)) ->
    exists y, In y (descendants x) /\ nid y = n /\ In j (ids y).
Proof.
  induction x as [i d | i name attrs cs IH] using Node_induction; intros j Hj Hnot.
  - exfalso. apply Hnot. exact Hj.
  - simpl in Hj. destruct Hj as [Hj | Hj]; [exfalso; apply Hnot; left; assumption |].
    apply in_flat_map in Hj. destruct Hj as (ch & Hch & Hj).
    destruct (Nat.eqb_spec (nid ch) n) as [Heq | Hne].
    + exists ch. split; [| split; assumption].
      simpl. apply in_flat_map. exists ch. split; [assumption | left; reflexivity].
    + rewrite Forall_forall in IH. destruct (IH ch Hch j Hj) as (y & Hy & Hyn & Hjy).
      * intro Hin. apply Hnot. simpl. right. apply in_flat_map. exists (cut ch). split; [| assumption].
        apply in_flat_map. exists ch. split; [assumption |].
        destruct (Nat.eqb_spec (nid ch) n); [contradiction | left; reflexivity].
      * exists y. split; [| split; assumption].
        simpl. apply in_flat_map. exists ch. split; [assumption | right; assumption].
Qed.

Lemma cut_NoDup : forall x, NoDup (ids x) -> NoDup (ids (cut x)).
Proof.
  induction x as [i d | i name attrs cs IH] using Node_induction; intro Hnd; [assumption |].
  assert (Hincl : forall x, incl (ids (cut x)) (ids x)).
  { clear. induction x as [i d | i name attrs cs IH] using Node_induction; [apply incl_refl |].
    simpl. intros j [Hj | Hj]; [left; assumption | right].
    apply in_flat_map in Hj. destruct Hj as (z & Hz & Hj).
    apply in_flat_map in Hz. destruct Hz as (ch & Hch & Hz).
    destruct (Nat.eqb (nid ch) n); [destruct Hz |]. destruct Hz as [Hz | []]. subst z.
    rewrite Forall_forall in IH. apply in_flat_map. exists ch. split; [assumption |].
    apply (IH ch Hch). assumption. }
  simpl in Hnd |- *. inversion Hnd as [| ? ? Hi Hcs]; subst. constructor.
  - intro Hin. apply Hi. apply in_flat_map in Hin. destruct Hin as (z & Hz & Hin).
    apply in_flat_map in Hz. destruct Hz as (ch & Hch & Hz).
    destruct (Nat.eqb (nid ch) n); [destruct Hz |]. destruct Hz as [Hz | []]. subst z.
    apply in_flat_map. exists ch. split; [assumption | apply (Hincl ch); assumption].
  - rewrite flat_map_flat_map.
    apply (NoDup_flat_map_shrink ids
             (fun ch => flat_map ids (if Nat.eqb (nid ch) n then [] else [cut ch])));
      [| assumption].
    apply Forall_forall. intros ch Hch. rewrite Forall_forall in IH.
    destruct (Nat.eqb (nid ch) n); simpl.
    + split; [intros j [] | intros _; constructor].
    + rewrite app_nil_r. split; [apply Hincl | apply (IH ch Hch)].
Qed.

End RemoveEmpty.

Lemma descendant_not_root :
  forall x y, NoDup (ids x) -> In y (descendants x) -> nid y <> nid x.
Proof.
  intros x y Hnd Hy. destruct (descendants_At _ _ Hy) as (c & Hat & Hc).
  apply (At_proper_nid _ _ _ Hat Hc Hnd).
Qed.

Lemma descendant_unique :
  forall x y z, NoDup (ids x) -> In y (descendants x) -> In z (descendants x) ->
    nid y = nid z -> y = z.
Proof.
  intros x y z Hnd Hy Hz Heq.
  destruct (descendants_At _ _ Hy) as (cy & Hcy & _).
  destruct (descendants_At _ _ Hz) as (cz & Hcz & _).
  apply (At_unique x cy y cz z Hnd Hcy Hcz Heq).
Qed.

Lemma descendant_ids : forall x y, In y (descendants x) -> incl (ids y) (ids x).
Proof.
  intros x y Hy. destruct (descendants_At _ _ Hy) as (c & Hat & _).
  apply (At_ids _ _ _ Hat).
Qed.

Lemma ids_descendant :
  forall x j, In j (ids x) -> j <> nid x -> exists y, In y (descendants x) /\ nid y = j.
Proof.
  intros x j Hj Hne. destruct (ids_At x j Hj) as (c & y & Hat & Hy).
  exists y. split; [| assumption]. apply (At_descendants _ _ _ Hat).
  intro Hc. subst c. apply At_root_inv in Hat. subst y. apply Hne. symmetry. assumption.
Qed.

Lemma isMarkerOfType_thinned :
  forall type y y', thinned y y' -> isMarkerOfType type y' = isMarkerOfType type y.
Proof.
  intros type y y' (_ & Hel & Hname & Hattrs & _).
  unfold isMarkerOfType, getAttributeOf. rewrite Hel, Hname, Hattrs. reflexivity.
Qed.

Section Cleanup.
Variables (doc : Node) (rootCtx : Ctx) (host : Node) (type : string).
Hypothesis distinct : NoDup (ids doc).
Hypothesis hostAt : At doc rootCtx host.

Lemma cleaned_start : cleaned rootCtx host type [] host.
Proof.
  split; [rewrite (At_rebuild _ _ _ hostAt); assumption |]. split; [reflexivity |].
  split; [reflexivity |]. split.
  - intros y' Hy'. exists y'. split; [assumption | apply thinned_refl].
  - split; [apply incl_refl |]. split; [intros n y [] |].
    intros j Hj Hnot. contradiction.
Qed.

Lemma cleaned_step :
  forall processed T n y0,
    cleaned rootCtx host type processed T ->
    In y0 (descendants host) -> isMarkerOfType type y0 = true -> nid y0 = n ->
    exists T',
      removeIfEmpty (rebuild rootCtx T) n = rebuild rootCtx T' /\
      cleaned rootCtx host type (processed ++ [n]) T'.
Proof.
  intros processed T n y0 (Hnd & Hnid & Htext & Hsrc & Hincl & Hdone & Hlost) Hy0 Hmark Hn.
  pose proof (At_NoDup _ _ _ hostAt distinct) as HndHost.
  pose proof (rebuild_At rootCtx T) as HT.
  pose proof (At_NoDup _ _ _ HT Hnd) as HndT.
  assert (Hne : n <> nid T).
  { rewrite Hnid, <- Hn. apply descendant_not_root; assumption. }
  destruct (in_dec Nat.eq_dec n (ids T)) as [Hin | Hout].
  - destruct (ids_descendant T n Hin Hne) as (y & Hy & Hyn).
    assert (Hlook : lookup (rebuild rootCtx T) n = Some y).
    { destruct (descendants_At _ _ Hy) as (c & Hc & _). rewrite <- Hyn.
      apply (lookup_At _ Hnd _ _ (At_trans _ _ _ HT _ _ Hc)). }
    unfold removeIfEmpty. rewrite Hlook.
    destruct (String.eqb_spec (textContentOf y) "") as [Hempty | Hfull].
    + assert (Honly : forall z, In z (descendants T) -> nid z = n -> textContentOf z = "").
      { intros z Hz Hzn. rewrite (descendant_unique T z y HndT Hz Hy); [assumption | congruence]. }
      destruct (cut_thinned n T Honly) as (Hthin & Htext' & Hsrc').
      exists (substNode n (fun _ => []) T). split.
      { unfold removeFrom. apply (substNode_inside _ rootCtx T n _ HT Hnd Hin Hne). }
      destruct Hthin as (Hnid' & _ & _ & _ & _ & Hids').
      split; [apply (rebuild_NoDup rootCtx T); [assumption | apply cut_NoDup; assumption
                                                | assumption] |].
      split; [congruence |]. split; [congruence |]. split.
      { intros y' Hy'. destruct (Hsrc' y' Hy') as (z & Hz & Hzy).
        destruct (Hsrc z Hz) as (z0 & Hz0 & Hz0z). exists z0.
        split; [assumption | apply (thinned_trans _ _ _ Hz0z Hzy)]. }
      split; [apply (incl_tran Hids' Hincl) |]. split.
      { intros n' y' Hn' Hy' Hyn'. apply in_app_or in Hn'. destruct Hn' as [Hn' | [Hn' | []]].
        - destruct (Hsrc' y' Hy') as (z & Hz & (Hzn & _ & _ & _ & Hztc & _)).
          rewrite Hztc. apply (Hdone n' z Hn' Hz). congruence.
        - exfalso. apply (cut_gone n T (not_eq_sym Hne)).
          assert (Hin' : In (nid y') (ids (substNode n (fun _ => []) T)))
            by (apply (descendant_ids _ _ Hy'); apply nid_in_ids).
          rewrite Hyn', <- Hn' in Hin'. exact Hin'. }
      { intros j Hj Hnot. destruct (in_dec Nat.eq_dec j (ids T)) as [HjT | HjT];
          [| apply Hlost; assumption].
        destruct (cut_lost n T j HjT Hnot) as (z & Hz & Hzn & Hjz).
        assert (Hzy : z = y) by (apply (descendant_unique T z y HndT Hz Hy); congruence).
        subst z. destruct (Hsrc y Hy) as (y1 & Hy1 & Hthin1).
        assert (Hy10 : y1 = y0).
        { apply (descendant_unique host y1 y0 HndHost Hy1 Hy0).
          destruct Hthin1 as (Hid1 & _). congruence. }
        subst y1. exists y0. split; [assumption |]. split; [assumption |].
        destruct Hthin1 as (_ & _ & _ & _ & Htc1 & Hids1).
        split; [congruence | apply Hids1; assumption]. }
    + exists T. split; [reflexivity |].
      split; [assumption |]. split; [assumption |]. split; [assumption |].
      split; [assumption |]. split; [assumption |]. split; [| assumption].
      intros n' y' Hn' Hy' Hyn'. apply in_app_or in Hn'. destruct Hn' as [Hn' | [Hn' | []]].
      * apply (Hdone n' y' Hn' Hy' Hyn').
      * rewrite (descendant_unique T y' y HndT Hy' Hy); [assumption | congruence].
  - assert (Hlook : lookup (rebuild rootCtx T) n = None).
    { unfold lookup, locate. rewrite locate_at_absent; [reflexivity |].
      intro Hin. apply (Permutation_in _ (ids_rebuild rootCtx T)) in Hin.
      apply in_app_or in Hin. destruct Hin as [Hin | Hin]; [contradiction |].
      apply (At_ctx_disjoint doc rootCtx host n hostAt distinct); [| assumption].
      rewrite <- Hn. apply (descendant_ids _ _ Hy0). apply nid_in_ids. }
    unfold removeIfEmpty. rewrite Hlook. exists T. split; [reflexivity |].
    split; [assumption |]. split; [assumption |]. split; [assumption |].
    split; [assumption |]. split; [assumption |]. split; [| assumption].
    intros n' y' Hn' Hy' Hyn'. apply in_app_or in Hn'. destruct Hn' as [Hn' | [Hn' | []]].
    + apply (Hdone n' y' Hn' Hy' Hyn').
    + exfalso. apply Hout.
      assert (Hin' : In (nid y') (ids T))
        by (apply (descendant_ids _ _ Hy'); apply nid_in_ids).
      rewrite Hyn', <- Hn' in Hin'. exact Hin'.
Qed.

Lemma cleaned_fold :
  forall l processed T,
    cleaned rootCtx host type processed T ->
    (forall n, In n l -> exists y0, In y0 (descendants host) /\
                                    isMarkerOfType type y0 = true /\ nid y0 = n) ->
    exists T',
      fold_left removeIfEmpty l (rebuild rootCtx T) = rebuild rootCtx T' /\
      cleaned rootCtx host type (processed ++ l) T'.
Proof.
  induction l as [| n l IH]; intros processed T HT Hl.
  - exists T. rewrite app_nil_r. split; [reflexivity | assumption].
  - destruct (Hl n (or_introl eq_refl)) as (y0 & Hy0 & Hmark & Hn).
    destruct (cleaned_step processed T n y0 HT Hy0 Hmark Hn) as (T1 & Hrun1 & HT1).
    destruct (IH (processed ++ [n]) T1 HT1) as (T' & Hrun & HT').
    + intros n' Hn'. apply Hl. right. assumption.
    + exists T'. simpl. rewrite Hrun1, Hrun. rewrite <- app_assoc in HT'.
      split; [reflexivity | assumption].
Qed.

End Cleanup.

End CleanupFacts.

Section CleanupExtras.
Import Dom DomEdit RangeSaveRestore HighlightText Element Walk MarkerCleanup.

(** [cleanupStaleMarkerNodes] removes the markers of the type that hold
    no text, and nothing else, for a type that the selector
    [span[data-highlight="type"]] takes as it is (no quotation mark,
    backslash, line feed, form feed, carriage return or null character
    in it).  Afterwards every SPAN of the host with
    the [data-highlight] type has text content; every node left is a node
    of the host with the text content it had; every node that is gone was
    in a marker of the type without text content; the text that
    [extractText] gives without converting line breaks is unchanged; and
    nothing outside the host has changed. *)
Theorem cleanupStaleMarkerNodes_removes_empty_markers_only :
  forall (doc : Node) (rootCtx : Ctx) (host : Node) (type : string),
    NoDup (ids doc) -> At doc rootCtx host ->
    HighlightSupport.selectorLiteral type = true ->
    exists host',
      At (cleanupStaleMarkerNodes doc (nid host) type) rootCtx host' /\
      nid host' = nid host /\
      NoDup (ids (cleanupStaleMarkerNodes doc (nid host) type)) /\
      (forall y, In y (descendants host') -> isMarkerOfType type y = true ->
         textContentOf y <> "") /\
      (forall y', In y' (descendants host') ->
         exists y, In y (descendants host) /\ thinned y y') /\
      (forall j, In j (ids host) -> ~ In j (ids host') ->
         exists y, In y (descendants host) /\ isMarkerOfType type y = true /\
                   textContentOf y = "" /\ In j (ids y)) /\
      extractText (cleanupStaleMarkerNodes doc (nid host) type) (nid host) false
      = extractText doc (nid host) false.
Proof.
  intros doc rootCtx host type Hnd Hhost _.
  destruct (cleaned_fold doc rootCtx host type Hnd Hhost
              (map nid (filter (isMarkerOfType type) (descendants host))) [] host
              (cleaned_start doc rootCtx host type Hnd Hhost))
    as (T' & Hrun & (Hnd' & Hnid & Htext & Hsrc & Hincl & Hdone & Hlost)).
  { intros n Hn. apply in_map_iff in Hn. destruct Hn as (y0 & Hy0 & Hin).
    apply filter_In in Hin. exists y0. split; [apply Hin | split; [apply Hin | assumption]]. }
  assert (Hresult : cleanupStaleMarkerNodes doc (nid host) type = rebuild rootCtx T').
  { unfold cleanupStaleMarkerNodes, querySelectorAllMarkers.
    rewrite (lookup_At doc Hnd rootCtx host Hhost).
    rewrite <- Hrun. rewrite (At_rebuild _ _ _ Hhost). reflexivity. }
  rewrite Hresult. exists T'.
  split; [apply rebuild_At |]. split; [assumption |]. split; [assumption |]. split.
  { intros y Hy Hmark. destruct (Hsrc y Hy) as (y0 & Hy0 & Hthin).
    apply (Hdone (nid y) y); [| assumption | reflexivity].
    simpl. apply in_map_iff. exists y0. split; [destruct Hthin as (H & _); congruence |].
    apply filter_In. split; [assumption |].
    rewrite <- (isMarkerOfType_thinned type y0 y Hthin). assumption. }
  split; [assumption |]. split; [assumption |].
  rewrite <- Hnid.
  rewrite (extractText_textOf _ rootCtx T' false Hnd' (rebuild_At rootCtx T')).
  rewrite Hnid, (extractText_textOf doc rootCtx host false Hnd Hhost).
  rewrite Htext. reflexivity.
Qed.

Lemma cleanupStaleMarkerNodes_removes_empty_markers_only_witness :
  exists host',
    At (cleanupStaleMarkerNodes Examples.staleMarkersDoc (nid Examples.staleMarkersHost)
          "comment")
       [Samples.documentFrame] host' /\
    nid host' = nid Examples.staleMarkersHost /\
    NoDup (ids (cleanupStaleMarkerNodes Examples.staleMarkersDoc
                  (nid Examples.staleMarkersHost) "comment")) /\
    (forall y, In y (descendants host') -> isMarkerOfType "comment" y = true ->
       textContentOf y <> "") /\
    (forall y', In y' (descendants host') ->
       exists y, In y (descendants Examples.staleMarkersHost) /\ thinned y y') /\
    (forall j, In j (ids Examples.staleMarkersHost) -> ~ In j (ids host') ->
       exists y, In y (descendants Examples.staleMarkersHost) /\
                 isMarkerOfType "comment" y = true /\
                 textContentOf y = "" /\ In j (ids y)) /\
    extractText (cleanupStaleMarkerNodes Examples.staleMarkersDoc
                   (nid Examples.staleMarkersHost) "comment")
      (nid Examples.staleMarkersHost) false
    = extractText Examples.staleMarkersDoc (nid Examples.staleMarkersHost) false.
Proof.
  apply (cleanupStaleMarkerNodes_removes_empty_markers_only Examples.staleMarkersDoc
           [Samples.documentFrame] Examples.staleMarkersHost "comment").
  - distinct_ids.
  - exact (At_child 0 "#document" [] [] Examples.staleMarkersHost [] []
             Examples.staleMarkersHost (At_here Examples.staleMarkersHost)).
  - reflexivity.
Defined.

End CleanupExtras.

(** ** Saving and restoring a selection of child nodes *)

Section SelectionFacts.
Import Dom DomEdit RangeSaveRestore RangeSave Walk Shape.

Lemma append_same_prefix :
  forall p s1 s2 : string, (p ++ s1)%string = (p ++ s2)%string -> s1 = s2.
Proof.
  induction p as [| a p IH]; intros s1 s2 H; [exact H |].
  simpl in H. injection H as H. apply IH. exact H.
Qed.

Lemma to_int_proper : forall n, Z.to_int n <> Decimal.Pos Decimal.Nil /\ Z.to_int n <> Decimal.Neg Decimal.Nil.
Proof.
  intros [| p | p]; simpl; split; try discriminate; intro H; injection H as H;
    apply (DecimalPos.Unsigned.to_uint_nonnil p H).
Qed.

(** Markers with different numbers have different ids. *)
Lemma boundaryId_injective : forall a b, boundaryId a = boundaryId b -> a = b.
Proof.
  intros a b H. unfold boundaryId in H. apply append_same_prefix in H.
  apply DecimalZ.to_int_inj.
  destruct (to_int_proper a) as (Ha1 & Ha2). destruct (to_int_proper b) as (Hb1 & Hb2).
  pose proof (NilZero.isi _ Ha1 Ha2) as Ia. pose proof (NilZero.isi _ Hb1 Hb2) as Ib.
  rewrite H in Ia. rewrite Ia in Ib. injection Ib as Ib. exact Ib.
Qed.

Lemma lexCompare_same_prefix :
  forall p a b, lexCompare (p ++ [a]) (p ++ [b]) = (a ?= b).
Proof.
  induction p as [| x p IH]; intros a b; simpl.
  - destruct (a ?= b); reflexivity.
  - rewrite Z.compare_refl. apply IH.
Qed.

Lemma comparePoints_same_node :
  forall doc c x o1 o2, NoDup (ids doc) -> At doc c x ->
    comparePoints doc (nid x) o1 (nid x) o2 = Some (o1 ?= o2).
Proof.
  intros doc c x o1 o2 Hnd H. unfold comparePoints.
  rewrite (pathOf_At doc c x Hnd H). rewrite lexCompare_same_prefix. reflexivity.
Qed.

Lemma normalizeBoundaries_same_container :
  forall doc n o1 o2,
    normalizeBoundaries doc (mkRange n o1 n o2) = Returns (mkRange n o1 n o2).
Proof.
  intros doc n o1 o2.
  assert (Hsame : compareDocumentPosition doc n n = 0 \/ compareDocumentPosition doc n n = 35).
  { unfold compareDocumentPosition. destruct (pathOf doc n); [| right; reflexivity].
    rewrite Nat.eqb_refl. left. reflexivity. }
  unfold normalizeBoundaries. simpl.
  destruct Hsame as [H | H]; rewrite H; simpl; rewrite H; reflexivity.
Qed.

Lemma fresh_above : forall doc j, (freshId doc <= j)%nat -> ~ In j (ids doc).
Proof. intros doc j Hj Hin. pose proof (freshId_above doc j Hin). lia. Qed.

(** A new node among the children of an element keeps the identities
    distinct. *)
Lemma inserted_NoDup :
  forall doc up P name attrs l1 l2 new,
    NoDup (ids doc) -> At doc up (ElementNode P name attrs (l1 ++ l2)) ->
    NoDup (ids new) -> (forall j, In j (ids new) -> ~ In j (ids doc)) ->
    NoDup (ids (rebuild up (ElementNode P name attrs (l1 ++ new :: l2)))).
Proof.
  intros doc up P name attrs l1 l2 new Hnd Hat Hnew Hfresh.
  pose proof (At_split_ids _ _ _ Hat Hnd) as Hsplit.
  pose proof (ids_rebuild up (ElementNode P name attrs (l1 ++ l2))) as Hdoc.
  rewrite (At_rebuild _ _ _ Hat) in Hdoc.
  apply (Permutation_NoDup
           (l := ids new ++ ids (ElementNode P name attrs (l1 ++ l2)) ++ ctxIds up)).
  - symmetry.
    etransitivity; [apply ids_rebuild |].
    rewrite app_assoc. apply Permutation_app_tail.
    cbn [ids]. rewrite !flat_map_app. cbn [flat_map].
    change (P :: flat_map ids l1 ++ ids new ++ flat_map ids l2)
      with ((P :: flat_map ids l1) ++ ids new ++ flat_map ids l2).
    change (ids new ++ P :: flat_map ids l1 ++ flat_map ids l2)
      with (ids new ++ (P :: flat_map ids l1) ++ flat_map ids l2).
    apply Permutation_app_swap_app.
  - apply NoDup_app_intro; [assumption | assumption |].
    intros j Hj Hin. apply (Hfresh j Hj).
    apply (Permutation_in _ (Permutation_sym Hdoc)). assumption.
Qed.

Lemma nth_error_middle {A : Type} :
  forall l1 l2 : list A, nth_error (l1 ++ l2) (List.length l1) = hd_error l2.
Proof.
  intros l1 l2. rewrite nth_error_app2 by lia. rewrite Nat.sub_diag.
  destruct l2; reflexivity.
Qed.

Lemma own_id_not_below :
  forall doc up P name attrs l1 M l2,
    NoDup (ids doc) -> At doc up (ElementNode P name attrs (l1 ++ M :: l2)) ->
    ~ In P (ids M).
Proof.
  intros doc up P name attrs l1 M l2 Hnd Hat Hin.
  pose proof (At_down _ _ _ _ _ _ _ _ Hat) as Hdown.
  apply (At_ctx_disjoint _ _ _ P Hdown Hnd Hin).
  apply parentIds_ctxIds. left. reflexivity.
Qed.

Lemma commonAncestorContainer_same :
  forall doc c x a b, NoDup (ids doc) -> At doc c x ->
    commonAncestorContainer doc (mkRange (nid x) a (nid x) b) = nid x.
Proof.
  intros doc c x a b Hnd Hat.
  unfold commonAncestorContainer, inclusiveAncestors.
  cbn [startContainer endContainer].
  rewrite (locate_At doc _ _ Hnd Hat). cbn [find].
  unfold isInclusiveDescendant. rewrite (lookup_At doc Hnd _ _ Hat).
  destruct x; simpl; rewrite Nat.eqb_refl; reflexivity.
Qed.

(** The container of a range that lies in one element is not the child
    of a child of itself. *)
Lemma isSecondChild_same :
  forall doc c x range, NoDup (ids doc) -> At doc c x ->
    commonAncestorContainer doc range = nid x ->
    isSecondChildOfCommonAncestor doc range (nid x) = false.
Proof.
  intros doc c x range Hnd Hat Hcommon.
  unfold isSecondChildOfCommonAncestor. rewrite Hcommon.
  assert (Hbody :
            match parentElement doc (nid x) with
            | Some possibleChild =>
                match parentElement doc possibleChild with
                | Some p => Nat.eqb p (nid x)
                | None => false
                end
            | None => false
            end = false).
  { unfold parentElement at 1. rewrite (parentNode_At doc Hnd _ _ Hat).
    destruct c as [| f1 c']; [reflexivity |].
    destruct (Nat.eqb (fparent f1) (nid doc)); [reflexivity |].
    pose proof (At_up _ _ _ _ Hat) as Hup.
    pose proof (parentNode_At doc Hnd _ _ Hup) as Hparent. cbn [nid parentOf] in Hparent.
    unfold parentElement. rewrite Hparent.
    destruct c' as [| f2 c'']; [reflexivity |].
    destruct (Nat.eqb (fparent f2) (nid doc)); [reflexivity |].
    apply Nat.eqb_neq. intro Heq.
    apply (At_ctx_disjoint _ _ _ (nid x) Hat Hnd (nid_in_ids x)).
    apply parentIds_ctxIds. right. left. exact Heq. }
  destruct (nodeType doc (nid x)) as [[| [[p | p |] | [p | p |] |] | p] |];
    try reflexivity; exact Hbody.
Qed.

(** Inserting at the boundary of a range that lies in one element: the
    node becomes the child at that offset, and the boundary points behind
    it move on by one. *)
Lemma insertNode_child :
  forall doc up P name attrs l1 l2 new a b k,
    NoDup (ids doc) -> At doc up (ElementNode P name attrs (l1 ++ l2)) ->
    a <= Z.of_nat (List.length (l1 ++ l2)) -> b <= Z.of_nat (List.length (l1 ++ l2)) ->
    insertNode doc (mkRange P a P b) P (Z.of_nat (List.length l1)) new k
    = Returns (rebuild up (ElementNode P name attrs (l1 ++ new :: l2)),
               mkRange P (if Z.of_nat (List.length l1) <? a then a + 1 else a)
                       P (if Z.of_nat (List.length l1) <? b then b + 1 else b)).
Proof.
  intros doc up P name attrs l1 l2 new a b k Hnd Hat Ha Hb.
  pose proof (lookup_At doc Hnd _ _ Hat) as Hlook. cbn [nid] in Hlook.
  unfold insertNode. rewrite Hlook. rewrite Nat2Z.id. rewrite nth_error_middle.
  destruct l2 as [| r l2].
  - cbn [hd_error option_map]. unfold insertBefore.
    pose proof (updateNode_inside doc up _ (appendChild new) Hat Hnd) as Hupd.
    cbn [nid appendChild] in Hupd. rewrite Hupd.
    rewrite app_nil_r in *.
    destruct (Z.ltb_spec (Z.of_nat (List.length l1)) a); [lia |].
    destruct (Z.ltb_spec (Z.of_nat (List.length l1)) b); [lia |]. reflexivity.
  - cbn [hd_error option_map]. unfold insertBefore.
    pose proof (At_down _ _ _ _ _ _ _ _ Hat) as Hdown.
    pose proof (parentNode_At doc Hnd _ _ Hdown) as Hparent.
    pose proof (indexOf_At doc _ up _ Hnd Hdown) as Hindex.
    cbn [fparent fbefore] in Hparent, Hindex. rewrite Hparent, Hindex.
    rewrite Nat.eqb_refl. unfold shiftPoint.
    cbn [startContainer startOffset endContainer endOffset].
    rewrite Nat.eqb_refl. cbn [andb].
    pose proof (substNode_focus doc _ up r (fun r => [new; r]) Hdown Hnd) as Hsub.
    cbn [fparent fname fattrs fbefore fafter app] in Hsub. rewrite Hsub.
    destruct (Z.of_nat (List.length l1) <? a), (Z.of_nat (List.length l1) <? b); reflexivity.
Qed.

Lemma insertRangeBoundaryMarker_child :
  forall doc up P name attrs l1 l2 a b cnt (atStart : bool),
    NoDup (ids doc) -> At doc up (ElementNode P name attrs (l1 ++ l2)) -> up <> [] ->
    a <= Z.of_nat (List.length (l1 ++ l2)) -> b <= Z.of_nat (List.length (l1 ++ l2)) ->
    (if atStart then a else b) = Z.of_nat (List.length l1) ->
    insertRangeBoundaryMarker (mkState doc (mkRange P a P b) cnt) atStart
    = Returns (mkState
                 (rebuild up
                    (ElementNode P name attrs
                       (l1 ++ createMarkerEl (freshId doc) (boundaryId (cnt + 1)) :: l2)))
                 (mkRange P (if Z.of_nat (List.length l1) <? a then a + 1 else a)
                          P (if Z.of_nat (List.length l1) <? b then b + 1 else b))
                 (cnt + 1),
               freshId doc).
Proof.
  intros doc up P name attrs l1 l2 a b cnt atStart Hnd Hat Hup Ha Hb Hpoint.
  pose proof (commonAncestorContainer_same doc up _ a b Hnd Hat) as Hcommon.
  cbn [nid] in Hcommon.
  pose proof (isSecondChild_same doc up _ (mkRange P a P b) Hnd Hat Hcommon) as Hsecond.
  cbn [nid] in Hsecond.
  pose proof (At_proper_nid _ _ _ Hat Hup Hnd) as Hne. cbn [nid] in Hne.
  apply Nat.eqb_neq in Hne.
  unfold insertRangeBoundaryMarker. cbn [document liveRange boundaryMarkerId].
  rewrite Hcommon, Hne.
  cbn [startContainer startOffset endContainer endOffset].
  rewrite Hsecond. rewrite !andb_false_r.
  destruct atStart; cbv iota in Hpoint; [subst a | subst b];
    rewrite (insertNode_child doc up P name attrs l1 l2 _ _ _ _ Hnd Hat Ha Hb); reflexivity.
Qed.

(** Removing a child of the element a range lies in: the boundary points
    behind it move back by one. *)
Lemma remove_child :
  forall doc up P name attrs l1 M l2 a b,
    NoDup (ids doc) -> At doc up (ElementNode P name attrs (l1 ++ M :: l2)) ->
    remove doc (mkRange P a P b) (nid M)
    = (rebuild up (ElementNode P name attrs (l1 ++ l2)),
       mkRange P (if Z.of_nat (List.length l1) <? a then a - 1 else a)
               P (if Z.of_nat (List.length l1) <? b then b - 1 else b)).
Proof.
  intros doc up P name attrs l1 M l2 a b Hnd Hat.
  pose proof (At_down _ _ _ _ _ _ _ _ Hat) as Hdown.
  pose proof (parentNode_At doc Hnd _ _ Hdown) as Hparent.
  pose proof (indexOf_At doc _ up _ Hnd Hdown) as Hindex.
  pose proof (lookup_At doc Hnd _ _ Hdown) as Hlook.
  cbn [fparent fbefore] in Hparent, Hindex.
  unfold remove. rewrite Hparent, Hindex.
  assert (Hdesc : isInclusiveDescendant doc P (nid M) = false).
  { unfold isInclusiveDescendant. rewrite Hlook.
    destruct (existsb (Nat.eqb P) (ids M)) eqn:Hex; [| reflexivity].
    apply existsb_exists in Hex. destruct Hex as (z & Hz & Heq).
    apply Nat.eqb_eq in Heq. subst z.
    exfalso. exact (own_id_not_below _ _ _ _ _ _ _ _ Hnd Hat Hz). }
  unfold adjustPoint. cbn [startContainer startOffset endContainer endOffset].
  rewrite Hdesc, Nat.eqb_refl. cbn [andb].
  unfold removeFrom.
  pose proof (substNode_focus doc _ up M (fun _ => []) Hdown Hnd) as Hsub.
  cbn [fparent fname fattrs fbefore fafter app] in Hsub. rewrite Hsub.
  destruct (Z.of_nat (List.length l1) <? a), (Z.of_nat (List.length l1) <? b); reflexivity.
Qed.

Lemma removed_NoDup :
  forall doc up P name attrs l1 M l2,
    NoDup (ids doc) -> At doc up (ElementNode P name attrs (l1 ++ M :: l2)) ->
    NoDup (ids (rebuild up (ElementNode P name attrs (l1 ++ l2)))).
Proof.
  intros doc up P name attrs l1 M l2 Hnd Hat.
  pose proof (At_down _ _ _ _ _ _ _ _ Hat) as Hdown.
  pose proof (replaced_NoDup _ _ up M [] Hdown Hnd (NoDup_nil _)) as H.
  cbn [fparent fname fattrs fbefore fafter app] in H. apply H. intros j [].
Qed.

(** A shallow property of the descendants holds below every node. *)
Lemma below_rebuild :
  forall (Q : Node -> Prop) c x,
    Forall Q (descendants (rebuild c x)) -> Forall Q (descendants x).
Proof.
  intros Q c x H. apply Forall_forall. intros y Hy. rewrite Forall_forall in H. apply H.
  destruct (descendants_At _ _ Hy) as (c' & Hat & Hc').
  apply (At_descendants _ (c' ++ c) y).
  - apply (At_trans _ _ _ (rebuild_At c _) _ _ Hat).
  - destruct c'; [contradiction | discriminate].
Qed.

(** The element below the host that alone has the id is the marker. *)
Lemma getMarker_unique :
  forall doc rootCtx h id M,
    NoDup (ids doc) -> At doc rootCtx h -> In M (descendants h) ->
    isElement M = true -> getAttributeOf M "id" = Some id ->
    Forall (fun y => isElement y && is_value (getAttributeOf y "id") id = true ->
                     nid y = nid M) (descendants h) ->
    getMarker doc (nid h) id = Some (nid M).
Proof.
  intros doc rootCtx h id M Hnd Hat Hin Hel Hid Hall.
  unfold getMarker. rewrite (lookup_At doc Hnd _ _ Hat).
  destruct (find (fun x => isElement x && is_value (getAttributeOf x "id") id)
              (descendants h)) as [y |] eqn:Hfind.
  - apply find_some in Hfind. destruct Hfind as (Hy & Hp).
    rewrite Forall_forall in Hall. simpl. f_equal. apply (Hall y Hy Hp).
  - exfalso. pose proof (find_none _ _ Hfind M Hin) as Hp. cbv beta in Hp.
    rewrite Hel, Hid in Hp. simpl in Hp. rewrite String.eqb_refl in Hp. discriminate.
Qed.

Lemma At_split_ctx :
  forall c1 x c2 s, At x (c1 ++ c2) s -> At x c2 (rebuild c1 s).
Proof.
  induction c1 as [| f c1 IH]; intros x c2 s H; [exact H |].
  simpl. apply IH. apply (At_up _ _ _ _ H).
Qed.

Lemma lexCompare_prefix_gt :
  forall p a b r1 r2, b < a -> lexCompare (p ++ a :: r1) (p ++ b :: r2) = Gt.
Proof.
  induction p as [| x p IH]; intros a b r1 r2 H; simpl.
  - destruct (Z.compare_spec a b); [lia | lia | reflexivity].
  - rewrite Z.compare_refl. apply IH. assumption.
Qed.

(** A node whose path has the node [y] in a subtree before it lies
    after [y] in the document. *)
Lemma before_order :
  forall doc c z c' y r1 r2,
    NoDup (ids doc) -> At doc c z -> At doc c' y -> In (nid y) (beforeIds c) ->
    lexCompare (rev (map (fun f => Z.of_nat (List.length (fbefore f))) c) ++ r1)
               (rev (map (fun f => Z.of_nat (List.length (fbefore f))) c') ++ r2) = Gt.
Proof.
  intros doc c z c' y r1 r2 Hnd Hz Hy Hin.
  unfold beforeIds in Hin. apply in_flat_map in Hin. destruct Hin as (f & Hf & Hin).
  apply in_flat_map in Hin. destruct Hin as (b & Hb & Hin).
  apply in_split in Hf. destruct Hf as (inner & outer & Hc). subst c.
  apply in_split in Hb. destruct Hb as (b1 & b2 & Hbefore).
  destruct (ids_At _ _ Hin) as (cb & y' & Hy' & Hnid).
  pose proof (At_up _ _ _ _ (At_split_ctx _ _ _ _ Hz)) as Hparent.
  unfold parentOf in Hparent. rewrite Hbefore in Hparent.
  rewrite <- app_assoc in Hparent. cbn [app] in Hparent.
  pose proof (At_down _ _ _ _ _ _ _ _ Hparent) as Hb.
  pose proof (At_trans _ _ _ Hb _ _ Hy') as Habs.
  destruct (At_unique _ _ _ _ _ Hnd Hy Habs (eq_sym Hnid)) as (Hc' & _). subst c'.
  rewrite !map_app, !rev_app_distr. cbn [map rev fbefore].
  rewrite <- !app_assoc. cbn [app].
  apply lexCompare_prefix_gt. rewrite Hbefore, length_app. simpl. lia.
Qed.

Lemma insertBefore_outside :
  forall doc up P name attrs l1 l2 new n1 o1 n2 o2,
    NoDup (ids doc) -> At doc up (ElementNode P name attrs (l1 ++ l2)) ->
    n1 <> P -> n2 <> P ->
    insertBefore doc (mkRange n1 o1 n2 o2) P new (option_map nid (hd_error l2))
    = Returns (rebuild up (ElementNode P name attrs (l1 ++ new :: l2)), mkRange n1 o1 n2 o2).
Proof.
  intros doc up P name attrs l1 l2 new n1 o1 n2 o2 Hnd Hat H1 H2.
  apply Nat.eqb_neq in H1. apply Nat.eqb_neq in H2.
  destruct l2 as [| r l2].
  - cbn [hd_error option_map]. unfold insertBefore.
    pose proof (updateNode_inside doc up _ (appendChild new) Hat Hnd) as Hupd.
    cbn [nid appendChild] in Hupd. rewrite Hupd. rewrite app_nil_r. reflexivity.
  - cbn [hd_error option_map]. unfold insertBefore.
    pose proof (At_down _ _ _ _ _ _ _ _ Hat) as Hdown.
    pose proof (parentNode_At doc Hnd _ _ Hdown) as Hparent.
    pose proof (indexOf_At doc _ up _ Hnd Hdown) as Hindex.
    cbn [fparent fbefore] in Hparent, Hindex. rewrite Hparent, Hindex.
    rewrite Nat.eqb_refl. unfold shiftPoint.
    cbn [startContainer startOffset endContainer endOffset].
    rewrite H1, H2. cbn [andb fst snd].
    pose proof (substNode_focus doc _ up r (fun r => [new; r]) Hdown Hnd) as Hsub.
    cbn [fparent fname fattrs fbefore fafter app] in Hsub. rewrite Hsub. reflexivity.
Qed.

(** A text node that is a child of a child element of [P]. *)
Lemma text_in_child :
  forall doc up P name attrs X b bname battrs K1 t d K2 Y,
    NoDup (ids doc) ->
    At doc up (ElementNode P name attrs
                 (X ++ ElementNode b bname battrs (K1 ++ TextNode t d :: K2) :: Y)) ->
    up <> [] ->
    parentElement doc t = Some b /\ parentElement doc b = Some P /\
    nextSibling doc b = option_map nid (hd_error Y) /\
    inclusiveAncestors doc t = t :: b :: P :: map fparent up /\
    lookup doc t = Some (TextNode t d) /\
    lookup doc b = Some (ElementNode b bname battrs (K1 ++ TextNode t d :: K2)) /\
    t <> P /\ t <> b.
Proof.
  intros doc up P name attrs X b bname battrs K1 t d K2 Y Hnd Hat Hup.
  pose proof (At_down _ _ _ _ _ _ _ _ Hat) as Hb.
  pose proof (At_down _ _ _ _ _ _ _ _ Hb) as Ht.
  assert (HP : P <> nid doc) by exact (At_proper_nid _ _ _ Hat Hup Hnd).
  assert (Hbtop : b <> nid doc).
  { apply (At_proper_nid _ _ _ Hb); [discriminate | assumption]. }
  apply Nat.eqb_neq in HP. apply Nat.eqb_neq in Hbtop.
  pose proof (parentNode_At doc Hnd _ _ Ht) as Hpt. cbn [nid fparent] in Hpt.
  pose proof (parentNode_At doc Hnd _ _ Hb) as Hpb. cbn [nid fparent] in Hpb.
  pose proof (nextSibling_At doc Hnd _ _ Hb) as Hnext. cbn [nid fafter] in Hnext.
  pose proof (locate_At doc _ _ Hnd Ht) as Hloc. cbn [nid] in Hloc.
  pose proof (lookup_At doc Hnd _ _ Ht) as Hlt. cbn [nid] in Hlt.
  pose proof (lookup_At doc Hnd _ _ Hb) as Hlb. cbn [nid] in Hlb.
  split; [unfold parentElement; rewrite Hpt, Hbtop; reflexivity |].
  split; [unfold parentElement; rewrite Hpb, HP; reflexivity |].
  split; [exact Hnext |].
  split; [unfold inclusiveAncestors; rewrite Hloc; reflexivity |].
  split; [exact Hlt |]. split; [exact Hlb |].
  split.
  - intro Heq.
    apply (own_id_not_below _ _ _ _ _ _ _ _ Hnd Hat).
    rewrite <- Heq. simpl. right. apply in_flat_map.
    exists (TextNode t d). split; [apply in_or_app; right; left; reflexivity | left; reflexivity].
  - intro Heq.
    apply (At_ctx_disjoint _ _ _ t Ht Hnd (or_introl eq_refl)).
    apply parentIds_ctxIds. left. symmetry. exact Heq.
Qed.

(** A range from a text node of a child element of [P] to a text node
    of a later child element of [P]. *)
Lemma range_in_two_children :
  forall doc up P name attrs X Mid Z
         bs nameS attrsS K1 ts ds K2 be nameE attrsE L1 te de L2 o1 o2 B,
    B = ElementNode bs nameS attrsS (K1 ++ TextNode ts ds :: K2)
        :: Mid ++ [ElementNode be nameE attrsE (L1 ++ TextNode te de :: L2)] ->
    NoDup (ids doc) -> At doc up (ElementNode P name attrs (X ++ B ++ Z)) -> up <> [] ->
    commonAncestorContainer doc (mkRange ts o1 te o2) = P /\
    isSecondChildOfCommonAncestor doc (mkRange ts o1 te o2) ts = true /\
    isSecondChildOfCommonAncestor doc (mkRange ts o1 te o2) te = true /\
    parentElement doc ts = Some bs /\ parentElement doc bs = Some P /\
    parentElement doc te = Some be /\ parentElement doc be = Some P /\
    nextSibling doc be = option_map nid (hd_error Z) /\
    ts <> P /\ te <> P /\ ts <> te /\ In ts (flat_map ids B).
Proof.
  intros doc up P name attrs X Mid Z bs nameS attrsS K1 ts ds K2 be nameE attrsE L1 te de L2
         o1 o2 B HB Hnd Hat Hup.
  subst B.
  set (Bs := ElementNode bs nameS attrsS (K1 ++ TextNode ts ds :: K2)) in *.
  set (Be := ElementNode be nameE attrsE (L1 ++ TextNode te de :: L2)) in *.
  assert (HatS : At doc up (ElementNode P name attrs (X ++ Bs :: (Mid ++ [Be]) ++ Z)))
    by exact Hat.
  assert (HatE : At doc up (ElementNode P name attrs ((X ++ Bs :: Mid) ++ Be :: Z))).
  { replace ((X ++ Bs :: Mid) ++ Be :: Z) with (X ++ (Bs :: Mid ++ [Be]) ++ Z); [exact Hat |].
    cbn [app]. rewrite <- !app_assoc. reflexivity. }
  destruct (text_in_child _ _ _ _ _ _ _ _ _ _ _ _ _ _ Hnd HatS Hup)
    as (HpS & HpbS & _ & HancS & HltS & HlbS & HtsP & _).
  destruct (text_in_child _ _ _ _ _ _ _ _ _ _ _ _ _ _ Hnd HatE Hup)
    as (HpE & HpbE & HnextE & _ & _ & _ & HteP & _).
  pose proof (At_down _ _ _ _ _ _ _ _ HatE) as HBe.
  assert (HteBs : ~ In te (ids Bs)).
  { intro Hin.
    apply (At_ctx_disjoint _ _ _ te HBe Hnd).
    - simpl. right. apply in_flat_map. exists (TextNode te de).
      split; [apply in_or_app; right; left; reflexivity | left; reflexivity].
    - simpl. right. apply in_or_app. left. apply in_or_app. left.
      apply in_flat_map. exists Bs.
      split; [apply in_or_app; right; left; reflexivity | exact Hin]. }
  assert (HtsBs : In ts (ids Bs)).
  { simpl. right. apply in_flat_map. exists (TextNode ts ds).
    split; [apply in_or_app; right; left; reflexivity | left; reflexivity]. }
  assert (Hne : ts <> te).
  { intro Heq. apply HteBs. rewrite <- Heq. exact HtsBs. }
  assert (Hcommon : commonAncestorContainer doc (mkRange ts o1 te o2) = P).
  { unfold commonAncestorContainer. cbn [startContainer endContainer].
    rewrite HancS. cbn [find]. unfold isInclusiveDescendant.
    rewrite HltS. cbn [ids existsb orb].
    destruct (Nat.eqb_spec te ts) as [Heq | _]; [exfalso; apply Hne; symmetry; exact Heq |].
    rewrite HlbS.
    assert (Hex : existsb (Nat.eqb te) (ids Bs) = false).
    { destruct (existsb (Nat.eqb te) (ids Bs)) eqn:Hex; [| reflexivity].
      exfalso. apply existsb_exists in Hex. destruct Hex as (z & Hz & Heq).
      apply Nat.eqb_eq in Heq. subst z. exact (HteBs Hz). }
    fold Bs. rewrite Hex.
    pose proof (lookup_At doc Hnd _ _ HatE) as HlP. cbn [nid] in HlP. rewrite HlP.
    assert (Hin : existsb (Nat.eqb te) (ids (ElementNode P name attrs
                                               ((X ++ Bs :: Mid) ++ Be :: Z))) = true).
    { apply existsb_exists. exists te. split; [| apply Nat.eqb_refl].
      simpl. right. apply in_flat_map. exists Be.
      split; [apply in_or_app; right; left; reflexivity |].
      simpl. right. apply in_flat_map. exists (TextNode te de).
      split; [apply in_or_app; right; left; reflexivity | left; reflexivity]. }
    rewrite Hin. reflexivity. }
  assert (HtypeP : nodeType doc P = Some 1).
  { exact (nodeType_At doc Hnd _ _ HatE). }
  split; [exact Hcommon |].
  split; [unfold isSecondChildOfCommonAncestor;
          rewrite Hcommon, HtypeP, HpS, HpbS; apply Nat.eqb_refl |].
  split; [unfold isSecondChildOfCommonAncestor;
          rewrite Hcommon, HtypeP, HpE, HpbE; apply Nat.eqb_refl |].
  split; [exact HpS |]. split; [exact HpbS |]. split; [exact HpE |]. split; [exact HpbE |].
  split; [exact HnextE |]. split; [exact HtsP |]. split; [exact HteP |].
  split; [exact Hne |].
  cbn [flat_map]. apply in_or_app. left. exact HtsBs.
Qed.

End SelectionFacts.

Section SelectionSave.
Import Dom DomEdit RangeSaveRestore RangeSave HighlightText Walk Shape.

Variables (doc : Node) (rootCtx : Ctx) (host : Node).
Variables (cP : Ctx) (P : nat) (name : string) (attrs : list (string * string)).
Variables (A B C : list Node).
Variable counter : Z.

Hypothesis distinct : NoDup (ids doc).
Hypothesis hostAt : At doc rootCtx host.
Hypothesis elementAt : At host cP (ElementNode P name attrs (A ++ B ++ C)).
Hypothesis notDocument : cP ++ rootCtx <> [].
Hypothesis selected : B <> [].

Local Abbreviation up := (cP ++ rootCtx).
Local Abbreviation E l := (ElementNode P name attrs l).
Local Abbreviation iA := (Z.of_nat (List.length A)).
Local Abbreviation jB := (Z.of_nat (List.length (A ++ B))).
Local Abbreviation endEl := (createMarkerEl (freshId doc) (boundaryId (counter + 1))).
Local Abbreviation doc1 := (rebuild up (E (A ++ B ++ endEl :: C))).
Local Abbreviation startEl :=
  (createMarkerEl (freshId doc1) (boundaryId (counter + 1 + 1))).
Local Abbreviation doc2 := (rebuild up (E (A ++ startEl :: B ++ endEl :: C))).
Local Abbreviation selection := (mkRange P iA P jB).

Lemma selection_abs : At doc up (E (A ++ B ++ C)).
Proof. exact (At_trans _ _ _ hostAt _ _ elementAt). Qed.

Lemma selection_lengths :
  0 <= iA /\ iA < jB /\ jB <= Z.of_nat (List.length (A ++ B ++ C)).
Proof.
  rewrite !length_app. destruct B; [contradiction |]. simpl. lia.
Qed.

Lemma marker_NoDup : forall n id, NoDup (ids (createMarkerEl n id)).
Proof.
  intros n id. simpl. constructor; [| constructor; [intros [] | constructor]].
  intros [H | []]. lia.
Qed.

Lemma marker_fresh :
  forall x id j, In j (ids (createMarkerEl (freshId x) id)) -> ~ In j (ids x).
Proof.
  intros x id j Hj. apply fresh_above. simpl in Hj. destruct Hj as [Hj | [Hj | []]]; lia.
Qed.

Lemma marked_end_at : At doc1 up (E (A ++ B ++ endEl :: C)).
Proof. apply rebuild_At. Qed.

Lemma marked_end_NoDup : NoDup (ids doc1).
Proof.
  pose proof selection_abs as Hat. rewrite (app_assoc A B C) in Hat.
  rewrite (app_assoc A B (endEl :: C)).
  apply (inserted_NoDup doc up P name attrs (A ++ B) C endEl distinct Hat).
  - apply marker_NoDup.
  - apply marker_fresh.
Qed.

Lemma marked_both_at : At doc2 up (E (A ++ startEl :: B ++ endEl :: C)).
Proof. apply rebuild_At. Qed.

Lemma marked_both_NoDup : NoDup (ids doc2).
Proof.
  apply (inserted_NoDup doc1 up P name attrs A (B ++ endEl :: C) startEl
           marked_end_NoDup marked_end_at).
  - apply marker_NoDup.
  - apply marker_fresh.
Qed.

Lemma marked_both_end :
  At doc2 (mkFrame P name attrs (A ++ startEl :: B) C :: up) endEl.
Proof.
  assert (Heq : doc2 = rebuild (mkFrame P name attrs (A ++ startEl :: B) C :: up) endEl).
  { simpl. unfold parentOf. simpl. rewrite <- app_assoc. reflexivity. }
  rewrite Heq. apply rebuild_At.
Qed.

Lemma marked_both_start :
  At doc2 (mkFrame P name attrs A (B ++ endEl :: C) :: up) startEl.
Proof. exact (At_down _ _ _ _ _ _ _ _ marked_both_at). Qed.

Lemma marked_end_end :
  At doc1 (mkFrame P name attrs (A ++ B) C :: up) endEl.
Proof.
  assert (Heq : doc1 = rebuild (mkFrame P name attrs (A ++ B) C :: up) endEl).
  { simpl. unfold parentOf. simpl. rewrite <- app_assoc. reflexivity. }
  rewrite Heq. apply rebuild_At.
Qed.

Lemma save_selection :
  save (mkState doc selection counter)
  = Returns (mkState doc2 (mkRange P (iA + 1) P (jB + 1)) (counter + 1 + 1),
             mkRangeInfo None (Some (boundaryId (counter + 1 + 1)))
               (Some (boundaryId (counter + 1))) false false).
Proof.
  destruct selection_lengths as (Hi0 & Hij & Hj).
  pose proof selection_abs as Hat. rewrite (app_assoc A B C) in Hat, Hj.
  assert (Hi : iA <= Z.of_nat (List.length ((A ++ B) ++ C))) by lia.
  pose proof (insertRangeBoundaryMarker_child doc up P name attrs (A ++ B) C iA jB counter
                false distinct Hat notDocument Hi Hj eq_refl) as Hend.
  destruct (Z.ltb_spec jB iA) as [Hlt | _] in Hend; [lia |].
  rewrite Z.ltb_irrefl in Hend. rewrite <- (app_assoc A B (endEl :: C)) in Hend.
  assert (Hlen1 : Z.of_nat (List.length (A ++ B ++ endEl :: C))
                  = Z.of_nat (List.length ((A ++ B) ++ C)) + 1).
  { rewrite !length_app. simpl. lia. }
  assert (Hi1 : iA <= Z.of_nat (List.length (A ++ B ++ endEl :: C))) by lia.
  assert (Hj1 : jB <= Z.of_nat (List.length (A ++ B ++ endEl :: C))) by lia.
  pose proof (insertRangeBoundaryMarker_child doc1 up P name attrs A (B ++ endEl :: C) iA jB
                (counter + 1) true marked_end_NoDup marked_end_at notDocument Hi1 Hj1 eq_refl)
    as Hstart.
  rewrite Z.ltb_irrefl in Hstart.
  destruct (Z.ltb_spec iA jB) as [_ | Hge] in Hstart; [| lia].
  unfold save. cbn [liveRange]. unfold isCollapsed at 1.
  cbn [startContainer startOffset endContainer endOffset]. rewrite Nat.eqb_refl.
  destruct (Z.eqb_spec iA jB) as [Heq | _]; [lia |]. cbn [andb].
  rewrite Hend. cbn [bind]. rewrite Hstart. cbn [bind document liveRange boundaryMarkerId].
  unfold isCollapsed. cbn [startContainer startOffset endContainer endOffset].
  rewrite Nat.eqb_refl.
  destruct (Z.eqb_spec iA (jB + 1)) as [Heq | _]; [lia |]. cbn [andb].
  pose proof (parentNode_At doc2 marked_both_NoDup _ _ marked_both_end) as Hparent1.
  pose proof (indexOf_At doc2 _ up _ marked_both_NoDup marked_both_end) as Hindex1.
  pose proof (parentNode_At doc2 marked_both_NoDup _ _ marked_both_start) as Hparent2.
  pose proof (indexOf_At doc2 _ up _ marked_both_NoDup marked_both_start) as Hindex2.
  cbn [nid fparent fbefore createMarkerEl] in Hparent1, Hindex1, Hparent2, Hindex2.
  assert (Hlen : Z.of_nat (List.length (A ++ startEl :: B)) = jB + 1).
  { rewrite !length_app. simpl. lia. }
  rewrite Hlen in Hindex1.
  pose proof (lookup_At doc2 marked_both_NoDup _ _ marked_both_at) as Hlook.
  cbn [nid] in Hlook.
  assert (Hlen2 : Z.of_nat (List.length (A ++ startEl :: B ++ endEl :: C))
                  = Z.of_nat (List.length ((A ++ B) ++ C)) + 2).
  { rewrite !length_app. simpl. rewrite !length_app. simpl. lia. }
  pose proof (comparePoints_same_node doc2 up _ (jB + 1) iA marked_both_NoDup marked_both_at)
    as Hcmp1.
  pose proof (comparePoints_same_node doc2 up _ (iA + 1) (jB + 1) marked_both_NoDup
                marked_both_at) as Hcmp2.
  cbn [nid] in Hcmp1, Hcmp2.
  unfold setEndBefore. rewrite Hparent1, Hindex1.
  unfold setEnd, nodeLength. rewrite Hlook, Hlen2.
  destruct (Z.ltb_spec (jB + 1) 0); [lia |].
  destruct (Z.ltb_spec (Z.of_nat (List.length ((A ++ B) ++ C)) + 2) (jB + 1)); [lia |].
  cbn [orb startContainer startOffset endContainer endOffset]. rewrite Hcmp1.
  destruct (Z.compare_spec (jB + 1) iA); [lia | lia |]. cbn [bind].
  unfold setStartAfter. rewrite Hparent2, Hindex2.
  unfold setStart, nodeLength. rewrite Hlook, Hlen2.
  destruct (Z.ltb_spec (iA + 1) 0); [lia |].
  destruct (Z.ltb_spec (Z.of_nat (List.length ((A ++ B) ++ C)) + 2) (iA + 1)); [lia |].
  cbn [orb startContainer startOffset endContainer endOffset]. rewrite Hcmp2.
  destruct (Z.compare_spec (iA + 1) (jB + 1)); [reflexivity | reflexivity | lia].
Qed.

Hypothesis noEndMarker :
  forall y, In y (descendants host) ->
    getAttributeOf y "id" <> Some (boundaryId (counter + 1)).
Hypothesis noStartMarker :
  forall y, In y (descendants host) ->
    getAttributeOf y "id" <> Some (boundaryId (counter + 1 + 1)).

Local Abbreviation host1 := (rebuild cP (E (A ++ B ++ endEl :: C))).
Local Abbreviation host2 := (rebuild cP (E (A ++ startEl :: B ++ endEl :: C))).
Local Abbreviation isMarker id mk :=
  (fun y : Node =>
     isElement y && is_value (getAttributeOf y "id") id = true -> nid y = mk).

Lemma selection_host : host = rebuild cP (E (A ++ B ++ C)).
Proof. symmetry. exact (At_rebuild _ _ _ elementAt). Qed.

Lemma marked_end_host : At doc1 rootCtx host1 /\ nid host1 = nid host.
Proof.
  split.
  - rewrite (rebuild_app cP rootCtx (E (A ++ B ++ endEl :: C))). apply rebuild_At.
  - rewrite selection_host. apply nid_rebuild_same. reflexivity.
Qed.

Lemma marked_both_host : At doc2 rootCtx host2 /\ nid host2 = nid host.
Proof.
  split.
  - rewrite (rebuild_app cP rootCtx (E (A ++ startEl :: B ++ endEl :: C))). apply rebuild_At.
  - rewrite selection_host. apply nid_rebuild_same. reflexivity.
Qed.

Lemma isMarker_shallow : forall id mk, shallow (isMarker id mk).
Proof.
  intros id mk. split; [intros n s H; discriminate H |].
  intros n nm ats cs cs' H. exact H.
Qed.

Lemma marker_id : forall n id, getAttributeOf (createMarkerEl n id) "id" = Some id.
Proof. reflexivity. Qed.

Lemma marker_subtree :
  forall (Q : Node -> Prop) n id,
    shallow Q -> Q (createMarkerEl n id) -> Forall Q (subtree (createMarkerEl n id)).
Proof.
  intros Q n id HQ H. cbn [subtree descendants createMarkerEl flat_map app].
  constructor; [exact H |]. constructor; [apply (proj1 HQ) | constructor].
Qed.

(** No element in the selected element has the id of a marker before
    [save]. *)
Lemma no_marker_before :
  forall id mk,
    (forall y, In y (descendants host) -> getAttributeOf y "id" <> Some id) ->
    Forall (isMarker id mk) (descendants host) /\
    Forall (isMarker id mk) (flat_map subtree A) /\
    Forall (isMarker id mk) (flat_map subtree B) /\
    Forall (isMarker id mk) (flat_map subtree C).
Proof.
  intros id mk Hno.
  assert (Hold : Forall (isMarker id mk) (descendants host)).
  { apply Forall_forall. intros y Hy Hp. exfalso. apply (Hno y Hy).
    apply andb_prop in Hp. destruct Hp as (_ & Hv).
    destruct (getAttributeOf y "id") as [v |]; [| discriminate].
    simpl in Hv. apply String.eqb_eq in Hv. rewrite Hv. reflexivity. }
  split; [exact Hold |].
  rewrite selection_host in Hold. apply below_rebuild in Hold.
  change (Forall (isMarker id mk) (flat_map subtree (A ++ B ++ C))) in Hold.
  rewrite !flat_map_app in Hold. apply Forall_app in Hold. destruct Hold as (Ha & Hold).
  apply Forall_app in Hold. destruct Hold as (Hb & Hc). auto.
Qed.

Lemma getMarker_start :
  getMarker doc2 (nid host) (boundaryId (counter + 1 + 1)) = Some (freshId doc1).
Proof.
  destruct marked_both_host as (Hat & Hnid). rewrite <- Hnid.
  destruct (no_marker_before (boundaryId (counter + 1 + 1)) (freshId doc1) noStartMarker)
    as (Hold & Ha & Hb & Hc).
  apply (getMarker_unique doc2 rootCtx host2 _ startEl marked_both_NoDup Hat).
  - apply (At_descendants _ (mkFrame P name attrs A (B ++ endEl :: C) :: cP) startEl);
      [| discriminate].
    exact (rebuild_At (mkFrame P name attrs A (B ++ endEl :: C) :: cP) startEl).
  - reflexivity.
  - reflexivity.
  - rewrite selection_host in Hold.
    apply (rebuild_shallow _ cP _ _ _ _ _ (isMarker_shallow _ _) Hold).
    rewrite flat_map_app. apply Forall_app. split; [exact Ha |].
    cbn [flat_map]. apply Forall_app. split.
    + apply marker_subtree; [apply isMarker_shallow |]. intros _. reflexivity.
    + rewrite flat_map_app. apply Forall_app. split; [exact Hb |].
      cbn [flat_map]. apply Forall_app. split; [| exact Hc].
      apply marker_subtree; [apply isMarker_shallow |].
      intro H. exfalso. rewrite marker_id in H. cbn [isElement createMarkerEl andb is_value] in H.
      apply String.eqb_eq in H. apply boundaryId_injective in H. lia.
Qed.

Lemma getMarker_end :
  getMarker doc1 (nid host) (boundaryId (counter + 1)) = Some (freshId doc).
Proof.
  destruct marked_end_host as (Hat & Hnid). rewrite <- Hnid.
  destruct (no_marker_before (boundaryId (counter + 1)) (freshId doc) noEndMarker)
    as (Hold & Ha & Hb & Hc).
  apply (getMarker_unique doc1 rootCtx host1 _ endEl marked_end_NoDup Hat).
  - apply (At_descendants _ (mkFrame P name attrs (A ++ B) C :: cP) endEl); [| discriminate].
    assert (Heq : host1 = rebuild (mkFrame P name attrs (A ++ B) C :: cP) endEl).
    { simpl. unfold parentOf. simpl. rewrite <- app_assoc. reflexivity. }
    rewrite Heq. apply rebuild_At.
  - reflexivity.
  - reflexivity.
  - rewrite selection_host in Hold.
    apply (rebuild_shallow _ cP _ _ _ _ _ (isMarker_shallow _ _) Hold).
    rewrite flat_map_app. apply Forall_app. split; [exact Ha |].
    rewrite flat_map_app. apply Forall_app. split; [exact Hb |].
    cbn [flat_map]. apply Forall_app. split; [| exact Hc].
    apply marker_subtree; [apply isMarker_shallow |]. intros _. reflexivity.
Qed.

Lemma setRangeBoundary_start :
  setRangeBoundary doc2 (nid host) (createRange doc2) (boundaryId (counter + 1 + 1)) true
  = Returns (doc1, mkRange P iA P iA).
Proof.
  destruct selection_lengths as (Hi0 & Hij & Hj).
  pose proof (parentNode_At doc2 marked_both_NoDup _ _ marked_both_start) as Hparent.
  pose proof (indexOf_At doc2 _ up _ marked_both_NoDup marked_both_start) as Hindex.
  change (nid startEl) with (freshId doc1) in Hparent, Hindex.
  cbn [fparent fbefore] in Hparent, Hindex.
  pose proof (lookup_At doc2 marked_both_NoDup _ _ marked_both_at) as Hlook.
  cbn [nid] in Hlook.
  pose proof (pathOf_At doc2 up _ marked_both_NoDup marked_both_at) as Hpath.
  cbn [nid] in Hpath.
  pose proof (remove_child doc2 up P name attrs A startEl (B ++ endEl :: C) iA iA
                marked_both_NoDup marked_both_at) as Hremove.
  change (nid startEl) with (freshId doc1) in Hremove.
  rewrite Z.ltb_irrefl in Hremove.
  unfold setRangeBoundary. rewrite getMarker_start.
  unfold setStartBefore. rewrite Hparent, Hindex.
  unfold setStart, nodeLength. rewrite Hlook.
  destruct (Z.ltb_spec iA 0); [lia |].
  destruct (Z.ltb_spec (Z.of_nat (List.length (A ++ startEl :: B ++ endEl :: C))) iA)
    as [Hlt | _]; [rewrite !length_app in Hlt; simpl in Hlt; lia |].
  cbn [orb]. unfold comparePoints, createRange.
  cbn [startContainer startOffset endContainer endOffset].
  rewrite Hpath. unfold pathOf at 1. rewrite locate_top. cbn [rev map app].
  rewrite lexCompare_after_start.
  - cbn [bind]. rewrite Hremove. reflexivity.
  - intro Hnil. apply notDocument. destruct up; [reflexivity |]. simpl in Hnil.
    apply app_eq_nil in Hnil. destruct Hnil as (_ & Hnil). discriminate.
  - apply Forall_rev. apply Forall_forall. intros a Ha. apply in_map_iff in Ha.
    destruct Ha as (f & Hf & _). subst a. lia.
Qed.

Lemma setRangeBoundary_end :
  setRangeBoundary doc1 (nid host) (mkRange P iA P iA) (boundaryId (counter + 1)) false
  = Returns (doc, selection).
Proof.
  destruct selection_lengths as (Hi0 & Hij & Hj).
  pose proof (parentNode_At doc1 marked_end_NoDup _ _ marked_end_end) as Hparent.
  pose proof (indexOf_At doc1 _ up _ marked_end_NoDup marked_end_end) as Hindex.
  change (nid endEl) with (freshId doc) in Hparent, Hindex.
  cbn [fparent fbefore] in Hparent, Hindex.
  pose proof (lookup_At doc1 marked_end_NoDup _ _ marked_end_at) as Hlook.
  cbn [nid] in Hlook.
  pose proof (comparePoints_same_node doc1 up _ jB iA marked_end_NoDup marked_end_at) as Hcmp.
  cbn [nid] in Hcmp.
  assert (Hremove : remove doc1 selection (freshId doc) = (doc, selection)).
  { pose proof marked_end_at as Hat.
    pose proof marked_end_NoDup as Hnd.
    rewrite (app_assoc A B (endEl :: C)) in Hat, Hnd.
    pose proof (remove_child _ up P name attrs (A ++ B) endEl C iA jB Hnd Hat) as H.
    change (nid endEl) with (freshId doc) in H.
    rewrite Z.ltb_irrefl in H.
    destruct (Z.ltb_spec jB iA) as [Hlt | _] in H; [lia |].
    rewrite <- (app_assoc A B (endEl :: C)) in H. rewrite <- (app_assoc A B C) in H.
    rewrite (At_rebuild _ _ _ selection_abs) in H. exact H. }
  unfold setRangeBoundary. rewrite getMarker_end.
  unfold setEndBefore. rewrite Hparent, Hindex.
  unfold setEnd, nodeLength. rewrite Hlook.
  destruct (Z.ltb_spec jB 0); [lia |].
  destruct (Z.ltb_spec (Z.of_nat (List.length (A ++ B ++ endEl :: C))) jB)
    as [Hlt | _]; [rewrite !length_app in Hlt; simpl in Hlt; rewrite !length_app in Hj; lia |].
  cbn [orb startContainer startOffset endContainer endOffset]. rewrite Hcmp.
  destruct (Z.compare_spec jB iA); [lia | lia |].
  cbn [bind]. rewrite Hremove. reflexivity.
Qed.

Lemma restore_selection :
  restore doc2 (nid host)
    (mkRangeInfo None (Some (boundaryId (counter + 1 + 1)))
       (Some (boundaryId (counter + 1))) false false)
  = Returns (doc, Some selection).
Proof.
  unfold restore. cbn [restored collapsed startMarkerId endMarkerId truthyId].
  rewrite !boundaryId_not_empty.
  rewrite setRangeBoundary_start. cbn [bind fst snd].
  rewrite setRangeBoundary_end. cbn [bind fst snd].
  rewrite normalizeBoundaries_same_container. reflexivity.
Qed.

(** A range from a text node of the first selected child element to a
    text node of the last one. *)

Variable Mid : list Node.
Variables (bs : nat) (nameS : string) (attrsS : list (string * string)).
Variables (K1 K2 : list Node) (ts : nat) (ds : string).
Variables (be : nat) (nameE : string) (attrsE : list (string * string)).
Variables (L1 L2 : list Node) (te : nat) (de : string).
Variables (o1 o2 : Z).

Hypothesis ends :
  B = ElementNode bs nameS attrsS (K1 ++ TextNode ts ds :: K2)
      :: Mid ++ [ElementNode be nameE attrsE (L1 ++ TextNode te de :: L2)].

Local Abbreviation textRange := (mkRange ts o1 te o2).

Lemma expanded_end :
  insertRangeBoundaryMarker (mkState doc textRange counter) false
  = Returns (mkState doc1 textRange (counter + 1), freshId doc).
Proof.
  destruct (range_in_two_children doc up P name attrs A Mid C bs nameS attrsS K1 ts ds K2
              be nameE attrsE L1 te de L2 o1 o2 B ends distinct selection_abs notDocument)
    as (Hcommon & _ & Hsecond & _ & _ & Hp & Hpb & Hnext & Hts & Hte & _ & _).
  pose proof selection_abs as Hat. rewrite (app_assoc A B C) in Hat.
  pose proof (At_proper_nid _ _ _ Hat notDocument distinct) as Hne. cbn [nid] in Hne.
  apply Nat.eqb_neq in Hne.
  unfold insertRangeBoundaryMarker. cbn [document liveRange boundaryMarkerId].
  rewrite Hcommon, Hne.
  cbn [andb negb startContainer startOffset endContainer endOffset].
  rewrite Hsecond, Hp, Hpb, Hnext.
  rewrite (insertBefore_outside doc up P name attrs (A ++ B) C endEl ts o1 te o2
             distinct Hat Hts Hte).
  rewrite <- (app_assoc A B (endEl :: C)). reflexivity.
Qed.

Lemma expanded_start :
  insertRangeBoundaryMarker (mkState doc1 textRange (counter + 1)) true
  = Returns (mkState doc2 textRange (counter + 1 + 1), freshId doc1).
Proof.
  destruct (range_in_two_children doc1 up P name attrs A Mid (endEl :: C) bs nameS attrsS
              K1 ts ds K2 be nameE attrsE L1 te de L2 o1 o2 B ends marked_end_NoDup
              marked_end_at notDocument)
    as (Hcommon & Hsecond & _ & Hp & Hpb & _ & _ & _ & Hts & Hte & _ & _).
  pose proof (At_proper_nid _ _ _ marked_end_at notDocument marked_end_NoDup) as Hne.
  cbn [nid] in Hne. apply Nat.eqb_neq in Hne.
  pose proof (insertBefore_outside doc1 up P name attrs A (B ++ endEl :: C) startEl
                ts o1 te o2 marked_end_NoDup marked_end_at Hts Hte) as Hinsert.
  assert (Hhd : option_map nid (hd_error (B ++ endEl :: C)) = Some bs).
  { rewrite ends. reflexivity. }
  rewrite Hhd in Hinsert.
  unfold insertRangeBoundaryMarker. cbn [document liveRange boundaryMarkerId].
  rewrite Hcommon, Hne.
  cbn [andb negb startContainer startOffset endContainer endOffset].
  rewrite Hsecond, Hp, Hpb, Hinsert. reflexivity.
Qed.

Lemma save_expanded :
  save (mkState doc textRange counter)
  = Returns (mkState doc2 (mkRange P (iA + 1) P (jB + 1)) (counter + 1 + 1),
             mkRangeInfo None (Some (boundaryId (counter + 1 + 1)))
               (Some (boundaryId (counter + 1))) false false).
Proof.
  destruct selection_lengths as (Hi0 & Hij & Hj).
  destruct (range_in_two_children doc up P name attrs A Mid C bs nameS attrsS K1 ts ds K2
              be nameE attrsE L1 te de L2 o1 o2 B ends distinct selection_abs notDocument)
    as (_ & _ & _ & _ & _ & _ & _ & _ & _ & _ & Hne & HtsB).
  apply Nat.eqb_neq in Hne.
  unfold save. cbn [liveRange]. unfold isCollapsed at 1.
  cbn [startContainer startOffset endContainer endOffset]. rewrite Hne. cbn [andb].
  rewrite expanded_end. cbn [bind]. rewrite expanded_start.
  cbn [bind document liveRange boundaryMarkerId].
  unfold isCollapsed. cbn [startContainer startOffset endContainer endOffset].
  rewrite Hne. cbn [andb].
  pose proof (parentNode_At doc2 marked_both_NoDup _ _ marked_both_end) as Hparent1.
  pose proof (indexOf_At doc2 _ up _ marked_both_NoDup marked_both_end) as Hindex1.
  pose proof (parentNode_At doc2 marked_both_NoDup _ _ marked_both_start) as Hparent2.
  pose proof (indexOf_At doc2 _ up _ marked_both_NoDup marked_both_start) as Hindex2.
  change (nid endEl) with (freshId doc) in Hparent1, Hindex1.
  change (nid startEl) with (freshId doc1) in Hparent2, Hindex2.
  cbn [fparent fbefore] in Hparent1, Hindex1, Hparent2, Hindex2.
  assert (Hlen : Z.of_nat (List.length (A ++ startEl :: B)) = jB + 1).
  { rewrite !length_app. simpl. lia. }
  pose proof (lookup_At doc2 marked_both_NoDup _ _ marked_both_at) as Hlook.
  cbn [nid] in Hlook.
  assert (Hlen2 : Z.of_nat (List.length (A ++ startEl :: B ++ endEl :: C))
                  = Z.of_nat (List.length (A ++ B ++ C)) + 2).
  { rewrite !length_app. simpl. rewrite !length_app. simpl. lia. }
  assert (Hcmp1 : comparePoints doc2 P (jB + 1) ts o1 = Some Gt).
  { assert (Hin : In ts (ids doc2)).
    { apply (At_ids _ _ _ marked_both_at). cbn [ids]. right.
      rewrite flat_map_app. apply in_or_app. right.
      cbn [flat_map]. apply in_or_app. right.
      rewrite flat_map_app. apply in_or_app. left. exact HtsB. }
    destruct (ids_At _ _ Hin) as (c & y & Hy & Hnid).
    pose proof (pathOf_At doc2 _ _ marked_both_NoDup marked_both_at) as HpathP.
    cbn [nid] in HpathP.
    pose proof (pathOf_At doc2 _ _ marked_both_NoDup Hy) as Hpath. rewrite Hnid in Hpath.
    unfold comparePoints. rewrite HpathP, Hpath. f_equal.
    pose proof (before_order doc2 _ _ _ _ [] [o1] marked_both_NoDup marked_both_end Hy) as H.
    cbn [map rev fbefore] in H. rewrite app_nil_r in H. rewrite Hlen in H.
    apply H. rewrite Hnid. unfold beforeIds. cbn [flat_map fbefore].
    apply in_or_app. left. rewrite flat_map_app. apply in_or_app. right.
    cbn [flat_map]. apply in_or_app. right. exact HtsB. }
  pose proof (comparePoints_same_node doc2 up _ (iA + 1) (jB + 1) marked_both_NoDup
                marked_both_at) as Hcmp2.
  cbn [nid] in Hcmp2.
  rewrite Hlen in Hindex1.
  unfold setEndBefore. rewrite Hparent1, Hindex1.
  unfold setEnd, nodeLength. rewrite Hlook, Hlen2.
  destruct (Z.ltb_spec (jB + 1) 0); [lia |].
  destruct (Z.ltb_spec (Z.of_nat (List.length (A ++ B ++ C)) + 2) (jB + 1)); [lia |].
  cbn [orb startContainer startOffset endContainer endOffset]. rewrite Hcmp1.
  cbn [bind].
  unfold setStartAfter. rewrite Hparent2, Hindex2.
  unfold setStart, nodeLength. rewrite Hlook, Hlen2.
  destruct (Z.ltb_spec (iA + 1) 0); [lia |].
  destruct (Z.ltb_spec (Z.of_nat (List.length (A ++ B ++ C)) + 2) (iA + 1)); [lia |].
  cbn [orb startContainer startOffset endContainer endOffset]. rewrite Hcmp2.
  destruct (Z.compare_spec (iA + 1) (jB + 1)); [reflexivity | reflexivity | lia].
Qed.


End SelectionSave.

Section SelectionExtras.
Import Dom DomEdit RangeSaveRestore RangeSave Walk.

(** Saving a selection of child nodes of an element and restoring it
    gives back the document and the selection.  The range starts in front
    of the children [B] of the element and ends behind them; the element
    is not the document.  [save] puts the end marker behind the selected
    children and the start marker in front of them, and the saved range
    selects the same children between the markers; [restore] finds both
    markers by their ids, removes them, and returns the range it was
    given, in the document as it was before [save].  The two ids must not
    be ids of elements of the host already. *)
Theorem save_then_restore_returns_selection :
  forall (doc : Node) (rootCtx : Ctx) (host : Node) (cP : Ctx) (P : nat) (name : string)
         (attrs : list (string * string)) (A B C : list Node) (counter : Z),
    NoDup (ids doc) -> At doc rootCtx host ->
    At host cP (ElementNode P name attrs (A ++ B ++ C)) ->
    cP ++ rootCtx <> [] -> B <> [] ->
    (forall y, In y (descendants host) ->
       getAttributeOf y "id" <> Some (boundaryId (counter + 1))) ->
    (forall y, In y (descendants host) ->
       getAttributeOf y "id" <> Some (boundaryId (counter + 2))) ->
    exists saved rangeInfo startEl endEl,
      save (mkState doc
              (mkRange P (Z.of_nat (List.length A)) P (Z.of_nat (List.length (A ++ B))))
              counter)
        = Returns (saved, rangeInfo) /\
      boundaryMarkerId saved = counter + 2 /\
      startMarkerId rangeInfo = Some (boundaryId (counter + 2)) /\
      endMarkerId rangeInfo = Some (boundaryId (counter + 1)) /\
      document saved
        = rebuild (cP ++ rootCtx)
            (ElementNode P name attrs
               (A ++ createMarkerEl startEl (boundaryId (counter + 2))
                  :: B ++ createMarkerEl endEl (boundaryId (counter + 1)) :: C)) /\
      liveRange saved
        = mkRange P (Z.of_nat (List.length A) + 1) P (Z.of_nat (List.length (A ++ B)) + 1) /\
      restore (document saved) (nid host) rangeInfo
        = Returns (doc,
                   Some (mkRange P (Z.of_nat (List.length A))
                           P (Z.of_nat (List.length (A ++ B))))).
Proof.
  intros doc rootCtx host cP P name attrs A B C counter Hnd Hhost Hel Hne HB Hno1 Hno2.
  replace (counter + 2) with (counter + 1 + 1) in * by lia.
  eexists. eexists. eexists. eexists.
  split; [exact (save_selection doc rootCtx host cP P name attrs A B C counter
                   Hnd Hhost Hel Hne HB) |].
  split; [reflexivity |]. split; [reflexivity |]. split; [reflexivity |].
  split; [reflexivity |]. split; [reflexivity |].
  exact (restore_selection doc rootCtx host cP P name attrs A B C counter
           Hnd Hhost Hel Hne HB Hno1 Hno2).
Qed.

Lemma save_then_restore_returns_selection_witness :
  exists saved rangeInfo startEl endEl,
    save (mkState Samples.abcDoc
            (mkRange 1 (Z.of_nat (List.length (@nil Node)))
               1 (Z.of_nat (List.length ([] ++ [TextNode 2 "abc"]))))
            0)
      = Returns (saved, rangeInfo) /\
    boundaryMarkerId saved = 0 + 2 /\
    startMarkerId rangeInfo = Some (boundaryId (0 + 2)) /\
    endMarkerId rangeInfo = Some (boundaryId (0 + 1)) /\
    document saved
      = rebuild ([] ++ [Samples.documentFrame])
          (ElementNode 1 "DIV" []
             ([] ++ createMarkerEl startEl (boundaryId (0 + 2))
                :: [TextNode 2 "abc"] ++ createMarkerEl endEl (boundaryId (0 + 1)) :: [])) /\
    liveRange saved
      = mkRange 1 (Z.of_nat (List.length (@nil Node)) + 1)
          1 (Z.of_nat (List.length ([] ++ [TextNode 2 "abc"])) + 1) /\
    restore (document saved) (nid Samples.abcHost) rangeInfo
      = Returns (Samples.abcDoc,
                 Some (mkRange 1 (Z.of_nat (List.length (@nil Node)))
                         1 (Z.of_nat (List.length ([] ++ [TextNode 2 "abc"]))))).
Proof.
  apply (save_then_restore_returns_selection Samples.abcDoc [Samples.documentFrame]
           Samples.abcHost [] 1 "DIV" [] [] [TextNode 2 "abc"] [] 0).
  - distinct_ids.
  - exact (At_child 0 "#document" [] [] Samples.abcHost [] [] Samples.abcHost
             (At_here Samples.abcHost)).
  - exact (At_here Samples.abcHost).
  - discriminate.
  - discriminate.
  - intros y Hy. simpl in Hy. destruct Hy as [Hy | []]. subst y. discriminate.
  - intros y Hy. simpl in Hy. destruct Hy as [Hy | []]. subst y. discriminate.
Defined.

(** [save] widens a selection that starts in a text node of a child
    element and ends in a text node of a later child element of the same
    parent: the start marker is put in front of the first element and the
    end marker behind the last one, so no text node is split and the
    elements stay whole, whatever the offsets in the text nodes are.  The
    saved range selects the elements between the markers, and [restore]
    gives back the document and returns the range around the elements. *)
Theorem save_widens_selection_to_elements :
  forall (doc : Node) (rootCtx : Ctx) (host : Node) (cP : Ctx) (P : nat) (name : string)
         (attrs : list (string * string)) (A Mid C : list Node)
         (bs : nat) (nameS : string) (attrsS : list (string * string))
         (K1 K2 : list Node) (ts : nat) (ds : string)
         (be : nat) (nameE : string) (attrsE : list (string * string))
         (L1 L2 : list Node) (te : nat) (de : string) (o1 o2 counter : Z),
    NoDup (ids doc) -> At doc rootCtx host ->
    At host cP
      (ElementNode P name attrs
         (A ++ (ElementNode bs nameS attrsS (K1 ++ TextNode ts ds :: K2)
                :: Mid ++ [ElementNode be nameE attrsE (L1 ++ TextNode te de :: L2)])
            ++ C)) ->
    cP ++ rootCtx <> [] ->
    (forall y, In y (descendants host) ->
       getAttributeOf y "id" <> Some (boundaryId (counter + 1))) ->
    (forall y, In y (descendants host) ->
       getAttributeOf y "id" <> Some (boundaryId (counter + 2))) ->
    exists saved rangeInfo startEl endEl,
      save (mkState doc (mkRange ts o1 te o2) counter) = Returns (saved, rangeInfo) /\
      document saved
        = rebuild (cP ++ rootCtx)
            (ElementNode P name attrs
               (A ++ createMarkerEl startEl (boundaryId (counter + 2))
                  :: (ElementNode bs nameS attrsS (K1 ++ TextNode ts ds :: K2)
                      :: Mid ++ [ElementNode be nameE attrsE (L1 ++ TextNode te de :: L2)])
                     ++ createMarkerEl endEl (boundaryId (counter + 1)) :: C)) /\
      liveRange saved
        = mkRange P (Z.of_nat (List.length A) + 1)
            P (Z.of_nat (List.length
                           (A ++ ElementNode bs nameS attrsS (K1 ++ TextNode ts ds :: K2)
                              :: Mid
                                 ++ [ElementNode be nameE attrsE
                                       (L1 ++ TextNode te de :: L2)])) + 1) /\
      restore (document saved) (nid host) rangeInfo
        = Returns (doc,
                   Some (mkRange P (Z.of_nat (List.length A))
                           P (Z.of_nat (List.length
                                          (A ++ ElementNode bs nameS attrsS
                                                  (K1 ++ TextNode ts ds :: K2)
                                             :: Mid
                                                ++ [ElementNode be nameE attrsE
                                                      (L1 ++ TextNode te de :: L2)]))))).
Proof.
  intros doc rootCtx host cP P name attrs A Mid C bs nameS attrsS K1 K2 ts ds
         be nameE attrsE L1 L2 te de o1 o2 counter Hnd Hhost Hel Hne Hno1 Hno2.
  replace (counter + 2) with (counter + 1 + 1) in * by lia.
  assert (Hsel : ElementNode bs nameS attrsS (K1 ++ TextNode ts ds :: K2)
                 :: Mid ++ [ElementNode be nameE attrsE (L1 ++ TextNode te de :: L2)] <> [])
    by discriminate.
  eexists. eexists. eexists. eexists.
  split; [exact (save_expanded doc rootCtx host cP P name attrs A _ C counter
                   Hnd Hhost Hel Hne Hsel Mid bs nameS attrsS K1 K2 ts ds
                   be nameE attrsE L1 L2 te de o1 o2 eq_refl) |].
  split; [reflexivity |]. split; [reflexivity |].
  exact (restore_selection doc rootCtx host cP P name attrs A _ C counter
           Hnd Hhost Hel Hne Hsel Hno1 Hno2).
Qed.

Lemma save_widens_selection_to_elements_witness :
  exists saved rangeInfo startEl endEl,
    save (mkState
            (ElementNode 0 "#document" []
               [ElementNode 1 "DIV" []
                  [ElementNode 2 "EM" [] [TextNode 3 "a"];
                   ElementNode 4 "EM" [] [TextNode 5 "b"]]])
            (mkRange 3 0 5 1) 0)
      = Returns (saved, rangeInfo) /\
    document saved
      = rebuild ([] ++ [Samples.documentFrame])
          (ElementNode 1 "DIV" []
             ([] ++ createMarkerEl startEl (boundaryId (0 + 2))
                :: (ElementNode 2 "EM" [] ([] ++ TextNode 3 "a" :: [])
                    :: [] ++ [ElementNode 4 "EM" [] ([] ++ TextNode 5 "b" :: [])])
                   ++ createMarkerEl endEl (boundaryId (0 + 1)) :: [])) /\
    liveRange saved
      = mkRange 1 (Z.of_nat (List.length (@nil Node)) + 1)
          1 (Z.of_nat (List.length
                         ([] ++ ElementNode 2 "EM" [] ([] ++ TextNode 3 "a" :: [])
                             :: [] ++ [ElementNode 4 "EM" [] ([] ++ TextNode 5 "b" :: [])])) + 1) /\
    restore (document saved)
      (nid (ElementNode 1 "DIV" []
              [ElementNode 2 "EM" [] [TextNode 3 "a"];
               ElementNode 4 "EM" [] [TextNode 5 "b"]]))
      rangeInfo
      = Returns (ElementNode 0 "#document" []
                   [ElementNode 1 "DIV" []
                      [ElementNode 2 "EM" [] [TextNode 3 "a"];
                       ElementNode 4 "EM" [] [TextNode 5 "b"]]],
                 Some (mkRange 1 (Z.of_nat (List.length (@nil Node)))
                         1 (Z.of_nat (List.length
                                        ([] ++ ElementNode 2 "EM" [] ([] ++ TextNode 3 "a" :: [])
                                            :: [] ++ [ElementNode 4 "EM" []
                                                        ([] ++ TextNode 5 "b" :: [])]))))).
Proof.
  apply (save_widens_selection_to_elements
           (ElementNode 0 "#document" []
              [ElementNode 1 "DIV" []
                 [ElementNode 2 "EM" [] [TextNode 3 "a"];
                  ElementNode 4 "EM" [] [TextNode 5 "b"]]])
           [Samples.documentFrame]
           (ElementNode 1 "DIV" []
              [ElementNode 2 "EM" [] [TextNode 3 "a"];
               ElementNode 4 "EM" [] [TextNode 5 "b"]])
           [] 1 "DIV" [] [] [] [] 2 "EM" [] [] [] 3 "a" 4 "EM" [] [] [] 5 "b" 0 1 0).
  - distinct_ids.
  - exact (At_child 0 "#document" [] [] _ [] [] _ (At_here _)).
  - exact (At_here _).
  - discriminate.
  - intros y Hy. simpl in Hy.
    repeat (destruct Hy as [Hy | Hy]; [subst y; discriminate |]). destruct Hy.
  - intros y Hy. simpl in Hy.
    repeat (destruct Hy as [Hy | Hy]; [subst y; discriminate |]). destruct Hy.
Defined.

End SelectionExtras.

(** ** A range from character offsets *)

Section CharacterRangeFacts.
Import Dom DomEdit RangeSaveRestore Element Walk Shape CharacterRange.

Lemma ids_subtree : forall x, ids x = nid x :: map nid (descendants x).
Proof.
  induction x as [i d | i name attrs cs IH] using Node_induction; [reflexivity |].
  simpl. f_equal. induction cs as [| ch cs IHcs]; [reflexivity |].
  inversion IH as [| ? ? Hch Hcs]; subst. simpl. rewrite map_app.
  rewrite Hch. simpl. f_equal. f_equal. apply IHcs. assumption.
Qed.

Lemma subtree_ids : forall b y, In y (subtree b) -> In (nid y) (ids b).
Proof.
  intros b y Hy. rewrite ids_subtree. destruct Hy as [Hy | Hy]; [left; subst; reflexivity |].
  right. apply in_map. assumption.
Qed.

Lemma textNodes_NoDup :
  forall x, NoDup (ids x) -> NoDup (map nid (filter showText (subtree x))).
Proof.
  intros x H. apply NoDup_map_filter. rewrite ids_subtree in H. exact H.
Qed.

(** The text of a node is the data of the text nodes of its subtree. *)
Lemma textContent_texts :
  forall x, textContentOf x = concatAll (map textContentOf (filter showText (subtree x))).
Proof.
  induction x as [i d | i name attrs cs IH] using Node_induction.
  - simpl. rewrite append_nil_r. reflexivity.
  - cbn [subtree descendants filter showText textContentOf].
    induction cs as [| ch cs IHcs]; [reflexivity |].
    inversion IH as [| ? ? Hch Hcs]; subst.
    cbn [map flat_map]. rewrite filter_app, map_app, concatAll_app.
    rewrite <- (IHcs Hcs).
    change (ch :: descendants ch) with (subtree ch). rewrite <- Hch. reflexivity.
Qed.

Lemma split_unique :
  forall (l1 l1' : list Node) x l2 l2',
    NoDup (map nid (l1 ++ x :: l2)) -> l1 ++ x :: l2 = l1' ++ x :: l2' -> l1 = l1'.
Proof.
  induction l1 as [| a l1 IH]; intros [| a' l1'] x l2 l2' Hnd Heq.
  - reflexivity.
  - exfalso. simpl in Heq. injection Heq as Hx Hl. subst a' l2.
    simpl in Hnd. inversion Hnd as [| ? ? Hnot _]; subst. apply Hnot.
    rewrite map_app. apply in_or_app. right. left. reflexivity.
  - exfalso. simpl in Heq. injection Heq as Hx Hl. subst a.
    simpl in Hnd. inversion Hnd as [| ? ? Hnot _]; subst. apply Hnot.
    rewrite map_app. apply in_or_app. right. left. reflexivity.
  - simpl in Heq. injection Heq as Ha Hl. subst a'. f_equal.
    simpl in Hnd. inversion Hnd as [| ? ? _ Hrest]; subst.
    exact (IH _ _ _ _ Hrest Hl).
Qed.

(** The text nodes in front of a node are in the subtrees before its
    path. *)
Lemma texts_around :
  forall x c s, At x c s ->
    exists L R,
      filter showText (subtree x) = L ++ filter showText (subtree s) ++ R /\
      forall y, In y L -> In (nid y) (beforeIds c).
Proof.
  intros x c s H. induction H as [x | i name attrs l1 ch l2 c s H IH].
  - exists [], []. rewrite app_nil_r. split; [reflexivity | intros y []].
  - destruct IH as (L & R & Heq & HL).
    exists (filter showText (flat_map subtree l1) ++ L),
           (R ++ filter showText (flat_map subtree l2)).
    split.
    + cbn [subtree descendants filter showText].
      change (fun ch0 : Node => ch0 :: descendants ch0) with subtree.
      rewrite flat_map_app. cbn [flat_map]. rewrite !filter_app. rewrite Heq.
      rewrite <- !app_assoc. reflexivity.
    + intros y Hy. unfold beforeIds. rewrite flat_map_app. apply in_or_app.
      apply in_app_or in Hy. destruct Hy as [Hy | Hy].
      * right. cbn [flat_map fbefore]. rewrite app_nil_r.
        apply filter_In in Hy. destruct Hy as (Hy & _).
        apply in_flat_map in Hy. destruct Hy as (b & Hb & Hy).
        apply in_flat_map. exists b. split; [assumption |]. apply subtree_ids. assumption.
      * left. apply (HL y Hy).
Qed.

(** Of two text nodes below an element, the one the walker visits later
    lies after the other in the document. *)
Lemma texts_order :
  forall doc rootCtx i name attrs cs l1 SN mid en ed l2 so eo,
    NoDup (ids doc) -> At doc rootCtx (ElementNode i name attrs cs) ->
    textNodesBelow (ElementNode i name attrs cs) = l1 ++ SN :: mid ++ TextNode en ed :: l2 ->
    comparePoints doc en eo (nid SN) so = Some Gt.
Proof.
  intros doc rootCtx i name attrs cs l1 SN mid en ed l2 so eo Hnd Hroot Hlist.
  set (root := ElementNode i name attrs cs) in *.
  assert (HinE : In (TextNode en ed) (descendants root)).
  { assert (H : In (TextNode en ed) (textNodesBelow root)).
    { rewrite Hlist. apply in_or_app. right. right. apply in_or_app. right. left. reflexivity. }
    apply filter_In in H. apply H. }
  assert (HinS : In SN (descendants root)).
  { assert (H : In SN (textNodesBelow root)).
    { rewrite Hlist. apply in_or_app. right. left. reflexivity. }
    apply filter_In in H. apply H. }
  destruct (descendants_At _ _ HinE) as (cE & HatE & _).
  destruct (descendants_At _ _ HinS) as (cS & HatS & _).
  destruct (texts_around _ _ _ HatE) as (L & R & Hsplit & HL).
  change (filter showText (subtree root)) with (textNodesBelow root) in Hsplit.
  cbn [subtree descendants filter showText app] in Hsplit.
  assert (HndT : NoDup (map nid (textNodesBelow root))).
  { exact (textNodes_NoDup root (At_NoDup _ _ _ Hroot Hnd)). }
  assert (HL' : L = l1 ++ SN :: mid).
  { symmetry. apply (split_unique _ _ (TextNode en ed) l2 R).
    - rewrite <- app_assoc. cbn [app]. rewrite <- Hlist. exact HndT.
    - rewrite <- app_assoc. cbn [app]. rewrite <- Hlist. exact Hsplit. }
  assert (Hbefore : In (nid SN) (beforeIds (cE ++ rootCtx))).
  { unfold beforeIds. rewrite flat_map_app. apply in_or_app. left.
    apply HL. rewrite HL'. apply in_or_app. right. left. reflexivity. }
  pose proof (At_trans _ _ _ Hroot _ _ HatE) as HabsE.
  pose proof (At_trans _ _ _ Hroot _ _ HatS) as HabsS.
  unfold comparePoints.
  pose proof (pathOf_At doc _ _ Hnd HabsE) as HpE. cbn [nid] in HpE. rewrite HpE.
  rewrite (pathOf_At doc _ _ Hnd HabsS).
  f_equal. exact (before_order doc _ _ _ _ [eo] [so] Hnd HabsE HabsS Hbefore).
Qed.

(** Length of the data of a list of text nodes. *)
Local Abbreviation dataLength l :=
  (Z.of_nat (String.length (concatAll (map textContentOf l)))).

Lemma dataLength_cons :
  forall x l, dataLength (x :: l) = Z.of_nat (String.length (textContentOf x)) + dataLength l.
Proof. intros x l. simpl. rewrite length_append. lia. Qed.

Lemma walk_end :
  forall s e nodes c st,
    Forall (fun x => showText x = true) nodes ->
    s < c -> c < e -> e <= c + dataLength nodes ->
    exists l1 en ed l2,
      nodes = l1 ++ TextNode en ed :: l2 /\
      walk s e nodes c (Some st) = (Some st, Some (en, e - (c + dataLength l1))) /\
      0 < e - (c + dataLength l1) <= Z.of_nat (String.length ed).
Proof.
  intros s e nodes. induction nodes as [| x rest IH]; intros c st Hall Hs He Htotal.
  - simpl in Htotal. lia.
  - inversion Hall as [| ? ? Hx Hrest]; subst.
    destruct x as [n d | n name attrs cs]; [| discriminate Hx].
    rewrite dataLength_cons in Htotal. cbn [textContentOf] in Htotal.
    cbn [walk nodeValueLength nid].
    destruct (Z.leb_spec (c + Z.of_nat (String.length d)) s) as [Hle | _]; [lia |].
    rewrite Z.geb_leb.
    destruct (Z.leb_spec e (c + Z.of_nat (String.length d))) as [Hend | Hmore].
    + exists [], n, d, rest. simpl. rewrite Z.add_0_r. repeat split; lia.
    + destruct (IH (c + Z.of_nat (String.length d)) st Hrest) as (l1 & en & ed & l2 & Hl & Hw & Hb);
        [lia | lia | lia |].
      exists (TextNode n d :: l1), en, ed, l2.
      rewrite dataLength_cons. cbn [textContentOf].
      replace (c + (Z.of_nat (String.length d) + dataLength l1))
        with (c + Z.of_nat (String.length d) + dataLength l1) by lia.
      split; [rewrite Hl; reflexivity |]. split; [exact Hw | exact Hb].
Qed.

Lemma walk_start :
  forall s e nodes c,
    Forall (fun x => showText x = true) nodes ->
    c <= s -> s <= e -> s < c + dataLength nodes -> e <= c + dataLength nodes ->
    exists l1 sn sd l2 l1' en ed l2',
      nodes = l1 ++ TextNode sn sd :: l2 /\
      nodes = l1' ++ TextNode en ed :: l2' /\
      walk s e nodes c None
        = (Some (sn, s - (c + dataLength l1)), Some (en, e - (c + dataLength l1'))) /\
      0 <= s - (c + dataLength l1) < Z.of_nat (String.length sd) /\
      0 <= e - (c + dataLength l1') <= Z.of_nat (String.length ed) /\
      (s < e -> 0 < e - (c + dataLength l1')) /\
      ((l1' = l1 /\ en = sn) \/ exists mid, l1' = l1 ++ TextNode sn sd :: mid).
Proof.
  intros s e nodes. induction nodes as [| x rest IH]; intros c Hall Hc Hse Hs He.
  - simpl in Hs. lia.
  - inversion Hall as [| ? ? Hx Hrest]; subst.
    destruct x as [n d | n name attrs cs]; [| discriminate Hx].
    rewrite dataLength_cons in Hs, He. cbn [textContentOf] in Hs, He.
    cbn [walk nodeValueLength nid].
    destruct (Z.leb_spec (c + Z.of_nat (String.length d)) s) as [Hskip | Hhere].
    + destruct (IH (c + Z.of_nat (String.length d)) Hrest)
        as (l1 & sn & sd & l2 & l1' & en & ed & l2' & Hl & Hl' & Hw & Hb & Hb' & Hpos & Hord);
        [lia | lia | lia | lia |].
      exists (TextNode n d :: l1), sn, sd, l2, (TextNode n d :: l1'), en, ed, l2'.
      rewrite !dataLength_cons. cbn [textContentOf].
      replace (c + (Z.of_nat (String.length d) + dataLength l1))
        with (c + Z.of_nat (String.length d) + dataLength l1) by lia.
      replace (c + (Z.of_nat (String.length d) + dataLength l1'))
        with (c + Z.of_nat (String.length d) + dataLength l1') by lia.
      split; [rewrite Hl at 1; reflexivity |].
      split; [rewrite Hl' at 1; reflexivity |].
      split; [exact Hw |]. split; [exact Hb |]. split; [exact Hb' |]. split; [exact Hpos |].
      destruct Hord as [(Heq & Hn) | (mid & Hmid)].
      * left. split; [rewrite Heq; reflexivity | exact Hn].
      * right. exists mid. rewrite Hmid. reflexivity.
    + rewrite Z.geb_leb.
      destruct (Z.leb_spec e (c + Z.of_nat (String.length d))) as [Hend | Hmore].
      * exists [], n, d, rest, [], n, d, rest. simpl. rewrite Z.add_0_r.
        repeat split; try lia. left. split; reflexivity.
      * destruct (walk_end s e rest (c + Z.of_nat (String.length d)) (n, s - c) Hrest)
          as (l1' & en & ed & l2' & Hl' & Hw & Hb'); [lia | lia | lia |].
        exists [], n, d, rest, (TextNode n d :: l1'), en, ed, l2'.
        rewrite dataLength_cons. cbn [textContentOf].
        replace (c + (Z.of_nat (String.length d) + dataLength l1'))
          with (c + Z.of_nat (String.length d) + dataLength l1') by lia.
        simpl. rewrite Z.add_0_r.
        split; [reflexivity |]. split; [rewrite Hl'; reflexivity |].
        split; [exact Hw |]. split; [lia |]. split; [lia |]. split; [lia |].
        right. exists l1'. reflexivity.
Qed.

Lemma walk_no_end :
  forall s e nodes c st,
    Forall (fun x => showText x = true) nodes ->
    c + dataLength nodes <= s \/ c + dataLength nodes < e ->
    (st = None -> c + dataLength nodes <= s -> fst (walk s e nodes c st) = None) /\
    (c + dataLength nodes < e -> snd (walk s e nodes c st) = None).
Proof.
  intros s e nodes. induction nodes as [| x rest IH]; intros c st Hall Hout.
  - simpl. split; [intros H _; exact H | reflexivity].
  - inversion Hall as [| ? ? Hx Hrest]; subst.
    destruct x as [n d | n name attrs cs]; [| discriminate Hx].
    rewrite dataLength_cons in *. cbn [textContentOf] in *.
    cbn [walk nodeValueLength nid].
    assert (Hnn : 0 <= dataLength rest) by lia.
    destruct (Z.leb_spec (c + Z.of_nat (String.length d)) s) as [Hskip | Hhere].
    + destruct (IH (c + Z.of_nat (String.length d)) st Hrest) as (H1 & H2); [lia |].
      split; [intros Hst Hle; apply H1; [exact Hst | lia] | intro Hlt; apply H2; lia].
    + split; [intros _ Hle; lia |]. intro Hlt.
      rewrite Z.geb_leb.
      destruct (Z.leb_spec e (c + Z.of_nat (String.length d))) as [Hend | Hmore]; [lia |].
      destruct (IH (c + Z.of_nat (String.length d))
                  (match st with
                   | Some _ => st
                   | None => Some (n, s - c)
                   end) Hrest) as (_ & H2); [lia |].
      apply H2. lia.
Qed.

Lemma textNodesBelow_texts :
  forall x, Forall (fun y => showText y = true) (textNodesBelow x).
Proof.
  intro x. apply Forall_forall. intros y Hy. apply filter_In in Hy. apply Hy.
Qed.

(** The range [createRangeFromCharacterRange] makes for offsets that lie
    in the text of the element. *)
Lemma createRange_at_offsets :
  forall (doc : Node) (rootCtx : Ctx) (i : nat) (name : string)
         (attrs : list (string * string)) (cs : list Node) (s e : Z),
    NoDup (ids doc) -> At doc rootCtx (ElementNode i name attrs cs) ->
    0 <= s <= e ->
    s < Z.of_nat (String.length (textContentOf (ElementNode i name attrs cs))) ->
    e <= Z.of_nat (String.length (textContentOf (ElementNode i name attrs cs))) ->
    exists before sn sd after before' en ed after',
      textNodesBelow (ElementNode i name attrs cs) = before ++ TextNode sn sd :: after /\
      textNodesBelow (ElementNode i name attrs cs) = before' ++ TextNode en ed :: after' /\
      createRangeFromCharacterRange doc i s e
        = Returns (mkRange sn (s - dataLength before) en (e - dataLength before')) /\
      0 <= s - dataLength before < Z.of_nat (String.length sd) /\
      0 <= e - dataLength before' <= Z.of_nat (String.length ed) /\
      (s < e -> 0 < e - dataLength before') /\
      ((before' = before /\ en = sn) \/ exists mid, before' = before ++ TextNode sn sd :: mid).
Proof.
  intros doc rootCtx i name attrs cs s e Hnd Hroot Hse Hs He.
  set (root := ElementNode i name attrs cs) in *.
  assert (Htotal : Z.of_nat (String.length (concatAll (map textContentOf (textNodesBelow root))))
                   = Z.of_nat (String.length (textContentOf root))).
  { rewrite (textContent_texts root). reflexivity. }
  destruct (walk_start s e (textNodesBelow root) 0 (textNodesBelow_texts root))
    as (l1 & sn & sd & l2 & l1' & en & ed & l2' & Hl & Hl' & Hw & Hb & Hb' & Hpos & Hord);
    [lia | lia | lia | lia |].
  cbn [Z.add] in Hw, Hb, Hb', Hpos.
  exists l1, sn, sd, l2, l1', en, ed, l2'.
  split; [exact Hl |]. split; [exact Hl' |].
  split; [| split; [exact Hb |]; split; [exact Hb' |]; split; [exact Hpos | exact Hord]].
  assert (Hin : forall l n d r, textNodesBelow root = l ++ TextNode n d :: r ->
                  exists c, At doc c (TextNode n d) /\ c <> []).
  { intros l n d r Heq.
    assert (H : In (TextNode n d) (textNodesBelow root)).
    { rewrite Heq. apply in_or_app. right. left. reflexivity. }
    apply filter_In in H. destruct H as (H & _).
    destruct (descendants_At _ _ H) as (c & Hat & Hc).
    exists (c ++ rootCtx). split; [exact (At_trans _ _ _ Hroot _ _ Hat) |].
    destruct c; [contradiction | discriminate]. }
  destruct (Hin _ _ _ _ Hl) as (cS & HatS & HcS).
  destruct (Hin _ _ _ _ Hl') as (cE & HatE & _).
  unfold createRangeFromCharacterRange.
  pose proof (lookup_At doc Hnd _ _ Hroot) as Hlook. cbn [nid root] in Hlook. rewrite Hlook.
  fold root. rewrite Hw.
  rewrite (setStart_from_createRange doc cS sn sd _ Hnd HatS HcS); [| lia].
  cbn [bind]. unfold setEnd. rewrite (nodeLength_text doc cE en ed Hnd HatE).
  destruct (Z.ltb_spec (e - Z.of_nat (String.length (concatAll (map textContentOf l1')))) 0);
    [lia |].
  destruct (Z.ltb_spec (Z.of_nat (String.length ed))
              (e - Z.of_nat (String.length (concatAll (map textContentOf l1')))));
    [lia |].
  cbn [orb startContainer startOffset endContainer endOffset].
  destruct Hord as [(Hsame & Hn) | (mid & Hmid)].
  - subst l1' en.
    pose proof (comparePoints_same_node doc cS (TextNode sn sd)
                  (e - Z.of_nat (String.length (concatAll (map textContentOf l1))))
                  (s - Z.of_nat (String.length (concatAll (map textContentOf l1))))
                  Hnd HatS) as Hcmp.
    cbn [nid] in Hcmp. rewrite Hcmp.
    destruct (Z.compare_spec
                (e - Z.of_nat (String.length (concatAll (map textContentOf l1))))
                (s - Z.of_nat (String.length (concatAll (map textContentOf l1)))));
      [reflexivity | lia | reflexivity].
  - subst l1'. rewrite <- app_assoc in Hl'. cbn [app] in Hl'.
    pose proof (texts_order doc rootCtx i name attrs cs l1 (TextNode sn sd) mid en ed l2'
                  (s - Z.of_nat (String.length (concatAll (map textContentOf l1))))
                  (e - Z.of_nat (String.length
                                   (concatAll (map textContentOf (l1 ++ TextNode sn sd :: mid)))))
                  Hnd Hroot Hl') as Hcmp.
    cbn [nid] in Hcmp. rewrite Hcmp. reflexivity.
Qed.

Lemma lexCompare_antisym :
  forall a b, lexCompare b a = CompOpp (lexCompare a b).
Proof.
  induction a as [| x a IH]; intros [| y b]; simpl; try reflexivity.
  rewrite (Z.compare_antisym x y). destruct (x ?= y); simpl; [apply IH | reflexivity | reflexivity].
Qed.

Lemma comparePoints_antisym :
  forall doc n1 o1 n2 o2 c,
    comparePoints doc n1 o1 n2 o2 = Some c ->
    comparePoints doc n2 o2 n1 o1 = Some (CompOpp c).
Proof.
  intros doc n1 o1 n2 o2 c H. unfold comparePoints in *.
  destruct (pathOf doc n1) as [p1 |]; [| discriminate].
  destruct (pathOf doc n2) as [p2 |]; [| discriminate].
  injection H as H. subst c. f_equal. apply lexCompare_antisym.
Qed.

Lemma lexCompare_below_start :
  forall p q o, q <> [] -> Forall (fun a => 0 <= a) q ->
    lexCompare (p ++ q ++ [o]) (p ++ [0]) = Gt.
Proof.
  induction p as [| x p IH]; intros q o Hq Hpos.
  - simpl. apply lexCompare_after_start; assumption.
  - simpl. rewrite Z.compare_refl. apply IH; assumption.
Qed.

(** A point in a descendant lies after the start of the node. *)
Lemma comparePoints_below_start :
  forall doc c x q y o,
    NoDup (ids doc) -> At doc c x -> At x q y -> q <> [] ->
    comparePoints doc (nid y) o (nid x) 0 = Some Gt.
Proof.
  intros doc c x q y o Hnd Hx Hy Hq.
  pose proof (At_trans _ _ _ Hx _ _ Hy) as Habs.
  unfold comparePoints. rewrite (pathOf_At doc _ _ Hnd Habs), (pathOf_At doc _ _ Hnd Hx).
  f_equal. rewrite map_app, rev_app_distr, <- app_assoc.
  apply lexCompare_below_start.
  - intro Hnil. apply Hq. destruct q; [reflexivity |]. simpl in Hnil.
    apply app_eq_nil in Hnil. destruct Hnil as (_ & Hnil). discriminate.
  - apply Forall_rev. apply Forall_forall. intros a Ha. apply in_map_iff in Ha.
    destruct Ha as (f & Hf & _). subst a. lia.
Qed.

(** Of two text nodes of the document, the later one lies after the
    other, and the other before it. *)
Lemma document_order :
  forall doc l1 y1 mid y2 l2 oa ob,
    NoDup (ids doc) -> showText doc = false ->
    documentTextNodes doc = l1 ++ y1 :: mid ++ y2 :: l2 ->
    comparePoints doc (nid y2) ob (nid y1) oa = Some Gt /\
    comparePoints doc (nid y1) oa (nid y2) ob = Some Lt.
Proof.
  intros doc l1 y1 mid y2 l2 oa ob Hnd Hdoc Hlist.
  destruct doc as [n d | i name attrs cs]; [discriminate |].
  assert (Hy2 : showText y2 = true).
  { assert (H : In y2 (documentTextNodes (ElementNode i name attrs cs))).
    { rewrite Hlist. apply in_or_app. right. right. apply in_or_app. right. left. reflexivity. }
    apply filter_In in H. apply H. }
  destruct y2 as [en ed | ? ? ? ?]; [| discriminate].
  assert (Hgt : comparePoints (ElementNode i name attrs cs) en ob (nid y1) oa = Some Gt).
  { exact (texts_order _ [] i name attrs cs l1 y1 mid en ed l2 oa ob Hnd (At_here _) Hlist). }
  split; [exact Hgt |]. exact (comparePoints_antisym _ _ _ _ _ _ Hgt).
Qed.

Lemma At_top_element :
  forall doc c i name attrs cs, At doc c (ElementNode i name attrs cs) -> showText doc = false.
Proof.
  intros doc c i name attrs cs H. inversion H; subst; reflexivity.
Qed.

Lemma filter_middle {A : Type} (p : A -> bool) :
  forall L M N,
    (forall y, In y L -> p y = false) -> (forall y, In y M -> p y = true) ->
    (forall y, In y N -> p y = false) ->
    filter p (L ++ M ++ N) = M.
Proof.
  intros L M N HL HM HN. rewrite !filter_app.
  assert (Hnone : forall l, (forall y, In y l -> p y = false) -> filter p l = []).
  { induction l as [| a l IH]; intro H; [reflexivity |]. simpl.
    rewrite (H a (or_introl eq_refl)). apply IH. intros y Hy. apply H. right. exact Hy. }
  assert (Hall : forall l, (forall y, In y l -> p y = true) -> filter p l = l).
  { induction l as [| a l IH]; intro H; [reflexivity |]. simpl.
    rewrite (H a (or_introl eq_refl)). f_equal. apply IH. intros y Hy. apply H. right. exact Hy. }
  rewrite (Hnone L HL), (Hnone N HN), (Hall M HM). rewrite app_nil_r. reflexivity.
Qed.

(** The text nodes of the document around those below an element. *)
Lemma document_texts :
  forall doc rootCtx i name attrs cs,
    At doc rootCtx (ElementNode i name attrs cs) ->
    exists L R,
      documentTextNodes doc = L ++ textNodesBelow (ElementNode i name attrs cs) ++ R /\
      forall y, In y L -> In (nid y) (beforeIds rootCtx).
Proof.
  intros doc rootCtx i name attrs cs H.
  destruct (texts_around _ _ _ H) as (L & R & Heq & HL).
  exists L, R. split; [exact Heq | exact HL].
Qed.

Ltac norm_app := repeat first [rewrite <- app_assoc | progress cbn [app]].
Ltac norm_app_in H := repeat first [rewrite <- app_assoc in H | progress cbn [app] in H].

(** The text nodes contained in the range from the start of an element
    to a point in a text node below it: the text nodes below the element in
    front of that text node. *)
Lemma contained_from_start :
  forall doc rootCtx i name attrs cs before sn sd after so,
    NoDup (ids doc) -> At doc rootCtx (ElementNode i name attrs cs) ->
    textNodesBelow (ElementNode i name attrs cs) = before ++ TextNode sn sd :: after ->
    so <= Z.of_nat (String.length sd) ->
    filter (isContained doc (mkRange i 0 sn so)) (documentTextNodes doc) = before.
Proof.
  intros doc rootCtx i name attrs cs before sn sd after so Hnd Hroot Hlist Hso.
  set (root := ElementNode i name attrs cs) in *.
  destruct (document_texts _ _ _ _ _ _ Hroot) as (L & R & Hdoc & HL). fold root in Hdoc.
  pose proof (At_top_element _ _ _ _ _ _ Hroot) as Htop.
  rewrite Hlist in Hdoc. norm_app_in Hdoc.
  rewrite Hdoc.
  assert (Hin : forall y, In y (textNodesBelow root) -> exists q, At root q y /\ q <> []).
  { intros y Hy. apply filter_In in Hy. destruct Hy as (Hy & _).
    exact (descendants_At _ _ Hy). }
  apply filter_middle.
  - intros y Hy. unfold isContained. cbn [startContainer startOffset].
    assert (Hiny : In y (documentTextNodes doc)).
    { rewrite Hdoc. apply in_or_app. left. exact Hy. }
    apply filter_In in Hiny. destruct Hiny as (Hsub & _).
    assert (Hat : exists cy, At doc cy y).
    { destruct Hsub as [Heq | Hd].
      - exists []. rewrite <- Heq. apply At_here.
      - destruct (descendants_At _ _ Hd) as (cy & Hcy & _). exists cy. exact Hcy. }
    destruct Hat as (cy & Hcy).
    assert (Hlt : comparePoints doc (nid y) 0 i 0 = Some Lt).
    { apply (comparePoints_antisym doc i 0 (nid y) 0 Gt).
      unfold comparePoints.
      pose proof (pathOf_At doc _ _ Hnd Hroot) as Hp. cbn [nid root] in Hp. rewrite Hp.
      rewrite (pathOf_At doc _ _ Hnd Hcy). f_equal.
      exact (before_order doc _ _ _ _ [0] [0] Hnd Hroot Hcy (HL y Hy)). }
    rewrite Hlt. reflexivity.
  - intros y Hy. unfold isContained.
    cbn [startContainer startOffset endContainer endOffset].
    apply in_split in Hy. destruct Hy as (l1 & mid & Hbefore).
    assert (Hy : In y (textNodesBelow root)).
    { rewrite Hlist, Hbefore. apply in_or_app. left. apply in_or_app. right. left. reflexivity. }
    destruct (Hin y Hy) as (q & Hq & Hne).
    pose proof (comparePoints_below_start doc rootCtx root q y 0 Hnd Hroot Hq Hne) as Hgt.
    cbn [nid root] in Hgt. rewrite Hgt.
    assert (Hlist' : textNodesBelow root = l1 ++ y :: mid ++ TextNode sn sd :: after).
    { rewrite Hlist, Hbefore. norm_app. reflexivity. }
    pose proof (texts_order doc rootCtx i name attrs cs l1 y mid sn sd after
                  (nodeValueLength y) so Hnd Hroot Hlist') as Hord.
    rewrite (comparePoints_antisym _ _ _ _ _ _ Hord). reflexivity.
  - intros y Hy. unfold isContained.
    cbn [startContainer startOffset endContainer endOffset].
    destruct Hy as [Hy | Hy].
    + subst y. cbn [nid nodeValueLength].
      assert (HinS : In (TextNode sn sd) (textNodesBelow root)).
      { rewrite Hlist. apply in_or_app. right. left. reflexivity. }
      destruct (Hin _ HinS) as (q & Hq & _).
      pose proof (comparePoints_same_node doc _ _ (Z.of_nat (String.length sd)) so Hnd
                    (At_trans _ _ _ Hroot _ _ Hq)) as Hcmp.
      cbn [nid] in Hcmp. rewrite Hcmp.
      destruct (comparePoints doc sn 0 i 0) as [[| |] |]; try reflexivity.
      destruct (Z.compare_spec (Z.of_nat (String.length sd)) so); [reflexivity | lia | reflexivity].
    + apply in_split in Hy. destruct Hy as (mid & l2 & Hrest).
      assert (Hdoc' : documentTextNodes doc
                      = (L ++ before) ++ TextNode sn sd :: mid ++ y :: l2).
      { rewrite Hdoc, Hrest. norm_app. reflexivity. }
      destruct (document_order doc _ _ _ _ _ so (nodeValueLength y) Hnd Htop Hdoc')
        as (Hgt & _).
      cbn [nid] in Hgt. rewrite Hgt.
      destruct (comparePoints doc (nid y) 0 i 0) as [[| |] |]; reflexivity.
Qed.

(** The text nodes contained in a range from a text node to a later one
    are the text nodes between them. *)
Lemma contained_between :
  forall doc rootCtx i name attrs cs before sn sd mid en ed after so eo,
    NoDup (ids doc) -> At doc rootCtx (ElementNode i name attrs cs) ->
    textNodesBelow (ElementNode i name attrs cs)
      = before ++ TextNode sn sd :: mid ++ TextNode en ed :: after ->
    0 <= so -> eo <= Z.of_nat (String.length ed) ->
    filter (isContained doc (mkRange sn so en eo)) (documentTextNodes doc) = mid.
Proof.
  intros doc rootCtx i name attrs cs before sn sd mid en ed after so eo Hnd Hroot Hlist Hso Heo.
  set (root := ElementNode i name attrs cs) in *.
  destruct (document_texts _ _ _ _ _ _ Hroot) as (L & R & Hdoc & _). fold root in Hdoc.
  pose proof (At_top_element _ _ _ _ _ _ Hroot) as Htop.
  rewrite Hlist in Hdoc. norm_app_in Hdoc.
  assert (Hshape : documentTextNodes doc
                   = (L ++ before ++ [TextNode sn sd]) ++ mid ++ (TextNode en ed :: after ++ R)).
  { rewrite Hdoc. norm_app. reflexivity. }
  assert (HatS : exists c, At doc c (TextNode sn sd)).
  { assert (H : In (TextNode sn sd) (textNodesBelow root)).
    { rewrite Hlist. apply in_or_app. right. left. reflexivity. }
    apply filter_In in H. destruct H as (H & _).
    destruct (descendants_At _ _ H) as (q & Hq & _).
    exists (q ++ rootCtx). exact (At_trans _ _ _ Hroot _ _ Hq). }
  assert (HatE : exists c, At doc c (TextNode en ed)).
  { assert (H : In (TextNode en ed) (textNodesBelow root)).
    { rewrite Hlist. apply in_or_app. right. right. apply in_or_app. right. left. reflexivity. }
    apply filter_In in H. destruct H as (H & _).
    destruct (descendants_At _ _ H) as (q & Hq & _).
    exists (q ++ rootCtx). exact (At_trans _ _ _ Hroot _ _ Hq). }
  destruct HatS as (cS & HcS). destruct HatE as (cE & HcE).
  rewrite Hshape. apply filter_middle.
  - intros y Hy. unfold isContained.
    cbn [startContainer startOffset endContainer endOffset].
    rewrite app_assoc in Hy. apply in_app_or in Hy. destruct Hy as [Hy | [Hy | []]].
    + apply in_split in Hy. destruct Hy as (l1 & l2 & Hfront).
      assert (Hdoc' : documentTextNodes doc
                      = l1 ++ y :: l2 ++ TextNode sn sd
                           :: mid ++ TextNode en ed :: after ++ R).
      { rewrite Hdoc, (app_assoc L before), Hfront. norm_app. reflexivity. }
      destruct (document_order doc _ _ _ _ _ 0 so Hnd Htop Hdoc') as (_ & Hlt).
      cbn [nid] in Hlt. rewrite Hlt. reflexivity.
    + subst y. cbn [nid nodeValueLength].
      pose proof (comparePoints_same_node doc _ _ 0 so Hnd HcS) as Hcmp.
      cbn [nid] in Hcmp. rewrite Hcmp.
      destruct (Z.compare_spec 0 so); [reflexivity | reflexivity | lia].
  - intros y Hy. unfold isContained.
    cbn [startContainer startOffset endContainer endOffset].
    apply in_split in Hy. destruct Hy as (m1 & m2 & Hmid).
    assert (Hdoc1 : documentTextNodes doc
                    = (L ++ before) ++ TextNode sn sd
                         :: m1 ++ y :: (m2 ++ TextNode en ed :: after ++ R)).
    { rewrite Hdoc, Hmid. norm_app. reflexivity. }
    destruct (document_order doc _ _ _ _ _ so 0 Hnd Htop Hdoc1) as (Hgt & _).
    cbn [nid] in Hgt. rewrite Hgt.
    assert (Hdoc2 : documentTextNodes doc
                    = (L ++ before ++ TextNode sn sd :: m1) ++ y
                         :: m2 ++ TextNode en ed :: (after ++ R)).
    { rewrite Hdoc, Hmid. norm_app. reflexivity. }
    destruct (document_order doc _ _ _ _ _ (nodeValueLength y) eo Hnd Htop Hdoc2) as (_ & Hlt).
    cbn [nid] in Hlt. rewrite Hlt. reflexivity.
  - intros y Hy. unfold isContained.
    cbn [startContainer startOffset endContainer endOffset].
    destruct Hy as [Hy | Hy].
    + subst y. cbn [nid nodeValueLength].
      pose proof (comparePoints_same_node doc _ _ (Z.of_nat (String.length ed)) eo Hnd HcE)
        as Hcmp.
      cbn [nid] in Hcmp. rewrite Hcmp.
      destruct (comparePoints doc en 0 sn so) as [[| |] |]; try reflexivity.
      destruct (Z.compare_spec (Z.of_nat (String.length ed)) eo); [reflexivity | lia | reflexivity].
    + apply in_split in Hy. destruct Hy as (r1 & r2 & Hrest).
      assert (Hdoc' : documentTextNodes doc
                      = (L ++ before ++ TextNode sn sd :: mid) ++ TextNode en ed
                           :: r1 ++ y :: r2).
      { rewrite Hdoc, Hrest. norm_app. reflexivity. }
      destruct (document_order doc _ _ _ _ _ eo (nodeValueLength y) Hnd Htop Hdoc')
        as (Hgt & _).
      cbn [nid] in Hgt. rewrite Hgt.
      destruct (comparePoints doc (nid y) 0 sn so) as [[| |] |]; reflexivity.
Qed.

Lemma dropStr_app_length :
  forall (a : string) n b, dropStr (String.length a + n) (a ++ b) = dropStr n b.
Proof. induction a as [| x a IH]; intros n b; simpl; [reflexivity | apply IH]. Qed.

Lemma dropStr_app_le :
  forall n (a b : string), (n <= String.length a)%nat ->
    dropStr n (a ++ b) = (dropStr n a ++ b)%string.
Proof.
  induction n as [| n IH]; intros [| x a] b H; simpl in *; try reflexivity; try lia.
  apply IH. lia.
Qed.

Lemma takeStr_app_length :
  forall (a : string) n b, takeStr (String.length a + n) (a ++ b) = (a ++ takeStr n b)%string.
Proof.
  induction a as [| x a IH]; intros n b; simpl; [reflexivity |]. rewrite IH. reflexivity.
Qed.

Lemma takeStr_app_le :
  forall n (a b : string), (n <= String.length a)%nat -> takeStr n (a ++ b) = takeStr n a.
Proof.
  induction n as [| n IH]; intros [| x a] b H; simpl in *; try reflexivity; try lia.
  rewrite IH; [reflexivity | lia].
Qed.

Lemma text_of_split :
  forall l1 n d l2,
    concatAll (map textContentOf (l1 ++ TextNode n d :: l2))
    = (concatAll (map textContentOf l1) ++ d ++ concatAll (map textContentOf l2))%string.
Proof. intros l1 n d l2. rewrite map_app, concatAll_app. reflexivity. Qed.

Lemma text_below :
  forall doc rootCtx root n d l r,
    At doc rootCtx root -> textNodesBelow root = l ++ TextNode n d :: r ->
    exists q, At root q (TextNode n d) /\ q <> [] /\ At doc (q ++ rootCtx) (TextNode n d).
Proof.
  intros doc rootCtx root n d l r Hroot Hlist.
  assert (H : In (TextNode n d) (textNodesBelow root)).
  { rewrite Hlist. apply in_or_app. right. left. reflexivity. }
  apply filter_In in H. destruct H as (H & _).
  destruct (descendants_At _ _ H) as (q & Hq & Hne).
  exists q. split; [exact Hq |]. split; [exact Hne | exact (At_trans _ _ _ Hroot _ _ Hq)].
Qed.

(** The text of the range from the start of an element to a point in a
    text node below it. *)
Lemma toString_from_start :
  forall doc rootCtx i name attrs cs before sn sd after so,
    NoDup (ids doc) -> At doc rootCtx (ElementNode i name attrs cs) ->
    textNodesBelow (ElementNode i name attrs cs) = before ++ TextNode sn sd :: after ->
    so <= Z.of_nat (String.length sd) ->
    toString doc (mkRange i 0 sn so)
    = (concatAll (map textContentOf before) ++ takeStr (Z.to_nat so) sd)%string.
Proof.
  intros doc rootCtx i name attrs cs before sn sd after so Hnd Hroot Hlist Hso.
  destruct (text_below _ _ _ _ _ _ _ Hroot Hlist) as (q & _ & _ & HatS).
  pose proof (data_At doc Hnd _ _ Hroot) as Hdi. cbn [nid dataOf] in Hdi.
  pose proof (data_At doc Hnd _ _ HatS) as Hds. cbn [nid dataOf] in Hds.
  unfold toString. cbn [startContainer startOffset endContainer endOffset].
  rewrite Hdi, Hds.
  rewrite (contained_from_start doc rootCtx i name attrs cs before sn sd after so
             Hnd Hroot Hlist Hso).
  reflexivity.
Qed.

(** The text of a range from a text node to a later one. *)
Lemma toString_between :
  forall doc rootCtx i name attrs cs before sn sd mid en ed after so eo,
    NoDup (ids doc) -> At doc rootCtx (ElementNode i name attrs cs) ->
    textNodesBelow (ElementNode i name attrs cs)
      = before ++ TextNode sn sd :: mid ++ TextNode en ed :: after ->
    0 <= so -> eo <= Z.of_nat (String.length ed) ->
    toString doc (mkRange sn so en eo)
    = (dropStr (Z.to_nat so) sd ++ concatAll (map textContentOf mid)
         ++ takeStr (Z.to_nat eo) ed)%string.
Proof.
  intros doc rootCtx i name attrs cs before sn sd mid en ed after so eo Hnd Hroot Hlist Hso Heo.
  destruct (text_below _ _ _ _ _ _ _ Hroot Hlist) as (q & _ & _ & HatS).
  assert (Hlist' : textNodesBelow (ElementNode i name attrs cs)
                   = (before ++ TextNode sn sd :: mid) ++ TextNode en ed :: after).
  { rewrite Hlist. rewrite <- app_assoc. reflexivity. }
  destruct (text_below _ _ _ _ _ _ _ Hroot Hlist') as (q' & _ & _ & HatE).
  pose proof (data_At doc Hnd _ _ HatS) as Hds. cbn [nid dataOf] in Hds.
  pose proof (data_At doc Hnd _ _ HatE) as Hde. cbn [nid dataOf] in Hde.
  assert (Hne : Nat.eqb sn en = false).
  { apply Nat.eqb_neq. intro Heq.
    pose proof (textNodes_NoDup _ (At_NoDup _ _ _ Hroot Hnd)) as Hdup.
    change (filter showText (subtree (ElementNode i name attrs cs)))
      with (textNodesBelow (ElementNode i name attrs cs)) in Hdup.
    rewrite Hlist in Hdup. rewrite map_app in Hdup.
    apply NoDup_app_inv in Hdup. destruct Hdup as (_ & Hdup & _).
    cbn [map nid] in Hdup. apply NoDup_cons_iff in Hdup. destruct Hdup as (Hnot & _).
    apply Hnot. rewrite map_app. apply in_or_app. right. left. symmetry. exact Heq. }
  unfold toString. cbn [startContainer startOffset endContainer endOffset].
  rewrite Hds, Hde, Hne.
  rewrite (contained_between doc rootCtx i name attrs cs before sn sd mid en ed after so eo
             Hnd Hroot Hlist Hso Heo).
  reflexivity.
Qed.

Lemma toString_same :
  forall doc c sn sd so eo,
    NoDup (ids doc) -> At doc c (TextNode sn sd) ->
    toString doc (mkRange sn so sn eo)
    = takeStr (Z.to_nat (eo - so)) (dropStr (Z.to_nat so) sd).
Proof.
  intros doc c sn sd so eo Hnd Hat.
  pose proof (data_At doc Hnd _ _ Hat) as Hds. cbn [nid dataOf] in Hds.
  unfold toString. cbn [startContainer startOffset endContainer endOffset].
  rewrite Hds, Nat.eqb_refl. reflexivity.
Qed.

(** [toCharacterRange] of a range between two points in text nodes below
    the container: the offsets of the points in the text of the container,
    and the text between them. *)
Lemma toCharacterRange_spec :
  forall doc rootCtx i name attrs cs before sn sd after before' en ed after' so eo,
    NoDup (ids doc) -> At doc rootCtx (ElementNode i name attrs cs) ->
    textNodesBelow (ElementNode i name attrs cs) = before ++ TextNode sn sd :: after ->
    textNodesBelow (ElementNode i name attrs cs) = before' ++ TextNode en ed :: after' ->
    0 <= so <= Z.of_nat (String.length sd) ->
    0 <= eo <= Z.of_nat (String.length ed) ->
    (before' = before /\ so <= eo) \/ (exists mid, before' = before ++ TextNode sn sd :: mid) ->
    toCharacterRange doc (mkRange sn so en eo) i
    = Returns (mkCharacterRange
                 (dataLength before + so) (dataLength before' + eo)
                 (takeStr (Z.to_nat (dataLength before' + eo - (dataLength before + so)))
                    (dropStr (Z.to_nat (dataLength before + so))
                       (textContentOf (ElementNode i name attrs cs))))).
Proof.
  intros doc rootCtx i name attrs cs before sn sd after before' en ed after' so eo
         Hnd Hroot Hl Hl' Hso Heo Hord.
  destruct (text_below _ _ _ _ _ _ _ Hroot Hl) as (qS & HqS & HneS & HatS).
  destruct (text_below _ _ _ _ _ _ _ Hroot Hl') as (qE & HqE & HneE & HatE).
  assert (Hstart1 : setStart doc (mkRange sn so en eo) i 0 = Returns (mkRange i 0 en eo)).
  { unfold setStart, nodeLength.
    pose proof (lookup_At doc Hnd _ _ Hroot) as Hlook. cbn [nid] in Hlook. rewrite Hlook.
    destruct (Z.ltb_spec (Z.of_nat (List.length cs)) 0); [lia |].
    cbn [Z.ltb Z.compare orb startContainer startOffset endContainer endOffset].
    pose proof (comparePoints_below_start doc rootCtx (ElementNode i name attrs cs) qE _ eo Hnd Hroot HqE HneE) as Hgt.
    cbn [nid] in Hgt.
    rewrite (comparePoints_antisym _ _ _ _ _ _ Hgt). reflexivity. }
  assert (Hstart2 : setEnd doc (mkRange i 0 en eo) sn so = Returns (mkRange i 0 sn so)).
  { unfold setEnd. rewrite (nodeLength_text doc _ sn sd Hnd HatS).
    destruct (Z.ltb_spec so 0); [lia |].
    destruct (Z.ltb_spec (Z.of_nat (String.length sd)) so); [lia |].
    cbn [orb startContainer startOffset endContainer endOffset].
    pose proof (comparePoints_below_start doc rootCtx (ElementNode i name attrs cs) qS _ so Hnd Hroot HqS HneS) as Hgt.
    cbn [nid] in Hgt. rewrite Hgt. reflexivity. }
  unfold toCharacterRange. rewrite Hstart1. cbn [bind].
  cbn [startContainer startOffset]. rewrite Hstart2. cbn [bind].
  rewrite (toString_from_start doc rootCtx i name attrs cs before sn sd after so
             Hnd Hroot Hl (proj2 Hso)).
  assert (Hfull : textContentOf (ElementNode i name attrs cs) = concatAll (map textContentOf (textNodesBelow (ElementNode i name attrs cs)))).
  { rewrite (textContent_texts (ElementNode i name attrs cs)). reflexivity. }
  assert (Hstart : Z.of_nat (String.length
                               (concatAll (map textContentOf before)
                                  ++ takeStr (Z.to_nat so) sd))
                   = dataLength before + so).
  { rewrite length_append, length_takeStr; lia. }
  rewrite Hstart.
  destruct Hord as [(Hsame & Hle) | (mid & Hmid)].
  - subst before'. rewrite Hl in Hl'. apply app_inv_head in Hl'.
    injection Hl' as Hn Hd Ha. subst en ed after'.
    rewrite (toString_same doc _ sn sd so eo Hnd HatS).
    assert (Htext : takeStr (Z.to_nat (dataLength before + eo - (dataLength before + so)))
                      (dropStr (Z.to_nat (dataLength before + so)) (textContentOf (ElementNode i name attrs cs)))
                    = takeStr (Z.to_nat (eo - so)) (dropStr (Z.to_nat so) sd)).
    { rewrite Hfull, Hl, text_of_split.
      replace (Z.to_nat (dataLength before + so))
        with (String.length (concatAll (map textContentOf before)) + Z.to_nat so)%nat by lia.
      rewrite dropStr_app_length.
      rewrite dropStr_app_le by lia.
      replace (Z.to_nat (dataLength before + eo - (dataLength before + so)))
        with (Z.to_nat (eo - so)) by lia.
      apply takeStr_app_le. rewrite length_dropStr. lia. }
    rewrite Htext. f_equal. f_equal.
    rewrite length_takeStr; [lia |]. rewrite length_dropStr. lia.
  - subst before'. rewrite <- app_assoc in Hl'. cbn [app] in Hl'.
    rewrite Hl in Hl'. apply app_inv_head in Hl'.
    injection Hl' as Ha. subst after.
    rewrite (toString_between doc rootCtx i name attrs cs before sn sd mid en ed after' so eo
               Hnd Hroot Hl (proj1 Hso) (proj2 Heo)).
    assert (Hlen' : dataLength (before ++ TextNode sn sd :: mid)
                    = dataLength before + Z.of_nat (String.length sd) + dataLength mid).
    { rewrite text_of_split, !length_append. lia. }
    assert (Htext : takeStr (Z.to_nat (dataLength (before ++ TextNode sn sd :: mid) + eo
                                       - (dataLength before + so)))
                      (dropStr (Z.to_nat (dataLength before + so)) (textContentOf (ElementNode i name attrs cs)))
                    = (dropStr (Z.to_nat so) sd ++ concatAll (map textContentOf mid)
                         ++ takeStr (Z.to_nat eo) ed)%string).
    { rewrite Hlen', Hfull, Hl, text_of_split, text_of_split.
      replace (Z.to_nat (dataLength before + so))
        with (String.length (concatAll (map textContentOf before)) + Z.to_nat so)%nat by lia.
      rewrite dropStr_app_length.
      rewrite dropStr_app_le by lia.
      replace (Z.to_nat (dataLength before + Z.of_nat (String.length sd) + dataLength mid + eo
                         - (dataLength before + so)))
        with (String.length (dropStr (Z.to_nat so) sd)
              + (String.length (concatAll (map textContentOf mid)) + Z.to_nat eo))%nat
        by (rewrite length_dropStr; lia).
      rewrite takeStr_app_length. f_equal.
      rewrite takeStr_app_length. f_equal.
      apply takeStr_app_le. lia. }
    rewrite Htext. f_equal. f_equal.
    rewrite Hlen'. rewrite !length_append, length_dropStr, length_takeStr; lia.
Qed.

End CharacterRangeFacts.

Section CharacterRangeExtras.
Import Dom DomEdit RangeSaveRestore Element Walk CharacterRange.

(** [createRangeFromCharacterRange] finds the character offsets in the
    text nodes below the element.  For [0 <= start <= end], [start] less
    than the length of the text of the element and [end] at most that
    length, the range starts in the text node that holds the character at
    index [start], at the offset that is left of [start] after the data of
    the text nodes in front of it, and it ends in the first text node, from
    that node on, whose data reaches up to [end], at the offset that is
    left of [end]; a range that is not collapsed does not end at the start
    of its text node. *)
Theorem createRangeFromCharacterRange_finds_offsets :
  forall (doc : Node) (rootCtx : Ctx) (i : nat) (name : string)
         (attrs : list (string * string)) (cs : list Node) (s e : Z),
    NoDup (ids doc) -> At doc rootCtx (ElementNode i name attrs cs) ->
    0 <= s <= e ->
    s < Z.of_nat (String.length (textContentOf (ElementNode i name attrs cs))) ->
    e <= Z.of_nat (String.length (textContentOf (ElementNode i name attrs cs))) ->
    exists before sn sd after before' en ed after' so eo,
      createRangeFromCharacterRange doc i s e = Returns (mkRange sn so en eo) /\
      textNodesBelow (ElementNode i name attrs cs) = before ++ TextNode sn sd :: after /\
      s = Z.of_nat (String.length (concatAll (map textContentOf before))) + so /\
      0 <= so < Z.of_nat (String.length sd) /\
      textNodesBelow (ElementNode i name attrs cs) = before' ++ TextNode en ed :: after' /\
      e = Z.of_nat (String.length (concatAll (map textContentOf before'))) + eo /\
      0 <= eo <= Z.of_nat (String.length ed) /\
      (s < e -> 0 < eo).
Proof.
  intros doc rootCtx i name attrs cs s e Hnd Hroot Hse Hs He.
  destruct (createRange_at_offsets doc rootCtx i name attrs cs s e Hnd Hroot Hse Hs He)
    as (l1 & sn & sd & l2 & l1' & en & ed & l2' & Hl & Hl' & Hrun & Hb & Hb' & Hpos & _).
  exists l1, sn, sd, l2, l1', en, ed, l2'.
  exists (s - Z.of_nat (String.length (concatAll (map textContentOf l1)))).
  exists (e - Z.of_nat (String.length (concatAll (map textContentOf l1')))).
  split; [exact Hrun |]. repeat split; try assumption; lia.
Qed.

Lemma createRangeFromCharacterRange_finds_offsets_witness :
  exists before sn sd after before' en ed after' so eo,
    createRangeFromCharacterRange Samples.abcDoc 1 1 2 = Returns (mkRange sn so en eo) /\
    textNodesBelow (ElementNode 1 "DIV" [] [TextNode 2 "abc"])
      = before ++ TextNode sn sd :: after /\
    1 = Z.of_nat (String.length (concatAll (map textContentOf before))) + so /\
    0 <= so < Z.of_nat (String.length sd) /\
    textNodesBelow (ElementNode 1 "DIV" [] [TextNode 2 "abc"])
      = before' ++ TextNode en ed :: after' /\
    2 = Z.of_nat (String.length (concatAll (map textContentOf before'))) + eo /\
    0 <= eo <= Z.of_nat (String.length ed) /\
    (1 < 2 -> 0 < eo).
Proof.
  apply (createRangeFromCharacterRange_finds_offsets Samples.abcDoc [Samples.documentFrame]
           1 "DIV" [] [TextNode 2 "abc"] 1 2).
  - distinct_ids.
  - exact (At_child 0 "#document" [] [] Samples.abcHost [] [] Samples.abcHost
             (At_here Samples.abcHost)).
  - lia.
  - simpl. lia.
  - simpl. lia.
Defined.

(** [createRangeFromCharacterRange] throws 'Invalid character offsets.'
    when the start index is not less than the length of the text of the
    element, or the end index is greater than that length.  So a cursor
    behind the last character of the text cannot be made this way. *)
Theorem createRangeFromCharacterRange_invalid_offsets :
  forall (doc : Node) (rootCtx : Ctx) (element : Node) (s e : Z),
    NoDup (ids doc) -> At doc rootCtx element ->
    Z.of_nat (String.length (textContentOf element)) <= s \/
    Z.of_nat (String.length (textContentOf element)) < e ->
    createRangeFromCharacterRange doc (nid element) s e = Throws "Invalid character offsets.".
Proof.
  intros doc rootCtx element s e Hnd Hroot Hout.
  unfold createRangeFromCharacterRange. rewrite (lookup_At doc Hnd _ _ Hroot).
  destruct element as [n d | i name attrs cs]; [reflexivity |].
  set (root := ElementNode i name attrs cs) in *.
  assert (Htotal : Z.of_nat (String.length (concatAll (map textContentOf (textNodesBelow root))))
                   = Z.of_nat (String.length (textContentOf root))).
  { rewrite (textContent_texts root). reflexivity. }
  destruct (walk_no_end s e (textNodesBelow root) 0 None (textNodesBelow_texts root))
    as (Hfst & Hsnd); [cbn [Z.add]; rewrite Htotal; exact Hout |].
  cbn [Z.add] in Hfst, Hsnd. rewrite Htotal in Hfst, Hsnd.
  destruct (walk s e (textNodesBelow root) 0 None) as (a, b).
  cbn [fst snd] in Hfst, Hsnd.
  destruct Hout as [H | H].
  - rewrite (Hfst eq_refl H). reflexivity.
  - rewrite (Hsnd H). destruct a as [[sn so] |]; reflexivity.
Qed.

Lemma createRangeFromCharacterRange_invalid_offsets_witness :
  createRangeFromCharacterRange Samples.abcDoc (nid Samples.abcHost) 3 3
  = Throws "Invalid character offsets.".
Proof.
  apply (createRangeFromCharacterRange_invalid_offsets Samples.abcDoc [Samples.documentFrame]
           Samples.abcHost 3 3).
  - distinct_ids.
  - exact (At_child 0 "#document" [] [] Samples.abcHost [] [] Samples.abcHost
             (At_here Samples.abcHost)).
  - left. simpl. lia.
Defined.

(** [toCharacterRange] measures a range in the text of the container.
    For a range that starts and ends in text nodes below the container,
    the start not behind the end, [start] is the number of characters of
    the text nodes in front of the start node plus the start offset, [end]
    the same for the end point, and [text] is the part of the text of the
    container from [start] to [end]. *)
Theorem toCharacterRange_measures_text :
  forall (doc : Node) (rootCtx : Ctx) (i : nat) (name : string)
         (attrs : list (string * string)) (cs : list Node)
         (before : list Node) (sn : nat) (sd : string) (after : list Node)
         (before' : list Node) (en : nat) (ed : string) (after' : list Node) (so eo : Z),
    NoDup (ids doc) -> At doc rootCtx (ElementNode i name attrs cs) ->
    textNodesBelow (ElementNode i name attrs cs) = before ++ TextNode sn sd :: after ->
    textNodesBelow (ElementNode i name attrs cs) = before' ++ TextNode en ed :: after' ->
    0 <= so <= Z.of_nat (String.length sd) ->
    0 <= eo <= Z.of_nat (String.length ed) ->
    (before' = before /\ so <= eo) \/ (exists mid, before' = before ++ TextNode sn sd :: mid) ->
    toCharacterRange doc (mkRange sn so en eo) i
    = Returns
        (mkCharacterRange
           (Z.of_nat (String.length (concatAll (map textContentOf before))) + so)
           (Z.of_nat (String.length (concatAll (map textContentOf before'))) + eo)
           (takeStr
              (Z.to_nat (Z.of_nat (String.length (concatAll (map textContentOf before'))) + eo
                         - (Z.of_nat (String.length (concatAll (map textContentOf before)))
                            + so)))
              (dropStr
                 (Z.to_nat (Z.of_nat (String.length (concatAll (map textContentOf before)))
                            + so))
                 (textContentOf (ElementNode i name attrs cs))))).
Proof.
  intros doc rootCtx i name attrs cs before sn sd after before' en ed after' so eo
         Hnd Hroot Hl Hl' Hso Heo Hord.
  exact (toCharacterRange_spec doc rootCtx i name attrs cs before sn sd after
           before' en ed after' so eo Hnd Hroot Hl Hl' Hso Heo Hord).
Qed.

Lemma toCharacterRange_measures_text_witness :
  toCharacterRange Samples.abcDoc (mkRange 2 1 2 2) 1
  = Returns (mkCharacterRange 1 2 "b").
Proof.
  apply (toCharacterRange_measures_text Samples.abcDoc [Samples.documentFrame]
           1 "DIV" [] [TextNode 2 "abc"] [] 2 "abc" [] [] 2 "abc" [] 1 2).
  - distinct_ids.
  - exact (At_child 0 "#document" [] [] Samples.abcHost [] [] Samples.abcHost
             (At_here Samples.abcHost)).
  - reflexivity.
  - reflexivity.
  - simpl. lia.
  - simpl. lia.
  - left. split; [reflexivity | lia].
Defined.

(** A character range survives the way through a DOM range: for
    [0 <= start <= end] with [start] less than the length of the text of the
    element and [end] at most that length, [toCharacterRange] of the range
    that [createRangeFromCharacterRange] returns gives [start] and [end]
    back, with the text of the element between them. *)
Theorem createRangeFromCharacterRange_then_toCharacterRange :
  forall (doc : Node) (rootCtx : Ctx) (i : nat) (name : string)
         (attrs : list (string * string)) (cs : list Node) (s e : Z),
    NoDup (ids doc) -> At doc rootCtx (ElementNode i name attrs cs) ->
    0 <= s <= e ->
    s < Z.of_nat (String.length (textContentOf (ElementNode i name attrs cs))) ->
    e <= Z.of_nat (String.length (textContentOf (ElementNode i name attrs cs))) ->
    exists range,
      createRangeFromCharacterRange doc i s e = Returns range /\
      toCharacterRange doc range i
      = Returns (mkCharacterRange s e
                   (takeStr (Z.to_nat (e - s))
                      (dropStr (Z.to_nat s) (textContentOf (ElementNode i name attrs cs))))).
Proof.
  intros doc rootCtx i name attrs cs s e Hnd Hroot Hse Hs He.
  destruct (createRange_at_offsets doc rootCtx i name attrs cs s e Hnd Hroot Hse Hs He)
    as (l1 & sn & sd & l2 & l1' & en & ed & l2' & Hl & Hl' & Hrun & Hb & Hb' & _ & Hord).
  eexists. split; [exact Hrun |].
  rewrite (toCharacterRange_spec doc rootCtx i name attrs cs l1 sn sd l2 l1' en ed l2'
             _ _ Hnd Hroot Hl Hl'); [| lia | lia |].
  - replace (Z.of_nat (String.length (concatAll (map textContentOf l1)))
             + (s - Z.of_nat (String.length (concatAll (map textContentOf l1)))))
      with s by lia.
    replace (Z.of_nat (String.length (concatAll (map textContentOf l1')))
             + (e - Z.of_nat (String.length (concatAll (map textContentOf l1')))))
      with e by lia.
    reflexivity.
  - destruct Hord as [(Hsame & _) | Hmid]; [| right; exact Hmid].
    left. split; [exact Hsame |]. rewrite Hsame. lia.
Qed.

Lemma createRangeFromCharacterRange_then_toCharacterRange_witness :
  exists range,
    createRangeFromCharacterRange Samples.abcDoc 1 1 2 = Returns range /\
    toCharacterRange Samples.abcDoc range 1
    = Returns (mkCharacterRange 1 2
                 (takeStr (Z.to_nat (2 - 1))
                    (dropStr (Z.to_nat 1)
                       (textContentOf (ElementNode 1 "DIV" [] [TextNode 2 "abc"]))))).
Proof.
  apply (createRangeFromCharacterRange_then_toCharacterRange Samples.abcDoc
           [Samples.documentFrame] 1 "DIV" [] [TextNode 2 "abc"] 1 2).
  - distinct_ids.
  - exact (At_child 0 "#document" [] [] Samples.abcHost [] [] Samples.abcHost
             (At_here Samples.abcHost)).
  - lia.
  - simpl. lia.
  - simpl. lia.
Defined.

End CharacterRangeExtras.
